(** * ghost-lang: a shallow embedding of the tree-walking evaluator

    The development follows the Go sources of the interpreter:
    - [internal/object]: the runtime values ([Int], [Float], [Bool], [String],
      [List], [Function], [BuiltinFunction]), their operator methods, the
      [Environment] scope chain and the [Symbol] records;
    - [internal/frame]: the call-stack [Frame];
    - [internal/parser/ast]: the syntax tree;
    - [internal/evaluator]: [Eval] and the [evalXxx] functions.

    Go pointers to immutable structs ([*Environment]'s [Outer] link, [*Frame])
    are inductive values; the objects the evaluator mutates in place (the
    [Store] map of an environment, the [Elements] of a [List], the [Value] of a
    [String]) live in an explicit store addressed by locations, so that
    aliasing is kept.  The evaluator's sticky [Err] field and its [Frame] field
    are threaded through a state monad; a Go run-time panic is a separate
    outcome, and recursion is bounded by a fuel argument. *)

From Stdlib Require Import ZArith Lia Bool List String Ascii.
From Corelib Require Import PrimFloat.
From Corelib Require FloatOps FloatAxioms SpecFloat.
From Stdlib Require Import Numbers.Cyclic.Int63.Uint63.
From stdpp Require Import base option list gmap strings pretty.

Local Open Scope string_scope.
Local Open Scope list_scope.
Local Open Scope Z_scope.

Set Warnings "-register-all".

(** ** Machine numbers *)

(** [int64] arithmetic is Go's two's-complement arithmetic: results wrap. *)
Definition MinInt64 : Z := - 2 ^ 63.
Definition MaxInt64 : Z := 2 ^ 63 - 1.

Definition wrap64 (z : Z) : Z := (z + 2 ^ 63) mod 2 ^ 64 - 2 ^ 63.

Definition in_int64 (z : Z) : Prop := MinInt64 <= z <= MaxInt64.

(** The machine of a run.  Go's [int] has [IntSize] bits, 32 or 64 by the
    target of the build (build.ps1 builds both), and [Room] is the number of
    bytes the largest allocation can have: the [maxAlloc] of the run-time
    system for the target ([2^48] on linux/amd64), or less where the machine
    has less memory to give.  A request for more ends the process, by a
    panic of [make] or out of memory. *)
Record Machine := mkMachine {
  IntSize : Z;
  Room : Z
}.

(** [math.MaxInt], and the conversion [int(z)] of an [int64]. *)
Definition MaxInt (h : Machine) : Z := 2 ^ (IntSize h - 1) - 1.
Definition wrap_int (h : Machine) (z : Z) : Z :=
  (z + 2 ^ (IntSize h - 1)) mod 2 ^ IntSize h - 2 ^ (IntSize h - 1).

(** The size in bytes of an interface value, two machine words. *)
Definition interface_bytes (h : Machine) : Z := 2 * (IntSize h / 8).

Definition linux_amd64 : Machine := mkMachine 64 (2 ^ 48).
Definition linux_386 : Machine := mkMachine 32 (2 ^ 31).

(** [float64] is IEEE 754 binary64, the kernel's primitive floats. *)
Abbreviation float64 := PrimFloat.float.

(** Go's conversion [float64(i)] of an [int64]: round to nearest, ties to
    even.  The primitive conversion covers [0 .. 2^63 - 1]; a negative
    argument is converted through its absolute value (rounding to nearest is
    symmetric), and [2^63] itself is a power of two. *)
Definition float64_of_nonneg (z : Z) : float64 :=
  if z <? 2 ^ 63 then PrimFloat.of_uint63 (Uint63.of_Z z)
  else PrimFloat.mul (PrimFloat.of_uint63 (Uint63.of_Z (z / 2))) PrimFloat.two.

Definition float64_of_int64 (z : Z) : float64 :=
  if z <? 0 then PrimFloat.opp (float64_of_nonneg (- z)) else float64_of_nonneg z.

Definition fzero : float64 := PrimFloat.zero.

(** Go's comparison operators on [float64]. *)
Definition feq (x y : float64) : bool := PrimFloat.eqb x y.
Definition flt (x y : float64) : bool := PrimFloat.ltb x y.
Definition fle (x y : float64) : bool := PrimFloat.leb x y.

(** [math.Mod] of Go's standard library (the portable implementation in
    [math/mod.go]): the loop subtracts scaled copies of [y]; every round
    lowers the binary exponent of [r], so [mod_rounds] rounds always suffice. *)
Definition mod_rounds : nat := 2200.

Fixpoint math_Mod_loop (n : nat) (yfr : float64) (yexp : Z) (y r : float64) : float64 :=
  match n with
  | O => r
  | S n' =>
      if fle y r then
        let '(rfr, rexp) := FloatOps.Z.frexp r in
        let rexp' := if flt rfr yfr then rexp - 1 else rexp in
        math_Mod_loop n' yfr yexp y (PrimFloat.sub r (FloatOps.Z.ldexp y (rexp' - yexp)))
      else r
  end.

Definition math_Mod (x y : float64) : float64 :=
  if feq y fzero || PrimFloat.is_infinity x || PrimFloat.is_nan x || PrimFloat.is_nan y
  then PrimFloat.nan
  else
    let y := PrimFloat.abs y in
    let '(yfr, yexp) := FloatOps.Z.frexp y in
    let r := if flt x fzero then PrimFloat.opp x else x in
    let r := math_Mod_loop mod_rounds yfr yexp y r in
    if flt x fzero then PrimFloat.opp r else r.

(** ** Strings and UTF-8

    A Go [string] is a sequence of bytes; Rocq's [string] is the same thing.
    [len(s)] is [String.length], [s[:i]] and [s[i:]] are byte slices. *)

Definition byte_of (c : ascii) : Z := Z.of_N (N_of_ascii c).
Definition char_of (b : Z) : ascii := ascii_of_N (Z.to_N b).

Fixpoint bytes_of_string (s : string) : list Z :=
  match s with
  | EmptyString => []
  | String c s' => byte_of c :: bytes_of_string s'
  end.

Fixpoint string_of_bytes (bs : list Z) : string :=
  match bs with
  | [] => EmptyString
  | b :: bs' => String (char_of b) (string_of_bytes bs')
  end.

Definition len (s : string) : Z := Z.of_nat (String.length s).

(** [s[:i]] and [s[i:]] for [0 <= i <= len(s)]. *)
Definition slice_to (s : string) (i : Z) : string := String.substring 0 (Z.to_nat i) s.
Definition slice_from (s : string) (i : Z) : string :=
  String.substring (Z.to_nat i) (String.length s - Z.to_nat i) s.

(** A [rune] is a Unicode code point. *)
Abbreviation rune := Z.
Definition RuneError : rune := 65533.

Definition is_cont (lo hi b : Z) : bool := (lo <=? b) && (b <=? hi).

(** One step of Go's UTF-8 decoder ([utf8.DecodeRuneInString], which the
    conversion [[]rune(s)] applies repeatedly): the decoded rune and the
    number of bytes consumed.  An ill-formed or truncated sequence yields
    [RuneError] and consumes one byte. *)
Definition decode_rune (bs : list Z) : rune * nat :=
  match bs with
  | [] => (RuneError, 0%nat)
  | b0 :: rest =>
      if b0 <? 128 then (b0, 1%nat)
      else if (194 <=? b0) && (b0 <=? 223) then
        match rest with
        | b1 :: _ =>
            if is_cont 128 191 b1
            then (Z.lor (Z.shiftl (Z.land b0 31) 6) (Z.land b1 63), 2%nat)
            else (RuneError, 1%nat)
        | _ => (RuneError, 1%nat)
        end
      else if (224 <=? b0) && (b0 <=? 239) then
        let lo := if b0 =? 224 then 160 else 128 in
        let hi := if b0 =? 237 then 159 else 191 in
        match rest with
        | b1 :: b2 :: _ =>
            if is_cont lo hi b1 && is_cont 128 191 b2
            then (Z.lor (Z.lor (Z.shiftl (Z.land b0 15) 12)
                               (Z.shiftl (Z.land b1 63) 6)) (Z.land b2 63), 3%nat)
            else (RuneError, 1%nat)
        | _ => (RuneError, 1%nat)
        end
      else if (240 <=? b0) && (b0 <=? 244) then
        let lo := if b0 =? 240 then 144 else 128 in
        let hi := if b0 =? 244 then 143 else 191 in
        match rest with
        | b1 :: b2 :: b3 :: _ =>
            if is_cont lo hi b1 && is_cont 128 191 b2 && is_cont 128 191 b3
            then (Z.lor (Z.lor (Z.lor (Z.shiftl (Z.land b0 7) 18)
                                      (Z.shiftl (Z.land b1 63) 12))
                               (Z.shiftl (Z.land b2 63) 6)) (Z.land b3 63), 4%nat)
            else (RuneError, 1%nat)
        | _ => (RuneError, 1%nat)
        end
      else (RuneError, 1%nat)
  end.

(** [[]rune(s)]: at most one rune per byte, so the length bounds the loop. *)
Fixpoint runes_of_bytes (n : nat) (bs : list Z) : list rune :=
  match n, bs with
  | O, _ | _, [] => []
  | S n', _ :: _ =>
      let '(r, w) := decode_rune bs in
      r :: runes_of_bytes n' (drop w bs)
  end.

Definition runes (s : string) : list rune :=
  let bs := bytes_of_string s in runes_of_bytes (length bs) bs.

(** [string(r)] for a rune [r]: its UTF-8 encoding ([utf8.EncodeRune]);
    surrogates and values out of range are encoded as [RuneError]. *)
Definition encode_rune (r : rune) : list Z :=
  if (0 <=? r) && (r <? 128) then [r]
  else if (128 <=? r) && (r <? 2048) then
    [Z.lor 192 (Z.shiftr r 6); Z.lor 128 (Z.land r 63)]
  else if (r <? 0) || (1114111 <? r) || ((55296 <=? r) && (r <=? 57343)) then
    [239; 191; 189]
  else if r <? 65536 then
    [Z.lor 224 (Z.shiftr r 12); Z.lor 128 (Z.land (Z.shiftr r 6) 63);
     Z.lor 128 (Z.land r 63)]
  else
    [Z.lor 240 (Z.shiftr r 18); Z.lor 128 (Z.land (Z.shiftr r 12) 63);
     Z.lor 128 (Z.land (Z.shiftr r 6) 63); Z.lor 128 (Z.land r 63)].

Definition string_of_rune (r : rune) : string := string_of_bytes (encode_rune r).

(** [utf8.RuneCountInString]. *)
Definition RuneCountInString (s : string) : Z := Z.of_nat (length (runes s)).

(** [strings.Repeat(s, count)] for [count >= 0]. *)
Fixpoint repeat_string (n : nat) (s : string) : string :=
  match n with
  | O => EmptyString
  | S n' => s ++ repeat_string n' s
  end.


(** The double quote character of the error messages. *)
Definition dquote : string := String "034"%char EmptyString.
Definition quoted (s : string) : string := dquote ++ s ++ dquote.

(** [%d] of [fmt.Sprintf]. *)
Definition decimal (z : Z) : string := pretty z.

(** ** Package [util]: source positions *)

Module util.

(** [util.Pos]; the file name and the source text it also carries only serve
    the rendering of tracebacks. *)
Record Pos := mkPos { Row : Z; Col : Z; Index : Z }.

(** The [PosStart], [PosEnd] pair that every node, frame and error carries
    (both are pointers, [nil] for the root frame). *)
Record Span := mkSpan { PosStart : option Pos; PosEnd : option Pos }.

Definition nospan : Span := mkSpan None None.

End util.

(** ** Package [lexer]: the token kinds the evaluator inspects *)

Module lexer.

(** The token type constants.  [EMPTY] is the empty string, the zero value a
    Go map lookup returns for a missing key. *)
Inductive TokenType :=
| ILLEGAL | EOF | INT | FLOAT | STRING | IDENT
| VAR | CONST | FUNC | IF | ELSE | FOR | RETURN | TRUE | FALSE | NULL
| PLUS | MINUS | ASTERISK | SLASH | PERCENT | GT | LT | DOT | COMMA | EQUAL
| LBRACKET | RBRACKET | LPAREN | RPAREN | LBRACE | RBRACE | BANG
| BITWISE_AND | BITWISE_OR | BITWISE_XOR | BITWISE_NOT | LEFT_SHIFT | RIGHT_SHIFT
| EQUALS | NOT_EQUALS | LTE | GTE | LOGICAL_AND | LOGICAL_OR
| INCREMENT | DECREMENT | ARROW | SEMICOLON
| PLUS_EQUAL | MINUS_EQUAL | ASTERISK_EQUAL | SLASH_EQUAL | PERCENT_EQUAL
| BITWISE_AND_EQUAL | BITWISE_OR_EQUAL | BITWISE_XOR_EQUAL
| LEFT_SHIFT_EQUAL | RIGHT_SHIFT_EQUAL
| EMPTY.

(** The string each constant stands for (used in error messages). *)
Definition type_string (t : TokenType) : string :=
  match t with
  | ILLEGAL => "ILLEGAL" | EOF => "EOF" | INT => "INT" | FLOAT => "FLOAT"
  | STRING => "STRING" | IDENT => "IDENT" | VAR => "VAR" | CONST => "CONST"
  | FUNC => "FUNC" | IF => "IF" | ELSE => "ELSE" | FOR => "FOR"
  | RETURN => "RETURN" | TRUE => "TRUE" | FALSE => "FALSE" | NULL => "NULL"
  | PLUS => "PLUS" | MINUS => "MINUS" | ASTERISK => "ASTERISK" | SLASH => "SLASH"
  | PERCENT => "PERCENT" | GT => "GT" | LT => "LT" | DOT => "DOT"
  | COMMA => "COMMA" | EQUAL => "EQUAL" | LBRACKET => "LBRACKET"
  | RBRACKET => "RBRACKET" | LPAREN => "LPAREN" | RPAREN => "RPAREN"
  | LBRACE => "LBRACE" | RBRACE => "RBRACE" | BANG => "BANG"
  | BITWISE_AND => "BITWISE_AND" | BITWISE_OR => "BITWISE_OR"
  | BITWISE_XOR => "BITWISE_XOR" | BITWISE_NOT => "BITWISE_NOT"
  | LEFT_SHIFT => "LEFT_SHIFT" | RIGHT_SHIFT => "RIGHT_SHIFT"
  | EQUALS => "EQUALS" | NOT_EQUALS => "NOT_EQUALS" | LTE => "LTE" | GTE => "GTE"
  | LOGICAL_AND => "LOGICAL_AND" | LOGICAL_OR => "LOGICAL_OR"
  | INCREMENT => "INCREMENT" | DECREMENT => "DECREMENT" | ARROW => "ARROW"
  | SEMICOLON => "SEMICOLON" | PLUS_EQUAL => "PLUS_EQUAL"
  | MINUS_EQUAL => "MINUS_EQUAL" | ASTERISK_EQUAL => "ASTERISK_EQUAL"
  | SLASH_EQUAL => "SLASH_EQUAL" | PERCENT_EQUAL => "PERCENT_EQUAL"
  | BITWISE_AND_EQUAL => "BITWISE_AND_EQUAL" | BITWISE_OR_EQUAL => "BITWISE_OR_EQUAL"
  | BITWISE_XOR_EQUAL => "BITWISE_XOR_EQUAL" | LEFT_SHIFT_EQUAL => "LEFT_SHIFT_EQUAL"
  | RIGHT_SHIFT_EQUAL => "RIGHT_SHIFT_EQUAL" | EMPTY => ""
  end.

(** [lexer.Token]; the evaluator reads [Type] (here [Type_], [Type] being
    reserved) and [Literal] only. *)
Record Token := mkToken { Type_ : TokenType; Literal : string }.

(** [CompoundAssignmentOperators]: the base operator of a compound
    assignment operator. *)
Definition CompoundAssignmentOperators (t : TokenType) : TokenType :=
  match t with
  | PLUS_EQUAL => PLUS
  | MINUS_EQUAL => MINUS
  | ASTERISK_EQUAL => ASTERISK
  | SLASH_EQUAL => SLASH
  | PERCENT_EQUAL => PERCENT
  | BITWISE_AND_EQUAL => BITWISE_AND
  | BITWISE_OR_EQUAL => BITWISE_OR
  | BITWISE_XOR_EQUAL => BITWISE_XOR
  | LEFT_SHIFT_EQUAL => LEFT_SHIFT
  | RIGHT_SHIFT_EQUAL => RIGHT_SHIFT
  | _ => EMPTY
  end.

End lexer.

(** ** Package [frame]: the call stack *)

Module frame.

(** [frame.Frame]: frames are never mutated, so the [Parent] pointer is a
    sub-value. *)
Inductive Frame := mkFrame (FuncName : string) (Parent : option Frame) (Pos : util.Span).

Definition FuncName (f : Frame) : string := let 'mkFrame n _ _ := f in n.
Definition Parent (f : Frame) : option Frame := let 'mkFrame _ p _ := f in p.
Definition Pos (f : Frame) : util.Span := let 'mkFrame _ _ s := f in s.

End frame.

(** ** Package [ast]: the syntax tree *)

Module ast.

(** Fields that may hold [nil] in a parsed tree are options: the [else]
    branch of an [if], a call argument left out between two commas, and the
    default value of a parameter.  [Parameter_] is [ast.Parameter]
    ([Parameter] being reserved); its name is an identifier node of which
    only the name is read. *)
Inductive Expression :=
| PrefixExpression (Operator : lexer.Token) (Value : Expression) (Pos : util.Span)
| InfixExpression (Left : Expression) (Operator : lexer.Token) (Right : Expression)
    (Pos : util.Span)
| IntExpression (Value : Z) (Pos : util.Span)
| FloatExpression (Value : float64) (Pos : util.Span)
| BoolExpression (Value : bool) (Pos : util.Span)
| NullExpression (Pos : util.Span)
| StringExpression (Value : string) (Pos : util.Span)
| ListExpression (Value : list Expression) (Pos : util.Span)
| IdentifierExpression (Name : string) (Pos : util.Span)
| GroupedExpression (Expr : Expression) (Pos : util.Span)
| VarInitializationExpression (IsConst : bool) (Name : Expression) (Value : Expression)
    (Pos : util.Span)
| VarAssignmentExpression (Name : Expression) (Value : Expression) (Pos : util.Span)
| CompoundAssignmentExpression (Name : Expression) (Operator : lexer.Token)
    (Right : Expression) (Pos : util.Span)
| PrefixUnaryIncDecExpression (Operator : lexer.Token) (Right : Expression)
    (Pos : util.Span)
| PostfixUnaryIncDecExpression (Operator : lexer.Token) (Left : Expression)
    (Pos : util.Span)
| BlockExpression (Statements : list Statement) (Pos : util.Span)
| IfExpression (Condition : Expression) (Consequence : Statement)
    (Alternative : option Statement) (Pos : util.Span)
| CallExpression (Function : Expression) (Argument : list (option Expression))
    (Pos : util.Span)
| IndexExpression (Target : Expression) (Index : Expression) (Pos : util.Span)
with Statement :=
| ForStatement (Initialization : Statement) (Condition : Expression)
    (Update : Statement) (Body : Statement) (Pos : util.Span)
| FunctionDeclarationStatement (Name : Expression) (Params : list Parameter_)
    (Body : Statement) (Pos : util.Span)
| ReturnStatement (ReturnValue : Expression) (Pos : util.Span)
| ExpressionStatement (Expr : Expression) (Pos : util.Span)
with Parameter_ :=
| mkParameter (Name : string) (DefaultValue : option Expression) (Pos : util.Span).

Definition ParamName (p : Parameter_) : string := let 'mkParameter n _ _ := p in n.
Definition ParamDefault (p : Parameter_) : option Expression :=
  let 'mkParameter _ d _ := p in d.

(** [ast.Program]. *)
Record Program := mkProgram { Statements : list Statement; ProgramPos : util.Span }.

(** What [Eval] can be handed as an [ast.Node]: a program, a statement, an
    expression, or [NoNode], a value that is none of the node types of the
    dispatch (a [nil] interface, or a run-time [Object], which also has a
    [String] method and so passes for a [Node]). *)
Inductive Node :=
| ProgramNode (p : Program)
| StatementNode (s : Statement)
| ExpressionNode (e : Expression)
| NoNode.

(** [IsLvalue]: only identifiers and index expressions. *)
Definition IsLvalue (e : Expression) : bool :=
  match e with
  | IdentifierExpression _ _ | IndexExpression _ _ _ => true
  | _ => false
  end.

End ast.

(** ** Package [object]: run-time values, symbols, environments *)

Module object.

(** [Environment]: the [Store] map is mutated in place and shared by every
    closure over the scope, so it is an address into the memory; the [Outer]
    link is set once, when the scope is created. *)
Inductive Environment := mkEnvironment (Store : nat) (Outer : option Environment).

Definition Store (e : Environment) : nat := let 'mkEnvironment s _ := e in s.
Definition Outer (e : Environment) : option Environment :=
  let 'mkEnvironment _ o := e in o.

(** The native implementations registered in [Builtins]. *)
Inductive NativeFn := print_Fn | println_Fn | len_Fn.

(** [Object].  Every Go value of the interface is a pointer to a struct:
    - [Nil] is the [nil] interface value, which [Eval] returns on errors and
      for statements; calling a method on it panics;
    - [Int], [Float], [Bool], [Null] are never mutated nor compared by
      address, so they are plain values;
    - [String] and [List] are mutated in place by their [Set] methods: [ref]
      is the address of the struct;
    - [Function] and [BuiltinFunction] are compared by address ([ptr]);
    - [ReturnValue] is the wrapper a [return] statement produces. *)
Inductive Object :=
| Nil
| Int (Value : Z)
| Float (Value : float64)
| Bool (Value : bool)
| String (ref : nat)
| List (ref : nat)
| Null
| Function (ptr : nat) (Name : string) (Params : list ast.Parameter_)
    (Body : ast.Statement) (Env : Environment)
| BuiltinFunction (ptr : nat) (Name : string) (Params : list string)
    (DefaultValue : list Object) (Fn : NativeFn)
| ReturnValue (Value : Object).

(** [Symbol]. *)
Record Symbol := mkSymbol { Name : string; Value : Object; IsConst : bool }.

(** The error structs of the packages [object] ([OperationError],
    [MathError], [TypeError], [IndexError]) and [evaluator] ([VariableError],
    [TypeError], [SyntaxError], [ArgumentError]) all have the same four
    fields; the struct type is the [Kind]. *)
Inductive ErrorKind :=
| VariableError | TypeError | SyntaxError | ArgumentError
| OperationError | MathError | IndexError.

Record Error := mkError {
  Kind : ErrorKind;
  ErrFrame : option frame.Frame;
  Message : string;
  ErrPos : util.Span
}.

(** The part of the Go heap the interpreter mutates: the [Store] maps of the
    environments, the [Value] of each [String], the [Elements] of each
    [List]; [Next] is the next unused address, and [Stdout] records the values
    handed to [fmt.Print] ([false]) and [fmt.Println] ([true]), their
    rendering as text being left out.  [Host] is the machine the run is on;
    it bounds the allocations whose size the program computes from a count
    ([strings.Repeat], [List.Multiply]); every other allocation is taken to
    succeed. *)
Record Memory := mkMemory {
  Stores : gmap nat (gmap string Symbol);
  Strings : gmap nat string;
  Lists : gmap nat (list Object);
  Next : nat;
  Stdout : list (Object * bool);
  Host : Machine
}.

Definition empty_Memory : Memory := mkMemory ∅ ∅ ∅ 0%nat [] linux_amd64.

Definition store_at (m : Memory) (a : nat) : gmap string Symbol :=
  default ∅ (Stores m !! a).
Definition string_at (m : Memory) (a : nat) : string := default "" (Strings m !! a).
Definition list_at (m : Memory) (a : nat) : list Object := default [] (Lists m !! a).

Definition set_store (m : Memory) (a : nat) (s : gmap string Symbol) : Memory :=
  mkMemory (<[a := s]> (Stores m)) (Strings m) (Lists m) (Next m) (Stdout m) (Host m).
Definition set_string (m : Memory) (a : nat) (s : string) : Memory :=
  mkMemory (Stores m) (<[a := s]> (Strings m)) (Lists m) (Next m) (Stdout m) (Host m).
Definition set_list (m : Memory) (a : nat) (l : list Object) : Memory :=
  mkMemory (Stores m) (Strings m) (<[a := l]> (Lists m)) (Next m) (Stdout m) (Host m).
Definition bump (m : Memory) : Memory :=
  mkMemory (Stores m) (Strings m) (Lists m) (S (Next m)) (Stdout m) (Host m).
Definition write (m : Memory) (o : Object) (newline : bool) : Memory :=
  mkMemory (Stores m) (Strings m) (Lists m) (Next m) (Stdout m ++ [(o, newline)])
    (Host m).

(** [&String{Value: s}], [&List{Elements: l}] and
    [&Environment{Store: make(map[string]*Symbol), Outer: outer}]. *)
Definition new_String (s : string) (m : Memory) : Object * Memory :=
  (String (Next m), bump (set_string m (Next m) s)).
Definition new_List (l : list Object) (m : Memory) : Object * Memory :=
  (List (Next m), bump (set_list m (Next m) l)).
Definition new_Environment (outer : option Environment) (m : Memory)
  : Environment * Memory :=
  (mkEnvironment (Next m) outer, bump (set_store m (Next m) ∅)).

(** *** environment.go *)

(** [Get]: the symbol of [name] in the nearest scope that defines it. *)
Fixpoint Environment_Get (m : Memory) (e : Environment) (name : string)
  : option Symbol :=
  let 'mkEnvironment s outer := e in
  match store_at m s !! name with
  | Some val => Some val
  | None =>
      match outer with
      | Some o => Environment_Get m o name
      | None => None
      end
  end.

(** [Set]: binds [name] in the current scope. *)
Definition Environment_Set (m : Memory) (e : Environment) (name : string)
  (sym : Symbol) : Memory :=
  set_store m (Store e) (<[name := sym]> (store_at m (Store e))).

(** [Assign]: rebinds [name] in the nearest scope that defines it; nothing
    happens when no scope does. *)
Fixpoint Environment_Assign (m : Memory) (e : Environment) (name : string)
  (sym : Symbol) : Memory :=
  let 'mkEnvironment s outer := e in
  match store_at m s !! name with
  | Some _ => set_store m s (<[name := sym]> (store_at m s))
  | None =>
      match outer with
      | Some o => Environment_Assign m o name sym
      | None => m
      end
  end.

(** [Exists]: whether the current scope itself binds [name]. *)
Definition Environment_Exists (m : Memory) (e : Environment) (name : string) : bool :=
  match store_at m (Store e) !! name with
  | Some _ => true
  | None => false
  end.

(** *** Results of the operator methods

    A method returns [(Object, error)]: [Ok] is [(val, nil)] together with the
    memory (a new [String] or [List] may have been allocated), [Fail] is
    [(nil, err)].  [Crash] is a Go run-time panic; [Exhausted] reports that the
    recursion bound was reached. *)
Inductive MethodResult :=
| Ok (val : Object) (m : Memory)
| Fail (err : Error)
| Crash (msg : string)
| Exhausted.

Definition nil_dereference : string :=
  "invalid memory address or nil pointer dereference".

Definition invalid_operation (op : string) (sp : util.Span)
  (fr : option frame.Frame) : MethodResult :=
  Fail (mkError OperationError fr ("invalid operation " ++ quoted op ++ ".") sp).

Definition division_by_zero (sp : util.Span) (fr : option frame.Frame)
  : MethodResult :=
  Fail (mkError MathError fr "division by zero." sp).

Definition not_indexable (sp : util.Span) (fr : option frame.Frame) : MethodResult :=
  Fail (mkError TypeError fr "index expression not supported for this type." sp).

Definition index_out_of_range (sp : util.Span) (fr : option frame.Frame) : Error :=
  mkError IndexError fr "index out of range." sp.

(** [Type()]: [None] for the [nil] interface, on which the call panics.
    [Null_Type] and [ReturnValue_Type] are modelled (null.go and
    return_value.go are not among the sources). *)
Definition Int_Type : string := "Int".
Definition Float_Type : string := "Float".
Definition Bool_Type : string := "Bool".
Definition String_Type : string := "String".
Definition List_Type : string := "LIST".
Definition Function_Type : string := "Function".
Definition BuiltinFunction_Type : string := "BuiltinFunction".
(** Modelled from the spec: [Null.Type], the type name of the [Null]
    variant. *)
Definition Null_Type : string := "Null".
(** Modelled from the spec: [ReturnValue.Type], the type name of the
    Return-wrapper. *)
Definition ReturnValue_Type : string := "ReturnValue".

Definition Object_Type (o : Object) : option string :=
  match o with
  | Nil => None
  | Int _ => Some Int_Type
  | Float _ => Some Float_Type
  | Bool _ => Some Bool_Type
  | String _ => Some String_Type
  | List _ => Some List_Type
  | Null => Some Null_Type
  | Function _ _ _ _ _ => Some Function_Type
  | BuiltinFunction _ _ _ _ _ => Some BuiltinFunction_Type
  | ReturnValue _ => Some ReturnValue_Type
  end.

(** *** int.go *)

Definition Int_Negative (i : Z) (m : Memory) : MethodResult :=
  Ok (Int (wrap64 (- i))) m.

Definition Int_BitNot (i : Z) (m : Memory) : MethodResult :=
  Ok (Int (Z.lnot i)) m.

Definition Int_Not (i : Z) (sp : util.Span) (fr : option frame.Frame) : MethodResult :=
  invalid_operation "!" sp fr.

Definition Int_Add (i : Z) (other : Object) (sp : util.Span)
  (fr : option frame.Frame) (m : Memory) : MethodResult :=
  match other with
  | Int o => Ok (Int (wrap64 (i + o))) m
  | Float o => Ok (Float (PrimFloat.add (float64_of_int64 i) o)) m
  | _ => invalid_operation "+" sp fr
  end.

Definition Int_Subtract (i : Z) (other : Object) (sp : util.Span)
  (fr : option frame.Frame) (m : Memory) : MethodResult :=
  match other with
  | Int o => Ok (Int (wrap64 (i - o))) m
  | Float o => Ok (Float (PrimFloat.sub (float64_of_int64 i) o)) m
  | _ => invalid_operation "-" sp fr
  end.

(** [strings.Repeat(s, count)] for [0 <= count <= math.MaxInt], as its
    callers have it: one copy is the string itself; [Repeat] panics when the
    length of the result does not fit an [int], and the allocation of the
    result ends the run when it is of more bytes than the machine has room
    for: by the panic of [make] at the limit of the run-time system (the
    texts are those of Go 1.22), or out of memory below it. *)
Definition Repeat (s : string) (count : Z) (m : Memory) : MethodResult :=
  if count =? 1 then let '(o, m') := new_String s m in Ok o m'
  else if MaxInt (Host m) <? len s * count
  then Crash "strings: Repeat output length overflow"
  else if Room (Host m) <? len s * count
  then Crash "makeslice: len out of range"
  else let '(o, m') := new_String (repeat_string (Z.to_nat count) s) m in Ok o m'.

Definition Int_Multiply (i : Z) (other : Object) (sp : util.Span)
  (fr : option frame.Frame) (m : Memory) : MethodResult :=
  match other with
  | Int o => Ok (Int (wrap64 (i * o))) m
  | Float o => Ok (Float (PrimFloat.mul (float64_of_int64 i) o)) m
  | String o =>
      if i <? 0 then invalid_operation "*" sp fr
      else if MaxInt (Host m) <? i then invalid_operation "*" sp fr
      else Repeat (string_at m o) i m
  | _ => invalid_operation "*" sp fr
  end.

Definition Int_Divide (i : Z) (other : Object) (sp : util.Span)
  (fr : option frame.Frame) (m : Memory) : MethodResult :=
  match other with
  | Int o =>
      if o =? 0 then division_by_zero sp fr
      else Ok (Float (PrimFloat.div (float64_of_int64 i) (float64_of_int64 o))) m
  | Float o =>
      if feq o fzero then division_by_zero sp fr
      else Ok (Float (PrimFloat.div (float64_of_int64 i) o)) m
  | _ => invalid_operation "/" sp fr
  end.

(** Go's [%] on integers truncates toward zero: the remainder has the sign
    of the dividend. *)
Definition Int_Mod (i : Z) (other : Object) (sp : util.Span)
  (fr : option frame.Frame) (m : Memory) : MethodResult :=
  match other with
  | Int o =>
      if o =? 0 then division_by_zero sp fr
      else Ok (Int (Z.rem i o)) m
  | Float o =>
      if feq o fzero then division_by_zero sp fr
      else Ok (Float (math_Mod (float64_of_int64 i) o)) m
  | _ => invalid_operation "%" sp fr
  end.

Definition Int_Equal (i : Z) (other : Object) (m : Memory) : MethodResult :=
  match other with
  | Int o => Ok (Bool (i =? o)) m
  | Float o => Ok (Bool (feq (float64_of_int64 i) o)) m
  | _ => Ok (Bool false) m
  end.

Definition Int_NotEqual (i : Z) (other : Object) (m : Memory) : MethodResult :=
  match other with
  | Int o => Ok (Bool (negb (i =? o))) m
  | Float o => Ok (Bool (negb (feq (float64_of_int64 i) o))) m
  | _ => Ok (Bool true) m
  end.

Definition Int_LessThan (i : Z) (other : Object) (sp : util.Span)
  (fr : option frame.Frame) (m : Memory) : MethodResult :=
  match other with
  | Int o => Ok (Bool (i <? o)) m
  | Float o => Ok (Bool (flt (float64_of_int64 i) o)) m
  | _ => invalid_operation "<" sp fr
  end.

Definition Int_GreaterThan (i : Z) (other : Object) (sp : util.Span)
  (fr : option frame.Frame) (m : Memory) : MethodResult :=
  match other with
  | Int o => Ok (Bool (o <? i)) m
  | Float o => Ok (Bool (flt o (float64_of_int64 i))) m
  | _ => invalid_operation ">" sp fr
  end.

Definition Int_LessThanOrEqual (i : Z) (other : Object) (sp : util.Span)
  (fr : option frame.Frame) (m : Memory) : MethodResult :=
  match other with
  | Int o => Ok (Bool (i <=? o)) m
  | Float o => Ok (Bool (fle (float64_of_int64 i) o)) m
  | _ => invalid_operation "<=" sp fr
  end.

Definition Int_GreaterThanOrEqual (i : Z) (other : Object) (sp : util.Span)
  (fr : option frame.Frame) (m : Memory) : MethodResult :=
  match other with
  | Int o => Ok (Bool (o <=? i)) m
  | Float o => Ok (Bool (fle o (float64_of_int64 i))) m
  | _ => invalid_operation ">=" sp fr
  end.

Definition Int_BitAnd (i : Z) (other : Object) (sp : util.Span)
  (fr : option frame.Frame) (m : Memory) : MethodResult :=
  match other with
  | Int o => Ok (Int (Z.land i o)) m
  | _ => invalid_operation "&" sp fr
  end.

Definition Int_BitOr (i : Z) (other : Object) (sp : util.Span)
  (fr : option frame.Frame) (m : Memory) : MethodResult :=
  match other with
  | Int o => Ok (Int (Z.lor i o)) m
  | _ => invalid_operation "|" sp fr
  end.

Definition Int_Xor (i : Z) (other : Object) (sp : util.Span)
  (fr : option frame.Frame) (m : Memory) : MethodResult :=
  match other with
  | Int o => Ok (Int (Z.lxor i o)) m
  | _ => invalid_operation "^" sp fr
  end.

(** A shift by 64 or more clears every bit. *)
Definition Int_LeftShift (i : Z) (other : Object) (sp : util.Span)
  (fr : option frame.Frame) (m : Memory) : MethodResult :=
  match other with
  | Int o =>
      if o <? 0 then invalid_operation "<<" sp fr
      else Ok (Int (if 64 <=? o then 0 else wrap64 (Z.shiftl i o))) m
  | _ => invalid_operation "<<" sp fr
  end.

(** The right shift of a signed integer is arithmetic. *)
Definition Int_RightShift (i : Z) (other : Object) (sp : util.Span)
  (fr : option frame.Frame) (m : Memory) : MethodResult :=
  match other with
  | Int o =>
      if o <? 0 then invalid_operation ">>" sp fr
      else Ok (Int (if 64 <=? o then (if i <? 0 then -1 else 0) else Z.shiftr i o)) m
  | _ => invalid_operation ">>" sp fr
  end.

(** *** float.go *)

Definition Float_Negative (f : float64) (m : Memory) : MethodResult :=
  Ok (Float (PrimFloat.opp f)) m.

Definition Float_Add (f : float64) (other : Object) (sp : util.Span)
  (fr : option frame.Frame) (m : Memory) : MethodResult :=
  match other with
  | Int o => Ok (Float (PrimFloat.add f (float64_of_int64 o))) m
  | Float o => Ok (Float (PrimFloat.add f o)) m
  | _ => invalid_operation "+" sp fr
  end.

Definition Float_Subtract (f : float64) (other : Object) (sp : util.Span)
  (fr : option frame.Frame) (m : Memory) : MethodResult :=
  match other with
  | Int o => Ok (Float (PrimFloat.sub f (float64_of_int64 o))) m
  | Float o => Ok (Float (PrimFloat.sub f o)) m
  | _ => invalid_operation "-" sp fr
  end.

Definition Float_Multiply (f : float64) (other : Object) (sp : util.Span)
  (fr : option frame.Frame) (m : Memory) : MethodResult :=
  match other with
  | Int o => Ok (Float (PrimFloat.mul f (float64_of_int64 o))) m
  | Float o => Ok (Float (PrimFloat.mul f o)) m
  | _ => invalid_operation "*" sp fr
  end.

Definition Float_Divide (f : float64) (other : Object) (sp : util.Span)
  (fr : option frame.Frame) (m : Memory) : MethodResult :=
  match other with
  | Int o =>
      if o =? 0 then division_by_zero sp fr
      else Ok (Float (PrimFloat.div f (float64_of_int64 o))) m
  | Float o =>
      if feq o fzero then division_by_zero sp fr
      else Ok (Float (PrimFloat.div f o)) m
  | _ => invalid_operation "/" sp fr
  end.

Definition Float_Mod (f : float64) (other : Object) (sp : util.Span)
  (fr : option frame.Frame) (m : Memory) : MethodResult :=
  match other with
  | Int o =>
      if o =? 0 then division_by_zero sp fr
      else Ok (Float (math_Mod f (float64_of_int64 o))) m
  | Float o =>
      if feq o fzero then division_by_zero sp fr
      else Ok (Float (math_Mod f o)) m
  | _ => invalid_operation "%" sp fr
  end.

Definition Float_Equal (f : float64) (other : Object) (m : Memory) : MethodResult :=
  match other with
  | Int o => Ok (Bool (feq f (float64_of_int64 o))) m
  | Float o => Ok (Bool (feq f o)) m
  | _ => Ok (Bool false) m
  end.

Definition Float_NotEqual (f : float64) (other : Object) (m : Memory) : MethodResult :=
  match other with
  | Int o => Ok (Bool (negb (feq f (float64_of_int64 o)))) m
  | Float o => Ok (Bool (negb (feq f o))) m
  | _ => Ok (Bool true) m
  end.

Definition Float_LessThan (f : float64) (other : Object) (sp : util.Span)
  (fr : option frame.Frame) (m : Memory) : MethodResult :=
  match other with
  | Int o => Ok (Bool (flt f (float64_of_int64 o))) m
  | Float o => Ok (Bool (flt f o)) m
  | _ => invalid_operation "<" sp fr
  end.

Definition Float_GreaterThan (f : float64) (other : Object) (sp : util.Span)
  (fr : option frame.Frame) (m : Memory) : MethodResult :=
  match other with
  | Int o => Ok (Bool (flt (float64_of_int64 o) f)) m
  | Float o => Ok (Bool (flt o f)) m
  | _ => invalid_operation ">" sp fr
  end.

Definition Float_LessThanOrEqual (f : float64) (other : Object) (sp : util.Span)
  (fr : option frame.Frame) (m : Memory) : MethodResult :=
  match other with
  | Int o => Ok (Bool (fle f (float64_of_int64 o))) m
  | Float o => Ok (Bool (fle f o)) m
  | _ => invalid_operation "<=" sp fr
  end.

Definition Float_GreaterThanOrEqual (f : float64) (other : Object) (sp : util.Span)
  (fr : option frame.Frame) (m : Memory) : MethodResult :=
  match other with
  | Int o => Ok (Bool (fle (float64_of_int64 o) f)) m
  | Float o => Ok (Bool (fle o f)) m
  | _ => invalid_operation ">=" sp fr
  end.

(** *** bool.go *)

Definition Bool_Not (b : bool) (m : Memory) : MethodResult := Ok (Bool (negb b)) m.

Definition Bool_Equal (b : bool) (other : Object) (m : Memory) : MethodResult :=
  match other with
  | Bool o => Ok (Bool (Bool.eqb b o)) m
  | _ => Ok (Bool false) m
  end.

Definition Bool_NotEqual (b : bool) (other : Object) (m : Memory) : MethodResult :=
  match other with
  | Bool o => Ok (Bool (negb (Bool.eqb b o))) m
  | _ => Ok (Bool true) m
  end.

Definition Bool_And (b : bool) (other : Object) (sp : util.Span)
  (fr : option frame.Frame) (m : Memory) : MethodResult :=
  match other with
  | Bool o => Ok (Bool (b && o)) m
  | _ => invalid_operation "&&" sp fr
  end.

Definition Bool_Or (b : bool) (other : Object) (sp : util.Span)
  (fr : option frame.Frame) (m : Memory) : MethodResult :=
  match other with
  | Bool o => Ok (Bool (b || o)) m
  | _ => invalid_operation "||" sp fr
  end.

(** *** string.go

    [Index] reads the string rune by rune; [Set] works on the bytes. *)

Definition interface_conversion : string := "interface conversion".

Definition String_Add (s : nat) (other : Object) (sp : util.Span)
  (fr : option frame.Frame) (m : Memory) : MethodResult :=
  match other with
  | String o => let '(r, m') := new_String (string_at m s ++ string_at m o) m in Ok r m'
  | _ => invalid_operation "+" sp fr
  end.

Definition String_Multiply (s : nat) (other : Object) (sp : util.Span)
  (fr : option frame.Frame) (m : Memory) : MethodResult :=
  match other with
  | Int o =>
      if o <? 0 then invalid_operation "*" sp fr
      else if MaxInt (Host m) <? o then invalid_operation "*" sp fr
      else Repeat (string_at m s) o m
  | _ => invalid_operation "*" sp fr
  end.

Definition String_Equal (s : nat) (other : Object) (m : Memory) : MethodResult :=
  match other with
  | String o => Ok (Bool (String.eqb (string_at m s) (string_at m o))) m
  | _ => Ok (Bool false) m
  end.

Definition String_NotEqual (s : nat) (other : Object) (m : Memory) : MethodResult :=
  match other with
  | String o => Ok (Bool (negb (String.eqb (string_at m s) (string_at m o)))) m
  | _ => Ok (Bool true) m
  end.

(** [Index]: [other] is asserted to be an [Int] (the evaluator checks it
    before the call). *)
Definition String_Index (s : nat) (other : Object) (sp : util.Span)
  (fr : option frame.Frame) (m : Memory) : MethodResult :=
  match other with
  | Int idx =>
      let rs := runes (string_at m s) in
      let length := Z.of_nat (length rs) in
      let real := if idx <? 0 then length + idx else idx in
      if (real <? 0) || (length <=? real) then Fail (index_out_of_range sp fr)
      else
        let '(r, m') := new_String (string_of_rune (nth (Z.to_nat real) rs RuneError)) m in
        Ok r m'
  | _ => Crash interface_conversion
  end.

(** The [Set] methods return an [error] only. *)
Inductive SetResult :=
| SetOk (m : Memory)
| SetFail (err : Error)
| SetCrash (msg : string).

Definition String_Set (s : nat) (index value : Object) (sp : util.Span)
  (fr : option frame.Frame) (m : Memory) : SetResult :=
  match index with
  | Int idx =>
      let v := string_at m s in
      let length := len v in
      let real := if idx <? 0 then length + idx else idx in
      if (real <? 0) || (length <=? real) then SetFail (index_out_of_range sp fr)
      else
        match value with
        | String str =>
            SetOk (set_string m s
                     (slice_to v real ++ string_at m str ++ slice_from v (real + 1)))
        | _ => SetFail (mkError TypeError fr "invalid assignment." sp)
        end
  | _ => SetCrash interface_conversion
  end.

(** *** list.go *)

(** [a.Type() != b.Type()]; [None] when one of the receivers is [nil]. *)
Definition Type_differs (a b : Object) : option bool :=
  match Object_Type a, Object_Type b with
  | Some ta, Some tb => Some (negb (String.eqb ta tb))
  | _, _ => None
  end.

Definition List_Add (l : nat) (other : Object) (sp : util.Span)
  (fr : option frame.Frame) (m : Memory) : MethodResult :=
  match other with
  | List otherList =>
      let xs := list_at m l in
      let ys := list_at m otherList in
      match xs, ys with
      | x :: _, y :: _ =>
          match Type_differs x y with
          | None => Crash nil_dereference
          | Some true =>
              Fail (mkError OperationError fr
                      "cannot concatenate lists with different element types." sp)
          | Some false => let '(r, m') := new_List (xs ++ ys) m in Ok r m'
          end
      | _, _ => let '(r, m') := new_List (xs ++ ys) m in Ok r m'
      end
  | _ => invalid_operation "+" sp fr
  end.

Fixpoint repeat_list (n : nat) (l : list Object) : list Object :=
  match n with
  | O => []
  | S n' => l ++ repeat_list n' l
  end.

(** [Multiply]: the capacity [len(l.Elements)*int(times)] is computed in
    [int] and wraps; [make([]Object, 0, capacity)] panics when the capacity is
    negative or of more bytes than the machine has room for; the loop of
    [append] runs [times] times whatever the capacity is, and ends the run
    once the elements it has put together are of more bytes than that, by the
    panic of the growing slice or out of memory. *)
Definition List_Multiply (l : nat) (other : Object) (sp : util.Span)
  (fr : option frame.Frame) (m : Memory) : MethodResult :=
  match other with
  | Int times =>
      if times <=? 0 then invalid_operation "*" sp fr
      else
        let xs := list_at m l in
        match xs with
        | [] => let '(r, m') := new_List [] m in Ok r m'
        | _ :: _ =>
            let capacity :=
              wrap_int (Host m) (Z.of_nat (length xs) * wrap_int (Host m) times) in
            if (capacity <? 0) || (Room (Host m) <? capacity * interface_bytes (Host m))
            then Crash "makeslice: cap out of range"
            else if Room (Host m) <? Z.of_nat (length xs) * times * interface_bytes (Host m)
            then Crash "growslice: len out of range"
            else let '(r, m') := new_List (repeat_list (Z.to_nat times) xs) m in Ok r m'
        end
  | _ => invalid_operation "*" sp fr
  end.

(** The loop of [List.Equal] over two lists of the same length; [eq] is the
    [Equal] method of the elements. *)
Fixpoint List_Equal_loop
  (eq : Object -> Object -> util.Span -> option frame.Frame -> Memory -> MethodResult)
  (xs ys : list Object) (sp : util.Span) (fr : option frame.Frame) (m : Memory)
  : MethodResult :=
  match xs, ys with
  | x :: xs', y :: ys' =>
      match eq x y sp fr m with
      | Ok (Bool true) m' => List_Equal_loop eq xs' ys' sp fr m'
      | Ok (Bool false) m' => Ok (Bool false) m'
      | Ok _ _ => Crash interface_conversion
      | r => r
      end
  | _, _ => Ok (Bool true) m
  end.

Definition List_Equal
  (eq : Object -> Object -> util.Span -> option frame.Frame -> Memory -> MethodResult)
  (l : nat) (other : Object) (sp : util.Span) (fr : option frame.Frame) (m : Memory)
  : MethodResult :=
  match other with
  | List otherList =>
      let xs := list_at m l in
      let ys := list_at m otherList in
      if negb (length xs =? length ys)%nat then Ok (Bool false) m
      else List_Equal_loop eq xs ys sp fr m
  | _ => Ok (Bool false) m
  end.

Definition List_NotEqual
  (eq : Object -> Object -> util.Span -> option frame.Frame -> Memory -> MethodResult)
  (l : nat) (other : Object) (sp : util.Span) (fr : option frame.Frame) (m : Memory)
  : MethodResult :=
  match List_Equal eq l other sp fr m with
  | Ok (Bool b) m' => Ok (Bool (negb b)) m'
  | Ok _ _ => Crash interface_conversion
  | r => r
  end.

Definition List_Index (l : nat) (other : Object) (sp : util.Span)
  (fr : option frame.Frame) (m : Memory) : MethodResult :=
  match other with
  | Int idx =>
      let xs := list_at m l in
      let length := Z.of_nat (length xs) in
      let real := if idx <? 0 then length + idx else idx in
      if (real <? 0) || (length <=? real) then Fail (index_out_of_range sp fr)
      else Ok (nth (Z.to_nat real) xs Nil) m
  | _ => Crash interface_conversion
  end.

Definition List_Set (l : nat) (index value : Object) (sp : util.Span)
  (fr : option frame.Frame) (m : Memory) : SetResult :=
  match index with
  | Int idx =>
      let xs := list_at m l in
      let length := Z.of_nat (length xs) in
      let real := if idx <? 0 then length + idx else idx in
      if (real <? 0) || (length <=? real) then SetFail (index_out_of_range sp fr)
      else
        match Type_differs value (nth 0 xs Nil) with
        | None => SetCrash nil_dereference
        | Some true =>
            SetFail (mkError TypeError fr "list elements must have consistent types." sp)
        | Some false => SetOk (set_list m l (<[Z.to_nat real := value]> xs))
        end
  | _ => SetCrash interface_conversion
  end.

(** *** function.go, builtin_function.go *)

Definition Function_Equal (ptr : nat) (other : Object) (m : Memory) : MethodResult :=
  match other with
  | Function p _ _ _ _ => Ok (Bool (ptr =? p)%nat) m
  | _ => Ok (Bool false) m
  end.

Definition Function_NotEqual (ptr : nat) (other : Object) (m : Memory) : MethodResult :=
  match other with
  | Function p _ _ _ _ => Ok (Bool (negb (ptr =? p)%nat)) m
  | _ => Ok (Bool true) m
  end.

Definition BuiltinFunction_Equal (ptr : nat) (other : Object) (m : Memory)
  : MethodResult :=
  match other with
  | BuiltinFunction p _ _ _ _ => Ok (Bool (ptr =? p)%nat) m
  | _ => Ok (Bool false) m
  end.

Definition BuiltinFunction_NotEqual (ptr : nat) (other : Object) (m : Memory)
  : MethodResult :=
  match other with
  | BuiltinFunction p _ _ _ _ => Ok (Bool (negb (ptr =? p)%nat)) m
  | _ => Ok (Bool true) m
  end.

(** *** The variants without sources *)

(** Modelled from the spec: [Null.Equal] (null.go is not among the sources);
    the operators a variant does not support answer the uniform
    OperationError, and [null] equals only [null]. *)
Definition Null_Equal (other : Object) (m : Memory) : MethodResult :=
  match other with
  | Null => Ok (Bool true) m
  | _ => Ok (Bool false) m
  end.

(** Modelled from the spec: [Null.NotEqual]. *)
Definition Null_NotEqual (other : Object) (m : Memory) : MethodResult :=
  match other with
  | Null => Ok (Bool false) m
  | _ => Ok (Bool true) m
  end.

(** Modelled from the spec: the operators of [Null] and of the Return-wrapper
    [ReturnValue] other than equality (the sources of both are missing): the
    uniform OperationError of an unsupported operator. *)
Definition unsupported (op : string) (sp : util.Span) (fr : option frame.Frame)
  : MethodResult :=
  invalid_operation op sp fr.

(** Modelled from the spec: [ReturnValue.Equal] and [ReturnValue.NotEqual];
    the wrapper equals no value. *)
Definition ReturnValue_Equal (other : Object) (m : Memory) : MethodResult :=
  Ok (Bool false) m.
Definition ReturnValue_NotEqual (other : Object) (m : Memory) : MethodResult :=
  Ok (Bool true) m.

(** *** Dynamic dispatch

    [x.Method(...)] on an interface value [x] runs the method of the variant
    of [x], and panics when [x] is [nil].  The methods of a variant that only
    answer the OperationError of their operator are inlined. *)

Definition Negative (self : Object) (sp : util.Span) (fr : option frame.Frame)
  (m : Memory) : MethodResult :=
  match self with
  | Nil => Crash nil_dereference
  | Int i => Int_Negative i m
  | Float f => Float_Negative f m
  | Bool _ | String _ | List _ | Function _ _ _ _ _ | BuiltinFunction _ _ _ _ _ =>
      invalid_operation "-" sp fr
  | Null | ReturnValue _ => unsupported "-" sp fr
  end.

Definition BitNot (self : Object) (sp : util.Span) (fr : option frame.Frame)
  (m : Memory) : MethodResult :=
  match self with
  | Nil => Crash nil_dereference
  | Int i => Int_BitNot i m
  | Float _ | Bool _ | String _ | List _ | Function _ _ _ _ _
  | BuiltinFunction _ _ _ _ _ => invalid_operation "~" sp fr
  | Null | ReturnValue _ => unsupported "~" sp fr
  end.

Definition Not (self : Object) (sp : util.Span) (fr : option frame.Frame)
  (m : Memory) : MethodResult :=
  match self with
  | Nil => Crash nil_dereference
  | Bool b => Bool_Not b m
  | Int i => Int_Not i sp fr
  | Float _ | String _ | List _ | Function _ _ _ _ _ | BuiltinFunction _ _ _ _ _ =>
      invalid_operation "!" sp fr
  | Null | ReturnValue _ => unsupported "!" sp fr
  end.

Definition Add (self other : Object) (sp : util.Span) (fr : option frame.Frame)
  (m : Memory) : MethodResult :=
  match self with
  | Nil => Crash nil_dereference
  | Int i => Int_Add i other sp fr m
  | Float f => Float_Add f other sp fr m
  | String s => String_Add s other sp fr m
  | List l => List_Add l other sp fr m
  | Bool _ | Function _ _ _ _ _ | BuiltinFunction _ _ _ _ _ =>
      invalid_operation "+" sp fr
  | Null | ReturnValue _ => unsupported "+" sp fr
  end.

Definition Subtract (self other : Object) (sp : util.Span) (fr : option frame.Frame)
  (m : Memory) : MethodResult :=
  match self with
  | Nil => Crash nil_dereference
  | Int i => Int_Subtract i other sp fr m
  | Float f => Float_Subtract f other sp fr m
  | Bool _ | String _ | List _ | Function _ _ _ _ _ | BuiltinFunction _ _ _ _ _ =>
      invalid_operation "-" sp fr
  | Null | ReturnValue _ => unsupported "-" sp fr
  end.

Definition Multiply (self other : Object) (sp : util.Span) (fr : option frame.Frame)
  (m : Memory) : MethodResult :=
  match self with
  | Nil => Crash nil_dereference
  | Int i => Int_Multiply i other sp fr m
  | Float f => Float_Multiply f other sp fr m
  | String s => String_Multiply s other sp fr m
  | List l => List_Multiply l other sp fr m
  | Bool _ | Function _ _ _ _ _ | BuiltinFunction _ _ _ _ _ =>
      invalid_operation "*" sp fr
  | Null | ReturnValue _ => unsupported "*" sp fr
  end.

Definition Divide (self other : Object) (sp : util.Span) (fr : option frame.Frame)
  (m : Memory) : MethodResult :=
  match self with
  | Nil => Crash nil_dereference
  | Int i => Int_Divide i other sp fr m
  | Float f => Float_Divide f other sp fr m
  | Bool _ | String _ | List _ | Function _ _ _ _ _ | BuiltinFunction _ _ _ _ _ =>
      invalid_operation "/" sp fr
  | Null | ReturnValue _ => unsupported "/" sp fr
  end.

Definition Mod (self other : Object) (sp : util.Span) (fr : option frame.Frame)
  (m : Memory) : MethodResult :=
  match self with
  | Nil => Crash nil_dereference
  | Int i => Int_Mod i other sp fr m
  | Float f => Float_Mod f other sp fr m
  | Bool _ | String _ | List _ | Function _ _ _ _ _ | BuiltinFunction _ _ _ _ _ =>
      invalid_operation "%" sp fr
  | Null | ReturnValue _ => unsupported "%" sp fr
  end.

(** [Equal] recurses through the elements of lists, which may be cyclic. *)
Fixpoint Equal (fuel : nat) (self other : Object) (sp : util.Span)
  (fr : option frame.Frame) (m : Memory) : MethodResult :=
  match fuel with
  | O => Exhausted
  | S fuel' =>
      match self with
      | Nil => Crash nil_dereference
      | Int i => Int_Equal i other m
      | Float f => Float_Equal f other m
      | Bool b => Bool_Equal b other m
      | String s => String_Equal s other m
      | List l => List_Equal (Equal fuel') l other sp fr m
      | Function p _ _ _ _ => Function_Equal p other m
      | BuiltinFunction p _ _ _ _ => BuiltinFunction_Equal p other m
      | Null => Null_Equal other m
      | ReturnValue _ => ReturnValue_Equal other m
      end
  end.

Definition NotEqual (fuel : nat) (self other : Object) (sp : util.Span)
  (fr : option frame.Frame) (m : Memory) : MethodResult :=
  match self with
  | Nil => Crash nil_dereference
  | Int i => Int_NotEqual i other m
  | Float f => Float_NotEqual f other m
  | Bool b => Bool_NotEqual b other m
  | String s => String_NotEqual s other m
  | List l => List_NotEqual (Equal fuel) l other sp fr m
  | Function p _ _ _ _ => Function_NotEqual p other m
  | BuiltinFunction p _ _ _ _ => BuiltinFunction_NotEqual p other m
  | Null => Null_NotEqual other m
  | ReturnValue _ => ReturnValue_NotEqual other m
  end.

Definition LessThan (self other : Object) (sp : util.Span) (fr : option frame.Frame)
  (m : Memory) : MethodResult :=
  match self with
  | Nil => Crash nil_dereference
  | Int i => Int_LessThan i other sp fr m
  | Float f => Float_LessThan f other sp fr m
  | Bool _ | String _ | List _ | Function _ _ _ _ _ | BuiltinFunction _ _ _ _ _ =>
      invalid_operation "<" sp fr
  | Null | ReturnValue _ => unsupported "<" sp fr
  end.

Definition GreaterThan (self other : Object) (sp : util.Span)
  (fr : option frame.Frame) (m : Memory) : MethodResult :=
  match self with
  | Nil => Crash nil_dereference
  | Int i => Int_GreaterThan i other sp fr m
  | Float f => Float_GreaterThan f other sp fr m
  | Bool _ | String _ | List _ | Function _ _ _ _ _ | BuiltinFunction _ _ _ _ _ =>
      invalid_operation ">" sp fr
  | Null | ReturnValue _ => unsupported ">" sp fr
  end.

Definition LessThanOrEqual (self other : Object) (sp : util.Span)
  (fr : option frame.Frame) (m : Memory) : MethodResult :=
  match self with
  | Nil => Crash nil_dereference
  | Int i => Int_LessThanOrEqual i other sp fr m
  | Float f => Float_LessThanOrEqual f other sp fr m
  | Bool _ | String _ | List _ | Function _ _ _ _ _ | BuiltinFunction _ _ _ _ _ =>
      invalid_operation "<=" sp fr
  | Null | ReturnValue _ => unsupported "<=" sp fr
  end.

Definition GreaterThanOrEqual (self other : Object) (sp : util.Span)
  (fr : option frame.Frame) (m : Memory) : MethodResult :=
  match self with
  | Nil => Crash nil_dereference
  | Int i => Int_GreaterThanOrEqual i other sp fr m
  | Float f => Float_GreaterThanOrEqual f other sp fr m
  | Bool _ | String _ | List _ | Function _ _ _ _ _ | BuiltinFunction _ _ _ _ _ =>
      invalid_operation ">=" sp fr
  | Null | ReturnValue _ => unsupported ">=" sp fr
  end.

Definition BitAnd (self other : Object) (sp : util.Span) (fr : option frame.Frame)
  (m : Memory) : MethodResult :=
  match self with
  | Nil => Crash nil_dereference
  | Int i => Int_BitAnd i other sp fr m
  | Float _ | Bool _ | String _ | List _ | Function _ _ _ _ _
  | BuiltinFunction _ _ _ _ _ => invalid_operation "&" sp fr
  | Null | ReturnValue _ => unsupported "&" sp fr
  end.

Definition BitOr (self other : Object) (sp : util.Span) (fr : option frame.Frame)
  (m : Memory) : MethodResult :=
  match self with
  | Nil => Crash nil_dereference
  | Int i => Int_BitOr i other sp fr m
  | Float _ | Bool _ | String _ | List _ | Function _ _ _ _ _
  | BuiltinFunction _ _ _ _ _ => invalid_operation "|" sp fr
  | Null | ReturnValue _ => unsupported "|" sp fr
  end.

Definition Xor (self other : Object) (sp : util.Span) (fr : option frame.Frame)
  (m : Memory) : MethodResult :=
  match self with
  | Nil => Crash nil_dereference
  | Int i => Int_Xor i other sp fr m
  | Float _ | Bool _ | String _ | List _ | Function _ _ _ _ _
  | BuiltinFunction _ _ _ _ _ => invalid_operation "^" sp fr
  | Null | ReturnValue _ => unsupported "^" sp fr
  end.

Definition LeftShift (self other : Object) (sp : util.Span) (fr : option frame.Frame)
  (m : Memory) : MethodResult :=
  match self with
  | Nil => Crash nil_dereference
  | Int i => Int_LeftShift i other sp fr m
  | Float _ | Bool _ | String _ | List _ | Function _ _ _ _ _
  | BuiltinFunction _ _ _ _ _ => invalid_operation "<<" sp fr
  | Null | ReturnValue _ => unsupported "<<" sp fr
  end.

Definition RightShift (self other : Object) (sp : util.Span) (fr : option frame.Frame)
  (m : Memory) : MethodResult :=
  match self with
  | Nil => Crash nil_dereference
  | Int i => Int_RightShift i other sp fr m
  | Float _ | Bool _ | String _ | List _ | Function _ _ _ _ _
  | BuiltinFunction _ _ _ _ _ => invalid_operation ">>" sp fr
  | Null | ReturnValue _ => unsupported ">>" sp fr
  end.

Definition And (self other : Object) (sp : util.Span) (fr : option frame.Frame)
  (m : Memory) : MethodResult :=
  match self with
  | Nil => Crash nil_dereference
  | Bool b => Bool_And b other sp fr m
  | Int _ | Float _ | String _ | List _ | Function _ _ _ _ _
  | BuiltinFunction _ _ _ _ _ => invalid_operation "&&" sp fr
  | Null | ReturnValue _ => unsupported "&&" sp fr
  end.

Definition Or (self other : Object) (sp : util.Span) (fr : option frame.Frame)
  (m : Memory) : MethodResult :=
  match self with
  | Nil => Crash nil_dereference
  | Bool b => Bool_Or b other sp fr m
  | Int _ | Float _ | String _ | List _ | Function _ _ _ _ _
  | BuiltinFunction _ _ _ _ _ => invalid_operation "||" sp fr
  | Null | ReturnValue _ => unsupported "||" sp fr
  end.

Definition Index (self other : Object) (sp : util.Span) (fr : option frame.Frame)
  (m : Memory) : MethodResult :=
  match self with
  | Nil => Crash nil_dereference
  | String s => String_Index s other sp fr m
  | List l => List_Index l other sp fr m
  | Int _ | Float _ | Bool _ | Function _ _ _ _ _ | BuiltinFunction _ _ _ _ _ =>
      not_indexable sp fr
  | Null | ReturnValue _ => not_indexable sp fr
  end.

(** The evaluator's [indexable] interface: the variants with a [Set]
    method. *)
Definition indexable (o : Object) : bool :=
  match o with
  | String _ | List _ => true
  | _ => false
  end.

Definition Set_ (self index value : Object) (sp : util.Span)
  (fr : option frame.Frame) (m : Memory) : SetResult :=
  match self with
  | String s => String_Set s index value sp fr m
  | List l => List_Set l index value sp fr m
  | _ => SetCrash nil_dereference
  end.

(** *** Rendering and the builtins

    [String()] is what [print] and [println] call on their argument.  The
    text is not modelled, only whether the call returns: it panics on [nil],
    recurses through the elements of a [List], and, for a
    [BuiltinFunction], indexes [DefaultValue] by the positions of
    [Parameter]. *)
Inductive Rendering :=
| Rendered
| RenderCrash (msg : string)
| RenderExhausted.

Definition index_out_of_range_panic : string := "index out of range".

Fixpoint BuiltinFunction_String (render : Object -> Rendering)
  (params : list string) (defaults : list Object) : Rendering :=
  match params with
  | [] => Rendered
  | _ :: params' =>
      match defaults with
      | [] => RenderCrash index_out_of_range_panic
      | d :: defaults' =>
          match (match d with Nil => Rendered | _ => render d end) with
          | Rendered => BuiltinFunction_String render params' defaults'
          | r => r
          end
      end
  end.

Fixpoint List_String (render : Object -> Rendering) (elements : list Object)
  : Rendering :=
  match elements with
  | [] => Rendered
  | elem :: elements' =>
      match render elem with
      | Rendered => List_String render elements'
      | r => r
      end
  end.

Fixpoint String_ (fuel : nat) (m : Memory) (o : Object) : Rendering :=
  match fuel with
  | O => RenderExhausted
  | S fuel' =>
      match o with
      | Nil => RenderCrash nil_dereference
      | List l => List_String (String_ fuel' m) (list_at m l)
      | BuiltinFunction _ _ params defaults _ =>
          BuiltinFunction_String (String_ fuel' m) params defaults
      | _ => Rendered
      end
  end.

(** The [Fn] of the entries of [Builtins]: [print] and [println] write the
    rendering of [args[0]]; [len] counts the runes of a [String] and the
    elements of a [List]. *)
Definition call_Fn (fn : NativeFn) (fuel : nat) (f : option frame.Frame)
  (sp : util.Span) (args : list Object) (m : Memory) : MethodResult :=
  match fn with
  | print_Fn | println_Fn =>
      match args with
      | [] => Crash index_out_of_range_panic
      | a :: _ =>
          match String_ fuel m a with
          | Rendered =>
              Ok Null (write m a (match fn with println_Fn => true | _ => false end))
          | RenderCrash msg => Crash msg
          | RenderExhausted => Exhausted
          end
      end
  | len_Fn =>
      match args with
      | [] => Crash index_out_of_range_panic
      | a :: _ =>
          match a with
          | String s => Ok (Int (RuneCountInString (string_at m s))) m
          | List l => Ok (Int (Z.of_nat (length (list_at m l)))) m
          | _ =>
              Fail (mkError TypeError f
                      "len() argument must be a sequence or collection." sp)
          end
      end
  end.

(** [Builtins]: no entry declares default values ([DefaultValue] is [nil]). *)
Definition Builtins : list (string * Object) :=
  [ ("print", BuiltinFunction 0 "print" ["a"] [] print_Fn);
    ("println", BuiltinFunction 1 "println" ["a"] [] println_Fn);
    ("len", BuiltinFunction 2 "len" ["a"] [] len_Fn) ].

End object.

(** ** Package [evaluator] *)

Module evaluator.

Import lexer ast object.

(** The [Evaluator] struct has the two fields [Frame] and [Err]; [Mem] is the
    heap its methods read and write. *)
Record State := mkState {
  Frame : option frame.Frame;
  Err : option Error;
  Mem : Memory
}.

(** [NewEvaluator(frame)], on a given heap. *)
Definition NewEvaluator (f : option frame.Frame) (m : Memory) : State :=
  mkState f None m.

Definition with_Frame (st : State) (f : option frame.Frame) : State :=
  mkState f (Err st) (Mem st).
Definition with_Err (st : State) (e : Error) : State :=
  mkState (Frame st) (Some e) (Mem st).
Definition with_Mem (st : State) (m : Memory) : State :=
  mkState (Frame st) (Err st) m.

(** *** The evaluation monad

    A method of the evaluator either returns a value in a new state, or the
    Go run time panics, or the recursion bound of the model is reached. *)
Inductive Outcome (A : Type) :=
| Ret (a : A) (st : State)
| Panic (msg : string)
| OutOfFuel.

Arguments Ret {A} a st.
Arguments Panic {A} msg.
Arguments OutOfFuel {A}.

Definition M (A : Type) : Type := State -> Outcome A.

Definition ret {A} (a : A) : M A := fun st => Ret a st.

Definition bind {A B} (c : M A) (k : A -> M B) : M B :=
  fun st =>
    match c st with
    | Ret a st' => k a st'
    | Panic msg => Panic msg
    | OutOfFuel => OutOfFuel
    end.

Definition panic {A} (msg : string) : M A := fun _ => Panic msg.

Definition out_of_fuel {A} : M A := fun _ => OutOfFuel.

(** [if e.Err != nil { return nil }], followed by [k]. *)
Definition check {A} (nil : A) (k : M A) : M A :=
  fun st =>
    match Err st with
    | Some _ => Ret nil st
    | None => k st
    end.

Declare Scope eval_scope.
Delimit Scope eval_scope with eval.
Bind Scope eval_scope with M.

Notation "'let*' x := c 'in' k" := (bind c (fun x => k))
  (at level 10, x name, c at level 200, k at level 200) : eval_scope.
(** [x := c; if e.Err != nil { return nil }; k]. *)
Notation "'let?' x := c 'in' k" := (bind c (fun x => check Nil k))
  (at level 10, x name, c at level 200, k at level 200) : eval_scope.

Local Open Scope eval_scope.

Definition getFrame : M (option frame.Frame) := fun st => Ret (Frame st) st.
Definition setFrame (f : option frame.Frame) : M unit :=
  fun st => Ret tt (with_Frame st f).
Definition getMem : M Memory := fun st => Ret (Mem st) st.
Definition setMem (m : Memory) : M unit := fun st => Ret tt (with_Mem st m).

(** [e.Err = err; return nil]. *)
Definition fail_with (err : Error) : M Object := fun st => Ret Nil (with_Err st err).

(** [e.Err = &KindError{Frame: e.Frame, Message: msg, ...}; return nil]. *)
Definition fail (kind : ErrorKind) (msg : string) (sp : util.Span) : M Object :=
  fun st => Ret Nil (with_Err st (mkError kind (Frame st) msg sp)).

(** [val, err := x.Method(..., e.Frame); if err != nil { e.Err = err; return
    nil }; return val]. *)
Definition method (f : option frame.Frame -> Memory -> MethodResult) : M Object :=
  fun st =>
    match f (Frame st) (Mem st) with
    | Ok val m => Ret val (with_Mem st m)
    | Fail err => Ret Nil (with_Err st err)
    | Crash msg => Panic msg
    | Exhausted => OutOfFuel
    end.

(** [err := x.Set(..., e.Frame); if err != nil { e.Err = err; return nil };
    return value]. *)
Definition setter (f : option frame.Frame -> Memory -> SetResult) (value : Object)
  : M Object :=
  fun st =>
    match f (Frame st) (Mem st) with
    | SetOk m => Ret value (with_Mem st m)
    | SetFail err => Ret Nil (with_Err st err)
    | SetCrash msg => Panic msg
    end.

Definition newEnvironment (outer : option Environment) : M Environment :=
  fun st => let '(e, m) := new_Environment outer (Mem st) in Ret e (with_Mem st m).

Definition newString (s : string) : M Object :=
  fun st => let '(o, m) := new_String s (Mem st) in Ret o (with_Mem st m).

Definition newList (l : list Object) : M Object :=
  fun st => let '(o, m) := new_List l (Mem st) in Ret o (with_Mem st m).

(** [env.Set(name, sym)] and [env.Assign(name, sym)]. *)
Definition envSet (env : Environment) (name : string) (sym : Symbol) : M unit :=
  fun st => Ret tt (with_Mem st (Environment_Set (Mem st) env name sym)).
Definition envAssign (env : Environment) (name : string) (sym : Symbol) : M unit :=
  fun st => Ret tt (with_Mem st (Environment_Assign (Mem st) env name sym)).

(** The address of a freshly allocated struct. *)
Definition newPtr : M nat :=
  fun st => Ret (Next (Mem st)) (with_Mem st (bump (Mem st))).

Definition undefined_variable (name : string) : string :=
  "undefined variable " ++ quoted name ++ ".".
Definition cannot_redefine (name : string) : string :=
  "cannot redefine constant " ++ quoted name ++ ".".
Definition unknown_node_type : string := "unknown node type".

(** *** The [evalXxx] methods

    [ev] stands for the recursive calls of [e.Eval]; [fuel] bounds the
    iterations of a [for] loop and the recursion of [Equal] and [String()]. *)
Section Methods.

Variable ev : Node -> Environment -> M Object.
Variable fuel : nat.

Fixpoint evalProgram_loop (statements : list Statement) (env : Environment)
  : M Object :=
  match statements with
  | [] => ret Nil
  | statement :: rest =>
      let? _ := ev (StatementNode statement) env in
      evalProgram_loop rest env
  end.

Definition evalProgram (program : Program) (env : Environment) : M Object :=
  evalProgram_loop (Statements program) env.

Definition non_bool_for (sp : util.Span) : M Object :=
  fail TypeError "non-bool condition in for loop." sp.

(** The loop [for condition.Value { body; update; condition }]. *)
Fixpoint evalForStatement_loop (n : nat) (condition : bool)
  (Condition : Expression) (Update Body : Statement) (sp : util.Span)
  (forEnv : Environment) : M Object :=
  if condition then
    match n with
    | O => out_of_fuel
    | S n' =>
        let? r := ev (StatementNode Body) forEnv in
        match r with
        | ReturnValue _ => ret r
        | _ =>
            let? _ := ev (StatementNode Update) forEnv in
            let? c := ev (ExpressionNode Condition) forEnv in
            match c with
            | Bool b => evalForStatement_loop n' b Condition Update Body sp forEnv
            | _ => non_bool_for sp
            end
        end
    end
  else ret Nil.

Definition evalForStatement (Initialization : Statement) (Condition : Expression)
  (Update Body : Statement) (sp : util.Span) (env : Environment) : M Object :=
  let* forEnv := newEnvironment (Some env) in
  let? _ := ev (StatementNode Initialization) forEnv in
  let? c := ev (ExpressionNode Condition) forEnv in
  match c with
  | Bool b => evalForStatement_loop fuel b Condition Update Body sp forEnv
  | _ => non_bool_for sp
  end.

Definition evalFunctionDeclarationStatement (Name : Expression)
  (Params : list Parameter_) (Body : Statement) (sp : util.Span)
  (env : Environment) : M Object :=
  match Name with
  | IdentifierExpression funcName _ =>
      let* m := getMem in
      match Environment_Get m env funcName with
      | Some _ =>
          fail VariableError ("function " ++ quoted funcName ++ " already defined.") sp
      | None =>
          let* ptr := newPtr in
          let* _ := envSet env funcName
                              (mkSymbol funcName (Function ptr funcName Params Body env)
                                 true) in
          ret Nil
      end
  | _ => panic interface_conversion
  end.

Definition evalReturnStatement (ReturnValue_ : Expression) (sp : util.Span)
  (env : Environment) : M Object :=
  let* fr := getFrame in
  match fr with
  | None => panic nil_dereference
  | Some f =>
      match frame.Parent f with
      | None =>
          fail SyntaxError "return statement is only allowed inside functions." sp
      | Some _ =>
          let? returnValue := ev (ExpressionNode ReturnValue_) env in
          ret (ReturnValue returnValue)
      end
  end.

Definition evalIndexExpression (Target Index_ : Expression) (sp : util.Span)
  (env : Environment) : M Object :=
  let? target := ev (ExpressionNode Target) env in
  let? idxObj := ev (ExpressionNode Index_) env in
  match idxObj with
  | Int _ => method (Index target idxObj sp)
  | _ => fail TypeError "index must be integer." sp
  end.

Definition evalExpressionStatement (Expr : Expression) (env : Environment)
  : M Object :=
  let? r := ev (ExpressionNode Expr) env in
  match r with
  | ReturnValue _ => ret r
  | _ => ret Nil
  end.

Definition evalIntExpression (Value_ : Z) : M Object := ret (Int Value_).
Definition evalFloatExpression (Value_ : float64) : M Object := ret (Float Value_).
Definition evalBooleanExpression (Value_ : bool) : M Object := ret (Bool Value_).
Definition evalNullExpression : M Object := ret Null.
Definition evalStringExpression (Value_ : string) : M Object := newString Value_.

(** The loop of [evalListExpression]: [i] is the index of the next element,
    [firstType] the type of the first one, [elements] the values so far. *)
Fixpoint evalListExpression_loop (i : nat) (rest : list Expression)
  (firstType : string) (elements : list Object) (sp : util.Span)
  (env : Environment) : M Object :=
  match rest with
  | [] => newList elements
  | elementExpr :: rest' =>
      let? element := ev (ExpressionNode elementExpr) env in
      match Object_Type element with
      | None => panic nil_dereference
      | Some t =>
          match i with
          | O => evalListExpression_loop 1 rest' t (elements ++ [element]) sp env
          | S _ =>
              if negb (String.eqb t firstType)
              then fail TypeError "list elements must have consistent types." sp
              else evalListExpression_loop (S i) rest' firstType
                     (elements ++ [element]) sp env
          end
      end
  end.

Definition evalListExpression (Value_ : list Expression) (sp : util.Span)
  (env : Environment) : M Object :=
  evalListExpression_loop 0 Value_ "" [] sp env.

Definition evalIdentifierExpression (varName : string) (sp : util.Span)
  (env : Environment) : M Object :=
  let* m := getMem in
  match Environment_Get m env varName with
  | None => fail VariableError (undefined_variable varName) sp
  | Some val => ret (Value val)
  end.

Definition evalVarInitializationExpression (IsConst_ : bool) (Name_ Value_ : Expression)
  (sp : util.Span) (env : Environment) : M Object :=
  match Name_ with
  | IdentifierExpression varName _ =>
      let* m := getMem in
      if Environment_Exists m env varName
      then fail VariableError ("variable " ++ quoted varName ++ " already defined.") sp
      else
        let? val := ev (ExpressionNode Value_) env in
        let* _ := envSet env varName
                            (mkSymbol varName val IsConst_) in
        ret val
  | _ => panic interface_conversion
  end.

(** [checkIndexTargetConst]: the error to report when the identifier at the
    root of the index chain [target] is undefined or constant. *)
Fixpoint checkIndexTargetConst (fr : option frame.Frame) (m : Memory)
  (target : Expression) (env : Environment) (sp : util.Span) : option Error :=
  match target with
  | IdentifierExpression name _ =>
      match Environment_Get m env name with
      | None => Some (mkError VariableError fr (undefined_variable name) sp)
      | Some sym =>
          if IsConst sym
          then Some (mkError VariableError fr (cannot_redefine name) sp)
          else None
      end
  | IndexExpression t _ _ => checkIndexTargetConst fr m t env sp
  | _ => None
  end.

(** The steps every assignment through an index expression starts with:
    the constant check, the target, the index and the two type checks;
    [k target index] is the rest of the method. *)
Definition withIndexTarget (Target Index_ : Expression) (isp sp : util.Span)
  (env : Environment) (k : Object -> Object -> M Object) : M Object :=
  let* fr := getFrame in
  let* m := getMem in
  match checkIndexTargetConst fr m Target env isp with
  | Some err => fail_with err
  | None =>
      let? target := ev (ExpressionNode Target) env in
      let? index := ev (ExpressionNode Index_) env in
      match index with
      | Int _ =>
          if indexable target then k target index
          else fail TypeError "index expression not supported for this type." sp
      | _ => fail TypeError "index must be integer." sp
      end
  end.

Definition evalPrefixOperator (Operator : Token) (sp : util.Span) (right : Object)
  : M Object :=
  match Type_ Operator with
  | MINUS => method (Negative right sp)
  | BANG => method (Not right sp)
  | BITWISE_NOT => method (BitNot right sp)
  | t =>
      fail_with (mkError OperationError None
                   ("invalid operation " ++ quoted (type_string t) ++ ".") sp)
  end.

Definition evalPrefixExpression (Operator : Token) (Value_ : Expression)
  (sp : util.Span) (env : Environment) : M Object :=
  let? right := ev (ExpressionNode Value_) env in
  let? val := evalPrefixOperator Operator sp right in
  ret val.

Definition evalInfixOperator (Operator : Token) (sp : util.Span)
  (left right : Object) : M Object :=
  match Type_ Operator with
  | PLUS => method (Add left right sp)
  | MINUS => method (Subtract left right sp)
  | ASTERISK => method (Multiply left right sp)
  | SLASH => method (Divide left right sp)
  | PERCENT => method (Mod left right sp)
  | EQUALS => method (Equal fuel left right sp)
  | NOT_EQUALS => method (NotEqual fuel left right sp)
  | LT => method (LessThan left right sp)
  | GT => method (GreaterThan left right sp)
  | LTE => method (LessThanOrEqual left right sp)
  | GTE => method (GreaterThanOrEqual left right sp)
  | BITWISE_AND => method (BitAnd left right sp)
  | BITWISE_OR => method (BitOr left right sp)
  | BITWISE_XOR => method (Xor left right sp)
  | LEFT_SHIFT => method (LeftShift left right sp)
  | RIGHT_SHIFT => method (RightShift left right sp)
  | LOGICAL_AND => method (And left right sp)
  | LOGICAL_OR => method (Or left right sp)
  | t =>
      fail_with (mkError OperationError None
                   ("invalid operation " ++ quoted (type_string t) ++ ".") sp)
  end.

Definition evalInfixExpression (Left : Expression) (Operator : Token)
  (Right : Expression) (sp : util.Span) (env : Environment) : M Object :=
  let? left := ev (ExpressionNode Left) env in
  let rest : M Object :=
    let? right := ev (ExpressionNode Right) env in
    let? val := evalInfixOperator Operator sp left right in
    ret val in
  match Type_ Operator, left with
  | LOGICAL_AND, Bool false => ret (Bool false)
  | LOGICAL_AND, Bool true => rest
  | LOGICAL_AND, _ =>
      fail OperationError ("invalid operation " ++ quoted "&&" ++ ".") sp
  | LOGICAL_OR, Bool true => ret (Bool true)
  | LOGICAL_OR, Bool false => rest
  | LOGICAL_OR, _ =>
      fail OperationError ("invalid operation " ++ quoted "||" ++ ".") sp
  | _, _ => rest
  end.

Definition evalVarAssignmentExpression (Name_ Value_ : Expression) (sp : util.Span)
  (env : Environment) : M Object :=
  match Name_ with
  | IdentifierExpression varName _ =>
      let* m := getMem in
      match Environment_Get m env varName with
      | None => fail VariableError (undefined_variable varName) sp
      | Some sym =>
          if IsConst sym then fail VariableError (cannot_redefine varName) sp
          else
            let? value := ev (ExpressionNode Value_) env in
            let* _ := envAssign env varName
                                (mkSymbol varName value false) in
            ret value
      end
  | IndexExpression Target Index_ isp =>
      withIndexTarget Target Index_ isp sp env (fun target index =>
        let? value := ev (ExpressionNode Value_) env in
        setter (Set_ target index value sp) value)
  | _ => fail TypeError "invalid variable name type." sp
  end.

(** [Operator.Literal[:len(Operator.Literal)-1]] panics on an empty
    literal. *)
Definition baseOperator (Operator : Token) : M Token :=
  if (String.length (Literal Operator) =? 0)%nat
  then panic "slice bounds out of range"
  else ret (mkToken (CompoundAssignmentOperators (Type_ Operator))
              (slice_to (Literal Operator) (len (Literal Operator) - 1))).

Definition evalCompoundAssignmentExpression (Name_ : Expression) (Operator : Token)
  (Right : Expression) (sp : util.Span) (env : Environment) : M Object :=
  match Name_ with
  | IdentifierExpression varName _ =>
      let* m := getMem in
      match Environment_Get m env varName with
      | None => fail VariableError (undefined_variable varName) sp
      | Some sym =>
          if IsConst sym then fail VariableError (cannot_redefine varName) sp
          else
            let? right := ev (ExpressionNode Right) env in
            let* op := baseOperator Operator in
            let? value := evalInfixOperator op sp (Value sym) right in
            let* _ := envAssign env varName
                                (mkSymbol varName value false) in
            ret value
      end
  | IndexExpression Target Index_ isp =>
      withIndexTarget Target Index_ isp sp env (fun target index =>
        let? right := ev (ExpressionNode Right) env in
        let* op := baseOperator Operator in
        let? idxValue := ev (ExpressionNode Name_) env in
        let? value := evalInfixOperator op sp idxValue right in
        setter (Set_ target index value sp) value)
  | _ => fail TypeError "invalid variable name type." sp
  end.

(** The operator an increment or decrement applies: [+] for [INCREMENT],
    [-] otherwise. *)
Definition incDecOperator (Operator : Token) : Token :=
  match Type_ Operator with
  | INCREMENT => mkToken PLUS "+"
  | _ => mkToken MINUS "-"
  end.

Definition evalPrefixUnaryIncDecExpression (Operator : Token) (Right : Expression)
  (sp : util.Span) (env : Environment) : M Object :=
  match Right with
  | IdentifierExpression name _ =>
      let* m := getMem in
      match Environment_Get m env name with
      | None => fail VariableError (undefined_variable name) sp
      | Some sym =>
          if IsConst sym then fail VariableError (cannot_redefine name) sp
          else
            let? right := ev (ExpressionNode Right) env in
            let? val := evalInfixOperator (incDecOperator Operator) sp right (Int 1) in
            let* _ := envSet env name (mkSymbol name val false) in
            ret val
      end
  | IndexExpression Target Index_ isp =>
      withIndexTarget Target Index_ isp sp env (fun target index =>
        let? right := ev (ExpressionNode Right) env in
        let? val := evalInfixOperator (incDecOperator Operator) sp right (Int 1) in
        setter (Set_ target index val sp) val)
  | _ => fail TypeError "invalid variable name type." sp
  end.

Definition evalPostfixUnaryIncDecExpression (Operator : Token) (Left : Expression)
  (sp : util.Span) (env : Environment) : M Object :=
  match Left with
  | IdentifierExpression name _ =>
      let* m := getMem in
      match Environment_Get m env name with
      | None => fail VariableError (undefined_variable name) sp
      | Some sym =>
          if IsConst sym then fail VariableError (cannot_redefine name) sp
          else
            let? left := ev (ExpressionNode Left) env in
            let? val := evalInfixOperator (incDecOperator Operator) sp left (Int 1) in
            let* _ := envSet env name (mkSymbol name val false) in
            ret left
      end
  | IndexExpression Target Index_ isp =>
      withIndexTarget Target Index_ isp sp env (fun target index =>
        let? left := evalIndexExpression Target Index_ isp env in
        let? val := evalInfixOperator (incDecOperator Operator) sp left (Int 1) in
        setter (Set_ target index val sp) left)
  | _ => fail TypeError "invalid variable name type." sp
  end.

(** [evalWithReturnValue] is only ever handed statements. *)
Definition evalWithReturnValue (node : Statement) (env : Environment) : M Object :=
  match node with
  | ExpressionStatement Expr _ =>
      let? r := ev (ExpressionNode Expr) env in
      ret r
  | ReturnStatement ReturnValue_ _ =>
      let? r := ev (ExpressionNode ReturnValue_) env in
      ret (ReturnValue r)
  | ForStatement _ _ _ _ _ | FunctionDeclarationStatement _ _ _ _ =>
      let? r := ev (StatementNode node) env in
      match r with
      | ReturnValue _ => ret r
      | _ => ret Null
      end
  end.

Fixpoint evalBlockExpression_loop (statements : list Statement) (r : Object)
  (blockEnv : Environment) : M Object :=
  match statements with
  | [] => ret r
  | statement :: rest =>
      let* r' := evalWithReturnValue statement blockEnv in
      match r' with
      | ReturnValue _ => ret r'
      | _ => evalBlockExpression_loop rest r' blockEnv
      end
  end.

Definition evalBlockExpression (Statements_ : list Statement) (env : Environment)
  : M Object :=
  let* blockEnv := newEnvironment (Some env) in
  evalBlockExpression_loop Statements_ Nil blockEnv.

Definition evalIfExpression (Condition : Expression) (Consequence : Statement)
  (Alternative : option Statement) (sp : util.Span) (env : Environment)
  : M Object :=
  let? condition := ev (ExpressionNode Condition) env in
  match condition with
  | Bool b =>
      let* ifEnv := newEnvironment (Some env) in
      if b then evalWithReturnValue Consequence ifEnv
      else
        match Alternative with
        | Some alternative => evalWithReturnValue alternative ifEnv
        | None => ret Null
        end
  | _ => fail TypeError "non-bool condition in if expression." sp
  end.

(** *** Calls *)

(** [e.Frame = e.Frame.Parent]. *)
Definition popFrame : M unit :=
  fun st =>
    match Frame st with
    | None => Panic nil_dereference
    | Some f => Ret tt (with_Frame st (frame.Parent f))
    end.

(** [e.Frame = &frame.Frame{FuncName: label, Parent: e.Frame, ...}]. *)
Definition pushFrame (label : string) (sp : util.Span) : M unit :=
  fun st => Ret tt (with_Frame st (Some (frame.mkFrame label (Frame st) sp))).

(** The number of parameters of a [Function] that declare a default value,
    and of the non-[nil] entries in the [DefaultValue] of a
    [BuiltinFunction]. *)
Fixpoint defaultLen_of (params : list Parameter_) : Z :=
  match params with
  | [] => 0
  | param :: rest =>
      (match ParamDefault param with Some _ => 1 | None => 0 end) + defaultLen_of rest
  end.

Fixpoint builtin_defaultLen_of (defaults : list Object) : Z :=
  match defaults with
  | [] => 0
  | d :: rest => (match d with Nil => 0 | _ => 1 end) + builtin_defaultLen_of rest
  end.

(** The number of arguments that are not left out. *)
Fixpoint argLen_of (args : list (option Expression)) : Z :=
  match args with
  | [] => 0
  | arg :: rest => (match arg with Some _ => 1 | None => 0 end) + argLen_of rest
  end.

Definition arity_message (defaultLen least total argLen : Z) : string :=
  if defaultLen =? 0 then
    "expected " ++ decimal total ++ " parameters, got " ++ decimal argLen ++ "."
  else if least =? 1 then
    "expected between 1 parameter and " ++ decimal total ++ " parameters, got "
      ++ decimal argLen ++ "."
  else
    "expected between " ++ decimal least ++ " and " ++ decimal total
      ++ " parameters, got " ++ decimal argLen ++ ".".

(** What [e.Eval] is handed for the default value of position [i]:
    [fn.Parameter[i].DefaultValue] of a [Function] is an expression or [nil];
    [fn.DefaultValue[i]] of a [BuiltinFunction] is an [Object], not a syntax
    node.  [None] when [i] is out of range. *)
Definition function_default (params : list Parameter_) (i : nat) : option Node :=
  match params !! i with
  | Some param =>
      Some (match ParamDefault param with
            | Some e => ExpressionNode e
            | None => NoNode
            end)
  | None => None
  end.

Definition builtin_default (defaults : list Object) (i : nat) : option Node :=
  match defaults !! i with
  | Some _ => Some NoNode
  | None => None
  end.

(** The loop over [callExpression.Argument]; [None] stands for the early
    [return nil] of the method. *)
Fixpoint evalArguments (default_at : nat -> option Node)
  (args : list (option Expression)) (argument : list Object) (env : Environment)
  : M (option (list Object)) :=
  match args with
  | [] => ret (Some argument)
  | None :: rest =>
      match default_at (length argument) with
      | None => panic index_out_of_range_panic
      | Some node =>
          let* defaultValue := ev node env in
          check None (evalArguments default_at rest (argument ++ [defaultValue]) env)
      end
  | Some arg :: rest =>
      let* a := ev (ExpressionNode arg) env in
      check None (evalArguments default_at rest (argument ++ [a]) env)
  end.

(** The loop [for i := len(argument); i < len(fn.Parameter); i++], of [n]
    rounds. *)
Fixpoint fillDefaults (default_at : nat -> option Node) (n : nat)
  (argument : list Object) (env : Environment) : M (option (list Object)) :=
  match n with
  | O => ret (Some argument)
  | S n' =>
      match default_at (length argument) with
      | None => panic index_out_of_range_panic
      | Some node =>
          let* defaultValue := ev node env in
          check None (fillDefaults default_at n' (argument ++ [defaultValue]) env)
      end
  end.

(** [funcEnv.Set(param.Name.Name, &Symbol{..., Value: argument[i]})] for
    every parameter. *)
Fixpoint bindParameters (params : list Parameter_) (argument : list Object)
  (funcEnv : Environment) : M unit :=
  match params with
  | [] => ret tt
  | param :: params' =>
      match argument with
      | [] => panic index_out_of_range_panic
      | a :: argument' =>
          let* _ := envSet funcEnv (ParamName param)
                              (mkSymbol (ParamName param) a false) in
          bindParameters params' argument' funcEnv
      end
  end.

(** The last part of the [*object.Function] case: the scope of the call, the
    frame, the parameters and the body. *)
Definition callFunction (name : string) (params : list Parameter_) (body : Statement)
  (fenv : Environment) (sp : util.Span) (argument : list Object) : M Object :=
  let* funcEnv := newEnvironment (Some fenv) in
  let* _ := pushFrame ("<function " ++ quoted name ++ ">") sp in
  let* _ := bindParameters params argument funcEnv in
  let* returnValue := evalWithReturnValue body funcEnv in
  check Nil
    (let* _ := popFrame in
     match returnValue with
     | ReturnValue v => ret v
     | _ => ret returnValue
     end).

(** [val, err := fn.Fn(e.Frame, ...); if err != nil { e.Err = err; return
    nil }; e.Frame = e.Frame.Parent; return val]. *)
Definition callFn (fn : NativeFn) (sp : util.Span) (argument : list Object)
  : M Object :=
  fun st =>
    match call_Fn fn fuel (Frame st) sp argument (Mem st) with
    | Ok val m => (let* _ := popFrame in ret val) (with_Mem st m)
    | Fail err => Ret Nil (with_Err st err)
    | Crash msg => Panic msg
    | Exhausted => OutOfFuel
    end.

(** The last part of the [*object.BuiltinFunction] case. *)
Definition callBuiltin (name : string) (fn : NativeFn) (sp : util.Span)
  (argument : list Object) : M Object :=
  let* _ := pushFrame ("<builtin " ++ quoted name ++ ">") sp in
  callFn fn sp argument.

Definition evalCallExpression (Function_ : Expression)
  (Argument : list (option Expression)) (sp : util.Span) (env : Environment)
  : M Object :=
  let? function := ev (ExpressionNode Function_) env in
  match function with
  | Function _ name params body fenv =>
      let defaultLen := defaultLen_of params in
      let argLen := argLen_of Argument in
      let total := Z.of_nat (length params) in
      let least := total - defaultLen in
      if negb ((least <=? argLen) && (argLen <=? total))
      then fail ArgumentError (arity_message defaultLen least total argLen) sp
      else
        let* r := evalArguments (function_default params) Argument [] env in
        match r with
        | None => ret Nil
        | Some argument =>
            let* r := fillDefaults (function_default params)
                        (length params - length argument) argument env in
            match r with
            | None => ret Nil
            | Some argument => callFunction name params body fenv sp argument
            end
        end
  | BuiltinFunction _ name params defaults fn =>
      let defaultLen := builtin_defaultLen_of defaults in
      let argLen := argLen_of Argument in
      let total := Z.of_nat (length params) in
      let least := total - defaultLen in
      if negb ((least <=? argLen) && (argLen <=? total))
      then fail ArgumentError (arity_message defaultLen least total argLen) sp
      else
        let* r := evalArguments (builtin_default defaults) Argument [] env in
        match r with
        | None => ret Nil
        | Some argument =>
            let* r := fillDefaults (builtin_default defaults)
                        (length params - length argument) argument env in
            match r with
            | None => ret Nil
            | Some argument => callBuiltin name fn sp argument
            end
        end
  | _ => fail TypeError "the value is not a function and cannot be called." sp
  end.

End Methods.

(** *** [Eval]

    The dispatch on the type of the node; [fuel] bounds the depth of the
    recursion. *)
Fixpoint Eval (fuel : nat) (nodes : Node) (env : Environment) : M Object :=
  match fuel with
  | O => out_of_fuel
  | S n =>
      let ev := Eval n in
      match nodes with
      | ProgramNode p => evalProgram ev p env
      | StatementNode (ForStatement i c u b sp) => evalForStatement ev n i c u b sp env
      | StatementNode (FunctionDeclarationStatement name ps b sp) =>
          evalFunctionDeclarationStatement name ps b sp env
      | StatementNode (ReturnStatement r sp) => evalReturnStatement ev r sp env
      | StatementNode (ExpressionStatement e _) => evalExpressionStatement ev e env
      | ExpressionNode (PrefixExpression op v sp) => evalPrefixExpression ev op v sp env
      | ExpressionNode (InfixExpression l op r sp) =>
          evalInfixExpression ev n l op r sp env
      | ExpressionNode (IntExpression v _) => evalIntExpression v
      | ExpressionNode (FloatExpression v _) => evalFloatExpression v
      | ExpressionNode (BoolExpression v _) => evalBooleanExpression v
      | ExpressionNode (NullExpression _) => evalNullExpression
      | ExpressionNode (StringExpression v _) => evalStringExpression v
      | ExpressionNode (ListExpression v sp) => evalListExpression ev v sp env
      | ExpressionNode (IdentifierExpression name sp) =>
          evalIdentifierExpression name sp env
      | ExpressionNode (GroupedExpression e _) => ev (ExpressionNode e) env
      | ExpressionNode (VarInitializationExpression c name v sp) =>
          evalVarInitializationExpression ev c name v sp env
      | ExpressionNode (VarAssignmentExpression name v sp) =>
          evalVarAssignmentExpression ev name v sp env
      | ExpressionNode (CompoundAssignmentExpression name op r sp) =>
          evalCompoundAssignmentExpression ev n name op r sp env
      | ExpressionNode (PrefixUnaryIncDecExpression op r sp) =>
          evalPrefixUnaryIncDecExpression ev n op r sp env
      | ExpressionNode (PostfixUnaryIncDecExpression op l sp) =>
          evalPostfixUnaryIncDecExpression ev n op l sp env
      | ExpressionNode (BlockExpression ss _) => evalBlockExpression ev ss env
      | ExpressionNode (IfExpression c t f sp) => evalIfExpression ev c t f sp env
      | ExpressionNode (CallExpression f args sp) =>
          evalCallExpression ev n f args sp env
      | ExpressionNode (IndexExpression t i sp) => evalIndexExpression ev t i sp env
      | NoNode => panic unknown_node_type
      end
  end.

End evaluator.

(** * Properties of the evaluator *)

Import lexer ast object evaluator.
Local Open Scope eval_scope.

(** ** Vocabulary *)

(** A computation respects a relation [R] on states when every run that
    returns relates the initial state to the final one. *)
Definition respects {A} (R : State -> State -> Prop) (c : M A) : Prop :=
  forall st a st', c st = Ret a st' -> R st st'.

(** The frame discipline: a run that ends with no error recorded started
    with none and ends in the frame it started in. *)
Definition frame_kept (st st' : State) : Prop :=
  Err st' = None -> Err st = None /\ Frame st' = Frame st.

(** The elements of a list all have one run-time type. *)
Definition homogeneous (l : list Object) : Prop :=
  exists t, Forall (fun x => Object_Type x = Some t) l.

(** Every [List] of the heap is homogeneous. *)
Definition Memory_ok (m : Memory) : Prop :=
  forall a l, Lists m !! a = Some l -> homogeneous l.

Definition lists_kept (st st' : State) : Prop :=
  Memory_ok (Mem st) -> Memory_ok (Mem st').

(** An index chain [name[i1]...[ik]], [k >= 0]. *)
Inductive rooted_at (name : string) : Expression -> Prop :=
| rooted_identifier sp : rooted_at name (IdentifierExpression name sp)
| rooted_index t i sp : rooted_at name t -> rooted_at name (IndexExpression t i sp).

Definition numeric (o : Object) : bool :=
  match o with
  | Int _ | Float _ => true
  | _ => false
  end.

(** [Int 0], [Float 0.0] and [Float -0.0]. *)
Definition zero_operand (o : Object) : bool :=
  match o with
  | Int z => z =? 0
  | Float f => feq f fzero
  | _ => false
  end.

Definition is_Bool (o : Object) : bool :=
  match o with
  | Bool _ => true
  | _ => false
  end.

(** ** Programs and states of the examples *)

Definition nowhere : util.Span := util.nospan.
Definition at_col (a b : Z) : util.Span :=
  util.mkSpan (Some (util.mkPos 1 a (a - 1))) (Some (util.mkPos 1 b (b - 1))).

Definition tok (t : TokenType) (l : string) : Token := mkToken t l.
Definition int_ (z : Z) : Expression := IntExpression z nowhere.
Definition var_ (x : string) : Expression := IdentifierExpression x nowhere.
Definition infix_ (l : Expression) (t : TokenType) (s : string) (r : Expression)
  : Expression := InfixExpression l (tok t s) r nowhere.
Definition expr_ (e : Expression) : Statement := ExpressionStatement e nowhere.
Definition program_ (ss : list Statement) : Node := ProgramNode (mkProgram ss nowhere).

(** The root scope and frame of a run, as [RunFile] sets them up: the
    builtins are constants of the root scope. *)
Definition root_env : Environment := mkEnvironment 0 None.
Definition root_frame : frame.Frame := frame.mkFrame "main.gh" None nowhere.
Definition root_store : gmap string Symbol :=
  list_to_map (map (fun '(n, o) => (n, mkSymbol n o true)) Builtins).
Definition root_Memory : Memory :=
  mkMemory {[ 0%nat := root_store ]} ∅ ∅ 1 [] linux_amd64.
Definition start : State := NewEvaluator (Some root_frame) root_Memory.

(** [1/0] and [1.0/0.0]. *)
Definition one_by_zero : Expression := infix_ (int_ 1) SLASH "/" (int_ 0).
Definition one_by_zero_float : Expression :=
  infix_ (FloatExpression 1%float nowhere) SLASH "/" (FloatExpression 0%float nowhere).

(** [false && (1/0)] and [true || (1/0)]. *)
Definition false_and_crash : Expression :=
  infix_ (BoolExpression false nowhere) LOGICAL_AND "&&"
    (GroupedExpression one_by_zero nowhere).
Definition true_or_crash : Expression :=
  infix_ (BoolExpression true nowhere) LOGICAL_OR "||"
    (GroupedExpression one_by_zero nowhere).

(** [func f(a, b=2) return a+b]. *)
Definition decl_f : Statement :=
  FunctionDeclarationStatement (var_ "f")
    [mkParameter "a" None nowhere; mkParameter "b" (Some (int_ 2)) nowhere]
    (ReturnStatement (infix_ (var_ "a") PLUS "+" (var_ "b")) nowhere) nowhere.
Definition call_f (args : list (option Expression)) : Expression :=
  CallExpression (var_ "f") args (at_col 1 5).

(** The final value and state of a program followed by an expression. *)
Definition run (fuel : nat) (ss : list Statement) (e : Expression) : Outcome Object :=
  match Eval fuel (program_ ss) root_env start with
  | Ret _ st => Eval fuel (ExpressionNode e) root_env st
  | Panic msg => Panic msg
  | OutOfFuel => OutOfFuel
  end.

(** The value and the error kind of an outcome. *)
Definition result_of (r : Outcome Object) : option (Object * option ErrorKind) :=
  match r with
  | Ret v st => Some (v, Kind <$> Err st)
  | _ => None
  end.

(** The value an increment ([INCREMENT]) or a decrement (any other operator,
    [DECREMENT] in a parsed program) stores for an [Int] of value [v]. *)
Definition inc_or_dec (op : Token) (v : Z) : Z :=
  match Type_ op with
  | INCREMENT => wrap64 (v + 1)
  | _ => wrap64 (v - 1)
  end.

(** [x++], [++x] and [x += 1]. *)
Definition postfix_ (t : TokenType) (s x : string) : Expression :=
  PostfixUnaryIncDecExpression (tok t s) (var_ x) nowhere.
Definition prefix_ (t : TokenType) (s x : string) : Expression :=
  PrefixUnaryIncDecExpression (tok t s) (var_ x) nowhere.
Definition compound_ (x : string) (t : TokenType) (s : string) (e : Expression)
  : Expression :=
  CompoundAssignmentExpression (var_ x) (tok t s) e nowhere.

(** A block scope (store 1) inside the root scope (store 0), and the state of
    a run in which the root scope binds [x] to [Int 0], as after
    [var x = 0; {] . *)
Definition inner_env : Environment := mkEnvironment 1 (Some root_env).
Definition x_is_0 : Symbol := mkSymbol "x" (Int 0) false.
Definition x_is_1 : Symbol := mkSymbol "x" (Int 1) false.
Definition x_is_5 : Symbol := mkSymbol "x" (Int 5) true.
Definition in_block : State :=
  NewEvaluator (Some root_frame)
    (mkMemory {[ 0%nat := {[ "x" := x_is_0 ]}; 1%nat := ∅ ]} ∅ ∅ 2 [] linux_amd64).

(** [var x = 0;], and a block statement. *)
Definition var_x_0 : Statement :=
  expr_ (VarInitializationExpression false (var_ "x") (int_ 0) nowhere).
Definition block_ (ss : list Statement) : Statement :=
  expr_ (BlockExpression ss nowhere).

(** The bindings of [x] in the block scope and in the root scope after an
    expression was evaluated in the block. *)
Definition bindings_of_x (r : Outcome Object) : option (option Symbol * option Symbol) :=
  match r with
  | Ret _ st => Some (store_at (Mem st) 1 !! "x", store_at (Mem st) 0 !! "x")
  | _ => None
  end.

(** [const x = 1;], [x = 2;], [const l = [1];], [var l = [1, 2];] and
    [l[0] = e;]. *)
Definition const_x_1 : Statement :=
  expr_ (VarInitializationExpression true (var_ "x") (int_ 1) nowhere).
Definition assign_x_2 : Statement :=
  expr_ (VarAssignmentExpression (var_ "x") (int_ 2) nowhere).
Definition const_l_1 : Statement :=
  expr_ (VarInitializationExpression true (var_ "l")
           (ListExpression [int_ 1] nowhere) nowhere).
Definition var_l_1_2 : Statement :=
  expr_ (VarInitializationExpression false (var_ "l")
           (ListExpression [int_ 1; int_ 2] nowhere) nowhere).
Definition assign_l0 (e : Expression) : Statement :=
  expr_ (VarAssignmentExpression (IndexExpression (var_ "l") (int_ 0) nowhere) e nowhere).

(** [(l)[0]], and the statements [(l)[0] = 2;], [(l)[0] += 1;], [(l)[0]++;]
    and [++(l)[0];]. *)
Definition grouped_l0 : Expression :=
  IndexExpression (GroupedExpression (var_ "l") nowhere) (int_ 0) nowhere.
Definition assign_grouped_l0 : Statement :=
  expr_ (VarAssignmentExpression grouped_l0 (int_ 2) nowhere).
Definition add_to_grouped_l0 : Statement :=
  expr_ (CompoundAssignmentExpression grouped_l0 (tok PLUS_EQUAL "+=") (int_ 1) nowhere).
Definition grouped_l0_increment : Statement :=
  expr_ (PostfixUnaryIncDecExpression (tok INCREMENT "++") grouped_l0 nowhere).
Definition increment_grouped_l0 : Statement :=
  expr_ (PrefixUnaryIncDecExpression (tok INCREMENT "++") grouped_l0 nowhere).

(** Whether the root scope binds [x] as a constant at the end of a run. *)
Definition is_const (x : string) (st : option State) : option bool :=
  match st with
  | Some st => IsConst <$> Environment_Get (Mem st) root_env x
  | None => None
  end.

(** The state a program ends in, the kind of the error it recorded, the
    value of a variable of the root scope and the elements of the list it
    holds. *)
Definition final_state (fuel : nat) (ss : list Statement) : option State :=
  match Eval fuel (program_ ss) root_env start with
  | Ret _ st => Some st
  | _ => None
  end.
Definition error_kind (st : option State) : option ErrorKind :=
  match st with
  | Some st => Kind <$> Err st
  | None => None
  end.
Definition value_of (x : string) (st : option State) : option Object :=
  match st with
  | Some st => Value <$> Environment_Get (Mem st) root_env x
  | None => None
  end.
Definition elements_of (x : string) (st : option State) : option (list Object) :=
  match st, value_of x st with
  | Some st, Some (List a) => Some (list_at (Mem st) a)
  | _, _ => None
  end.

(** The two-rune string of the bytes C3 A9 61 (U+00E9, then [a]); the
    program [var s = <that string>; s[1] = "b";]; and the runes of the string a
    variable of the root scope holds. *)
Definition e_acute_a : string := string_of_bytes [195; 169; 97].
Definition var_s : Statement :=
  expr_ (VarInitializationExpression false (var_ "s")
           (StringExpression e_acute_a nowhere) nowhere).
Definition assign_s1_b : Statement :=
  expr_ (VarAssignmentExpression (IndexExpression (var_ "s") (int_ 1) nowhere)
           (StringExpression "b" nowhere) nowhere).
Definition read_s1 : Expression := IndexExpression (var_ "s") (int_ 1) nowhere.
Definition runes_of (x : string) (st : option State) : option (list rune) :=
  match st, value_of x st with
  | Some st, Some (String a) => Some (runes (string_at (Mem st) a))
  | _, _ => None
  end.
Definition string_result (r : Outcome Object) : option string :=
  match r with
  | Ret (String a) st => Some (string_at (Mem st) a)
  | _ => None
  end.

(** A method keeps the lists when the memory it returns is fine whenever
    the memory it was given is. *)
Definition keeps_lists (f : Memory -> MethodResult) : Prop :=
  forall m v m', f m = Ok v m' -> Memory_ok m -> Memory_ok m'.

(** [func g() return 1/0;], the call [g()] and the frame of that call; the
    call [len(1)] of a builtin with an argument it refuses, and its frame. *)
Definition decl_g : Statement :=
  FunctionDeclarationStatement (var_ "g") [] (ReturnStatement one_by_zero nowhere) nowhere.
Definition call_g : Expression := CallExpression (var_ "g") [] (at_col 1 3).
Definition frame_of_g : frame.Frame :=
  frame.mkFrame ("<function " ++ quoted "g" ++ ">") (Some root_frame) (at_col 1 3).
Definition call_len_1 : Expression :=
  CallExpression (var_ "len") [Some (int_ 1)] (at_col 1 6).
Definition frame_of_len : frame.Frame :=
  frame.mkFrame ("<builtin " ++ quoted "len" ++ ">") (Some root_frame) (at_col 1 6).

(** [func k() return g();], the call [k()], the frame of that call and the
    frame of the call of [g] it makes; the block [{ g(); y; }], in which [y]
    is not defined. *)
Definition decl_k : Statement :=
  FunctionDeclarationStatement (var_ "k") []
    (ReturnStatement (CallExpression (var_ "g") [] (at_col 8 10)) nowhere) nowhere.
Definition call_k : Expression := CallExpression (var_ "k") [] (at_col 1 3).
Definition frame_of_k : frame.Frame :=
  frame.mkFrame ("<function " ++ quoted "k" ++ ">") (Some root_frame) (at_col 1 3).
Definition frame_of_g_in_k : frame.Frame :=
  frame.mkFrame ("<function " ++ quoted "g" ++ ">") (Some frame_of_k) (at_col 8 10).
Definition g_then_y : Statement := block_ [expr_ call_g; expr_ (var_ "y")].

(** The state after [func f(a, b=2) return a+b;], and after the call [f(1)]
    made from it. *)
Definition after_decl_f : State :=
  match final_state 3 [decl_f] with
  | Some st => st
  | None => start
  end.
Definition after_call_f : State :=
  match Eval 5 (ExpressionNode (call_f [Some (int_ 1)])) root_env after_decl_f with
  | Ret _ st => st
  | _ => start
  end.

(** What [callFunction] does once the parameters are bound: the body, then
    the pop of the frame unless an error was recorded. *)
Definition body_then_pop (ev : Node -> Environment -> M Object) (body : Statement)
  (funcEnv : Environment) : M Object :=
  let* returnValue := evalWithReturnValue ev body funcEnv in
  check Nil
    (let* _ := popFrame in
     match returnValue with
     | ReturnValue v => ret v
     | _ => ret returnValue
     end).

(** The expressions [es] evaluate one after the other, from [st] to [st'],
    to the values [vs], no error being recorded. *)
Inductive evaluate_all (ev : Node -> Environment -> M Object) (env : Environment)
  : list Expression -> State -> list Object -> State -> Prop :=
| evaluate_none st : evaluate_all ev env [] st [] st
| evaluate_next e es st v st1 vs st2 :
    ev (ExpressionNode e) env st = Ret v st1 ->
    Err st1 = None ->
    evaluate_all ev env es st1 vs st2 ->
    evaluate_all ev env (e :: es) st (v :: vs) st2.

(** The index the [Index] and [Set] methods use for [idx] on a sequence of
    [n] positions: a negative index counts from the end. *)
Definition real_index (n idx : Z) : Z := if idx <? 0 then n + idx else idx.

Definition inconsistent_types (fr : option frame.Frame) (sp : util.Span) : Error :=
  mkError TypeError fr "list elements must have consistent types." sp.

(** [[1, "a"]] and ["a"]. *)
Definition one_and_a : Expression :=
  ListExpression [int_ 1; StringExpression "a" nowhere] nowhere.
Definition string_a : Expression := StringExpression "a" nowhere.

(** The state after [var l = [1, 2];]. *)
Definition after_var_l : State :=
  match final_state 5 [var_l_1_2] with
  | Some st => st
  | None => start
  end.

(** [var y = 5; func h(a = y) return a;] and the block [{ var y = 7; h(); }],
    whose scope binds another [y] than the scope [h] was declared in. *)
Definition var_y (z : Z) : Statement :=
  expr_ (VarInitializationExpression false (var_ "y") (int_ z) nowhere).
Definition decl_h : Statement :=
  FunctionDeclarationStatement (var_ "h") [mkParameter "a" (Some (var_ "y")) nowhere]
    (ReturnStatement (var_ "a") nowhere) nowhere.
Definition call_h_in_block : Expression :=
  BlockExpression [var_y 7; expr_ (CallExpression (var_ "h") [] nowhere)] nowhere.

(** The number of declared parameters and of default values of a callee. *)
Definition arity_of (callee : Object) : option (Z * Z) :=
  match callee with
  | Function _ _ params _ _ => Some (Z.of_nat (length params), defaultLen_of params)
  | BuiltinFunction _ _ params defaults _ =>
      Some (Z.of_nat (length params), builtin_defaultLen_of defaults)
  | _ => None
  end.

(** The addresses of the stores of a scope and of the scopes around it. *)
Fixpoint scopes (e : Environment) : list nat :=
  let 'mkEnvironment s outer := e in
  s :: match outer with
       | Some o => scopes o
       | None => []
       end.

(** The variants whose methods are among the sources. *)
Definition from_sources (o : Object) : bool :=
  match o with
  | Int _ | Float _ | Bool _ | String _ | List _
  | Function _ _ _ _ _ | BuiltinFunction _ _ _ _ _ => true
  | _ => false
  end.

(** The result [r] of a comparison, with the truth value negated. *)
Definition negated (r : MethodResult) : MethodResult :=
  match r with
  | Ok (Bool b) m => Ok (Bool (negb b)) m
  | Ok _ _ => Crash interface_conversion
  | r => r
  end.

(** The memory [m'] is [m], or [m] with one more [String] or [List], at the
    first unused address. *)
Definition allocates_at_most_one (m m' : Memory) : Prop :=
  m' = m
  \/ (exists s, m' = bump (set_string m (Next m) s))
  \/ (exists l, m' = bump (set_list m (Next m) l)).

(** The operator methods of the [Object] interface. *)
Definition unary_operators
  : list (Object -> util.Span -> option frame.Frame -> Memory -> MethodResult) :=
  [Negative; BitNot; Not].
Definition binary_operators (fuel : nat)
  : list (Object -> Object -> util.Span -> option frame.Frame -> Memory -> MethodResult) :=
  [Add; Subtract; Multiply; Divide; Mod; Equal fuel; NotEqual fuel; LessThan;
   GreaterThan; LessThanOrEqual; GreaterThanOrEqual; BitAnd; BitOr; Xor; LeftShift;
   RightShift; And; Or; Index].

(** A memory with the list [[1, 2]] at address 0. *)
Definition Memory_with_list : Memory := snd (new_List [Int 1; Int 2] empty_Memory).
(** A memory with the string ["ab"] at address 0. *)
Definition Memory_with_string : Memory := snd (new_String "ab" empty_Memory).
(** The same memory on another machine. *)
Definition on_machine (h : Machine) (m : Memory) : Memory :=
  mkMemory (Stores m) (Strings m) (Lists m) (Next m) (Stdout m) h.

(** The token types of the compound assignment operators. *)
Definition compound_operator (t : TokenType) : bool :=
  match CompoundAssignmentOperators t with
  | EMPTY => false
  | _ => true
  end.

(** [x = x op e] for the compound assignment [x op= e]: the operator token
    is the one [evalCompoundAssignmentExpression] builds. *)
Definition desugared (x : string) (Operator : Token) (e : Expression)
  (xsp sp : util.Span) : Expression :=
  VarAssignmentExpression (IdentifierExpression x xsp)
    (InfixExpression (IdentifierExpression x xsp)
       (mkToken (CompoundAssignmentOperators (Type_ Operator))
          (slice_to (Literal Operator) (len (Literal Operator) - 1)))
       e sp) sp.

(** The statements [ss] evaluate one after the other, from [st] to [st'],
    no error being recorded. *)
Inductive statements_run (ev : Node -> Environment -> M Object) (env : Environment)
  : list Statement -> State -> State -> Prop :=
| run_none st : statements_run ev env [] st st
| run_next s ss st v st1 st2 :
    ev (StatementNode s) env st = Ret v st1 ->
    Err st1 = None ->
    statements_run ev env ss st1 st2 ->
    statements_run ev env (s :: ss) st st2.

(** The state of [st] with the VariableError of message [msg] recorded. *)
Definition with_VariableError (st : State) (msg : string) (sp : util.Span) : State :=
  with_Err st (mkError VariableError (Frame st) msg sp).

(** The memory [m'] extends [m]: nothing was freed, the output was only
    appended to, and among the objects of [m] no scope lost a name and no list
    changed its length. *)
Definition grows (m m' : Memory) : Prop :=
  (Next m <= Next m')%nat
  /\ (exists out, Stdout m' = Stdout m ++ out)
  /\ (forall s name, (s < Next m)%nat ->
        is_Some (store_at m s !! name) -> is_Some (store_at m' s !! name))
  /\ (forall a, (a < Next m)%nat -> length (list_at m' a) = length (list_at m a)).

Definition Memory_grows (st st' : State) : Prop := grows (Mem st) (Mem st').

(** The state an outcome ends in ([start] when there is none). *)
Definition state_after (r : Outcome Object) : State :=
  match r with
  | Ret _ st => st
  | _ => start
  end.

(** [println(1)]. *)
Definition println_1 : Expression :=
  CallExpression (var_ "println") [Some (int_ 1)] nowhere.

(** The [Fn] of [println] and of [print]; the state after [print(0)] at top
    level and after [print(1)] then; the calls [print(1)] and [println(e)]. *)
Definition printer (newline : bool) : NativeFn :=
  if newline then println_Fn else print_Fn.
Definition print_0_done : State :=
  NewEvaluator (Some root_frame) (write root_Memory (Int 0) false).
Definition print_1 : Expression :=
  CallExpression (var_ "print") [Some (int_ 1)] nowhere.
Definition println_of (e : Expression) : Expression :=
  CallExpression (var_ "println") [Some e] nowhere.
Definition print_1_done : State :=
  with_Mem print_0_done (write (Mem print_0_done) (Int 1) false).

(** The memory [m'] holds what [m] holds: the same output, and the objects of
    [m] with the same contents and bindings (it may hold more objects, and
    more bindings). *)
Definition holds (m m' : Memory) : Prop :=
  (Next m <= Next m')%nat
  /\ Stdout m' = Stdout m
  /\ (forall a, (a < Next m)%nat ->
        Strings m' !! a = Strings m !! a /\ Lists m' !! a = Lists m !! a)
  /\ (forall s name sym, (s < Next m)%nat ->
        store_at m s !! name = Some sym -> store_at m' s !! name = Some sym).

(** A run started with an error recorded ends with an error recorded, in the
    same frame, and has written nothing. *)
Definition quiet (st st' : State) : Prop :=
  Err st <> None ->
  Err st' <> None /\ Frame st' = Frame st /\ holds (Mem st) (Mem st').

(** The state [st] with an OperationError recorded. *)
Definition failed (st : State) : State :=
  with_Err st (mkError OperationError (Frame st) "invalid operation." nowhere).

(** Among the scopes below address [N], only the one at address [x] may have
    gained or lost a name. *)
Definition scoped (N x : nat) (st st' : State) : Prop :=
  (N <= Next (Mem st))%nat ->
  (N <= Next (Mem st'))%nat
  /\ forall s, (s < N)%nat -> s <> x ->
       dom (store_at (Mem st') s) = dom (store_at (Mem st) s).

(** The scope [e] is the one at address [x], or one created after the
    scopes below [N]. *)
Definition local (N x : nat) (e : Environment) : Prop :=
  Store e = x \/ (N <= Store e)%nat.

(** [var z = 1;] and the names a scope binds after a run. *)
Definition var_z_1 : Statement :=
  expr_ (VarInitializationExpression false (var_ "z") (int_ 1) nowhere).
Definition names_after (r : Outcome Object) (s : nat) : gset string :=
  dom (store_at (Mem (state_after r)) s).

(** A Unicode scalar value: a code point that is not a surrogate. *)
Definition valid_rune (r : rune) : bool :=
  (0 <=? r) && (r <=? 1114111) && negb ((55296 <=? r) && (r <=? 57343)).

(** The elements of [bs] are bytes. *)
Definition bytes_ok (bs : list Z) : Prop := Forall (fun b => 0 <= b < 256) bs.

(** The operators that answer an [Int] on two [Int] operands. *)
Definition Int_operators
  : list (Object -> Object -> util.Span -> option frame.Frame -> Memory -> MethodResult) :=
  [Add; Subtract; Multiply; Mod; BitAnd; BitOr; Xor; LeftShift; RightShift].

(** The token types of the prefix and of the infix operators that
    [evalPrefixOperator] and [evalInfixOperator] dispatch on. *)
Definition prefix_operator_types : list TokenType := [MINUS; BANG; BITWISE_NOT].
Definition infix_operator_types : list TokenType :=
  [PLUS; MINUS; ASTERISK; SLASH; PERCENT; EQUALS; NOT_EQUALS; LT; GT; LTE; GTE;
   BITWISE_AND; BITWISE_OR; BITWISE_XOR; LEFT_SHIFT; RIGHT_SHIFT; LOGICAL_AND;
   LOGICAL_OR].

(** The empty block [{}], and the state its evaluation leaves: the scope of
    the block has been allocated. *)
Definition empty_block (sp : util.Span) : Expression := BlockExpression [] sp.
Definition after_empty_block (env : Environment) (st : State) : State :=
  with_Mem st (snd (new_Environment (Some env) (Mem st))).

(** ** Package [util]: the positions of the lexer (pos.go) *)

Module position.

(** The outcome of a Go function that may panic; [OutOfFuel] is the answer
    of a loop that was given too few iterations (the functions of pos.go have
    no loop of their own and never give it). *)
Inductive Result (A : Type) :=
| Done (a : A)
| Panicked (msg : string)
| OutOfFuel.

Arguments Done {A} a.
Arguments Panicked {A} msg.
Arguments OutOfFuel {A}.

Definition slice_bounds_out_of_range : string := "slice bounds out of range".

(** [utf8.RuneLen]: the number of bytes of the encoding of [r], [-1] for a
    value that is no scalar value. *)
Definition RuneLen (r : rune) : Z :=
  if r <? 0 then -1
  else if r <=? 127 then 1
  else if r <=? 2047 then 2
  else if (55296 <=? r) && (r <=? 57343) then -1
  else if r <=? 65535 then 3
  else if r <=? 1114111 then 4
  else -1.

(** [utf8.RuneStart]. *)
Definition RuneStart (b : Z) : bool := negb (Z.land b 192 =? 128).

(** The loop of [utf8.DecodeLastRuneInString] that looks for the first byte
    of the last rune: [start] goes down to [lim]. *)
Fixpoint find_start (n : nat) (bs : list Z) (start lim : Z) : Z :=
  match n with
  | O => start
  | S n' =>
      if start <? lim then start
      else if RuneStart (nth (Z.to_nat start) bs 0) then start
      else find_start n' bs (start - 1) lim
  end.

(** [utf8.DecodeLastRuneInString] (at most four bytes are looked at). *)
Definition DecodeLastRune (bs : list Z) : rune * Z :=
  let end_ := Z.of_nat (length bs) in
  if end_ =? 0 then (RuneError, 0)
  else
    let r := nth (Z.to_nat (end_ - 1)) bs 0 in
    if r <? 128 then (r, 1)
    else
      let lim := if end_ - 4 <? 0 then 0 else end_ - 4 in
      let start := find_start 4 bs (end_ - 2) lim in
      let start := if start <? 0 then 0 else start in
      let '(r, size) := decode_rune (drop (Z.to_nat start) bs) in
      if negb (start + Z.of_nat size =? end_) then (RuneError, 1)
      else (r, Z.of_nat size).

(** [strings.Split(s, sep)] for the separator of one byte [sep]. *)
Fixpoint split_bytes (sep : Z) (bs : list Z) : list (list Z) :=
  match bs with
  | [] => [[]]
  | b :: bs' =>
      if b =? sep then [] :: split_bytes sep bs'
      else
        match split_bytes sep bs' with
        | line :: lines => (b :: line) :: lines
        | [] => [[b]]
        end
  end.

(** [utf8.RuneCountInString] of a line given by its bytes. *)
Definition rune_count (bs : list Z) : Z := Z.of_nat (length (runes_of_bytes (length bs) bs)).

(** [util.Pos]; the [int] fields are unbounded integers here (a text has far
    fewer than 2^63 bytes). *)
Record Pos := mkPos {
  Row : Z;
  Col : Z;
  Idx : Z;
  File : string;
  Text : string;
  Char : rune
}.

(** [p.Char, _ = utf8.DecodeRuneInString(text[idx:]); if p.Char ==
    utf8.RuneError { p.Char = 0 }], for [0 <= idx < len(text)]. *)
Definition char_at (text : string) (idx : Z) : rune :=
  let r := fst (decode_rune (drop (Z.to_nat idx) (bytes_of_string text))) in
  if r =? RuneError then 0 else r.

Definition NewPos (row col idx : Z) (file text : string) : Pos :=
  mkPos row col idx file text
    (if (idx <? len text) && (0 <=? idx) then char_at text idx else 0).

Definition Copy (p : Pos) : Pos := p.

(** [Advance]: slicing the text at a negative index panics. *)
Definition Advance (p : Pos) : Result Pos :=
  if Idx p <? len (Text p) then
    let size := RuneLen (Char p) in
    let idx := Idx p + size in
    let row := if Char p =? 10 then Row p + 1 else Row p in
    let col := if Char p =? 10 then 1 else Col p + 1 in
    if len (Text p) <=? idx then Done (mkPos row col idx (File p) (Text p) 0)
    else if idx <? 0 then Panicked slice_bounds_out_of_range
    else Done (mkPos row col idx (File p) (Text p) (char_at (Text p) idx))
  else Done (mkPos (Row p) (Col p + 1) (Idx p + 1) (File p) (Text p) 0).

(** [Backup]: slicing the text beyond its end panics, and so does the
    lookup of a line that does not exist.  The assignment [p.Char = 0] made
    for [RuneError] is overwritten by [p.Char = char]. *)
Definition Backup (p : Pos) : Result Pos :=
  if Idx p <=? 0 then Done (mkPos (Row p) (Col p - 1) (Idx p - 1) (File p) (Text p) 0)
  else if len (Text p) <? Idx p then Panicked slice_bounds_out_of_range
  else
    let '(char, size) := DecodeLastRune (take (Z.to_nat (Idx p)) (bytes_of_string (Text p))) in
    let idx := Idx p - size in
    if char =? 10 then
      let row := Row p - 1 in
      if row <? 0 then Done (mkPos row 0 idx (File p) (Text p) char)
      else
        let lines := split_bytes 10 (bytes_of_string (Text p)) in
        if row - 1 <? 0 then Panicked index_out_of_range_panic
        else
          match lines !! Z.to_nat (row - 1) with
          | None => Panicked index_out_of_range_panic
          | Some line => Done (mkPos row (rune_count line + 1) idx (File p) (Text p) char)
          end
    else Done (mkPos (Row p) (Col p - 1) idx (File p) (Text p) char).

(** [String]: file, character, row and column. *)
Definition String_ (p : Pos) : string :=
  File p ++ ":" ++ string_of_rune (Char p) ++ ":" ++ decimal (Row p) ++ ":"
    ++ decimal (Col p).

End position.

(** A scalar value other than U+FFFD, the replacement character, which the
    positions take for an ill-formed byte. *)
Definition plain (r : rune) : bool := valid_rune r && negb (r =? RuneError).

(** The text of the code points [rs], as bytes and as a string. *)
Definition encode_all (rs : list rune) : list Z := concat (map encode_rune rs).
Definition text_of (rs : list rune) : string := string_of_bytes (encode_all rs).

(** The row and the column reached from [(row, col)] over the code points
    [rs]. *)
Fixpoint row_col (rs : list rune) (row col : Z) : Z * Z :=
  match rs with
  | [] => (row, col)
  | r :: rs' => if r =? 10 then row_col rs' (row + 1) 1 else row_col rs' row (col + 1)
  end.

(** The position between the code points [pre] and the code points [suf] of
    the text [pre ++ suf]. *)
Definition pos_at (file : string) (pre suf : list rune) : position.Pos :=
  position.mkPos (fst (row_col pre 1 1)) (snd (row_col pre 1 1))
    (Z.of_nat (length (encode_all pre))) file (text_of (pre ++ suf)) (hd 0 suf).

(** The lines of the code points [rs]. *)
Fixpoint split_runes (rs : list rune) : list (list rune) :=
  match rs with
  | [] => [[]]
  | r :: rs' =>
      if r =? 10 then [] :: split_runes rs'
      else
        match split_runes rs' with
        | line :: lines => (r :: line) :: lines
        | [] => [[r]]
        end
  end.

(** ** Package [lexer]: the scanner, its tables and its errors *)

Module scanner.

Import lexer.

(** [lexer.Token] with its positions; the token of an illegal character has
    none ([nil]). *)
Record Token := mkToken {
  Type_ : TokenType;
  Literal : string;
  PosStart : option position.Pos;
  PosEnd : option position.Pos
}.

(** The two error types of error.go. *)
Inductive error :=
| IllegalTokenError (Message : string) (PosStart PosEnd : position.Pos)
| SyntaxError (Message : string) (PosStart PosEnd : position.Pos).

(** A Go map with string keys, as an association list with distinct keys. *)
Fixpoint lookup_string {V : Type} (k : string) (m : list (string * V)) : option V :=
  match m with
  | [] => None
  | (k', v) :: m' => if String.eqb k k' then Some v else lookup_string k m'
  end.

Definition Keywords_table : list (string * TokenType) :=
  [ ("var", VAR); ("const", CONST); ("func", FUNC); ("if", IF); ("else", ELSE);
    ("for", FOR); ("return", RETURN); ("true", TRUE); ("false", FALSE); ("null", NULL) ].

Definition Operators_table : list (string * TokenType) :=
  [ ("+", PLUS); ("-", MINUS); ("*", ASTERISK); ("/", SLASH); ("%", PERCENT);
    (">", GT); ("<", LT); (".", DOT); (",", COMMA); ("=", EQUAL);
    ("[", LBRACKET); ("]", RBRACKET); ("(", LPAREN); (")", RPAREN);
    ("{", LBRACE); ("}", RBRACE); ("!", BANG); ("&", BITWISE_AND);
    ("|", BITWISE_OR); ("^", BITWISE_XOR); ("~", BITWISE_NOT);
    ("<<", LEFT_SHIFT); (">>", RIGHT_SHIFT); ("==", EQUALS); ("!=", NOT_EQUALS);
    ("<=", LTE); (">=", GTE); ("&&", LOGICAL_AND); ("||", LOGICAL_OR);
    ("++", INCREMENT); ("--", DECREMENT); ("->", ARROW); (";", SEMICOLON);
    ("+=", PLUS_EQUAL); ("-=", MINUS_EQUAL); ("*=", ASTERISK_EQUAL);
    ("/=", SLASH_EQUAL); ("%=", PERCENT_EQUAL); ("&=", BITWISE_AND_EQUAL);
    ("|=", BITWISE_OR_EQUAL); ("^=", BITWISE_XOR_EQUAL);
    ("<<=", LEFT_SHIFT_EQUAL); (">>=", RIGHT_SHIFT_EQUAL) ].

(** [Keywords[s]] and [Operators[s]] with the [ok] of Go's two-value form. *)
Definition Keywords (s : string) : option TokenType := lookup_string s Keywords_table.
Definition Operators (s : string) : option TokenType := lookup_string s Operators_table.

(** [Operators[s]] as a value: the empty string for a missing key. *)
Definition Operators_value (s : string) : TokenType :=
  match Operators s with
  | Some t => t
  | None => EMPTY
  end.

Definition LookupIdent (ident : string) : TokenType :=
  match Keywords ident with
  | Some keyword => keyword
  | None => IDENT
  end.

(** [Escape]: the character an escape sequence stands for. *)
Definition Escape (ch : rune) : option rune :=
  if ch =? 110 then Some 10
  else if ch =? 116 then Some 9
  else if ch =? 114 then Some 13
  else if ch =? 98 then Some 8
  else if ch =? 92 then Some 92
  else if ch =? 39 then Some 39
  else if ch =? 34 then Some 34
  else if ch =? 96 then Some 96
  else None.

(** [string(runes)] for a slice of runes. *)
Definition string_of_runes (rs : list rune) : string :=
  fold_right (fun r s => (string_of_rune r ++ s)%string) ""%string rs.

(** [strings.Contains]. *)
Definition Contains (s substr : string) : bool :=
  match String.index 0 substr s with
  | Some _ => true
  | None => false
  end.

Record Lexer := mkLexer {
  File : string;
  Input : string;
  CurrPos : position.Pos;
  NextPos : position.Pos
}.

Definition bind {A B : Type} (r : position.Result A) (f : A -> position.Result B) :
    position.Result B :=
  match r with
  | position.Done a => f a
  | position.Panicked msg => position.Panicked msg
  | position.OutOfFuel => position.OutOfFuel
  end.

Notation "'let!' x := c 'in' k" := (bind c (fun x => k))
  (at level 10, x pattern, c at level 200, k at level 200).

(** The character at the current position. *)
Definition Curr (l : Lexer) : rune := position.Char (CurrPos l).

Definition NextChar (l : Lexer) : position.Result Lexer :=
  let curr := position.Copy (NextPos l) in
  let! next := position.Advance (NextPos l) in
  position.Done (mkLexer (File l) (Input l) curr next).

Definition Backup (l : Lexer) : position.Result Lexer :=
  let next := position.Copy (CurrPos l) in
  let! curr := position.Backup (CurrPos l) in
  position.Done (mkLexer (File l) (Input l) curr next).

Definition NewLexer (file input : string) : position.Result Lexer :=
  NextChar (mkLexer file input (position.NewPos 1 0 (-1) file input)
              (position.NewPos 1 1 0 file input)).

Definition isNumber (ch : rune) : bool := (48 <=? ch) && (ch <=? 57).

Definition isLetter (ch : rune) : bool :=
  (97 <=? ch) && (ch <=? 122) || (65 <=? ch) && (ch <=? 90) || (ch =? 95) || (128 <=? ch).

Definition isOperator (ch : rune) : bool :=
  match Operators (string_of_rune ch) with
  | Some _ => true
  | None => false
  end.

Fixpoint eatWhitespace_loop (fuel : nat) (l : Lexer) : position.Result Lexer :=
  match fuel with
  | O => position.OutOfFuel
  | S fuel' =>
      if (Curr l =? 32) || (Curr l =? 9) || (Curr l =? 10) || (Curr l =? 13) then
        let! l := NextChar l in eatWhitespace_loop fuel' l
      else position.Done l
  end.

Definition eatWhitespace (fuel : nat) (l : Lexer) : position.Result Lexer :=
  let! l := eatWhitespace_loop fuel l in Backup l.

Fixpoint skipComment_loop (fuel : nat) (l : Lexer) : position.Result Lexer :=
  match fuel with
  | O => position.OutOfFuel
  | S fuel' =>
      if negb (Curr l =? 10) && negb (Curr l =? 0) then
        let! l := NextChar l in skipComment_loop fuel' l
      else position.Done l
  end.

Definition skipComment (fuel : nat) (l : Lexer) : position.Result Lexer :=
  let! l := NextChar l in
  let! l := NextChar l in
  let! l := skipComment_loop fuel l in
  if Curr l =? 10 then NextChar l else position.Done l.

(** The condition [l.CurrPos.Char != '*' || l.NextPos.Char != '/']. *)
Definition not_closing (l : Lexer) : bool :=
  negb (Curr l =? 42) || negb (position.Char (NextPos l) =? 47).

Fixpoint skipMultilineComment_loop (fuel : nat) (l : Lexer) : position.Result Lexer :=
  match fuel with
  | O => position.OutOfFuel
  | S fuel' =>
      if not_closing l && negb (Curr l =? 0) then
        let! l := NextChar l in skipMultilineComment_loop fuel' l
      else position.Done l
  end.

Definition skipMultilineComment (fuel : nat) (l : Lexer) :
    position.Result (option error * Lexer) :=
  let! l := NextChar l in
  let! l := NextChar l in
  let! l := skipMultilineComment_loop fuel l in
  if not_closing l then
    let! posEnd := position.Advance (position.Copy (NextPos l)) in
    position.Done (Some (SyntaxError (quoted "*/" ++ " is expected.")%string (position.Copy (CurrPos l)) posEnd),
          l)
  else
    let! l := NextChar l in
    let! l := NextChar l in
    position.Done (None, l).

Fixpoint scanNumber_loop (fuel : nat) (num : string) (dotCount : Z) (l : Lexer) :
    position.Result ((string * option error) * Lexer) :=
  match fuel with
  | O => position.OutOfFuel
  | S fuel' =>
      if isNumber (Curr l) || (Curr l =? 46) then
        let dotCount := if Curr l =? 46 then dotCount + 1 else dotCount in
        if (Curr l =? 46) && (1 <? dotCount) then
          position.Done (("", Some (IllegalTokenError "illegal float literal."
                             (position.Copy (CurrPos l)) (position.Copy (NextPos l)))), l)
        else
          let num := (num ++ string_of_rune (Curr l))%string in
          let! l := NextChar l in
          scanNumber_loop fuel' num dotCount l
      else
        let! l := Backup l in
        position.Done ((num, None), l)
  end.

Definition scanNumber (fuel : nat) (l : Lexer) :
    position.Result ((string * option error) * Lexer) :=
  scanNumber_loop fuel "" 0 l.

Fixpoint scanIdentifier_loop (fuel : nat) (runes : list rune) (l : Lexer) :
    position.Result (list rune * Lexer) :=
  match fuel with
  | O => position.OutOfFuel
  | S fuel' =>
      let runes := runes ++ [Curr l] in
      let! l := NextChar l in
      if negb (isLetter (Curr l)) && negb (isNumber (Curr l)) then position.Done (runes, l)
      else scanIdentifier_loop fuel' runes l
  end.

Definition scanIdentifier (fuel : nat) (l : Lexer) : position.Result (string * Lexer) :=
  let! (runes, l) := scanIdentifier_loop fuel [] l in
  let! l := Backup l in
  position.Done (string_of_runes runes, l).

(** [op[:len(op)-1]]; [op] is never empty there. *)
Definition drop_last_byte (op : string) : string :=
  String.substring 0 (String.length op - 1) op.

Fixpoint scanOperator_loop (fuel : nat) (op : string) (l : Lexer) :
    position.Result (string * Lexer) :=
  match fuel with
  | O => position.OutOfFuel
  | S fuel' =>
      let op := (op ++ string_of_rune (Curr l))%string in
      let! l := NextChar l in
      match Operators op with
      | None =>
          let! l := Backup l in
          position.Done (drop_last_byte op, l)
      | Some _ =>
          if negb (isOperator (Curr l)) then position.Done (op, l)
          else scanOperator_loop fuel' op l
      end
  end.

Definition scanOperator (fuel : nat) (l : Lexer) : position.Result (string * Lexer) :=
  let! (op, l) := scanOperator_loop fuel "" l in
  let! l := Backup l in
  position.Done (op, l).

Fixpoint scanString_loop (fuel : nat) (posStart : position.Pos) (quote : rune)
    (runes : list rune) (l : Lexer) : position.Result ((string * option error) * Lexer) :=
  match fuel with
  | O => position.OutOfFuel
  | S fuel' =>
      if negb (Curr l =? quote) && negb (Curr l =? 0) then
        if (Curr l =? 92) && negb (quote =? 96) then
          let slashPos := position.Copy (CurrPos l) in
          let! l := NextChar l in
          if Curr l =? 0 then
            position.Done (("", Some (IllegalTokenError "trailing backslash." slashPos
                               (position.Copy (NextPos l)))), l)
          else
            match Escape (Curr l) with
            | None =>
                position.Done (("", Some (IllegalTokenError "illegal escape character." slashPos
                                   (position.Copy (NextPos l)))), l)
            | Some escapeChar =>
                let runes := runes ++ [escapeChar] in
                let! l := NextChar l in
                scanString_loop fuel' posStart quote runes l
            end
        else
          let runes := runes ++ [Curr l] in
          let! l := NextChar l in
          scanString_loop fuel' posStart quote runes l
      else if negb (Curr l =? quote) then
        position.Done (("", Some (IllegalTokenError "unterminated string literal." posStart
                           (position.Copy (NextPos l)))), l)
      else position.Done ((string_of_runes runes, None), l)
  end.

Definition scanString (fuel : nat) (l : Lexer) :
    position.Result ((string * option error) * Lexer) :=
  let posStart := position.Copy (CurrPos l) in
  let quote := Curr l in
  let! l := NextChar l in
  scanString_loop fuel posStart quote [] l.

(** The token [NextToken] returns with the positions it copies. *)
Definition token (t : TokenType) (literal : string) (posStart : position.Pos) (l : Lexer) :
    Token :=
  mkToken t literal (Some posStart) (Some (position.Copy (NextPos l))).

(** [NextToken]: the token and the error it returns, and the lexer it leaves. *)
Fixpoint NextToken (fuel : nat) (l : Lexer) :
    position.Result ((Token * option error) * Lexer) :=
  match fuel with
  | O => position.OutOfFuel
  | S fuel' =>
      if Curr l =? 0 then position.Done ((token EOF "EOF" (position.Copy (CurrPos l)) l, None), l)
      else if (Curr l =? 32) || (Curr l =? 9) || (Curr l =? 13) || (Curr l =? 10) then
        let! l := eatWhitespace fuel' l in
        let! l := NextChar l in
        NextToken fuel' l
      else if isNumber (Curr l) then
        let posStart := position.Copy (CurrPos l) in
        let! ((num, err), l) := scanNumber fuel' l in
        if String.eqb num "." then position.Done ((token DOT "." posStart l, None), l)
        else
          match err with
          | Some e => position.Done ((token ILLEGAL "ILLEGAL" posStart l, Some e), l)
          | None =>
              if Contains num "." then position.Done ((token FLOAT num posStart l, None), l)
              else position.Done ((token INT num posStart l, None), l)
          end
      else if isLetter (Curr l) then
        let posStart := position.Copy (CurrPos l) in
        let! (id, l) := scanIdentifier fuel' l in
        position.Done ((token (LookupIdent id) id posStart l, None), l)
      else if isOperator (Curr l) then
        let posStart := position.Copy (CurrPos l) in
        if (Curr l =? 47) && (position.Char (NextPos l) =? 47) then
          let! l := skipComment fuel' l in
          NextToken fuel' l
        else if (Curr l =? 47) && (position.Char (NextPos l) =? 42) then
          let! (err, l) := skipMultilineComment fuel' l in
          match err with
          | Some e => position.Done ((token ILLEGAL "ILLEGAL" posStart l, Some e), l)
          | None => NextToken fuel' l
          end
        else
          let! (op, l) := scanOperator fuel' l in
          position.Done ((token (Operators_value op) op posStart l, None), l)
      else if (Curr l =? 34) || (Curr l =? 39) || (Curr l =? 96) then
        let posStart := position.Copy (CurrPos l) in
        let! ((str, err), l) := scanString fuel' l in
        match err with
        | Some e => position.Done ((token ILLEGAL "ILLEGAL" posStart l, Some e), l)
        | None => position.Done ((token STRING str posStart l, None), l)
        end
      else
        position.Done ((mkToken ILLEGAL "ILLEGAL" None None,
               Some (IllegalTokenError ("illegal token " ++ quoted (string_of_rune (Curr l)) ++ ".")%string
                       (position.Copy (CurrPos l)) (position.Copy (NextPos l)))), l)
  end.

End scanner.

(** The position one step past [p], where there is no text. *)
Definition past_end (p : position.Pos) : position.Pos :=
  position.mkPos (position.Row p) (position.Col p + 1) (position.Idx p + 1)
    (position.File p) (position.Text p) 0.

(** The lexer whose current position lies between the code points [pre] and
    [suf] of the text [pre ++ suf], its next position one code point on. *)
Definition lex_at (file : string) (pre suf : list rune) : scanner.Lexer :=
  scanner.mkLexer file (text_of (pre ++ suf)) (pos_at file pre suf)
    match suf with
    | c :: suf' => pos_at file (pre ++ [c]) suf'
    | [] => past_end (pos_at file pre [])
    end.

(** The number of dots among the code points [cs]. *)
Definition dots (cs : list rune) : Z := Z.of_nat (length (List.filter (fun r => r =? 46) cs)).

(** Every code point of [cs], added to [op] one after the other, gives an
    operator. *)
Fixpoint operators_all_along (op : string) (cs : list rune) : bool :=
  match cs with
  | [] => true
  | c :: cs' =>
      match scanner.Operators (op ++ string_of_rune c) with
      | Some _ => operators_all_along (op ++ string_of_rune c) cs'
      | None => false
      end
  end.

(** What the scanner needs of the code points [ops] of an operator: there is
    one, each of its prefixes is an operator, each of its code points is an
    operator, the first one is nothing that [NextToken] looks for before
    operators, and after a slash comes neither a slash nor a star. *)
Definition operator_run (ops : list rune) : bool :=
  match ops with
  | [] => false
  | z :: cs =>
      operators_all_along "" ops && forallb scanner.isOperator ops
      && negb (z =? 0) && negb ((z =? 32) || (z =? 9) || (z =? 13) || (z =? 10))
      && negb (scanner.isNumber z) && negb (scanner.isLetter z)
      && (negb (z =? 47) || match cs with
                            | [] => true
                            | c :: _ => negb (c =? 47) && negb (c =? 42)
                            end)
  end.

(** A blank: space, tab, newline or carriage return. *)
Definition blank (c : rune) : bool := (c =? 32) || (c =? 9) || (c =? 10) || (c =? 13).

(** No star of [cs] is followed by a slash. *)
Fixpoint no_close (cs : list rune) : bool :=
  match cs with
  | [] => true
  | c :: rest => negb ((c =? 42) && (hd 0 rest =? 47)) && no_close rest
  end.

(** A piece of a string literal: a character that stands for itself, or a
    backslash and the character after it. *)
Inductive piece :=
| Plain (c : rune)
| Escaped (c : rune).

(** The code points of a piece in the source text. *)
Definition source (p : piece) : list rune :=
  match p with
  | Plain c => [c]
  | Escaped c => [92; c]
  end.

(** The code point a piece stands for. *)
Definition value (p : piece) : rune :=
  match p with
  | Plain c => c
  | Escaped c =>
      match scanner.Escape c with
      | Some e => e
      | None => 0
      end
  end.

(** The pieces of a literal between quotes [quote]: a character that stands
    for itself is neither the quote nor NUL, nor a backslash unless the quote
    is the backtick; an escape is one of the [Escape] table, and there is none
    between backticks. *)
Definition piece_ok (quote : rune) (p : piece) : bool :=
  match p with
  | Plain c => negb (c =? quote) && negb (c =? 0) && (negb (c =? 92) || (quote =? 96))
  | Escaped c =>
      negb (quote =? 96)
      && match scanner.Escape c with
         | Some _ => true
         | None => false
         end
  end.

Definition is_quote (c : rune) : bool := (c =? 34) || (c =? 39) || (c =? 96).

(** The lexer [l] stands in the text [pre ++ suf], at least [k] code points
    behind [pre]. *)
Definition reaches (file : string) (pre suf : list rune) (k : nat) (l : scanner.Lexer) : Prop :=
  exists pre' suf' : list rune,
    l = lex_at file pre' suf' /\ pre' ++ suf' = pre ++ suf
    /\ (length pre + k <= length pre')%nat.

(** ** The operator methods: promotion and division by zero *)

(** C5 as stated fails where the divisor is zero: [1 % 0] is a MathError, not
    an [Int]. *)
Lemma modulo_by_zero_is_no_Int :
  Mod (Int 1) (Int 0) nowhere None empty_Memory
  = Fail (mkError MathError None "division by zero." nowhere).
Proof. reflexivity. Qed.

(** C5 (amended): an [Int] and a [Float] operand, in either order, give the
    [Float] computed with the [Int] converted to floating point; two [Int]
    operands give an [Int] for addition, subtraction, multiplication and
    modulo, and the [Float] quotient of the converted operands for division;
    [a % f] is a [Float] -- for division and modulo provided the right operand
    is not zero. *)
Theorem numeric_promotion (a a2 : Z) (b : float64) (sp : util.Span)
  (fr : option frame.Frame) (m : Memory) :
  (Add (Int a) (Float b) sp fr m = Ok (Float (PrimFloat.add (float64_of_int64 a) b)) m
   /\ Add (Float b) (Int a) sp fr m = Ok (Float (PrimFloat.add b (float64_of_int64 a))) m
   /\ Subtract (Int a) (Float b) sp fr m
      = Ok (Float (PrimFloat.sub (float64_of_int64 a) b)) m
   /\ Subtract (Float b) (Int a) sp fr m
      = Ok (Float (PrimFloat.sub b (float64_of_int64 a))) m
   /\ Multiply (Int a) (Float b) sp fr m
      = Ok (Float (PrimFloat.mul (float64_of_int64 a) b)) m
   /\ Multiply (Float b) (Int a) sp fr m
      = Ok (Float (PrimFloat.mul b (float64_of_int64 a))) m)
  /\ (feq b fzero = false ->
      Divide (Int a) (Float b) sp fr m
      = Ok (Float (PrimFloat.div (float64_of_int64 a) b)) m
      /\ Mod (Int a) (Float b) sp fr m = Ok (Float (math_Mod (float64_of_int64 a) b)) m)
  /\ (a <> 0 ->
      Divide (Float b) (Int a) sp fr m
      = Ok (Float (PrimFloat.div b (float64_of_int64 a))) m
      /\ Mod (Float b) (Int a) sp fr m = Ok (Float (math_Mod b (float64_of_int64 a))) m)
  /\ (Add (Int a) (Int a2) sp fr m = Ok (Int (wrap64 (a + a2))) m
      /\ Subtract (Int a) (Int a2) sp fr m = Ok (Int (wrap64 (a - a2))) m
      /\ Multiply (Int a) (Int a2) sp fr m = Ok (Int (wrap64 (a * a2))) m)
  /\ (a2 <> 0 ->
      Mod (Int a) (Int a2) sp fr m = Ok (Int (Z.rem a a2)) m
      /\ Divide (Int a) (Int a2) sp fr m
         = Ok (Float (PrimFloat.div (float64_of_int64 a) (float64_of_int64 a2))) m).
Proof.
  repeat split; try reflexivity;
    unfold Divide, Mod, Int_Divide, Int_Mod, Float_Divide, Float_Mod;
    rewrite ?H, ?(proj2 (Z.eqb_neq _ _) H); reflexivity.
Qed.

Lemma numeric_promotion_witness :
  Divide (Int 7) (Float 0.5%float) nowhere None empty_Memory
  = Ok (Float (PrimFloat.div (float64_of_int64 7) 0.5%float)) empty_Memory
  /\ Mod (Int 7) (Int 2) nowhere None empty_Memory = Ok (Int 1) empty_Memory
  /\ Divide (Float 0.5%float) (Int 7) nowhere None empty_Memory
     = Ok (Float (PrimFloat.div 0.5%float (float64_of_int64 7))) empty_Memory.
Proof.
  destruct (numeric_promotion 7 2 0.5%float nowhere None empty_Memory)
    as (_ & Hf & Hi & _ & Hm).
  split; [ apply Hf; reflexivity | split ].
  - apply Hm. discriminate.
  - apply Hi. discriminate.
Defined.

Lemma division_by_zero_method (left right : Object) (sp : util.Span)
  (fr : option frame.Frame) (m : Memory) :
  numeric left = true -> zero_operand right = true ->
  Divide left right sp fr m = division_by_zero sp fr
  /\ Mod left right sp fr m = division_by_zero sp fr.
Proof.
  destruct left; try discriminate; destruct right; try discriminate;
    simpl; intros _ Hz;
    unfold Int_Divide, Int_Mod, Float_Divide, Float_Mod; rewrite Hz; auto.
Qed.

(** C6: dividing a number, or taking it modulo, by [Int 0], [Float 0.0] or
    [Float -0.0] is the MathError "division by zero." with no result value
    ([Nil]), never a panic: for the [Divide] and [Mod] methods, for the
    operator dispatch of the evaluator, and for the programs [1/0] and
    [1.0/0.0]. *)
Theorem division_by_zero_is_MathError :
  (forall left right sp fr m,
      numeric left = true -> zero_operand right = true ->
      Divide left right sp fr m = Fail (mkError MathError fr "division by zero." sp)
      /\ Mod left right sp fr m = Fail (mkError MathError fr "division by zero." sp))
  /\ (forall fuel op left right sp st,
         Type_ op = SLASH \/ Type_ op = PERCENT ->
         numeric left = true -> zero_operand right = true ->
         evalInfixOperator fuel op sp left right st
         = Ret Nil (with_Err st (mkError MathError (Frame st) "division by zero." sp)))
  /\ (forall n env st,
         Err st = None ->
         Eval (S (S n)) (ExpressionNode one_by_zero) env st
         = Ret Nil (with_Err st (mkError MathError (Frame st) "division by zero." nowhere))
         /\ Eval (S (S n)) (ExpressionNode one_by_zero_float) env st
            = Ret Nil
                (with_Err st (mkError MathError (Frame st) "division by zero." nowhere))).
Proof.
  split; [| split].
  - intros. now apply division_by_zero_method.
  - intros fuel op left right sp st Hop Hn Hz.
    destruct (division_by_zero_method left right sp (Frame st) (Mem st) Hn Hz)
      as [Hd Hm].
    unfold evalInfixOperator, method.
    destruct Hop as [-> | ->]; [rewrite Hd | rewrite Hm]; reflexivity.
  - intros n env st He. split; cbn; unfold check, bind, ret; cbn; rewrite He; reflexivity.
Qed.

Lemma division_by_zero_is_MathError_witness :
  Divide (Float 1%float) (Float (-0)%float) nowhere None empty_Memory
  = Fail (mkError MathError None "division by zero." nowhere)
  /\ evalInfixOperator 0 (tok PERCENT "%") nowhere (Int 5) (Int 0) start
     = Ret Nil (with_Err start (mkError MathError (Frame start) "division by zero." nowhere))
  /\ Eval 2 (ExpressionNode one_by_zero) root_env start
     = Ret Nil (with_Err start (mkError MathError (Frame start) "division by zero." nowhere)).
Proof.
  destruct division_by_zero_is_MathError as (Hm & Ho & He).
  split; [| split].
  - apply (Hm (Float 1%float) (Float (-0)%float)); reflexivity.
  - apply (Ho 0%nat (tok PERCENT "%") (Int 5) (Int 0)); [right |..]; reflexivity.
  - apply (He 0%nat root_env start). reflexivity.
Defined.

(** ** [&&] and [||] *)

(** C9: [&&] with a left operand [false], and [||] with a left operand
    [true], yield that value in the state the left operand left, whatever
    the right operand is: the right operand is not evaluated.  A left
    operand that is no [Bool], and an evaluated right operand that is no
    [Bool], are OperationErrors.  [false && (1/0)] is [false] and
    [true || (1/0)] is [true], no error being recorded. *)
Theorem logical_operators_short_circuit :
  (forall n left right lit sp env st st1,
      Eval n (ExpressionNode left) env st = Ret (Bool false) st1 ->
      Err st1 = None ->
      Eval (S n) (ExpressionNode (InfixExpression left (mkToken LOGICAL_AND lit) right sp))
        env st = Ret (Bool false) st1)
  /\ (forall n left right lit sp env st st1,
         Eval n (ExpressionNode left) env st = Ret (Bool true) st1 ->
         Err st1 = None ->
         Eval (S n) (ExpressionNode (InfixExpression left (mkToken LOGICAL_OR lit) right sp))
           env st = Ret (Bool true) st1)
  /\ (forall n left right lit sp env st st1 v,
         Eval n (ExpressionNode left) env st = Ret v st1 ->
         Err st1 = None ->
         is_Bool v = false ->
         Eval (S n) (ExpressionNode (InfixExpression left (mkToken LOGICAL_AND lit) right sp))
           env st
         = Ret Nil (with_Err st1 (mkError OperationError (Frame st1)
                                    ("invalid operation " ++ quoted "&&" ++ ".") sp))
         /\ Eval (S n)
              (ExpressionNode (InfixExpression left (mkToken LOGICAL_OR lit) right sp))
              env st
            = Ret Nil (with_Err st1 (mkError OperationError (Frame st1)
                                       ("invalid operation " ++ quoted "||" ++ ".") sp)))
  /\ (forall n left right lit sp env st st1 st2 v,
         Err st1 = None ->
         Eval n (ExpressionNode right) env st1 = Ret v st2 ->
         Err st2 = None ->
         is_Bool v = false ->
         (Eval n (ExpressionNode left) env st = Ret (Bool true) st1 ->
          Eval (S n)
            (ExpressionNode (InfixExpression left (mkToken LOGICAL_AND lit) right sp))
            env st
          = Ret Nil (with_Err st2 (mkError OperationError (Frame st2)
                                     ("invalid operation " ++ quoted "&&" ++ ".") sp)))
         /\ (Eval n (ExpressionNode left) env st = Ret (Bool false) st1 ->
             Eval (S n)
               (ExpressionNode (InfixExpression left (mkToken LOGICAL_OR lit) right sp))
               env st
             = Ret Nil (with_Err st2 (mkError OperationError (Frame st2)
                                        ("invalid operation " ++ quoted "||" ++ ".") sp))))
  /\ Eval 2 (ExpressionNode false_and_crash) root_env start = Ret (Bool false) start
  /\ Eval 2 (ExpressionNode true_or_crash) root_env start = Ret (Bool true) start.
Proof.
  repeat match goal with |- _ /\ _ => split end; try reflexivity.
  - intros n left right lit sp env st st1 Hl He. simpl.
    unfold evalInfixExpression, bind, check. rewrite Hl, He. reflexivity.
  - intros n left right lit sp env st st1 Hl He. simpl.
    unfold evalInfixExpression, bind, check. rewrite Hl, He. reflexivity.
  - intros n left right lit sp env st st1 v Hl He Hv. simpl.
    unfold evalInfixExpression, bind, check. rewrite Hl, He.
    destruct v; try discriminate; split; reflexivity.
  - intros n left right lit sp env st st1 st2 v He1 Hr He2 Hv.
    split; intros Hl; simpl;
      unfold evalInfixExpression, bind, check; rewrite Hl, He1; simpl;
      rewrite Hr, He2; simpl;
      unfold evalInfixOperator, method; simpl;
      destruct v; try discriminate; simpl; rewrite ?He2; reflexivity.
Qed.

Lemma logical_operators_short_circuit_witness :
  Eval 2 (ExpressionNode (InfixExpression (BoolExpression false nowhere)
                            (mkToken LOGICAL_AND "&&") (var_ "undefined") nowhere))
    root_env start = Ret (Bool false) start
  /\ Eval 2 (ExpressionNode (InfixExpression (int_ 1) (mkToken LOGICAL_OR "||")
                               (int_ 2) nowhere)) root_env start
     = Ret Nil (with_Err start (mkError OperationError (Frame start)
                                  ("invalid operation " ++ quoted "||" ++ ".") nowhere))
  /\ Eval 2 (ExpressionNode (InfixExpression (BoolExpression true nowhere)
                               (mkToken LOGICAL_AND "&&") (int_ 2) nowhere)) root_env start
     = Ret Nil (with_Err start (mkError OperationError (Frame start)
                                  ("invalid operation " ++ quoted "&&" ++ ".") nowhere)).
Proof.
  destruct logical_operators_short_circuit as (Hand & _ & Hleft & Hright & _).
  split; [| split].
  - apply (Hand 1%nat); reflexivity.
  - apply (Hleft 1%nat (int_ 1) (int_ 2) "||" nowhere root_env start start (Int 1));
      reflexivity.
  - apply (Hright 1%nat (BoolExpression true nowhere) (int_ 2) "&&" nowhere root_env
             start start start (Int 2)); reflexivity.
Defined.

(** ** Scopes, increments and decrements *)

Lemma store_at_set_store (m : Memory) (a : nat) (s : gmap string Symbol) :
  store_at (set_store m a s) a = s.
Proof. unfold store_at, set_store. simpl. now rewrite lookup_insert_eq. Qed.

Lemma store_at_set_store_ne (m : Memory) (a b : nat) (s : gmap string Symbol) :
  a <> b -> store_at (set_store m a s) b = store_at m b.
Proof. intros. unfold store_at, set_store. simpl. now rewrite lookup_insert_ne. Qed.

Lemma Environment_Get_Set (m : Memory) (env : Environment) (name : string)
  (sym : Symbol) :
  Environment_Get (Environment_Set m env name sym) env name = Some sym.
Proof.
  destruct env as [s outer]. unfold Environment_Set. simpl.
  now rewrite store_at_set_store, lookup_insert_eq.
Qed.

Lemma incDec_on_Int (fuel : nat) (op : Token) (sp : util.Span) (v : Z) (st : State) :
  evalInfixOperator fuel (incDecOperator op) sp (Int v) (Int 1) st
  = Ret (Int (inc_or_dec op v)) st.
Proof.
  unfold incDecOperator, inc_or_dec, evalInfixOperator, method.
  destruct st; destruct (Type_ op); reflexivity.
Qed.

(** C10: on an identifier bound to a non-constant [Int], the postfix forms
    evaluate to the value held before and the prefix forms to the updated
    value; both store the updated value, which is what the name then
    resolves to. *)
Theorem postfix_yields_old_prefix_yields_new
  (n : nat) (op : Token) (name : string) (isp sp : util.Span) (env : Environment)
  (st : State) (sym : Symbol) (v : Z) :
  Err st = None ->
  Environment_Get (Mem st) env name = Some sym ->
  IsConst sym = false ->
  Value sym = Int v ->
  let updated := mkSymbol name (Int (inc_or_dec op v)) false in
  let st' := with_Mem st (Environment_Set (Mem st) env name updated) in
  Eval (S (S n))
    (ExpressionNode (PostfixUnaryIncDecExpression op (IdentifierExpression name isp) sp))
    env st = Ret (Int v) st'
  /\ Eval (S (S n))
       (ExpressionNode (PrefixUnaryIncDecExpression op (IdentifierExpression name isp) sp))
       env st = Ret (Int (inc_or_dec op v)) st'
  /\ Environment_Get (Mem st') env name = Some updated.
Proof.
  intros He Hg Hc Hv updated st'.
  split; [| split].
  - simpl. unfold evalPostfixUnaryIncDecExpression, evalIdentifierExpression,
      bind, getMem, check, ret, envSet.
    rewrite Hg, Hc, Hg, He, Hv, incDec_on_Int. simpl. rewrite He. reflexivity.
  - simpl. unfold evalPrefixUnaryIncDecExpression, evalIdentifierExpression,
      bind, getMem, check, ret, envSet.
    rewrite Hg, Hc, Hg, He, Hv, incDec_on_Int. simpl. rewrite He. reflexivity.
  - apply Environment_Get_Set.
Qed.

Lemma postfix_yields_old_prefix_yields_new_witness :
  Eval 2 (ExpressionNode (postfix_ INCREMENT "++" "x")) inner_env in_block
  = Ret (Int 0) (with_Mem in_block (Environment_Set (Mem in_block) inner_env "x" x_is_1))
  /\ Eval 2 (ExpressionNode (prefix_ INCREMENT "++" "x")) inner_env in_block
     = Ret (Int 1) (with_Mem in_block (Environment_Set (Mem in_block) inner_env "x" x_is_1))
  /\ Environment_Get (Environment_Set (Mem in_block) inner_env "x" x_is_1) inner_env "x"
     = Some x_is_1.
Proof.
  apply (postfix_yields_old_prefix_yields_new 0 (tok INCREMENT "++") "x" nowhere nowhere
           inner_env in_block x_is_0 0); reflexivity.
Defined.

(** C1 fails on the code: with [x] defined in the enclosing scope only,
    [x++], [++x], [x--] and [--x] bind a new [x] in the current scope and
    leave the outer binding as it was, where [x += 1] and [x -= 1] update the
    outer binding and bind nothing in the current scope; after
    [var x = 0; { x++; };] the variable [x] is still [0], after
    [var x = 0; { x += 1; };] it is [1]. *)
Theorem increment_shadows_outer_variable :
  bindings_of_x (Eval 2 (ExpressionNode (postfix_ INCREMENT "++" "x")) inner_env in_block)
  = Some (Some x_is_1, Some x_is_0)
  /\ bindings_of_x (Eval 2 (ExpressionNode (prefix_ INCREMENT "++" "x")) inner_env in_block)
     = Some (Some x_is_1, Some x_is_0)
  /\ bindings_of_x
       (Eval 2 (ExpressionNode (compound_ "x" PLUS_EQUAL "+=" (int_ 1))) inner_env in_block)
     = Some (None, Some x_is_1)
  /\ bindings_of_x (Eval 2 (ExpressionNode (postfix_ DECREMENT "--" "x")) inner_env in_block)
     = Some (Some (mkSymbol "x" (Int (-1)) false), Some x_is_0)
  /\ bindings_of_x (Eval 2 (ExpressionNode (prefix_ DECREMENT "--" "x")) inner_env in_block)
     = Some (Some (mkSymbol "x" (Int (-1)) false), Some x_is_0)
  /\ bindings_of_x
       (Eval 2 (ExpressionNode (compound_ "x" MINUS_EQUAL "-=" (int_ 1))) inner_env in_block)
     = Some (None, Some (mkSymbol "x" (Int (-1)) false))
  /\ result_of (run 6 [var_x_0; block_ [expr_ (postfix_ INCREMENT "++" "x")]] (var_ "x"))
     = Some (Int 0, None)
  /\ result_of (run 6 [var_x_0; block_ [expr_ (compound_ "x" PLUS_EQUAL "+=" (int_ 1))]]
                  (var_ "x"))
     = Some (Int 1, None).
Proof. repeat split; vm_compute; reflexivity. Qed.

(** ** Constants *)

Lemma checkIndexTargetConst_rooted (fr : option frame.Frame) (m : Memory)
  (env : Environment) (sp : util.Span) (name : string) (sym : Symbol)
  (target : Expression) :
  rooted_at name target ->
  Environment_Get m env name = Some sym ->
  IsConst sym = true ->
  checkIndexTargetConst fr m target env sp
  = Some (mkError VariableError fr (cannot_redefine name) sp).
Proof.
  intros Hr Hg Hc. induction Hr as [isp | t i isp _ IH]; simpl.
  - now rewrite Hg, Hc.
  - exact IH.
Qed.

Lemma withIndexTarget_const (ev : Node -> Environment -> M Object)
  (target index : Expression) (isp sp : util.Span) (env : Environment)
  (k : Object -> Object -> M Object) (name : string) (sym : Symbol) (st : State) :
  rooted_at name target ->
  Environment_Get (Mem st) env name = Some sym ->
  IsConst sym = true ->
  withIndexTarget ev target index isp sp env k st
  = Ret Nil (with_Err st (mkError VariableError (Frame st) (cannot_redefine name) isp)).
Proof.
  intros Hr Hg Hc. unfold withIndexTarget, bind, getFrame, getMem.
  now rewrite (checkIndexTargetConst_rooted _ _ _ _ _ _ _ Hr Hg Hc).
Qed.

(** The targets the check covers: when a name resolves to a constant, a
    plain assignment, a compound assignment, an increment and a decrement of
    that name, and of an index chain that is made of index expressions down
    to that name, record a VariableError and change nothing else: the memory,
    hence the binding and the bound value, is the one before.
    [const x = 1; x = 2;] and [const l = [1]; l[0] = 2;] end with a
    VariableError, [x] still [1] and [l] still [[1]]. *)
Lemma constants_are_never_reassigned :
  (forall n name sym env st,
      Environment_Get (Mem st) env name = Some sym ->
      IsConst sym = true ->
      let refused sp :=
        Ret Nil (with_Err st (mkError VariableError (Frame st) (cannot_redefine name) sp)) in
      (forall isp sp value op,
          Eval (S n)
            (ExpressionNode (VarAssignmentExpression (IdentifierExpression name isp) value sp))
            env st = refused sp
          /\ Eval (S n)
               (ExpressionNode
                  (CompoundAssignmentExpression (IdentifierExpression name isp) op value sp))
               env st = refused sp
          /\ Eval (S n)
               (ExpressionNode
                  (PrefixUnaryIncDecExpression op (IdentifierExpression name isp) sp))
               env st = refused sp
          /\ Eval (S n)
               (ExpressionNode
                  (PostfixUnaryIncDecExpression op (IdentifierExpression name isp) sp))
               env st = refused sp)
      /\ (forall target index isp sp value op,
             rooted_at name target ->
             Eval (S n)
               (ExpressionNode
                  (VarAssignmentExpression (IndexExpression target index isp) value sp))
               env st = refused isp
             /\ Eval (S n)
                  (ExpressionNode
                     (CompoundAssignmentExpression (IndexExpression target index isp)
                        op value sp))
                  env st = refused isp
             /\ Eval (S n)
                  (ExpressionNode
                     (PrefixUnaryIncDecExpression op (IndexExpression target index isp) sp))
                  env st = refused isp
             /\ Eval (S n)
                  (ExpressionNode
                     (PostfixUnaryIncDecExpression op (IndexExpression target index isp) sp))
                  env st = refused isp))
  /\ (error_kind (final_state 5 [const_x_1; assign_x_2]) = Some VariableError
      /\ value_of "x" (final_state 5 [const_x_1; assign_x_2]) = Some (Int 1))
  /\ (error_kind (final_state 5 [const_l_1; assign_l0 (int_ 2)]) = Some VariableError
      /\ elements_of "l" (final_state 5 [const_l_1; assign_l0 (int_ 2)]) = Some [Int 1]).
Proof.
  split; [| split; split; vm_compute; reflexivity].
  intros n name sym env st Hg Hc refused. split.
  - intros isp sp value op. repeat split; simpl;
      unfold evalVarAssignmentExpression, evalCompoundAssignmentExpression,
        evalPrefixUnaryIncDecExpression, evalPostfixUnaryIncDecExpression,
        bind, getMem;
      rewrite Hg, Hc; reflexivity.
  - intros target index isp sp value op Hr. repeat split; simpl;
      unfold evalVarAssignmentExpression, evalCompoundAssignmentExpression,
        evalPrefixUnaryIncDecExpression, evalPostfixUnaryIncDecExpression;
      apply (withIndexTarget_const _ _ _ _ _ _ _ name sym st Hr Hg Hc).
Qed.

Lemma constants_are_never_reassigned_witness :
  Eval 1 (ExpressionNode (VarAssignmentExpression (var_ "len") (int_ 2) nowhere))
    root_env start
  = Ret Nil (with_Err start (mkError VariableError (Frame start)
                               (cannot_redefine "len") nowhere))
  /\ Eval 1 (ExpressionNode
               (PostfixUnaryIncDecExpression (tok INCREMENT "++")
                  (IndexExpression (IndexExpression (var_ "len") (int_ 0) nowhere)
                     (int_ 1) (at_col 1 9)) nowhere))
       root_env start
     = Ret Nil (with_Err start (mkError VariableError (Frame start)
                                  (cannot_redefine "len") (at_col 1 9))).
Proof.
  destruct constants_are_never_reassigned as (H & _).
  destruct (H 0%nat "len" (mkSymbol "len" (BuiltinFunction 2 "len" ["a"] [] len_Fn) true)
              root_env start eq_refl eq_refl) as (Hid & Hix).
  split.
  - apply (Hid nowhere nowhere (int_ 2) (tok PLUS_EQUAL "+=")).
  - apply (Hix (IndexExpression (var_ "len") (int_ 0) nowhere) (int_ 1) (at_col 1 9)
             nowhere (int_ 2) (tok INCREMENT "++")).
    apply rooted_index, rooted_identifier.
Defined.

(** C7 fails on the code: the check of an index chain stops at a pair of
    parentheses.  After [const l = [1];] the assignment [l[0] = 2;] is refused
    with the VariableError of constants and [l] still holds [[1]]; but
    [(l)[0] = 2;], [(l)[0] += 1;], [(l)[0]++;] and [++(l)[0];] record no
    error, and afterwards [l], still a constant, holds [[2]].  For a target
    in parentheses [checkIndexTargetConst] reports nothing, whatever the
    target is. *)
Theorem parentheses_escape_the_const_check :
  (Err <$> final_state 6 [const_l_1; assign_l0 (int_ 2)]
   = Some (Some (mkError VariableError (Some root_frame) (cannot_redefine "l") nowhere))
   /\ elements_of "l" (final_state 6 [const_l_1; assign_l0 (int_ 2)]) = Some [Int 1])
  /\ (forall s,
        In s [assign_grouped_l0; add_to_grouped_l0; grouped_l0_increment;
              increment_grouped_l0] ->
        Err <$> final_state 6 [const_l_1; s] = Some None
        /\ is_const "l" (final_state 6 [const_l_1; s]) = Some true
        /\ elements_of "l" (final_state 6 [const_l_1; s]) = Some [Int 2])
  /\ (forall fr m target gsp env sp,
        checkIndexTargetConst fr m (GroupedExpression target gsp) env sp = None).
Proof.
  split; [split; vm_compute; reflexivity | split].
  - intros s Hs. simpl in Hs.
    repeat (destruct Hs as [<- | Hs]); try contradiction;
      (split; [| split]); vm_compute; reflexivity.
  - reflexivity.
Qed.

(** ** Strings *)

(** C3 fails on the code: [Index] counts runes, [Set] counts bytes.  On the
    string of the runes U+00E9, [a] (three bytes), reading [s[1]] gives ["a"],
    but [s[1] = "b"] overwrites the second byte of the first rune: the string
    becomes the bytes C3 62 61, the runes U+FFFD, [b], [a], and not U+00E9,
    [b]. *)
Theorem string_Set_counts_bytes :
  runes e_acute_a = [233; 97]
  /\ string_result (run 6 [var_s] read_s1) = Some "a"
  /\ runes_of "s" (final_state 6 [var_s; assign_s1_b]) = Some [RuneError; 98; 97]
  /\ runes_of "s" (final_state 6 [var_s; assign_s1_b]) <> Some [233; 98].
Proof. repeat split; try (vm_compute; reflexivity). vm_compute. discriminate. Qed.

(** ** Calls: arity and default values *)

(** The arity check: a callee with [P] parameters, [D] of them with a
    default value, called with fewer than [P - D] or more than [P] arguments
    that are not left out, is an ArgumentError. *)
Lemma arity_out_of_range_is_ArgumentError (n : nat) (f : Expression)
  (args : list (option Expression)) (sp : util.Span) (env : Environment)
  (st st1 : State) (callee : Object) (P D : Z) :
  Eval n (ExpressionNode f) env st = Ret callee st1 ->
  Err st1 = None ->
  arity_of callee = Some (P, D) ->
  argLen_of args < P - D \/ P < argLen_of args ->
  Eval (S n) (ExpressionNode (CallExpression f args sp)) env st
  = Ret Nil (with_Err st1 (mkError ArgumentError (Frame st1)
                             (arity_message D (P - D) P (argLen_of args)) sp)).
Proof.
  intros Hf He Ha Hr. simpl. unfold evalCallExpression, bind, check.
  rewrite Hf, He.
  assert (Hc : negb ((P - D <=? argLen_of args) && (argLen_of args <=? P)) = true).
  { apply negb_true_iff, andb_false_iff.
    destruct Hr; [left; apply Z.leb_gt | right; apply Z.leb_gt]; lia. }
  destruct callee; try discriminate; simpl in Ha; inversion Ha; subst;
    rewrite Hc; reflexivity.
Qed.

(** C4 fails on the code: [f(1)] is [3], [f(1,3)] is [4] and [f()] is an
    ArgumentError, and a default expression is evaluated in the scope of the
    call ([h()] is [7], the [y] of the block, not [5]); but [f(,1)] supplies
    one argument, which is within the accepted range, for the parameter [b],
    and leaves out [a], which has no default value: the evaluator hands the
    missing default expression to [Eval] and panics.  So does [f(1,,,)], whose
    second placeholder has no parameter, and [print(,1)], a builtin having no
    default values at all. *)
Theorem placeholder_without_default_panics :
  result_of (run 6 [decl_f] (call_f [Some (int_ 1)])) = Some (Int 3, None)
  /\ result_of (run 6 [decl_f] (call_f [Some (int_ 1); Some (int_ 3)])) = Some (Int 4, None)
  /\ result_of (run 6 [decl_f] (call_f [])) = Some (Nil, Some ArgumentError)
  /\ result_of (run 8 [var_y 5; decl_h] call_h_in_block) = Some (Int 7, None)
  /\ run 6 [decl_f] (call_f [None; Some (int_ 1)]) = Panic unknown_node_type
  /\ run 6 [decl_f] (call_f [Some (int_ 1); None; None]) = Panic index_out_of_range_panic
  /\ run 6 [] (CallExpression (var_ "print") [None; Some (int_ 1)] nowhere)
     = Panic index_out_of_range_panic.
Proof. repeat split; vm_compute; reflexivity. Qed.

(** ** Relations every run respects

    The rules below derive [respects R c] along the structure of [c], for a
    reflexive and transitive [R] that holds over the primitive steps. *)

Section Respects.

Context (R : State -> State -> Prop).
Hypothesis R_refl : forall st, R st st.
Hypothesis R_trans : forall st1 st2 st3, R st1 st2 -> R st2 st3 -> R st1 st3.

Lemma respects_ret {A} (a : A) : respects R (ret a).
Proof. intros st a' st' H. inversion H; subst. apply R_refl. Qed.

Lemma respects_panic {A} (msg : string) : respects R (@panic A msg).
Proof. intros st a st' H. discriminate. Qed.

Lemma respects_out_of_fuel {A} : respects R (@out_of_fuel A).
Proof. intros st a st' H. discriminate. Qed.

Lemma respects_bind {A B} (c : M A) (k : A -> M B) :
  respects R c -> (forall a, respects R (k a)) -> respects R (bind c k).
Proof.
  intros Hc Hk st b st' H. unfold bind in H.
  destruct (c st) as [a st1 | |] eqn:E; try discriminate.
  eapply R_trans; [eapply Hc, E | eapply Hk, H].
Qed.

Lemma respects_check {A} (nil : A) (k : M A) :
  respects R k -> respects R (check nil k).
Proof.
  intros Hk st a st' H. unfold check in H.
  destruct (Err st); [inversion H; subst; apply R_refl | eapply Hk, H].
Qed.

Lemma respects_getFrame : respects R getFrame.
Proof. intros st a st' H. inversion H; subst. apply R_refl. Qed.

Lemma respects_getMem : respects R getMem.
Proof. intros st a st' H. inversion H; subst. apply R_refl. Qed.

Lemma respects_baseOperator (op : Token) : respects R (baseOperator op).
Proof.
  unfold baseOperator. destruct (_ =? _)%nat; [apply respects_panic | apply respects_ret].
Qed.

(** The primitive steps, and the recursive calls of [Eval]. *)
Context (ev : Node -> Environment -> M Object) (fuel : nat).
Hypothesis ev_respects : forall node env, respects R (ev node env).
Hypothesis fail_respects : forall kind msg sp, respects R (fail kind msg sp).
Hypothesis fail_with_respects : forall err, respects R (fail_with err).
Hypothesis envSet_respects : forall env name sym, respects R (envSet env name sym).
Hypothesis envAssign_respects : forall env name sym, respects R (envAssign env name sym).
Hypothesis newEnvironment_respects : forall outer, respects R (newEnvironment outer).
Hypothesis newString_respects : forall s, respects R (newString s).
Hypothesis newPtr_respects : respects R newPtr.
Hypothesis prefixOperator_respects :
  forall op sp right, respects R (evalPrefixOperator op sp right).
Hypothesis infixOperator_respects :
  forall op sp left right, respects R (evalInfixOperator fuel op sp left right).
Hypothesis Index_respects :
  forall target index sp, respects R (method (Index target index sp)).
Hypothesis Set_respects :
  forall target index value sp r, respects R (setter (Set_ target index value sp) r).

Ltac respects_step :=
  first
    [ apply respects_ret | apply respects_panic | apply respects_out_of_fuel
    | apply respects_getFrame | apply respects_getMem | apply respects_baseOperator
    | apply ev_respects | apply fail_respects | apply fail_with_respects
    | apply envSet_respects | apply envAssign_respects
    | apply newEnvironment_respects | apply newString_respects
    | apply newPtr_respects | apply prefixOperator_respects
    | apply infixOperator_respects | apply Index_respects | apply Set_respects
    | assumption
    | apply respects_check
    | apply respects_bind; [| intros ?]
    | match goal with
      | |- respects _ (match ?x with _ => _ end) => destruct x
      end ].

Ltac respects_auto := repeat respects_step.

Lemma evalProgram_respects (program : Program) (env : Environment) :
  respects R (evalProgram ev program env).
Proof.
  unfold evalProgram. induction (Statements program) as [| s rest IH]; simpl;
    repeat (respects_step || apply IH).
Qed.

Lemma evalForStatement_loop_respects (n : nat) (b : bool) (c : Expression)
  (u body : Statement) (sp : util.Span) (forEnv : Environment) :
  respects R (evalForStatement_loop ev n b c u body sp forEnv).
Proof.
  revert b. induction n as [| n IH]; intros b; simpl; unfold non_bool_for;
    repeat (respects_step || apply IH).
Qed.

Lemma evalForStatement_respects (i : Statement) (c : Expression) (u body : Statement)
  (sp : util.Span) (env : Environment) :
  respects R (evalForStatement ev fuel i c u body sp env).
Proof.
  unfold evalForStatement, non_bool_for. respects_auto;
    apply evalForStatement_loop_respects.
Qed.

Lemma evalFunctionDeclarationStatement_respects (name : Expression)
  (ps : list Parameter_) (body : Statement) (sp : util.Span) (env : Environment) :
  respects R (evalFunctionDeclarationStatement name ps body sp env).
Proof. unfold evalFunctionDeclarationStatement. respects_auto. Qed.

Lemma evalReturnStatement_respects (r : Expression) (sp : util.Span)
  (env : Environment) : respects R (evalReturnStatement ev r sp env).
Proof. unfold evalReturnStatement. respects_auto. Qed.

Lemma evalIndexExpression_respects (t i : Expression) (sp : util.Span)
  (env : Environment) : respects R (evalIndexExpression ev t i sp env).
Proof. unfold evalIndexExpression. respects_auto. Qed.

Lemma evalExpressionStatement_respects (e : Expression) (env : Environment) :
  respects R (evalExpressionStatement ev e env).
Proof. unfold evalExpressionStatement. respects_auto. Qed.

Lemma evalIdentifierExpression_respects (name : string) (sp : util.Span)
  (env : Environment) : respects R (evalIdentifierExpression name sp env).
Proof. unfold evalIdentifierExpression. respects_auto. Qed.

Lemma evalVarInitializationExpression_respects (c : bool) (name v : Expression)
  (sp : util.Span) (env : Environment) :
  respects R (evalVarInitializationExpression ev c name v sp env).
Proof. unfold evalVarInitializationExpression. respects_auto. Qed.

Lemma withIndexTarget_respects (t i : Expression) (isp sp : util.Span)
  (env : Environment) (k : Object -> Object -> M Object) :
  (forall target index, respects R (k target index)) ->
  respects R (withIndexTarget ev t i isp sp env k).
Proof. intros Hk. unfold withIndexTarget. respects_auto; apply Hk. Qed.

Lemma evalPrefixExpression_respects (op : Token) (v : Expression) (sp : util.Span)
  (env : Environment) : respects R (evalPrefixExpression ev op v sp env).
Proof. unfold evalPrefixExpression. respects_auto. Qed.

Lemma evalInfixExpression_respects (l : Expression) (op : Token) (r : Expression)
  (sp : util.Span) (env : Environment) :
  respects R (evalInfixExpression ev fuel l op r sp env).
Proof. unfold evalInfixExpression. respects_auto. Qed.

Lemma evalVarAssignmentExpression_respects (name v : Expression) (sp : util.Span)
  (env : Environment) : respects R (evalVarAssignmentExpression ev name v sp env).
Proof.
  unfold evalVarAssignmentExpression.
  destruct name; try apply withIndexTarget_respects; intros; respects_auto.
Qed.

Lemma evalCompoundAssignmentExpression_respects (name : Expression) (op : Token)
  (r : Expression) (sp : util.Span) (env : Environment) :
  respects R (evalCompoundAssignmentExpression ev fuel name op r sp env).
Proof.
  unfold evalCompoundAssignmentExpression.
  destruct name; try apply withIndexTarget_respects; intros; respects_auto.
Qed.

Lemma evalPrefixUnaryIncDecExpression_respects (op : Token) (r : Expression)
  (sp : util.Span) (env : Environment) :
  respects R (evalPrefixUnaryIncDecExpression ev fuel op r sp env).
Proof.
  unfold evalPrefixUnaryIncDecExpression.
  destruct r; try apply withIndexTarget_respects; intros; respects_auto.
Qed.

Lemma evalPostfixUnaryIncDecExpression_respects (op : Token) (l : Expression)
  (sp : util.Span) (env : Environment) :
  respects R (evalPostfixUnaryIncDecExpression ev fuel op l sp env).
Proof.
  unfold evalPostfixUnaryIncDecExpression.
  destruct l; try apply withIndexTarget_respects; intros; respects_auto;
    apply evalIndexExpression_respects.
Qed.

Lemma evalWithReturnValue_respects (node : Statement) (env : Environment) :
  respects R (evalWithReturnValue ev node env).
Proof. unfold evalWithReturnValue. respects_auto. Qed.

Lemma evalBlockExpression_respects (ss : list Statement) (env : Environment) :
  respects R (evalBlockExpression ev ss env).
Proof.
  unfold evalBlockExpression. apply respects_bind; [respects_auto |].
  intros blockEnv. generalize Nil.
  induction ss as [| s rest IH]; intros r; simpl.
  - apply respects_ret.
  - apply respects_bind; [apply evalWithReturnValue_respects |].
    intros r'. destruct r'; try apply IH. apply respects_ret.
Qed.

Lemma evalIfExpression_respects (c : Expression) (t : Statement)
  (f : option Statement) (sp : util.Span) (env : Environment) :
  respects R (evalIfExpression ev c t f sp env).
Proof.
  unfold evalIfExpression. respects_auto; apply evalWithReturnValue_respects.
Qed.

Lemma evalArguments_respects (default_at : nat -> option Node)
  (args : list (option Expression)) (argument : list Object) (env : Environment) :
  respects R (evalArguments ev default_at args argument env).
Proof.
  revert argument. induction args as [| arg rest IH]; intros argument; simpl.
  - apply respects_ret.
  - destruct arg; [| destruct (default_at _)]; respects_auto; apply IH.
Qed.

Lemma fillDefaults_respects (default_at : nat -> option Node) (n : nat)
  (argument : list Object) (env : Environment) :
  respects R (fillDefaults ev default_at n argument env).
Proof.
  revert argument. induction n as [| n IH]; intros argument; simpl.
  - apply respects_ret.
  - destruct (default_at _); respects_auto; apply IH.
Qed.

(** The two ways a call ends, and the list literals, depend on [R]. *)
Hypothesis callFunction_respects :
  forall name params body fenv sp argument,
    respects R (callFunction ev name params body fenv sp argument).
Hypothesis callBuiltin_respects :
  forall name fn sp argument, respects R (callBuiltin fuel name fn sp argument).
Hypothesis evalListExpression_respects :
  forall v sp env, respects R (evalListExpression ev v sp env).

Lemma evalCallExpression_respects (f : Expression) (args : list (option Expression))
  (sp : util.Span) (env : Environment) :
  respects R (evalCallExpression ev fuel f args sp env).
Proof.
  unfold evalCallExpression.
  apply respects_bind; [apply ev_respects |]. intros function.
  apply respects_check.
  destruct function; try apply fail_respects.
  - destruct (negb _); [apply fail_respects |].
    apply respects_bind; [apply evalArguments_respects |]. intros [argument |];
      [| apply respects_ret].
    apply respects_bind; [apply fillDefaults_respects |]. intros [argument' |];
      [| apply respects_ret].
    apply callFunction_respects.
  - destruct (negb _); [apply fail_respects |].
    apply respects_bind; [apply evalArguments_respects |]. intros [argument |];
      [| apply respects_ret].
    apply respects_bind; [apply fillDefaults_respects |]. intros [argument' |];
      [| apply respects_ret].
    apply callBuiltin_respects.
Qed.

(** One round of [Eval], the calls of [e.Eval] it makes respecting [R]. *)
Lemma Eval_round_respects (nodes : Node) (env : Environment) :
  respects R
    (match nodes with
     | ProgramNode p => evalProgram ev p env
     | StatementNode (ForStatement i c u b sp) => evalForStatement ev fuel i c u b sp env
     | StatementNode (FunctionDeclarationStatement name ps b sp) =>
         evalFunctionDeclarationStatement name ps b sp env
     | StatementNode (ReturnStatement r sp) => evalReturnStatement ev r sp env
     | StatementNode (ExpressionStatement e _) => evalExpressionStatement ev e env
     | ExpressionNode (PrefixExpression op v sp) => evalPrefixExpression ev op v sp env
     | ExpressionNode (InfixExpression l op r sp) =>
         evalInfixExpression ev fuel l op r sp env
     | ExpressionNode (IntExpression v _) => evalIntExpression v
     | ExpressionNode (FloatExpression v _) => evalFloatExpression v
     | ExpressionNode (BoolExpression v _) => evalBooleanExpression v
     | ExpressionNode (NullExpression _) => evalNullExpression
     | ExpressionNode (StringExpression v _) => evalStringExpression v
     | ExpressionNode (ListExpression v sp) => evalListExpression ev v sp env
     | ExpressionNode (IdentifierExpression name sp) =>
         evalIdentifierExpression name sp env
     | ExpressionNode (GroupedExpression e _) => ev (ExpressionNode e) env
     | ExpressionNode (VarInitializationExpression c name v sp) =>
         evalVarInitializationExpression ev c name v sp env
     | ExpressionNode (VarAssignmentExpression name v sp) =>
         evalVarAssignmentExpression ev name v sp env
     | ExpressionNode (CompoundAssignmentExpression name op r sp) =>
         evalCompoundAssignmentExpression ev fuel name op r sp env
     | ExpressionNode (PrefixUnaryIncDecExpression op r sp) =>
         evalPrefixUnaryIncDecExpression ev fuel op r sp env
     | ExpressionNode (PostfixUnaryIncDecExpression op l sp) =>
         evalPostfixUnaryIncDecExpression ev fuel op l sp env
     | ExpressionNode (BlockExpression ss _) => evalBlockExpression ev ss env
     | ExpressionNode (IfExpression c t f sp) => evalIfExpression ev c t f sp env
     | ExpressionNode (CallExpression f args sp) =>
         evalCallExpression ev fuel f args sp env
     | ExpressionNode (IndexExpression t i sp) => evalIndexExpression ev t i sp env
     | NoNode => panic unknown_node_type
     end).
Proof.
  destruct nodes as [p | s | e |].
  - apply evalProgram_respects.
  - destruct s.
    + apply evalForStatement_respects.
    + apply evalFunctionDeclarationStatement_respects.
    + apply evalReturnStatement_respects.
    + apply evalExpressionStatement_respects.
  - destruct e.
    + apply evalPrefixExpression_respects.
    + apply evalInfixExpression_respects.
    + apply respects_ret.
    + apply respects_ret.
    + apply respects_ret.
    + apply respects_ret.
    + apply newString_respects.
    + apply evalListExpression_respects.
    + apply evalIdentifierExpression_respects.
    + apply ev_respects.
    + apply evalVarInitializationExpression_respects.
    + apply evalVarAssignmentExpression_respects.
    + apply evalCompoundAssignmentExpression_respects.
    + apply evalPrefixUnaryIncDecExpression_respects.
    + apply evalPostfixUnaryIncDecExpression_respects.
    + apply evalBlockExpression_respects.
    + apply evalIfExpression_respects.
    + apply evalCallExpression_respects.
    + apply evalIndexExpression_respects.
  - apply respects_panic.
Qed.

End Respects.

(** *** Relations that ignore the memory *)

Section Control.

Context (R : State -> State -> Prop).
Hypothesis R_refl : forall st, R st st.
Hypothesis R_trans : forall st1 st2 st3, R st1 st2 -> R st2 st3 -> R st1 st3.
Hypothesis R_Mem : forall st m, R st (with_Mem st m).
Hypothesis R_Err : forall st err, R st (with_Err st err).

Lemma control_fail kind msg sp : respects R (fail kind msg sp).
Proof. intros st a st' H. inversion H; subst. apply R_Err. Qed.

Lemma control_fail_with err : respects R (fail_with err).
Proof. intros st a st' H. inversion H; subst. apply R_Err. Qed.

Lemma control_method f : respects R (method f).
Proof.
  intros st a st' H. unfold method in H.
  destruct (f _ _); inversion H; subst; [apply R_Mem | apply R_Err].
Qed.

Lemma control_setter f r : respects R (setter f r).
Proof.
  intros st a st' H. unfold setter in H.
  destruct (f _ _); inversion H; subst; [apply R_Mem | apply R_Err].
Qed.

Lemma control_envSet env name sym : respects R (envSet env name sym).
Proof. intros st a st' H. inversion H; subst. apply R_Mem. Qed.

Lemma control_envAssign env name sym : respects R (envAssign env name sym).
Proof. intros st a st' H. inversion H; subst. apply R_Mem. Qed.

Lemma control_newEnvironment outer : respects R (newEnvironment outer).
Proof. intros st a st' H. inversion H; subst. apply R_Mem. Qed.

Lemma control_newString s : respects R (newString s).
Proof. intros st a st' H. inversion H; subst. apply R_Mem. Qed.

Lemma control_newList l : respects R (newList l).
Proof. intros st a st' H. inversion H; subst. apply R_Mem. Qed.

Lemma control_newPtr : respects R newPtr.
Proof. intros st a st' H. inversion H; subst. apply R_Mem. Qed.

Lemma control_prefixOperator op sp right : respects R (evalPrefixOperator op sp right).
Proof.
  unfold evalPrefixOperator.
  destruct (Type_ op); first [apply control_method | apply control_fail_with].
Qed.

Lemma control_infixOperator fuel op sp left right :
  respects R (evalInfixOperator fuel op sp left right).
Proof.
  unfold evalInfixOperator.
  destruct (Type_ op); first [apply control_method | apply control_fail_with].
Qed.

Lemma control_evalListExpression ev v sp env :
  (forall node env, respects R (ev node env)) ->
  respects R (evalListExpression ev v sp env).
Proof.
  intros Hev. unfold evalListExpression.
  generalize 0%nat, "", (@nil Object).
  induction v as [| e rest IH]; intros i t elements; simpl.
  - apply control_newList.
  - apply respects_bind; auto. intros element. apply respects_check; auto.
    destruct (Object_Type element); [| apply respects_panic].
    destruct i; [apply IH |].
    destruct (negb _); [apply control_fail | apply IH].
Qed.

End Control.

(** *** The frame discipline *)

Lemma frame_kept_refl st : frame_kept st st.
Proof. now intros H. Qed.

Lemma frame_kept_trans st1 st2 st3 :
  frame_kept st1 st2 -> frame_kept st2 st3 -> frame_kept st1 st3.
Proof.
  intros H12 H23 H3. destruct (H23 H3) as [H2 F23]. destruct (H12 H2) as [H1 F12].
  split; congruence.
Qed.

Lemma frame_kept_Mem st m : frame_kept st (with_Mem st m).
Proof. now intros H. Qed.

Lemma frame_kept_Err st err : frame_kept st (with_Err st err).
Proof. intros H. discriminate. Qed.

(** Binding the parameters changes the memory only. *)
Lemma bindParameters_control params argument funcEnv st st' :
  bindParameters params argument funcEnv st = Ret tt st' ->
  Frame st' = Frame st /\ Err st' = Err st.
Proof.
  revert argument st. induction params as [| p ps IH]; intros argument st H; simpl in H.
  - inversion H; subst. auto.
  - destruct argument as [| a argument]; [discriminate |].
    unfold bind, getMem, envSet in H. apply IH in H. exact H.
Qed.

Lemma callFunction_frame_kept ev name params body fenv sp argument :
  (forall node env, respects frame_kept (ev node env)) ->
  respects frame_kept (callFunction ev name params body fenv sp argument).
Proof.
  intros Hev st a st' H. unfold callFunction, bind, newEnvironment, pushFrame in H.
  simpl in H.
  destruct (bindParameters _ _ _ _) as [[] st3 | |] eqn:Eb; try discriminate.
  apply bindParameters_control in Eb. simpl in Eb. destruct Eb as [Fb Eb].
  destruct (evalWithReturnValue _ _ _ _) as [rv st4 | |] eqn:Ew; try discriminate.
  assert (Hk : frame_kept st3 st4).
  { eapply (evalWithReturnValue_respects frame_kept frame_kept_refl frame_kept_trans);
      eauto using control_fail, frame_kept_Err. }
  unfold check in H. destruct (Err st4) eqn:E4.
  - inversion H; subst. intros He. congruence.
  - destruct (Hk E4) as [E3 F43]. unfold popFrame in H. rewrite F43, Fb in H.
    simpl in H. assert (st' = with_Frame st4 (Frame st)) by
      (destruct rv; inversion H; reflexivity).
    subst st'. intros _. simpl. split; congruence.
Qed.

Lemma callBuiltin_frame_kept fuel name fn sp argument :
  respects frame_kept (callBuiltin fuel name fn sp argument).
Proof.
  intros st a st' H. unfold callBuiltin, bind, pushFrame, callFn in H. simpl in H.
  destruct (call_Fn _ _ _ _ _ _); inversion H; subst; intros He; simpl in *;
    [auto | discriminate].
Qed.

(** Every run of [Eval] that ends with no error recorded ends in the frame
    it started in. *)
Lemma Eval_frame_kept (fuel : nat) (nodes : Node) (env : Environment) :
  respects frame_kept (Eval fuel nodes env).
Proof.
  revert nodes env. induction fuel as [| n IH]; intros nodes env.
  - apply respects_out_of_fuel.
  - exact (Eval_round_respects frame_kept frame_kept_refl frame_kept_trans
             (Eval n) n IH
             (control_fail _ frame_kept_Err)
             (control_fail_with _ frame_kept_Err)
             (control_envSet _ frame_kept_Mem)
             (control_envAssign _ frame_kept_Mem)
             (control_newEnvironment _ frame_kept_Mem)
             (control_newString _ frame_kept_Mem)
             (control_newPtr _ frame_kept_Mem)
             (control_prefixOperator _ frame_kept_Mem frame_kept_Err)
             (control_infixOperator _ frame_kept_Mem frame_kept_Err n)
             (fun t i sp => control_method _ frame_kept_Mem frame_kept_Err _)
             (fun t i v sp r => control_setter _ frame_kept_Mem frame_kept_Err _ _)
             (fun name params body fenv sp argument =>
                callFunction_frame_kept _ name params body fenv sp argument IH)
             (callBuiltin_frame_kept n)
             (fun v sp env =>
                control_evalListExpression _ frame_kept_refl frame_kept_trans
                  frame_kept_Mem frame_kept_Err _ v sp env IH)
             nodes env).
Qed.

(** *** Homogeneous lists *)

Lemma Environment_chain_ind (P : Environment -> Prop) :
  (forall s, P (mkEnvironment s None)) ->
  (forall s o, P o -> P (mkEnvironment s (Some o))) ->
  forall e, P e.
Proof.
  intros H0 HS. fix IH 1. intros [s [o |]]; [apply HS, IH | apply H0].
Qed.

Lemma Lists_Environment_Assign (m : Memory) (env : Environment) (name : string)
  (sym : Symbol) : Lists (Environment_Assign m env name sym) = Lists m.
Proof.
  induction env as [s | s o IH] using Environment_chain_ind; simpl;
    destruct (store_at m s !! name); auto.
Qed.

Lemma Memory_ok_same_Lists (m m' : Memory) :
  Lists m' = Lists m -> Memory_ok m -> Memory_ok m'.
Proof. intros E H a l. rewrite E. apply H. Qed.

Lemma Memory_ok_set_list (m : Memory) (a : nat) (l : list Object) :
  Memory_ok m -> homogeneous l -> Memory_ok (set_list m a l).
Proof.
  intros H Hl b l'. unfold set_list. simpl.
  destruct (decide (a = b)) as [-> | Hne].
  - rewrite lookup_insert_eq. intros E. inversion E; subst. exact Hl.
  - rewrite lookup_insert_ne by exact Hne. apply H.
Qed.

Lemma Memory_ok_new_List (m : Memory) (l : list Object) :
  Memory_ok m -> homogeneous l -> Memory_ok (bump (set_list m (Next m) l)).
Proof.
  intros H Hl. eapply Memory_ok_same_Lists; [| apply (Memory_ok_set_list m (Next m) l H Hl)].
  reflexivity.
Qed.

Lemma Memory_ok_list_at (m : Memory) (a : nat) : Memory_ok m -> homogeneous (list_at m a).
Proof.
  intros H. unfold list_at. destruct (Lists m !! a) eqn:E; simpl.
  - eapply H, E.
  - exists "". constructor.
Qed.

Lemma homogeneous_nil : homogeneous [].
Proof. exists "". constructor. Qed.

Lemma Type_differs_false (a b : Object) :
  Type_differs a b = Some false -> exists t, Object_Type a = Some t /\ Object_Type b = Some t.
Proof.
  unfold Type_differs. destruct (Object_Type a) as [ta |], (Object_Type b) as [tb |];
    try discriminate.
  intros H. inversion H as [E]. apply negb_false_iff, String.eqb_eq in E. subst. eauto.
Qed.

Lemma homogeneous_cons_type (x : Object) (l : list Object) (t : string) :
  homogeneous (x :: l) -> Object_Type x = Some t ->
  Forall (fun y => Object_Type y = Some t) (x :: l).
Proof.
  intros [t' H] Hx. inversion H; subst. assert (t' = t) by congruence. now subst.
Qed.

Lemma homogeneous_app (xs ys : list Object) :
  homogeneous xs -> homogeneous ys ->
  match xs, ys with
  | x :: _, y :: _ => Type_differs x y = Some false
  | _, _ => True
  end ->
  homogeneous (xs ++ ys).
Proof.
  intros Hx Hy Hh. destruct xs as [| x xs]; [exact Hy |].
  destruct ys as [| y ys]; [now rewrite app_nil_r |].
  apply Type_differs_false in Hh as (t & Tx & Ty).
  exists t. apply Forall_app. split; now apply homogeneous_cons_type.
Qed.

Lemma homogeneous_repeat_list (n : nat) (xs : list Object) :
  homogeneous xs -> homogeneous (repeat_list n xs).
Proof.
  intros [t H]. exists t. induction n as [| n IH]; simpl; [constructor |].
  apply Forall_app. now split.
Qed.

Lemma homogeneous_insert (xs : list Object) (i : nat) (v : Object) :
  homogeneous xs -> Type_differs v (nth 0 xs Nil) = Some false ->
  homogeneous (<[i := v]> xs).
Proof.
  intros Hx Hv. destruct xs as [| x xs]; [exact Hx |]. simpl in Hv.
  apply Type_differs_false in Hv as (t & Tv & Tx).
  exists t. apply Forall_insert; [now apply homogeneous_cons_type | exact Tv].
Qed.

Ltac memory_ok :=
  first
    [ assumption
    | eapply Memory_ok_same_Lists; [reflexivity | assumption] ].

Ltac keeps_by_cases :=
  intros m v m' H Hok;
  repeat match type of H with
         | context [match ?x with _ => _ end] => destruct x; simpl in H
         end;
  try discriminate; inversion H; subst; memory_ok.

Lemma List_Add_keeps l other sp fr : keeps_lists (List_Add l other sp fr).
Proof.
  intros m v m' H Hok. unfold List_Add in H.
  destruct other as [| ? | ? | ? | ? | ref | | ? ? ? ? ? | ? ? ? ? ? | ?];
    try discriminate.
  pose proof (Memory_ok_list_at m l Hok) as Hx.
  pose proof (Memory_ok_list_at m ref Hok) as Hy.
  destruct (list_at m l) as [| x xs] eqn:Ex; simpl in H.
  - inversion H; subst. apply Memory_ok_new_List; auto.
  - destruct (list_at m ref) as [| y ys] eqn:Ey; simpl in H.
    + inversion H; subst. apply Memory_ok_new_List; auto.
      rewrite app_nil_r. exact Hx.
    + destruct (Type_differs x y) as [[] |] eqn:Et; try discriminate.
      inversion H; subst. apply Memory_ok_new_List; auto.
      apply (homogeneous_app (x :: xs) (y :: ys)); auto.
Qed.

Lemma List_Multiply_keeps l other sp fr : keeps_lists (List_Multiply l other sp fr).
Proof.
  intros m v m' H Hok. unfold List_Multiply in H.
  destruct other as [| times | ? | ? | ? | ? | | ? ? ? ? ? | ? ? ? ? ? | ?];
    try discriminate.
  destruct (times <=? 0); try discriminate.
  pose proof (Memory_ok_list_at m l Hok) as Hx.
  destruct (list_at m l) as [| x xs] eqn:Ex; simpl in H.
  - inversion H; subst. apply Memory_ok_new_List; auto.
  - destruct (_ || _); try discriminate.
    destruct (_ <? _); try discriminate.
    inversion H; subst. apply Memory_ok_new_List; auto.
    now apply homogeneous_repeat_list.
Qed.

Lemma Repeat_keeps s count : keeps_lists (Repeat s count).
Proof. unfold Repeat. keeps_by_cases. Qed.

Lemma Negative_keeps self sp fr : keeps_lists (Negative self sp fr).
Proof. unfold Negative. keeps_by_cases. Qed.

Lemma BitNot_keeps self sp fr : keeps_lists (BitNot self sp fr).
Proof. unfold BitNot. keeps_by_cases. Qed.

Lemma Not_keeps self sp fr : keeps_lists (Not self sp fr).
Proof. unfold Not. keeps_by_cases. Qed.

Lemma Add_keeps self other sp fr : keeps_lists (Add self other sp fr).
Proof.
  destruct self; try apply List_Add_keeps;
    unfold Add, Int_Add, Float_Add, String_Add; keeps_by_cases.
Qed.

Lemma Subtract_keeps self other sp fr : keeps_lists (Subtract self other sp fr).
Proof. unfold Subtract, Int_Subtract, Float_Subtract. keeps_by_cases. Qed.

Lemma Multiply_keeps self other sp fr : keeps_lists (Multiply self other sp fr).
Proof.
  destruct self; try apply List_Multiply_keeps;
    unfold Multiply, Int_Multiply, Float_Multiply, String_Multiply;
    intros m v m' H Hok; destruct other; try discriminate;
    repeat match type of H with
           | context [if ?b then _ else _] => destruct b
           end;
    try discriminate;
    first [ eapply Repeat_keeps; eassumption | inversion H; subst; memory_ok ].
Qed.

Lemma Divide_keeps self other sp fr : keeps_lists (Divide self other sp fr).
Proof. unfold Divide, Int_Divide, Float_Divide. keeps_by_cases. Qed.

Lemma Mod_keeps self other sp fr : keeps_lists (Mod self other sp fr).
Proof. unfold Mod, Int_Mod, Float_Mod. keeps_by_cases. Qed.

Lemma LessThan_keeps self other sp fr : keeps_lists (LessThan self other sp fr).
Proof. unfold LessThan, Int_LessThan, Float_LessThan. keeps_by_cases. Qed.

Lemma GreaterThan_keeps self other sp fr : keeps_lists (GreaterThan self other sp fr).
Proof. unfold GreaterThan, Int_GreaterThan, Float_GreaterThan. keeps_by_cases. Qed.

Lemma LessThanOrEqual_keeps self other sp fr :
  keeps_lists (LessThanOrEqual self other sp fr).
Proof.
  unfold LessThanOrEqual, Int_LessThanOrEqual, Float_LessThanOrEqual. keeps_by_cases.
Qed.

Lemma GreaterThanOrEqual_keeps self other sp fr :
  keeps_lists (GreaterThanOrEqual self other sp fr).
Proof.
  unfold GreaterThanOrEqual, Int_GreaterThanOrEqual, Float_GreaterThanOrEqual.
  keeps_by_cases.
Qed.

Lemma BitAnd_keeps self other sp fr : keeps_lists (BitAnd self other sp fr).
Proof. unfold BitAnd, Int_BitAnd. keeps_by_cases. Qed.

Lemma BitOr_keeps self other sp fr : keeps_lists (BitOr self other sp fr).
Proof. unfold BitOr, Int_BitOr. keeps_by_cases. Qed.

Lemma Xor_keeps self other sp fr : keeps_lists (Xor self other sp fr).
Proof. unfold Xor, Int_Xor. keeps_by_cases. Qed.

Lemma LeftShift_keeps self other sp fr : keeps_lists (LeftShift self other sp fr).
Proof. unfold LeftShift, Int_LeftShift. keeps_by_cases. Qed.

Lemma RightShift_keeps self other sp fr : keeps_lists (RightShift self other sp fr).
Proof. unfold RightShift, Int_RightShift. keeps_by_cases. Qed.

Lemma And_keeps self other sp fr : keeps_lists (And self other sp fr).
Proof. unfold And, Bool_And. keeps_by_cases. Qed.

Lemma Or_keeps self other sp fr : keeps_lists (Or self other sp fr).
Proof. unfold Or, Bool_Or. keeps_by_cases. Qed.

Lemma Index_keeps self other sp fr : keeps_lists (Index self other sp fr).
Proof. unfold Index, String_Index, List_Index. keeps_by_cases. Qed.

(** [Equal] and [NotEqual] return the memory they were given. *)
Lemma List_Equal_loop_same eq xs ys sp fr m v m' :
  (forall x y m v m', eq x y sp fr m = Ok v m' -> m' = m) ->
  List_Equal_loop eq xs ys sp fr m = Ok v m' -> m' = m.
Proof.
  intros Heq. revert ys m. induction xs as [| x xs IH]; intros ys m H; simpl in H.
  - inversion H; auto.
  - destruct ys as [| y ys]; [inversion H; auto |].
    destruct (eq x y sp fr m) as [r m1 | | |] eqn:E; try discriminate.
    apply Heq in E. subst m1.
    destruct r as [| ? | ? | b | ? | ? | | ? ? ? ? ? | ? ? ? ? ? | ?];
      try discriminate.
    destruct b.
    + eapply IH, H.
    + inversion H; auto.
Qed.

Lemma Equal_same fuel self other sp fr m v m' :
  Equal fuel self other sp fr m = Ok v m' -> m' = m.
Proof.
  revert self other m v m'. induction fuel as [| n IH]; intros self other m v m' H;
    simpl in H; [discriminate |].
  destruct self; try discriminate;
    try (destruct other; inversion H; reflexivity).
  unfold List_Equal in H. destruct other; try (inversion H; reflexivity).
  destruct (negb _); [inversion H; reflexivity |].
  eapply List_Equal_loop_same; [| exact H]. intros; eapply IH; eauto.
Qed.

Lemma Equal_keeps fuel self other sp fr : keeps_lists (Equal fuel self other sp fr).
Proof. intros m v m' H Hok. apply Equal_same in H. now subst. Qed.

Lemma NotEqual_keeps fuel self other sp fr :
  keeps_lists (NotEqual fuel self other sp fr).
Proof.
  intros m v m' H Hok.
  destruct self; try discriminate;
    try (destruct other; inversion H; subst; assumption).
  simpl in H. unfold List_NotEqual in H.
  destruct (List_Equal _ _ _ _ _ _) as [r m1 | | |] eqn:E; try discriminate.
  assert (m1 = m).
  { unfold List_Equal in E. destruct other; try (inversion E; reflexivity).
    destruct (negb _); [inversion E; reflexivity |].
    eapply List_Equal_loop_same; [| exact E]. intros; eapply Equal_same; eauto. }
  subst. destruct r; inversion H; subst; assumption.
Qed.

Lemma Set_keeps self index value sp fr m m' :
  Set_ self index value sp fr m = SetOk m' -> Memory_ok m -> Memory_ok m'.
Proof.
  intros H Hok.
  destruct self as [| ? | ? | ? | s | l | | ? ? ? ? ? | ? ? ? ? ? | ?];
    try discriminate; simpl in H.
  - unfold String_Set in H.
    destruct index as [| idx | ? | ? | ? | ? | | ? ? ? ? ? | ? ? ? ? ? | ?];
      try discriminate.
    destruct (_ || _); try discriminate.
    destruct value; try discriminate. inversion H; subst. memory_ok.
  - unfold List_Set in H.
    destruct index as [| idx | ? | ? | ? | ? | | ? ? ? ? ? | ? ? ? ? ? | ?];
      try discriminate.
    destruct (_ || _); try discriminate.
    destruct (Type_differs _ _) as [[] |] eqn:Et; try discriminate.
    inversion H; subst. apply Memory_ok_set_list; auto.
    apply homogeneous_insert; auto using Memory_ok_list_at.
Qed.

Lemma lists_kept_refl st : lists_kept st st.
Proof. now intros H. Qed.

Lemma lists_kept_trans st1 st2 st3 :
  lists_kept st1 st2 -> lists_kept st2 st3 -> lists_kept st1 st3.
Proof. unfold lists_kept. auto. Qed.

Lemma lists_fail kind msg sp : respects lists_kept (fail kind msg sp).
Proof. intros st a st' H. inversion H; subst. now intros Hok. Qed.

Lemma lists_fail_with err : respects lists_kept (fail_with err).
Proof. intros st a st' H. inversion H; subst. now intros Hok. Qed.

Lemma lists_method f :
  (forall fr, keeps_lists (f fr)) -> respects lists_kept (method f).
Proof.
  intros Hf st a st' H Hok. unfold method in H.
  destruct (f _ _) eqn:E; inversion H; subst; simpl;
    [exact (Hf _ _ _ _ E Hok) | exact Hok].
Qed.

Lemma lists_setter self index value sp r :
  respects lists_kept (setter (Set_ self index value sp) r).
Proof.
  intros st a st' H Hok. unfold setter in H.
  destruct (Set_ _ _ _ _ _ _) eqn:E; inversion H; subst; simpl;
    eauto using Set_keeps.
Qed.

Lemma lists_envSet env name sym : respects lists_kept (envSet env name sym).
Proof. intros st a st' H Hok. inversion H; subst. simpl. memory_ok. Qed.

Lemma lists_envAssign env name sym : respects lists_kept (envAssign env name sym).
Proof.
  intros st a st' H Hok. inversion H; subst. simpl.
  eapply Memory_ok_same_Lists; [apply Lists_Environment_Assign | assumption].
Qed.

Lemma lists_newEnvironment outer : respects lists_kept (newEnvironment outer).
Proof. intros st a st' H Hok. inversion H; subst. simpl. memory_ok. Qed.

Lemma lists_newString s : respects lists_kept (newString s).
Proof. intros st a st' H Hok. inversion H; subst. simpl. memory_ok. Qed.

Lemma lists_newPtr : respects lists_kept newPtr.
Proof. intros st a st' H Hok. inversion H; subst. simpl. memory_ok. Qed.

Lemma lists_pushFrame label sp : respects lists_kept (pushFrame label sp).
Proof. intros st a st' H Hok. inversion H; subst. exact Hok. Qed.

Lemma lists_popFrame : respects lists_kept popFrame.
Proof.
  intros st a st' H Hok. unfold popFrame in H.
  destruct (Frame st); inversion H; subst. exact Hok.
Qed.

Lemma lists_prefixOperator op sp right :
  respects lists_kept (evalPrefixOperator op sp right).
Proof.
  unfold evalPrefixOperator.
  destruct (Type_ op); try apply lists_fail_with; apply lists_method; intros fr;
    auto using Negative_keeps, BitNot_keeps, Not_keeps.
Qed.

Lemma lists_infixOperator fuel op sp left right :
  respects lists_kept (evalInfixOperator fuel op sp left right).
Proof.
  unfold evalInfixOperator.
  destruct (Type_ op); try apply lists_fail_with; apply lists_method; intros fr;
    auto using Add_keeps, Subtract_keeps, Multiply_keeps, Divide_keeps, Mod_keeps,
      Equal_keeps, NotEqual_keeps, LessThan_keeps, GreaterThan_keeps,
      LessThanOrEqual_keeps, GreaterThanOrEqual_keeps, BitAnd_keeps, BitOr_keeps,
      Xor_keeps, LeftShift_keeps, RightShift_keeps, And_keeps, Or_keeps.
Qed.

(** The list a literal allocates: all the values collected so far have the
    type of the first one. *)
Lemma lists_evalListExpression_loop ev i rest firstType elements sp env :
  (forall node env, respects lists_kept (ev node env)) ->
  (i = 0%nat -> elements = []) ->
  (i <> 0%nat -> Forall (fun x => Object_Type x = Some firstType) elements) ->
  respects lists_kept (evalListExpression_loop ev i rest firstType elements sp env).
Proof.
  intros Hev. revert i firstType elements.
  induction rest as [| e rest IH]; intros i firstType elements H0 HS; simpl.
  - intros st a st' H Hok. inversion H; subst. simpl.
    apply Memory_ok_new_List; auto.
    destruct i; [rewrite H0 by reflexivity; apply homogeneous_nil |].
    exists firstType. auto.
  - apply (respects_bind _ lists_kept_trans); [apply Hev |]. intros element.
    apply (respects_check _ lists_kept_refl).
    destruct (Object_Type element) as [t |] eqn:Et;
      [| apply respects_panic].
    destruct i as [| i].
    + apply IH; [discriminate |]. intros _. rewrite H0 by reflexivity.
      simpl. auto.
    + destruct (negb (String.eqb t firstType)) eqn:En; [apply lists_fail |].
      apply negb_false_iff, String.eqb_eq in En. subst t.
      apply IH; [discriminate |]. intros _. apply Forall_app. split; auto.
Qed.

Lemma lists_evalListExpression ev v sp env :
  (forall node env, respects lists_kept (ev node env)) ->
  respects lists_kept (evalListExpression ev v sp env).
Proof.
  intros Hev. apply lists_evalListExpression_loop; auto.
Qed.

Lemma lists_bindParameters params argument funcEnv :
  respects lists_kept (bindParameters params argument funcEnv).
Proof.
  revert argument. induction params as [| p ps IH]; intros argument; simpl.
  - apply respects_ret, lists_kept_refl.
  - destruct argument; [apply respects_panic |].
    apply (respects_bind _ lists_kept_trans); [apply lists_envSet |].
    intros _. apply IH.
Qed.

Lemma lists_callFunction ev name params body fenv sp argument :
  (forall node env, respects lists_kept (ev node env)) ->
  respects lists_kept (callFunction ev name params body fenv sp argument).
Proof.
  intros Hev. unfold callFunction.
  repeat first
    [ apply lists_newEnvironment | apply lists_pushFrame | apply lists_popFrame
    | apply lists_bindParameters
    | apply (evalWithReturnValue_respects lists_kept lists_kept_refl lists_kept_trans);
      auto using lists_fail
    | apply respects_ret, lists_kept_refl
    | apply (respects_check _ lists_kept_refl)
    | apply (respects_bind _ lists_kept_trans); [| intros ?]
    | match goal with
      | |- respects _ (match ?x with _ => _ end) => destruct x
      end ].
Qed.

Lemma call_Fn_keeps fn fuel f sp args : keeps_lists (call_Fn fn fuel f sp args).
Proof.
  intros m v m' H Hok. unfold call_Fn in H.
  destruct fn, args as [| a args]; try discriminate;
    try (destruct (String_ fuel m a); inversion H; subst; memory_ok);
    destruct a; inversion H; subst; assumption.
Qed.

Lemma lists_callBuiltin fuel name fn sp argument :
  respects lists_kept (callBuiltin fuel name fn sp argument).
Proof.
  intros st a st' H Hok. unfold callBuiltin, bind, pushFrame, callFn in H. simpl in H.
  destruct (call_Fn _ _ _ _ _ _) eqn:E; inversion H; subst; simpl; auto.
  eapply call_Fn_keeps; eauto.
Qed.

(** Every run of [Eval] keeps the lists of the heap homogeneous. *)
Lemma Eval_lists_kept (fuel : nat) (nodes : Node) (env : Environment) :
  respects lists_kept (Eval fuel nodes env).
Proof.
  revert nodes env. induction fuel as [| n IH]; intros nodes env.
  - apply respects_out_of_fuel.
  - exact (Eval_round_respects lists_kept lists_kept_refl lists_kept_trans
             (Eval n) n IH lists_fail lists_fail_with lists_envSet lists_envAssign
             lists_newEnvironment lists_newString lists_newPtr lists_prefixOperator
             (lists_infixOperator n)
             (fun t i sp => lists_method _ (fun fr => Index_keeps t i sp fr))
             lists_setter
             (fun name params body fenv sp argument =>
                lists_callFunction _ name params body fenv sp argument IH)
             (lists_callBuiltin n)
             (fun v sp env => lists_evalListExpression _ v sp env IH)
             nodes env).
Qed.

(** ** Calls and frames *)

(** C2 fails on the code: a call that stops on an error leaves its frame
    pushed.  After [func f(a, b=2) return a+b; f(1);], a call that returns,
    the frame is the frame of the caller again.  After
    [func g() return 1/0; g();] the error recorded in the body carries the
    frame of the call (the label of [g], the span of the call, the frame of
    the caller as parent), and that frame is still the frame of the
    evaluator; so it is after [len(1)] for the frame of the call of the
    builtin.  After [func k() return g(); k();] the frame is that of the call
    of [g] made by [k], two calls deep.  And in [{ g(); y; }] the block goes
    on after the call of [g] has failed: the error it ends with is the
    undefined [y] of the block, recorded under the frame of the call of
    [g]. *)
Theorem frame_stays_pushed_after_an_error :
  Frame <$> final_state 8 [decl_f; expr_ (call_f [Some (int_ 1)])] = Some (Frame start)
  /\ Err <$> final_state 6 [decl_g; expr_ call_g]
     = Some (Some (mkError MathError (Some frame_of_g) "division by zero." nowhere))
  /\ Frame <$> final_state 6 [decl_g; expr_ call_g] = Some (Some frame_of_g)
  /\ Err <$> final_state 6 [expr_ call_len_1]
     = Some (Some (mkError TypeError (Some frame_of_len)
                     "len() argument must be a sequence or collection." (at_col 1 6)))
  /\ Frame <$> final_state 6 [expr_ call_len_1] = Some (Some frame_of_len)
  /\ Frame <$> final_state 8 [decl_g; decl_k; expr_ call_k] = Some (Some frame_of_g_in_k)
  /\ Err <$> final_state 8 [decl_g; g_then_y]
     = Some (Some (mkError VariableError (Some frame_of_g) (undefined_variable "y")
                     nowhere))
  /\ Frame <$> final_state 8 [decl_g; g_then_y] = Some (Some frame_of_g)
  /\ Some frame_of_g <> Frame start
  /\ Some frame_of_len <> Frame start
  /\ Some frame_of_g_in_k <> Frame start.
Proof.
  repeat split; try (vm_compute; reflexivity); vm_compute; discriminate.
Qed.

Lemma bindParameters_binds (params : list Parameter_) (argument : list Object)
  (funcEnv : Environment) (st : State) :
  (length params <= length argument)%nat ->
  exists m, bindParameters params argument funcEnv st = Ret tt (with_Mem st m).
Proof.
  revert argument st. induction params as [| p ps IH]; intros argument st Hl; simpl.
  - exists (Mem st). destruct st; reflexivity.
  - destruct argument as [| a argument]; [simpl in Hl; lia |].
    simpl in Hl. unfold bind, envSet.
    destruct (IH argument
                (with_Mem st (Environment_Set (Mem st) funcEnv (ParamName p)
                                (mkSymbol (ParamName p) a false)))) as [m Hm]; [lia |].
    exists m. rewrite Hm. reflexivity.
Qed.

(** Every call expression that returns with no error recorded returns in
    the frame of its caller.  On entry a call of a [Function] pushes the frame
    (label, call-site span, parent = the caller's frame) under which the body
    runs, and a call of a [BuiltinFunction] pushes the frame under which the
    native implementation runs; on success the builtin call ends in the
    caller's frame, and when the native implementation fails the pushed frame
    stays. *)
Lemma frame_restored_when_call_returns_normally :
  (forall fuel f args sp env st v st',
      Eval fuel (ExpressionNode (CallExpression f args sp)) env st = Ret v st' ->
      Err st' = None ->
      Frame st' = Frame st)
  /\ (forall ev name params body fenv sp argument st,
         (length params <= length argument)%nat ->
         exists funcEnv m,
           callFunction ev name params body fenv sp argument st
           = body_then_pop ev body funcEnv
               (mkState (Some (frame.mkFrame ("<function " ++ quoted name ++ ">")
                                 (Frame st) sp))
                  (Err st) m))
  /\ (forall fuel name fn sp argument st,
         callBuiltin fuel name fn sp argument st
         = let pushed :=
             Some (frame.mkFrame ("<builtin " ++ quoted name ++ ">") (Frame st) sp) in
           match call_Fn fn fuel pushed sp argument (Mem st) with
           | Ok val m => Ret val (with_Mem st m)
           | Fail err => Ret Nil (mkState pushed (Some err) (Mem st))
           | Crash msg => Panic msg
           | Exhausted => OutOfFuel
           end).
Proof.
  split; [| split].
  - intros fuel f args sp env st v st' H He.
    exact (proj2 (Eval_frame_kept fuel _ env st v st' H He)).
  - intros ev name params body fenv sp argument st Hl.
    unfold callFunction, bind at 1 2 3, newEnvironment, pushFrame. simpl.
    destruct (bindParameters_binds params argument (mkEnvironment (Next (Mem st)) (Some fenv))
                (with_Frame
                   (with_Mem st (bump (set_store (Mem st) (Next (Mem st)) ∅)))
                   (Some (frame.mkFrame ("<function " ++ quoted name ++ ">") (Frame st) sp)))
                Hl) as [m Hm].
    exists (mkEnvironment (Next (Mem st)) (Some fenv)), m.
    simpl in Hm. rewrite Hm. reflexivity.
  - intros fuel name fn sp argument st.
    unfold callBuiltin, bind, pushFrame, callFn. simpl.
    destruct (call_Fn _ _ _ _ _ _); reflexivity.
Qed.

Lemma frame_restored_when_call_returns_normally_witness :
  Frame after_call_f = Frame after_decl_f.
Proof.
  destruct frame_restored_when_call_returns_normally as (H & _).
  apply (H 5%nat (var_ "f") [Some (int_ 1)] (at_col 1 5) root_env after_decl_f (Int 3)
           after_call_f); vm_compute; reflexivity.
Defined.

(** ** Lists are homogeneous *)

Lemma evalListExpression_loop_mismatch (ev : Node -> Environment -> M Object)
  (env : Environment) (sp : util.Span) (t : string) (es : list Expression)
  (st : State) (vs : list Object) (st1 : State) :
  evaluate_all ev env es st vs st1 ->
  forall i firstType elements e rest v st2 t',
    (i = 0%nat -> vs <> []) ->
    (i <> 0%nat -> firstType = t) ->
    Forall (fun x => Object_Type x = Some t) vs ->
    ev (ExpressionNode e) env st1 = Ret v st2 ->
    Err st2 = None ->
    Object_Type v = Some t' ->
    t' <> t ->
    evalListExpression_loop ev i (es ++ e :: rest) firstType elements sp env st
    = Ret Nil (with_Err st2 (inconsistent_types (Frame st2) sp)).
Proof.
  induction 1 as [st | e0 es st v0 st1 vs st2 He0 Herr Hall IH];
    intros i firstType elements e rest v st3 t' Hi Hf Hvs He He3 Hv Hne; simpl.
  - destruct i as [| i]; [now elim (Hi eq_refl) |].
    rewrite (Hf ltac:(discriminate)).
    unfold bind, check, fail. rewrite He, He3, Hv.
    apply String.eqb_neq in Hne. rewrite Hne. reflexivity.
  - inversion Hvs as [| ? ? Hv0 Hvs']; subst.
    unfold bind, check. rewrite He0, Herr, Hv0.
    destruct i as [| i].
    + eapply (IH 1%nat); eauto; discriminate.
    + rewrite (Hf ltac:(discriminate)), String.eqb_refl. simpl.
      eapply (IH (S (S i))); eauto; discriminate.
Qed.

(** C8: every run of [Eval] keeps the lists of the heap homogeneous.  A list
    literal whose first elements evaluate to values of one type and whose
    next element evaluates to a value of another type records a TypeError
    and yields no list; [Set] with a value whose type is not that of the
    elements answers a TypeError and leaves the memory, hence the list, as it
    was, and a [Set] that succeeds leaves the list homogeneous.  [[1, "a"]]
    is a TypeError, and after [var l = [1, 2]; l[0] = "a";], a TypeError, [l]
    is still [[1, 2]]. *)
Theorem lists_stay_homogeneous :
  (forall fuel nodes env st v st',
      Memory_ok (Mem st) ->
      Eval fuel nodes env st = Ret v st' ->
      Memory_ok (Mem st'))
  /\ (forall fuel sp env st es v0 vs st1 t e rest v st2 t',
         evaluate_all (Eval fuel) env es st (v0 :: vs) st1 ->
         Forall (fun x => Object_Type x = Some t) (v0 :: vs) ->
         Eval fuel (ExpressionNode e) env st1 = Ret v st2 ->
         Err st2 = None ->
         Object_Type v = Some t' ->
         t' <> t ->
         Eval (S fuel) (ExpressionNode (ListExpression (es ++ e :: rest) sp)) env st
         = Ret Nil (with_Err st2 (inconsistent_types (Frame st2) sp)))
  /\ (forall l idx value sp fr m t t',
         0 <= real_index (Z.of_nat (length (list_at m l))) idx
           < Z.of_nat (length (list_at m l)) ->
         Object_Type value = Some t ->
         Object_Type (nth 0 (list_at m l) Nil) = Some t' ->
         (t <> t' -> List_Set l (Int idx) value sp fr m = SetFail (inconsistent_types fr sp))
         /\ (forall m',
                Memory_ok m -> List_Set l (Int idx) value sp fr m = SetOk m' ->
                homogeneous (list_at m' l)))
  /\ (error_kind (final_state 5 [expr_ one_and_a]) = Some TypeError
      /\ Lists <$> (Mem <$> final_state 5 [expr_ one_and_a]) = Some ∅)
  /\ (error_kind (final_state 6 [var_l_1_2; assign_l0 string_a]) = Some TypeError
      /\ elements_of "l" (final_state 6 [var_l_1_2; assign_l0 string_a])
         = Some [Int 1; Int 2]).
Proof.
  split; [| split; [| split; [| split; split; vm_compute; reflexivity]]].
  - intros fuel nodes env st v st' Hok H. exact (Eval_lists_kept fuel nodes env st v st' H Hok).
  - intros fuel sp env st es v0 vs st1 t e rest v st2 t' Hall Hvs He He2 Hv Hne.
    simpl. unfold evalListExpression.
    eapply (evalListExpression_loop_mismatch (Eval fuel) env sp t es st (v0 :: vs) st1 Hall
              0%nat "" [] e rest v st2 t'); auto; first [discriminate | now intros []].
  - intros l idx value sp fr m t t' Hr Hv Ht. unfold real_index in Hr. split.
    + intros Hne. unfold List_Set, inconsistent_types.
      destruct (_ || _) eqn:Eb.
      { apply orb_true_iff in Eb as [Eb | Eb];
          [apply Z.ltb_lt in Eb | apply Z.leb_le in Eb]; lia. }
      unfold Type_differs. rewrite Hv, Ht.
      apply String.eqb_neq in Hne. rewrite Hne. reflexivity.
    + intros m' Hok Hs.
      apply (Memory_ok_list_at m' l).
      exact (Set_keeps (List l) (Int idx) value sp fr m m' Hs Hok).
Qed.

Lemma lists_stay_homogeneous_witness :
  Memory_ok (Mem after_var_l)
  /\ List_Set 1 (Int (-1)) (Bool true) nowhere None (Mem after_var_l)
     = SetFail (inconsistent_types None nowhere).
Proof.
  destruct lists_stay_homogeneous as (Heval & _ & Hset & _).
  split.
  - apply (Heval 5%nat (program_ [var_l_1_2]) root_env start Nil after_var_l).
    + intros a l H. vm_compute in H. discriminate.
    + vm_compute. reflexivity.
  - apply (Hset 1%nat (-1) (Bool true) nowhere None (Mem after_var_l) Bool_Type Int_Type).
    + vm_compute. split; [discriminate | reflexivity].
    + reflexivity.
    + reflexivity.
    + discriminate.
Defined.

(** ** The scope chain *)

Lemma store_at_set_store_lookup (m : Memory) (a b : nat) (s : gmap string Symbol) :
  store_at (set_store m a s) b = if decide (a = b) then s else store_at m b.
Proof.
  unfold store_at, set_store. simpl. destruct (decide (a = b)) as [-> | Hne].
  - now rewrite lookup_insert_eq.
  - now rewrite lookup_insert_ne.
Qed.

Lemma Environment_Get_ext (m m' : Memory) (e : Environment) (name : string) :
  (forall s, In s (scopes e) -> store_at m' s !! name = store_at m s !! name) ->
  Environment_Get m' e name = Environment_Get m e name.
Proof.
  induction e as [s | s o IH] using Environment_chain_ind; intros H; simpl.
  - rewrite (H s) by (simpl; auto). reflexivity.
  - rewrite (H s) by (simpl; auto). rewrite IH; [reflexivity |].
    intros s' Hs'. apply H. simpl. auto.
Qed.

(** What [Assign] does to the store of any scope: it rebinds [name] where it
    was bound, or nothing. *)
Lemma Environment_Assign_store (m : Memory) (e : Environment) (name : string)
  (sym : Symbol) (s : nat) :
  store_at (Environment_Assign m e name sym) s = store_at m s
  \/ (is_Some (store_at m s !! name)
      /\ store_at (Environment_Assign m e name sym) s = <[name := sym]> (store_at m s)).
Proof.
  induction e as [s0 | s0 o IH] using Environment_chain_ind; simpl.
  - destruct (store_at m s0 !! name) eqn:E; [| now left].
    rewrite store_at_set_store_lookup. destruct (decide (s0 = s)) as [<- | Hne].
    + right. split; [now rewrite E |]. reflexivity.
    + now left.
  - destruct (store_at m s0 !! name) eqn:E; [| exact IH].
    rewrite store_at_set_store_lookup. destruct (decide (s0 = s)) as [<- | Hne].
    + right. split; [now rewrite E |]. reflexivity.
    + now left.
Qed.

(** X1: [Set] binds the name in the current scope: a lookup from that scope
    finds the new symbol, whatever the scopes around it hold; the other names
    are found as before from every scope, and a scope chain that does not go
    through the store of the current scope sees no change at all. *)
Theorem Set_binds_in_the_current_scope (m : Memory) (e : Environment)
  (name : string) (sym : Symbol) :
  Environment_Get (Environment_Set m e name sym) e name = Some sym
  /\ Environment_Exists (Environment_Set m e name sym) e name = true
  /\ (forall e' name', name' <> name ->
        Environment_Get (Environment_Set m e name sym) e' name'
        = Environment_Get m e' name')
  /\ (forall e' name', ~ In (Store e) (scopes e') ->
        Environment_Get (Environment_Set m e name sym) e' name'
        = Environment_Get m e' name').
Proof.
  assert (Hs : store_at (Environment_Set m e name sym) (Store e) !! name = Some sym).
  { unfold Environment_Set. rewrite store_at_set_store_lookup.
    destruct (decide _); [| congruence]. apply lookup_insert_eq. }
  repeat split.
  - destruct e as [s o]. simpl in *. now rewrite Hs.
  - unfold Environment_Exists. now rewrite Hs.
  - intros e' name' Hne. apply Environment_Get_ext. intros s _.
    unfold Environment_Set. rewrite store_at_set_store_lookup.
    destruct (decide (Store e = s)) as [<- | ]; [| reflexivity].
    now rewrite lookup_insert_ne.
  - intros e' name' Hnot. apply Environment_Get_ext. intros s Hin.
    unfold Environment_Set. rewrite store_at_set_store_lookup.
    destruct (decide (Store e = s)) as [<- | ]; [contradiction | reflexivity].
Qed.

(** X2: [Assign] rebinds the name in the nearest scope that binds it: a name
    no scope of the chain binds is not bound by it (the memory is left as it
    was), a bound one is found with the new symbol afterwards; no store gains
    or loses a name, the other names are found as before from every scope,
    and when the current scope binds the name the scopes around it keep their
    own binding of it. *)
Theorem Assign_rebinds_the_nearest_scope (m : Memory) (e : Environment)
  (name : string) (sym : Symbol) :
  (Environment_Get m e name = None -> Environment_Assign m e name sym = m)
  /\ (is_Some (Environment_Get m e name) ->
      Environment_Get (Environment_Assign m e name sym) e name = Some sym)
  /\ (forall s, dom (store_at (Environment_Assign m e name sym) s) = dom (store_at m s))
  /\ (forall e' name', name' <> name ->
        Environment_Get (Environment_Assign m e name sym) e' name'
        = Environment_Get m e' name')
  /\ (forall e', Environment_Exists m e name = true -> ~ In (Store e) (scopes e') ->
        Environment_Get (Environment_Assign m e name sym) e' name
        = Environment_Get m e' name).
Proof.
  repeat split.
  - induction e as [s | s o IH] using Environment_chain_ind; simpl;
      destruct (store_at m s !! name); try discriminate; auto.
  - induction e as [s | s o IH] using Environment_chain_ind; simpl.
    + destruct (store_at m s !! name) eqn:E; [| intros [x Hx]; discriminate].
      intros _. rewrite store_at_set_store_lookup.
      destruct (decide _); [| congruence]. now rewrite lookup_insert_eq.
    + destruct (store_at m s !! name) eqn:E.
      * intros _. simpl. rewrite store_at_set_store_lookup.
        destruct (decide _); [| congruence]. now rewrite lookup_insert_eq.
      * intros H. simpl.
        destruct (Environment_Assign_store m o name sym s) as [-> | [[x Hx] _]];
          [| congruence].
        rewrite E. auto.
  - intros s. destruct (Environment_Assign_store m e name sym s) as [-> | [[x Hx] ->]];
      [reflexivity |].
    rewrite dom_insert_L. apply elem_of_dom_2 in Hx.
    now apply subseteq_union_1_L, singleton_subseteq_l.
  - intros e' name' Hne. apply Environment_Get_ext. intros s _.
    destruct (Environment_Assign_store m e name sym s) as [-> | [_ ->]]; [reflexivity |].
    now rewrite lookup_insert_ne.
  - intros e' Hex Hnot. apply Environment_Get_ext. intros s Hin.
    destruct e as [s0 o]. unfold Environment_Exists in Hex. simpl in *.
    destruct (store_at m s0 !! name) eqn:E; [| discriminate].
    rewrite store_at_set_store_lookup.
    destruct (decide (s0 = s)) as [<- | ]; [contradiction | reflexivity].
Qed.

(** ** Laws of the operator methods *)

(** X3: for a receiver of any variant defined in the sources, [!=] answers
    the negation of what [==] answers, with the same error or panic if any. *)
Theorem NotEqual_negates_Equal (fuel : nat) (a b : Object) (sp : util.Span)
  (fr : option frame.Frame) (m : Memory) :
  from_sources a = true ->
  NotEqual fuel a b sp fr m = negated (Equal (S fuel) a b sp fr m).
Proof.
  intros Ha. destruct a; try discriminate; simpl;
    try (destruct b; reflexivity).
  unfold List_NotEqual, negated.
  destruct (List_Equal _ _ _ _ _ _) as [[] ? | | |]; reflexivity.
Qed.

Lemma NotEqual_negates_Equal_witness :
  NotEqual 1 (Int 1) (Float PrimFloat.one) nowhere None empty_Memory
  = negated (Equal 2 (Int 1) (Float PrimFloat.one) nowhere None empty_Memory).
Proof. apply NotEqual_negates_Equal. reflexivity. Defined.

Lemma fle_flt_feq (x y : float64) : fle x y = flt x y || feq x y.
Proof.
  unfold fle, flt, feq.
  rewrite FloatAxioms.leb_spec, FloatAxioms.ltb_spec, FloatAxioms.eqb_spec.
  unfold SpecFloat.SFleb, SpecFloat.SFltb, SpecFloat.SFeqb.
  destruct (SpecFloat.SFcompare _ _) as [[] |]; reflexivity.
Qed.

(** X4: on [Int] and [Float] operands, in any mix, [a < b] answers what
    [b > a] answers and [a <= b] what [b >= a] answers, and [a <= b] holds
    exactly when [a < b] or [a == b] does. *)
Theorem comparisons_agree (a b : Object) (sp : util.Span) (fr : option frame.Frame)
  (m : Memory) :
  numeric a = true -> numeric b = true ->
  LessThan a b sp fr m = GreaterThan b a sp fr m
  /\ LessThanOrEqual a b sp fr m = GreaterThanOrEqual b a sp fr m
  /\ exists lt eq,
       LessThan a b sp fr m = Ok (Bool lt) m
       /\ Equal 1 a b sp fr m = Ok (Bool eq) m
       /\ LessThanOrEqual a b sp fr m = Ok (Bool (lt || eq)) m.
Proof.
  intros Ha Hb. destruct a; try discriminate; destruct b; try discriminate; simpl;
    (split; [reflexivity | split; [reflexivity |]]);
    do 2 eexists; (split; [reflexivity | split; [reflexivity |]]);
    rewrite ?fle_flt_feq; try reflexivity.
  do 2 f_equal. lia.
Qed.

Lemma comparisons_agree_witness :
  LessThan (Int 1) (Float PrimFloat.two) nowhere None empty_Memory
  = GreaterThan (Float PrimFloat.two) (Int 1) nowhere None empty_Memory.
Proof. apply (comparisons_agree (Int 1) (Float PrimFloat.two)); reflexivity. Defined.

Lemma list_at_set_list (m : Memory) (a b : nat) (l : list Object) :
  list_at (set_list m a l) b = if decide (a = b) then l else list_at m b.
Proof.
  unfold list_at, set_list. simpl. destruct (decide (a = b)) as [-> | Hne].
  - now rewrite lookup_insert_eq.
  - now rewrite lookup_insert_ne.
Qed.

Lemma real_index_in_range (n idx : Z) :
  (real_index n idx <? 0) || (n <=? real_index n idx) = false <->
  0 <= real_index n idx < n.
Proof.
  rewrite orb_false_iff, Z.ltb_ge, Z.leb_gt. lia.
Qed.

Lemma nth_insert_eq (xs : list Object) (i : nat) (v : Object) :
  (i < length xs)%nat -> nth i (<[i := v]> xs) Nil = v.
Proof.
  intros H. apply nth_lookup_Some. now apply list_lookup_insert_eq.
Qed.

Lemma nth_insert_ne (xs : list Object) (i j : nat) (v : Object) :
  i <> j -> nth j (<[i := v]> xs) Nil = nth j xs Nil.
Proof.
  intros H. rewrite !nth_lookup. now rewrite list_lookup_insert_ne.
Qed.

(** X5: an index assignment [l[idx] = value] that succeeds is read back by
    [l[idx]]; the list keeps its length, the other positions keep their
    element, and no other list of the memory changes. *)
Theorem List_Set_then_Index (l : nat) (idx : Z) (value : Object) (sp : util.Span)
  (fr : option frame.Frame) (m m' : Memory) :
  List_Set l (Int idx) value sp fr m = SetOk m' ->
  List_Index l (Int idx) sp fr m' = Ok value m'
  /\ length (list_at m' l) = length (list_at m l)
  /\ (forall j v,
        real_index (Z.of_nat (length (list_at m l))) j
        <> real_index (Z.of_nat (length (list_at m l))) idx ->
        List_Index l (Int j) sp fr m = Ok v m ->
        List_Index l (Int j) sp fr m' = Ok v m')
  /\ (forall l', l' <> l -> list_at m' l' = list_at m l').
Proof.
  unfold List_Set, List_Index. fold (real_index (Z.of_nat (length (list_at m l))) idx).
  set (n := Z.of_nat (length (list_at m l))).
  destruct (_ || _) eqn:Er; [discriminate |].
  apply real_index_in_range in Er.
  destruct (Type_differs _ _) as [[] |]; try discriminate.
  intros H. inversion H; subst m'; clear H.
  assert (Hl : list_at (set_list m l (<[Z.to_nat (real_index n idx) := value]> (list_at m l))) l
               = <[Z.to_nat (real_index n idx) := value]> (list_at m l)).
  { rewrite list_at_set_list. now destruct (decide _). }
  rewrite Hl, length_insert. fold n.
  repeat split.
  - fold (real_index n idx). destruct (_ || _) eqn:Er'.
    { apply orb_true_iff in Er' as [E | E];
        [apply Z.ltb_lt in E | apply Z.leb_le in E]; lia. }
    rewrite nth_insert_eq; [reflexivity | subst n; lia].
  - intros j v Hne. fold (real_index n j).
    destruct (_ || _) eqn:Ej; [discriminate |]. apply real_index_in_range in Ej.
    intros H. inversion H as [Hv]. rewrite Hv. f_equal.
    rewrite nth_insert_ne; [exact Hv |].
    intros E. apply Hne. apply Z2Nat.inj in E; lia.
  - intros l' Hne. rewrite list_at_set_list. destruct (decide _); congruence.
Qed.

Lemma List_Set_then_Index_witness :
  List_Index 0 (Int (-1)) nowhere None
    (set_list Memory_with_list 0 [Int 1; Int 5])
  = Ok (Int 5) (set_list Memory_with_list 0 [Int 1; Int 5]).
Proof.
  refine (proj1 (List_Set_then_Index 0 (-1) (Int 5) nowhere None Memory_with_list _ _)).
  vm_compute. reflexivity.
Defined.

Lemma length_string_app (s t : string) :
  String.length (s ++ t) = (String.length s + String.length t)%nat.
Proof. induction s as [| c s IH]; simpl; [reflexivity | now rewrite IH]. Qed.

Lemma length_repeat_string (n : nat) (s : string) :
  String.length (repeat_string n s) = (n * String.length s)%nat.
Proof.
  induction n as [| n IH]; simpl; [reflexivity |].
  rewrite length_string_app, IH. reflexivity.
Qed.

Lemma repeat_string_one (s : string) : repeat_string 1 s = s.
Proof.
  cbn [repeat_string]. induction s as [| c s IH]; [reflexivity |].
  change (String.String c s ++ "")%string with (String.String c (s ++ "")).
  now rewrite IH.
Qed.

(** X6: [n * s] and [s * n] answer the same for a string [s], whatever the
    integer [n] and the machine.  The answer is an OperationError when [n] is
    negative or above [math.MaxInt]; otherwise it is a new string of [n]
    copies of [s], the empty string when [n] is [0], where the copies fit an
    [int] and are of no more bytes than the machine has room for, and a
    panic where more than one copy is asked for and the copies are of more
    bytes than that. *)
Theorem string_repetition_is_symmetric (n : Z) (s : nat) (sp : util.Span)
  (fr : option frame.Frame) (m : Memory) :
  Multiply (Int n) (String s) sp fr m = Multiply (String s) (Int n) sp fr m
  /\ (n < 0 \/ MaxInt (Host m) < n ->
      Multiply (String s) (Int n) sp fr m = invalid_operation "*" sp fr)
  /\ (0 <= n <= MaxInt (Host m) ->
      len (string_at m s) * n <= MaxInt (Host m) ->
      len (string_at m s) * n <= Room (Host m) ->
      Multiply (String s) (Int n) sp fr m
      = Ok (String (Next m))
          (bump (set_string m (Next m) (repeat_string (Z.to_nat n) (string_at m s))))
      /\ len (repeat_string (Z.to_nat n) (string_at m s)) = n * len (string_at m s)
      /\ (n = 0 -> repeat_string (Z.to_nat n) (string_at m s) = ""))
  /\ (0 <= n <= MaxInt (Host m) -> n <> 1 ->
      Room (Host m) < len (string_at m s) * n ->
      exists msg, Multiply (String s) (Int n) sp fr m = Crash msg).
Proof.
  split; [reflexivity | split; [| split]].
  - intros Hn. simpl. unfold String_Multiply.
    destruct (n <? 0) eqn:E0; [reflexivity |].
    destruct (MaxInt (Host m) <? n) eqn:E1; [reflexivity |].
    apply Z.ltb_ge in E0, E1. lia.
  - intros [Hn Hmax] Hlen Hroom. simpl. unfold String_Multiply, Repeat.
    rewrite (proj2 (Z.ltb_ge n 0) Hn), (proj2 (Z.ltb_ge (MaxInt (Host m)) n) Hmax).
    rewrite (proj2 (Z.ltb_ge _ _) Hlen), (proj2 (Z.ltb_ge _ _) Hroom).
    split; [| split].
    + destruct (n =? 1) eqn:E1; [| reflexivity].
      apply Z.eqb_eq in E1. subst n. change (Z.to_nat 1) with 1%nat.
      now rewrite repeat_string_one.
    + unfold len. rewrite length_repeat_string. lia.
    + intros ->. reflexivity.
  - intros [Hn Hmax] Hne Hroom. simpl. unfold String_Multiply, Repeat.
    rewrite (proj2 (Z.ltb_ge n 0) Hn), (proj2 (Z.ltb_ge (MaxInt (Host m)) n) Hmax).
    rewrite (proj2 (Z.eqb_neq n 1) Hne).
    destruct (MaxInt (Host m) <? _); [eexists; reflexivity |].
    rewrite (proj2 (Z.ltb_lt _ _) Hroom). eexists; reflexivity.
Qed.

Lemma string_repetition_is_symmetric_witness :
  Multiply (String 0) (Int (-1)) nowhere None Memory_with_string
  = invalid_operation "*" nowhere None
  /\ Multiply (String 0) (Int (2 ^ 31)) nowhere None
       (on_machine linux_386 Memory_with_string)
     = invalid_operation "*" nowhere None
  /\ Multiply (String 0) (Int 3) nowhere None Memory_with_string
     = Ok (String 1) (bump (set_string Memory_with_string 1 "ababab"))
  /\ exists msg,
       Multiply (String 0) (Int (2 ^ 50)) nowhere None Memory_with_string = Crash msg.
Proof.
  destruct (string_repetition_is_symmetric (-1) 0 nowhere None Memory_with_string)
    as (_ & Hneg & _).
  destruct (string_repetition_is_symmetric (2 ^ 31) 0 nowhere None
              (on_machine linux_386 Memory_with_string))
    as (_ & Hneg32 & _).
  destruct (string_repetition_is_symmetric 3 0 nowhere None Memory_with_string)
    as (_ & _ & Hpos & _).
  destruct (string_repetition_is_symmetric (2 ^ 50) 0 nowhere None Memory_with_string)
    as (_ & _ & _ & Hbig).
  split; [apply Hneg; left; lia | split; [apply Hneg32; right; vm_compute; reflexivity |]].
  split.
  - apply Hpos; [split |..]; vm_compute; discriminate.
  - apply Hbig; [split; vm_compute; discriminate | discriminate | vm_compute; reflexivity].
Defined.

(** X7: the builtin [len] and the index operator agree on strings and on
    lists: with [n] the answer of [len], [a[idx]] yields a value for every
    index from [-n] to [n - 1], and is an IndexError for every other one. *)
Theorem len_bounds_the_indices (a : Object) (fuel : nat) (sp : util.Span)
  (fr : option frame.Frame) (m : Memory) :
  indexable a = true ->
  exists n,
    call_Fn len_Fn fuel fr sp [a] m = Ok (Int n) m
    /\ forall idx,
         if (- n <=? idx) && (idx <? n)
         then exists v m', Index a (Int idx) sp fr m = Ok v m'
         else Index a (Int idx) sp fr m = Fail (index_out_of_range sp fr).
Proof.
  intros Ha. destruct a; try discriminate; simpl.
  - eexists. split; [reflexivity |]. intros idx.
    unfold String_Index, RuneCountInString.
    set (n := Z.of_nat (length (runes (string_at m ref)))).
    destruct ((- n <=? idx) && (idx <? n)) eqn:E.
    + apply andb_true_iff in E as [E1 E2]. apply Z.leb_le in E1. apply Z.ltb_lt in E2.
      destruct (_ || _) eqn:Er.
      { apply orb_true_iff in Er as [Er | Er];
          [apply Z.ltb_lt in Er | apply Z.leb_le in Er]; destruct (idx <? 0) eqn:?; lia. }
      do 2 eexists. reflexivity.
    + destruct (_ || _) eqn:Er; [reflexivity |].
      apply orb_false_iff in Er as [Er1 Er2]. apply Z.ltb_ge in Er1. apply Z.leb_gt in Er2.
      apply andb_false_iff in E as [E | E];
        [apply Z.leb_gt in E | apply Z.ltb_ge in E]; destruct (idx <? 0) eqn:?; lia.
  - eexists. split; [reflexivity |]. intros idx.
    unfold List_Index.
    set (n := Z.of_nat (length (list_at m ref))).
    destruct ((- n <=? idx) && (idx <? n)) eqn:E.
    + apply andb_true_iff in E as [E1 E2]. apply Z.leb_le in E1. apply Z.ltb_lt in E2.
      destruct (_ || _) eqn:Er.
      { apply orb_true_iff in Er as [Er | Er];
          [apply Z.ltb_lt in Er | apply Z.leb_le in Er]; destruct (idx <? 0) eqn:?; lia. }
      do 2 eexists. reflexivity.
    + destruct (_ || _) eqn:Er; [reflexivity |].
      apply orb_false_iff in Er as [Er1 Er2]. apply Z.ltb_ge in Er1. apply Z.leb_gt in Er2.
      apply andb_false_iff in E as [E | E];
        [apply Z.leb_gt in E | apply Z.ltb_ge in E]; destruct (idx <? 0) eqn:?; lia.
Qed.

Lemma len_bounds_the_indices_witness :
  exists n,
    call_Fn len_Fn 0 None nowhere [List 0] Memory_with_list = Ok (Int n) Memory_with_list
    /\ forall idx,
         if (- n <=? idx) && (idx <? n)
         then exists v m', Index (List 0) (Int idx) nowhere None Memory_with_list = Ok v m'
         else Index (List 0) (Int idx) nowhere None Memory_with_list
              = Fail (index_out_of_range nowhere None).
Proof. apply (len_bounds_the_indices (List 0)). reflexivity. Defined.

Lemma Repeat_allocates (s : string) (n : Z) (m : Memory) (v : Object) (m' : Memory) :
  Repeat s n m = Ok v m' -> allocates_at_most_one m m'.
Proof.
  unfold Repeat. intros H.
  repeat match type of H with
         | context [if ?c then _ else _] => destruct c
         end; try discriminate H; inversion H; subst; right; left; eauto.
Qed.

Lemma NotEqual_same fuel self other sp fr m v m' :
  NotEqual fuel self other sp fr m = Ok v m' -> m' = m.
Proof.
  intros H.
  destruct self; try discriminate;
    try (destruct other; inversion H; reflexivity).
  simpl in H. unfold List_NotEqual in H.
  destruct (List_Equal _ _ _ _ _ _) as [r m1 | | |] eqn:E; try discriminate.
  change (Equal (S fuel) (List ref) other sp fr m = Ok r m1) in E.
  apply Equal_same in E. subst. destruct r; inversion H; reflexivity.
Qed.

Ltac allocates_case H :=
  repeat match type of H with
         | context [if ?c then _ else _] => destruct c
         | context [match ?x with _ => _ end] => destruct x
         end;
  first
    [ discriminate H
    | apply Repeat_allocates in H; exact H
    | inversion H; subst;
      first [ now left | right; left; eexists; reflexivity
            | right; right; eexists; reflexivity ] ].

Lemma unary_operator_same op :
  In op unary_operators ->
  forall a sp fr m v m', op a sp fr m = Ok v m' -> m' = m.
Proof.
  intros Hop a sp fr m v m' H. simpl in Hop.
  repeat (destruct Hop as [<- | Hop]); try contradiction;
    destruct a; simpl in H; inversion H; reflexivity.
Qed.

Lemma binary_operator_allocates fuel op :
  In op (binary_operators fuel) ->
  forall a b sp fr m v m', op a b sp fr m = Ok v m' -> allocates_at_most_one m m'.
Proof.
  intros Hop a b sp fr m v m' H. simpl in Hop.
  repeat (destruct Hop as [<- | Hop]); try contradiction.
  all: try (apply Equal_same in H; left; exact H).
  all: try (apply NotEqual_same in H; left; exact H).
  all: try (destruct a; try discriminate H; destruct b; try discriminate H;
            simpl in H;
            unfold List_Add, List_Multiply, String_Add, String_Multiply, String_Index,
              List_Index, new_String, new_List, invalid_operation in H;
            allocates_case H).
Qed.

(** X8: no operator of the [Object] interface modifies a value that exists:
    a unary operator leaves the memory as it is, and a binary operator or an
    index read leaves it as it is or adds one new string or list to it; only
    the [Set] methods write into an existing string or list. *)
Theorem operators_only_allocate :
  (forall op, In op unary_operators ->
     forall a sp fr m v m', op a sp fr m = Ok v m' -> m' = m)
  /\ (forall fuel op, In op (binary_operators fuel) ->
        forall a b sp fr m v m',
          op a b sp fr m = Ok v m' -> allocates_at_most_one m m').
Proof. split; [exact unary_operator_same | exact binary_operator_allocates]. Qed.

Lemma operators_only_allocate_witness :
  allocates_at_most_one Memory_with_list
    (snd (new_List [Int 1; Int 2; Int 1; Int 2] Memory_with_list)).
Proof.
  refine (proj2 operators_only_allocate 1%nat Add _ (List 0) (List 0) nowhere None
            Memory_with_list (List 1) _ _).
  - simpl. auto.
  - vm_compute. reflexivity.
Defined.

(** ** Statements and assignments *)

(** X9: a compound assignment [x op= e] to a variable is the assignment
    [x = x op e]: started with no error recorded, both end with the same
    value in the same state (the same error, if any, included). *)
Theorem compound_assignment_is_assignment (n : nat) (x : string) (Operator : Token)
  (e : Expression) (xsp sp : util.Span) (env : Environment) (st : State) :
  compound_operator (Type_ Operator) = true ->
  Literal Operator <> "" ->
  Err st = None ->
  Eval (S (S n))
    (ExpressionNode (CompoundAssignmentExpression (IdentifierExpression x xsp) Operator e sp))
    env st
  = Eval (S (S (S n))) (ExpressionNode (desugared x Operator e xsp sp)) env st.
Proof.
  intros Hop Hlit Herr.
  change (evalCompoundAssignmentExpression (Eval (S n)) (S n)
            (IdentifierExpression x xsp) Operator e sp env st
          = evalVarAssignmentExpression (Eval (S (S n)))
              (IdentifierExpression x xsp)
              (InfixExpression (IdentifierExpression x xsp)
                 (mkToken (CompoundAssignmentOperators (Type_ Operator))
                    (slice_to (Literal Operator) (len (Literal Operator) - 1)))
                 e sp) sp env st).
  unfold evalCompoundAssignmentExpression, evalVarAssignmentExpression.
  unfold bind, getMem. cbv beta iota.
  destruct (Environment_Get (Mem st) env x) as [sym |] eqn:Eg; [| reflexivity].
  destruct (IsConst sym); [reflexivity |].
  change (Eval (S (S n)) (ExpressionNode (InfixExpression ?l ?o ?r ?p)) env)
    with (evalInfixExpression (Eval (S n)) (S n) l o r p env).
  unfold evalInfixExpression.
  change (Eval (S n) (ExpressionNode (IdentifierExpression x xsp)) env)
    with (evalIdentifierExpression x xsp env).
  unfold evalIdentifierExpression, baseOperator.
  assert (Hl : (String.length (Literal Operator) =? 0)%nat = false).
  { apply Nat.eqb_neq. destruct (Literal Operator); [congruence | discriminate]. }
  rewrite Hl. unfold bind, check, getMem, ret. cbv beta iota. rewrite Eg, Herr.
  cbv beta iota. cbn [Type_].
  unfold compound_operator in Hop.
  destruct (Type_ Operator); try discriminate Hop; cbn [CompoundAssignmentOperators];
    cbv beta iota;
    destruct (Eval (S n) (ExpressionNode e) env st) as [right st1 | |]; try reflexivity;
    destruct (Err st1) eqn:E1; cbv beta iota; rewrite ?E1; try reflexivity;
    match goal with
    | |- context [evalInfixOperator ?f ?o ?p ?l ?r ?s] =>
        destruct (evalInfixOperator f o p l r s) as [val st2 | |]
    end; cbv beta iota; try reflexivity;
    destruct (Err st2) eqn:E2; cbv beta iota; rewrite ?E2; reflexivity.
Qed.

Lemma compound_assignment_is_assignment_witness :
  Eval 3 (ExpressionNode
            (CompoundAssignmentExpression (IdentifierExpression "x" nowhere)
               (tok PLUS_EQUAL "+=") (int_ 1) nowhere)) inner_env in_block
  = Eval 4 (ExpressionNode (desugared "x" (tok PLUS_EQUAL "+=") (int_ 1) nowhere nowhere))
      inner_env in_block.
Proof.
  apply (compound_assignment_is_assignment 1 "x" (tok PLUS_EQUAL "+=")).
  - reflexivity.
  - discriminate.
  - reflexivity.
Defined.

(** X10: a program evaluates its statements in order and stops at the first
    one that records an error: the statements after it are not evaluated, the
    state is the one that statement left, and the result is [nil] in every
    case. *)
Theorem program_stops_at_the_first_error (fuel : nat) (env : Environment)
  (sp : util.Span) :
  (forall ss st st',
     statements_run (Eval fuel) env ss st st' ->
     Eval (S fuel) (ProgramNode (mkProgram ss sp)) env st = Ret Nil st')
  /\ (forall ss1 s ss2 st st1 v st2,
        statements_run (Eval fuel) env ss1 st st1 ->
        Eval fuel (StatementNode s) env st1 = Ret v st2 ->
        Err st2 <> None ->
        Eval (S fuel) (ProgramNode (mkProgram (ss1 ++ s :: ss2) sp)) env st = Ret Nil st2).
Proof.
  split.
  - intros ss st st' H. simpl. unfold evalProgram. simpl.
    induction H as [st | s ss st v st1 st2 Hs He Hrun IH]; simpl; [reflexivity |].
    unfold bind, check. rewrite Hs, He. exact IH.
  - intros ss1 s ss2 st st1 v st2 H Hs He. simpl. unfold evalProgram. simpl.
    induction H as [st | s0 ss st v0 st1 st3 Hs0 He0 Hrun IH]; simpl.
    + unfold bind, check. rewrite Hs. destruct (Err st2); [reflexivity | congruence].
    + unfold bind, check. rewrite Hs0, He0. exact (IH Hs).
Qed.

Lemma program_stops_at_the_first_error_witness :
  Eval 5 (ProgramNode (mkProgram ([var_x_0] ++ expr_ one_by_zero :: [expr_ (postfix_ INCREMENT "++" "x")]) nowhere))
    root_env start
  = Eval 4 (StatementNode (expr_ one_by_zero)) root_env
      (match Eval 4 (StatementNode var_x_0) root_env start with
       | Ret _ st => st
       | _ => start
       end).
Proof.
  refine (proj2 (program_stops_at_the_first_error 4 root_env nowhere)
            [var_x_0] (expr_ one_by_zero) _ start _ Nil _ _ _ _).
  - eapply run_next; [vm_compute; reflexivity | reflexivity | apply run_none].
  - vm_compute. reflexivity.
  - vm_compute. discriminate.
Defined.

(** X11: a name that no scope of the chain binds cannot be read, assigned,
    updated by a compound assignment, incremented or decremented, nor
    assigned through an index: each is the VariableError [undefined variable],
    recorded before any operand is evaluated, the state being otherwise
    unchanged. *)
Theorem undefined_variable_is_a_VariableError (n : nat) (x : string)
  (xsp isp sp : util.Span) (op : Token) (e i : Expression) (env : Environment)
  (st : State) :
  Environment_Get (Mem st) env x = None ->
  Eval (S n) (ExpressionNode (IdentifierExpression x sp)) env st
  = Ret Nil (with_VariableError st (undefined_variable x) sp)
  /\ (forall target,
        In target
          [VarAssignmentExpression (IdentifierExpression x xsp) e sp;
           CompoundAssignmentExpression (IdentifierExpression x xsp) op e sp;
           PrefixUnaryIncDecExpression op (IdentifierExpression x xsp) sp;
           PostfixUnaryIncDecExpression op (IdentifierExpression x xsp) sp] ->
        Eval (S n) (ExpressionNode target) env st
        = Ret Nil (with_VariableError st (undefined_variable x) sp))
  /\ (forall target,
        In target
          [VarAssignmentExpression (IndexExpression (IdentifierExpression x xsp) i isp) e sp;
           CompoundAssignmentExpression
             (IndexExpression (IdentifierExpression x xsp) i isp) op e sp;
           PrefixUnaryIncDecExpression op
             (IndexExpression (IdentifierExpression x xsp) i isp) sp;
           PostfixUnaryIncDecExpression op
             (IndexExpression (IdentifierExpression x xsp) i isp) sp] ->
        Eval (S n) (ExpressionNode target) env st
        = Ret Nil (with_VariableError st (undefined_variable x) isp)).
Proof.
  intros Hg. repeat split.
  - simpl. unfold evalIdentifierExpression, bind, getMem. now rewrite Hg.
  - intros target Ht. simpl in Ht.
    repeat (destruct Ht as [<- | Ht]); try contradiction; simpl;
      unfold evalVarAssignmentExpression, evalCompoundAssignmentExpression,
        evalPrefixUnaryIncDecExpression, evalPostfixUnaryIncDecExpression, bind, getMem;
      now rewrite Hg.
  - intros target Ht. simpl in Ht.
    repeat (destruct Ht as [<- | Ht]); try contradiction; simpl;
      unfold evalVarAssignmentExpression, evalCompoundAssignmentExpression,
        evalPrefixUnaryIncDecExpression, evalPostfixUnaryIncDecExpression,
        withIndexTarget, bind, getMem, getFrame; simpl;
      now rewrite Hg.
Qed.

Lemma undefined_variable_is_a_VariableError_witness :
  Eval 1 (ExpressionNode (IdentifierExpression "y" nowhere)) root_env start
  = Ret Nil (with_VariableError start (undefined_variable "y") nowhere).
Proof.
  refine (proj1 (undefined_variable_is_a_VariableError 0 "y" nowhere nowhere nowhere
                   (tok INCREMENT "++") (int_ 1) (int_ 0) root_env start _)).
  vm_compute. reflexivity.
Defined.

(** X12: a [var] or [const] declaration of a name the current scope itself
    binds is a VariableError, the initial value not being evaluated.  A name
    bound only in a scope around it is shadowed: once the initial value is
    evaluated without error the declaration returns it and the run ends in
    the state that evaluation left, changed only in that the store of the
    current scope binds the name to the new symbol; every other store is as it
    was, the lookup from the current scope finds the new symbol, and the lookup
    of any name from the enclosing scope finds what it found before.  An
    initial value that fails binds nothing.  A function declaration is refused
    as soon as any scope of the chain binds the name. *)
Theorem redeclaration_is_a_VariableError (n : nat) (c : bool) (x : string)
  (xsp sp : util.Span) (e : Expression) (ps : list Parameter_) (body : Statement)
  (env : Environment) (st : State) :
  (Environment_Exists (Mem st) env x = true ->
   Eval (S n) (ExpressionNode
                 (VarInitializationExpression c (IdentifierExpression x xsp) e sp)) env st
   = Ret Nil (with_VariableError st ("variable " ++ quoted x ++ " already defined.") sp))
  /\ (forall v st1,
        Environment_Exists (Mem st) env x = false ->
        Eval n (ExpressionNode e) env st = Ret v st1 ->
        Err st1 = None ->
        Eval (S n) (ExpressionNode
                      (VarInitializationExpression c (IdentifierExpression x xsp) e sp))
          env st
        = Ret v (with_Mem st1 (Environment_Set (Mem st1) env x (mkSymbol x v c)))
        /\ store_at (Environment_Set (Mem st1) env x (mkSymbol x v c)) (Store env)
           = <[x := mkSymbol x v c]> (store_at (Mem st1) (Store env))
        /\ (forall s, s <> Store env ->
              store_at (Environment_Set (Mem st1) env x (mkSymbol x v c)) s
              = store_at (Mem st1) s)
        /\ Environment_Get (Environment_Set (Mem st1) env x (mkSymbol x v c)) env x
           = Some (mkSymbol x v c)
        /\ (forall o y, Outer env = Some o -> ~ In (Store env) (scopes o) ->
              Environment_Get (Environment_Set (Mem st1) env x (mkSymbol x v c)) o y
              = Environment_Get (Mem st1) o y))
  /\ (forall v st1,
        Environment_Exists (Mem st) env x = false ->
        Eval n (ExpressionNode e) env st = Ret v st1 ->
        Err st1 <> None ->
        Eval (S n) (ExpressionNode
                      (VarInitializationExpression c (IdentifierExpression x xsp) e sp))
          env st
        = Ret Nil st1)
  /\ (is_Some (Environment_Get (Mem st) env x) ->
      Eval (S n) (StatementNode
                    (FunctionDeclarationStatement (IdentifierExpression x xsp) ps body sp))
        env st
      = Ret Nil (with_VariableError st ("function " ++ quoted x ++ " already defined.") sp)).
Proof.
  split; [| split; [| split]].
  - intros Hx. simpl. unfold evalVarInitializationExpression, bind, getMem.
    now rewrite Hx.
  - intros v st1 Hx He Herr. split; [| split; [| split; [| split]]].
    + simpl. unfold evalVarInitializationExpression, bind, getMem, check, envSet, ret.
      now rewrite Hx, He, Herr.
    + unfold Environment_Set. apply store_at_set_store.
    + intros s Hs. unfold Environment_Set. apply store_at_set_store_ne. congruence.
    + apply Environment_Get_Set.
    + intros o y Ho Hnot. apply Environment_Get_ext. intros s Hs.
      unfold Environment_Set. rewrite store_at_set_store_ne; [reflexivity |].
      intros E. subst s. contradiction.
  - intros v st1 Hx He Herr. simpl.
    unfold evalVarInitializationExpression, bind, getMem, check.
    rewrite Hx, He. destruct (Err st1); [reflexivity | contradiction].
  - intros [sym Hx]. simpl. unfold evalFunctionDeclarationStatement, bind, getMem.
    now rewrite Hx.
Qed.

Lemma redeclaration_is_a_VariableError_witness :
  Eval 1 (ExpressionNode
            (VarInitializationExpression false (IdentifierExpression "x" nowhere)
               one_by_zero nowhere)) root_env in_block
  = Ret Nil (with_VariableError in_block
               ("variable " ++ quoted "x" ++ " already defined.") nowhere)
  /\ (Eval 2 (ExpressionNode
                (VarInitializationExpression true (IdentifierExpression "x" nowhere)
                   (int_ 5) nowhere)) inner_env in_block
      = Ret (Int 5) (with_Mem in_block
                       (Environment_Set (Mem in_block) inner_env "x" x_is_5))
      /\ Environment_Get (Environment_Set (Mem in_block) inner_env "x" x_is_5)
           inner_env "x" = Some x_is_5
      /\ Environment_Get (Environment_Set (Mem in_block) inner_env "x" x_is_5)
           root_env "x" = Some x_is_0)
  /\ Eval 3 (ExpressionNode
               (VarInitializationExpression true (IdentifierExpression "x" nowhere)
                  one_by_zero nowhere)) inner_env in_block
     = Ret Nil (with_Err in_block (mkError MathError (Some root_frame) "division by zero." nowhere))
  /\ Eval 1 (StatementNode
               (FunctionDeclarationStatement (IdentifierExpression "x" nowhere) []
                  (expr_ (int_ 0)) nowhere)) inner_env in_block
     = Ret Nil (with_VariableError in_block
                  ("function " ++ quoted "x" ++ " already defined.") nowhere).
Proof.
  refine (conj _ (conj _ (conj _ _))).
  - refine (proj1 (redeclaration_is_a_VariableError 0 false "x" nowhere nowhere
                     one_by_zero [] (expr_ (int_ 0)) root_env in_block) _).
    vm_compute. reflexivity.
  - destruct (proj1 (proj2 (redeclaration_is_a_VariableError 1 true "x" nowhere nowhere
                              (int_ 5) [] (expr_ (int_ 0)) inner_env in_block))
                (Int 5) in_block) as (Hrun & _ & _ & Hnew & Hold);
      [vm_compute; reflexivity .. |].
    refine (conj Hrun (conj Hnew (eq_trans (Hold root_env "x" eq_refl _) _))).
    + vm_compute. intros [E | []]. discriminate E.
    + vm_compute. reflexivity.
  - refine (proj1 (proj2 (proj2 (redeclaration_is_a_VariableError 2 true "x" nowhere
                                   nowhere one_by_zero [] (expr_ (int_ 0)) inner_env
                                   in_block)))
              Nil (with_Err in_block (mkError MathError (Some root_frame) "division by zero." nowhere)) _ _ _).
    + vm_compute. reflexivity.
    + vm_compute. reflexivity.
    + vm_compute. discriminate.
  - refine (proj2 (proj2 (proj2 (redeclaration_is_a_VariableError 0 false "x" nowhere
                                   nowhere one_by_zero [] (expr_ (int_ 0)) inner_env
                                   in_block))) _).
    vm_compute. eexists. reflexivity.
Defined.

(** ** What a run never undoes *)

Lemma grows_refl m : grows m m.
Proof. repeat split; auto. exists []. now rewrite app_nil_r. Qed.

Lemma grows_trans m1 m2 m3 : grows m1 m2 -> grows m2 m3 -> grows m1 m3.
Proof.
  intros (N12 & [o12 O12] & S12 & L12) (N23 & [o23 O23] & S23 & L23).
  repeat split.
  - lia.
  - exists (o12 ++ o23). now rewrite O23, O12, app_assoc.
  - intros s name Hs H. apply S23; [lia |]. now apply S12.
  - intros a Ha. rewrite L23 by lia. now apply L12.
Qed.

Lemma grows_same m m' :
  Next m = Next m' -> Stdout m' = Stdout m -> Stores m' = Stores m ->
  Lists m' = Lists m -> grows m m'.
Proof.
  intros HN HO HS HL. repeat split.
  - lia.
  - exists []. now rewrite app_nil_r.
  - intros s name _. unfold store_at. now rewrite HS.
  - intros a _. unfold list_at. now rewrite HL.
Qed.

Lemma grows_allocates m m' : allocates_at_most_one m m' -> grows m m'.
Proof.
  intros [-> | [[s ->] | [l ->]]]; [apply grows_refl | |].
  - repeat split; simpl; auto. exists []. now rewrite app_nil_r.
  - repeat split; simpl; auto.
    + exists []. now rewrite app_nil_r.
    + intros a Ha. change (length (list_at (set_list m (Next m) l) a) = length (list_at m a)).
      rewrite list_at_set_list. destruct (decide _); [lia | reflexivity].
Qed.

Lemma grows_bump m : grows m (bump m).
Proof. repeat split; simpl; auto. exists []. now rewrite app_nil_r. Qed.

Lemma grows_new_Environment outer m : grows m (snd (new_Environment outer m)).
Proof.
  repeat split; simpl; auto.
  - exists []. now rewrite app_nil_r.
  - intros s name Hs.
    change (is_Some (store_at m s !! name) ->
            is_Some (store_at (set_store m (Next m) ∅) s !! name)).
    rewrite store_at_set_store_lookup. destruct (decide _); [lia | auto].
Qed.

Lemma grows_Environment_Set m e name sym : grows m (Environment_Set m e name sym).
Proof.
  repeat split; simpl; auto.
  - exists []. now rewrite app_nil_r.
  - intros s name' Hs. unfold Environment_Set. rewrite store_at_set_store_lookup.
    destruct (decide _) as [<- |]; [| auto].
    intros H. destruct (decide (name = name')) as [<- |].
    + rewrite lookup_insert_eq. eauto.
    + now rewrite lookup_insert_ne.
Qed.

Lemma Next_Environment_Assign m e name sym :
  Next (Environment_Assign m e name sym) = Next m
  /\ Stdout (Environment_Assign m e name sym) = Stdout m.
Proof.
  induction e as [s | s o IH] using Environment_chain_ind; simpl;
    destruct (store_at m s !! name); auto.
Qed.

Lemma grows_Environment_Assign m e name sym : grows m (Environment_Assign m e name sym).
Proof.
  destruct (Next_Environment_Assign m e name sym) as [HN HO].
  repeat split.
  - lia.
  - exists []. now rewrite app_nil_r.
  - intros s name' _ H.
    destruct (Environment_Assign_store m e name sym s) as [-> | [_ ->]]; [exact H |].
    destruct (decide (name = name')) as [<- |].
    + rewrite lookup_insert_eq. eauto.
    + now rewrite lookup_insert_ne.
  - intros a _. unfold list_at. now rewrite Lists_Environment_Assign.
Qed.

Lemma grows_write m o b : grows m (write m o b).
Proof. repeat split; simpl; auto. eauto. Qed.

Lemma grows_Set_ self index value sp fr m m' :
  Set_ self index value sp fr m = SetOk m' -> grows m m'.
Proof.
  destruct self; try discriminate; simpl.
  - unfold String_Set. destruct index; try discriminate.
    destruct (_ || _); [discriminate |]. destruct value; try discriminate.
    intros H. inversion H. now apply grows_same.
  - unfold List_Set. destruct index as [| idx | | | | | | | |]; try discriminate.
    destruct (_ || _); [discriminate |].
    destruct (Type_differs _ _) as [[] |]; try discriminate.
    intros H. inversion H. repeat split; simpl; auto.
    + exists []. now rewrite app_nil_r.
    + intros a _.
      match goal with
      | |- length (list_at ?m1 a) = _ =>
          change m1 with (set_list m ref (<[Z.to_nat (if idx <? 0
                 then Z.of_nat (length (list_at m ref)) + idx else idx) := value]>
                 (list_at m ref)))
      end.
      rewrite list_at_set_list. destruct (decide _) as [<- |]; [| reflexivity].
      apply length_insert.
Qed.

Lemma grows_call_Fn fn fuel f sp args m v m' :
  call_Fn fn fuel f sp args m = Ok v m' -> grows m m'.
Proof.
  unfold call_Fn. intros H.
  destruct fn, args as [| a args]; try discriminate;
    try (destruct (String_ fuel m a); inversion H; subst; apply grows_write);
    destruct a; inversion H; subst; apply grows_refl.
Qed.

Lemma Memory_grows_refl st : Memory_grows st st.
Proof. apply grows_refl. Qed.

Lemma Memory_grows_trans st1 st2 st3 :
  Memory_grows st1 st2 -> Memory_grows st2 st3 -> Memory_grows st1 st3.
Proof. apply grows_trans. Qed.

Lemma Memory_grows_Err st err : Memory_grows st (with_Err st err).
Proof. apply grows_refl. Qed.

Lemma Memory_grows_Frame st f : Memory_grows st (with_Frame st f).
Proof. apply grows_refl. Qed.

Lemma grows_method f :
  (forall fr m v m', f fr m = Ok v m' -> grows m m') ->
  respects Memory_grows (method f).
Proof.
  intros Hf st a st' H. unfold method in H.
  destruct (f _ _) eqn:E; inversion H; subst; [exact (Hf _ _ _ _ E) | apply grows_refl].
Qed.

Lemma grows_setter self index value sp r :
  respects Memory_grows (setter (Set_ self index value sp) r).
Proof.
  intros st a st' H. unfold setter in H.
  destruct (Set_ _ _ _ _ _ _) eqn:E; inversion H; subst;
    [exact (grows_Set_ _ _ _ _ _ _ _ E) | apply grows_refl].
Qed.

Lemma grows_fail kind msg sp : respects Memory_grows (fail kind msg sp).
Proof. intros st a st' H. inversion H; subst. apply grows_refl. Qed.

Lemma grows_fail_with err : respects Memory_grows (fail_with err).
Proof. intros st a st' H. inversion H; subst. apply grows_refl. Qed.

Lemma grows_envSet env name sym : respects Memory_grows (envSet env name sym).
Proof. intros st a st' H. inversion H; subst. apply grows_Environment_Set. Qed.

Lemma grows_envAssign env name sym : respects Memory_grows (envAssign env name sym).
Proof. intros st a st' H. inversion H; subst. apply grows_Environment_Assign. Qed.

Lemma grows_newEnvironment outer : respects Memory_grows (newEnvironment outer).
Proof. intros st a st' H. inversion H; subst. apply (grows_new_Environment outer). Qed.

Lemma grows_newString s : respects Memory_grows (newString s).
Proof.
  intros st a st' H. inversion H; subst. apply grows_allocates. right; left. eauto.
Qed.

Lemma grows_newList l : respects Memory_grows (newList l).
Proof.
  intros st a st' H. inversion H; subst. apply grows_allocates. right; right. eauto.
Qed.

Lemma grows_newPtr : respects Memory_grows newPtr.
Proof. intros st a st' H. inversion H; subst. apply grows_bump. Qed.

Lemma grows_pushFrame label sp : respects Memory_grows (pushFrame label sp).
Proof. intros st a st' H. inversion H; subst. apply grows_refl. Qed.

Lemma grows_popFrame : respects Memory_grows popFrame.
Proof.
  intros st a st' H. unfold popFrame in H.
  destruct (Frame st); inversion H; subst. apply grows_refl.
Qed.

Lemma grows_prefixOperator op sp right :
  respects Memory_grows (evalPrefixOperator op sp right).
Proof.
  unfold evalPrefixOperator.
  destruct (Type_ op); try apply grows_fail_with; apply grows_method;
    intros fr m v m' H; apply unary_operator_same in H; subst;
    first [apply grows_refl | simpl; auto].
Qed.

Lemma grows_infixOperator fuel op sp left right :
  respects Memory_grows (evalInfixOperator fuel op sp left right).
Proof.
  unfold evalInfixOperator.
  destruct (Type_ op); try apply grows_fail_with; apply grows_method;
    intros fr m v m' H; apply grows_allocates;
    (eapply (binary_operator_allocates fuel); [| exact H]); simpl; auto 25.
Qed.

Lemma grows_Index target index sp : respects Memory_grows (method (Index target index sp)).
Proof.
  apply grows_method. intros fr m v m' H. apply grows_allocates.
  eapply (binary_operator_allocates 0); [| exact H]. simpl; auto 25.
Qed.

Lemma grows_evalListExpression ev v sp env :
  (forall node env, respects Memory_grows (ev node env)) ->
  respects Memory_grows (evalListExpression ev v sp env).
Proof.
  intros Hev. unfold evalListExpression.
  generalize 0%nat, "", (@nil Object).
  induction v as [| e rest IH]; intros i t elements; simpl.
  - apply grows_newList.
  - apply (respects_bind _ Memory_grows_trans); auto. intros element.
    apply (respects_check _ Memory_grows_refl).
    destruct (Object_Type element); [| apply respects_panic].
    destruct i; [apply IH |].
    destruct (negb _); [apply grows_fail | apply IH].
Qed.

Lemma grows_bindParameters params argument funcEnv :
  respects Memory_grows (bindParameters params argument funcEnv).
Proof.
  revert argument. induction params as [| p ps IH]; intros argument; simpl.
  - apply respects_ret, Memory_grows_refl.
  - destruct argument; [apply respects_panic |].
    apply (respects_bind _ Memory_grows_trans); [apply grows_envSet |].
    intros _. apply IH.
Qed.

Lemma grows_callFunction ev name params body fenv sp argument :
  (forall node env, respects Memory_grows (ev node env)) ->
  respects Memory_grows (callFunction ev name params body fenv sp argument).
Proof.
  intros Hev. unfold callFunction.
  repeat first
    [ apply grows_newEnvironment | apply grows_pushFrame | apply grows_popFrame
    | apply grows_bindParameters
    | apply (evalWithReturnValue_respects Memory_grows Memory_grows_refl
               Memory_grows_trans);
      auto using grows_fail
    | apply respects_ret, Memory_grows_refl
    | apply (respects_check _ Memory_grows_refl)
    | apply (respects_bind _ Memory_grows_trans); [| intros ?]
    | match goal with
      | |- respects _ (match ?x with _ => _ end) => destruct x
      end ].
Qed.

Lemma grows_callBuiltin fuel name fn sp argument :
  respects Memory_grows (callBuiltin fuel name fn sp argument).
Proof.
  intros st a st' H. unfold callBuiltin, bind, pushFrame, callFn in H. simpl in H.
  destruct (call_Fn _ _ _ _ _ _) eqn:E; inversion H; subst;
    [apply (grows_call_Fn _ _ _ _ _ _ _ _ E) | apply grows_refl].
Qed.

(** Every run of [Eval] only extends the memory. *)
Lemma Eval_grows (fuel : nat) (nodes : Node) (env : Environment) :
  respects Memory_grows (Eval fuel nodes env).
Proof.
  revert nodes env. induction fuel as [| n IH]; intros nodes env.
  - apply respects_out_of_fuel.
  - exact (Eval_round_respects Memory_grows Memory_grows_refl Memory_grows_trans
             (Eval n) n IH grows_fail grows_fail_with grows_envSet grows_envAssign
             grows_newEnvironment grows_newString grows_newPtr grows_prefixOperator
             (grows_infixOperator n) grows_Index grows_setter
             (fun name params body fenv sp argument =>
                grows_callFunction _ name params body fenv sp argument IH)
             (grows_callBuiltin n)
             (fun v sp env => grows_evalListExpression _ v sp env IH)
             nodes env).
Qed.

(** X13: [print] and [println] write their argument once, after what the
    argument itself writes.  Where the name of the callee resolves to one of
    the two builtins and no error is recorded: when the argument evaluates
    without error to a value that can be rendered, the call returns [Null] in
    the state the argument left (so in the same frame), with that one value
    added at the end of the output, followed by a newline for [println] only,
    and what was written before the call is still the beginning of the
    output; when the argument records an error the call writes nothing and
    returns nil in the state the argument left; and a call with no argument or
    with more than one is an ArgumentError that evaluates and writes
    nothing. *)
Theorem print_writes_after_its_argument (n : nat) (newline : bool) (f name : string)
  (p : nat) (fsp sp : util.Span) (e : Expression) (env : Environment) (st : State) :
  Err st = None ->
  Value <$> Environment_Get (Mem st) env f
  = Some (BuiltinFunction p name ["a"] [] (printer newline)) ->
  (forall a st1,
     Eval n (ExpressionNode e) env st = Ret a st1 ->
     Err st1 = None ->
     String_ n (Mem st1) a = Rendered ->
     Eval (S n) (ExpressionNode (CallExpression (IdentifierExpression f fsp) [Some e] sp))
       env st
     = Ret Null (with_Mem st1 (write (Mem st1) a newline))
     /\ Stdout (write (Mem st1) a newline) = Stdout (Mem st1) ++ [(a, newline)]
     /\ exists out, Stdout (Mem st1) = Stdout (Mem st) ++ out)
  /\ (forall a st1,
        Eval n (ExpressionNode e) env st = Ret a st1 ->
        Err st1 <> None ->
        Eval (S n) (ExpressionNode
                      (CallExpression (IdentifierExpression f fsp) [Some e] sp)) env st
        = Ret Nil st1)
  /\ (forall args,
        argLen_of args <> 1 ->
        Eval (S (S n)) (ExpressionNode
                          (CallExpression (IdentifierExpression f fsp) args sp)) env st
        = Ret Nil (with_Err st
                     (mkError ArgumentError (Frame st)
                        (arity_message 0 1 1 (argLen_of args)) sp))).
Proof.
  intros Herr Hf.
  destruct (Environment_Get (Mem st) env f) as [sym |] eqn:Hget; [| discriminate].
  simpl in Hf. injection Hf as Hv.
  assert (Hid : forall k, Eval (S k) (ExpressionNode (IdentifierExpression f fsp)) env st
                          = Ret (BuiltinFunction p name ["a"] [] (printer newline)) st).
  { intros k. simpl. unfold evalIdentifierExpression, bind, getMem, ret.
    now rewrite Hget, Hv. }
  split; [| split].
  - intros a st1 He Herr1 Hr.
    destruct n as [| k]; [discriminate |].
    split; [| split].
    + change (Eval (S (S k)) ?x env st) with
        (evalCallExpression (Eval (S k)) (S k) (IdentifierExpression f fsp) [Some e] sp env st).
      unfold evalCallExpression, bind, check. rewrite Hid, Herr.
      cbn [builtin_defaultLen_of length argLen_of]. change (negb _) with false. cbv iota.
      cbn [evalArguments]. unfold bind, check, ret. rewrite He, Herr1.
      cbn [fillDefaults app length Nat.sub]. unfold ret.
      unfold callBuiltin, bind, pushFrame, callFn. cbn [Mem with_Frame Frame].
      unfold call_Fn. destruct newline; cbn [printer]; rewrite Hr;
        unfold popFrame, bind, ret; destruct st1; reflexivity.
    + reflexivity.
    + apply (Eval_grows _ _ _ _ _ _ He).
  - intros a st1 He Herr1.
    destruct n as [| k]; [discriminate |].
    change (Eval (S (S k)) ?x env st) with
        (evalCallExpression (Eval (S k)) (S k) (IdentifierExpression f fsp) [Some e] sp env st).
    unfold evalCallExpression, bind, check. rewrite Hid, Herr.
    cbn [builtin_defaultLen_of length argLen_of]. change (negb _) with false. cbv iota.
    cbn [evalArguments]. unfold bind, check, ret. rewrite He.
    destruct (Err st1); [reflexivity | contradiction].
  - intros args Hargs.
    change (Eval (S (S n)) ?x env st) with
        (evalCallExpression (Eval (S n)) (S n) (IdentifierExpression f fsp) args sp env st).
    unfold evalCallExpression, bind, check. rewrite Hid, Herr.
    cbn [builtin_defaultLen_of length]. change (Z.of_nat 1) with 1. change (1 - 0) with 1.
    destruct (1 <=? argLen_of args) eqn:E1; destruct (argLen_of args <=? 1) eqn:E2;
      cbn [andb negb]; try reflexivity. lia.
Qed.

Lemma print_writes_after_its_argument_witness :
  (Eval 4 (ExpressionNode (println_of print_1)) root_env print_0_done
   = Ret Null (with_Mem print_1_done (write (Mem print_1_done) Null true))
   /\ Stdout (write (Mem print_1_done) Null true)
      = [(Int 0, false); (Int 1, false); (Null, true)])
  /\ Eval 4 (ExpressionNode (println_of one_by_zero)) root_env print_0_done
     = Ret Nil (with_Err print_0_done
                  (mkError MathError (Some root_frame) "division by zero." nowhere))
  /\ Eval 2 (ExpressionNode (CallExpression (var_ "println") [] nowhere)) root_env
       print_0_done
     = Ret Nil (with_Err print_0_done
                  (mkError ArgumentError (Some root_frame)
                     "expected 1 parameters, got 0." nowhere)).
Proof.
  refine (conj _ (conj _ _)).
  - destruct (proj1 (print_writes_after_its_argument 3 true "println" "println" 1
                       nowhere nowhere print_1 root_env print_0_done eq_refl eq_refl)
                Null print_1_done) as (Hrun & Hout & _);
      [vm_compute; reflexivity .. |].
    exact (conj Hrun Hout).
  - refine (proj1 (proj2 (print_writes_after_its_argument 3 true "println" "println" 1
                            nowhere nowhere one_by_zero root_env print_0_done
                            eq_refl eq_refl))
              Nil _ _ _).
    + vm_compute. reflexivity.
    + vm_compute. discriminate.
  - refine (proj2 (proj2 (print_writes_after_its_argument 0 true "println" "println" 1
                            nowhere nowhere one_by_zero root_env print_0_done
                            eq_refl eq_refl))
              [] _).
    vm_compute. discriminate.
Defined.

Lemma Environment_Get_grows (m m' : Memory) (e : Environment) (name : string) :
  grows m m' ->
  Forall (fun s => (s < Next m)%nat) (scopes e) ->
  is_Some (Environment_Get m e name) -> is_Some (Environment_Get m' e name).
Proof.
  intros (_ & _ & HS & _).
  induction e as [s | s o IH] using Environment_chain_ind; simpl; intros Hs.
  - apply Forall_cons in Hs as [Hs _].
    destruct (store_at m s !! name) eqn:E; [| intros [x Hx]; discriminate].
    intros _. destruct (HS s name Hs) as [y ->]; eauto.
  - apply Forall_cons in Hs as [Hs Ho].
    destruct (store_at m s !! name) eqn:E.
    + intros _. destruct (HS s name Hs) as [y ->]; eauto.
    + intros H. destruct (store_at m' s !! name); eauto.
Qed.

(** X14: no run unbinds a name: a name that a chain of existing scopes
    resolves before a run is still resolved by it afterwards, whatever was
    evaluated. *)
Theorem names_stay_bound (fuel : nat) (nodes : Node) (env : Environment)
  (st : State) (v : Object) (st' : State) (e : Environment) (name : string) :
  Eval fuel nodes env st = Ret v st' ->
  Forall (fun s => (s < Next (Mem st))%nat) (scopes e) ->
  is_Some (Environment_Get (Mem st) e name) ->
  is_Some (Environment_Get (Mem st') e name).
Proof.
  intros H. apply Environment_Get_grows. exact (Eval_grows fuel nodes env st v st' H).
Qed.

Lemma names_stay_bound_witness :
  is_Some (Environment_Get
             (Mem (state_after (Eval 3 (ExpressionNode (postfix_ INCREMENT "++" "x"))
                                  inner_env in_block)))
             inner_env "x").
Proof.
  apply (names_stay_bound 3 (ExpressionNode (postfix_ INCREMENT "++" "x")) inner_env
           in_block (Int 0)).
  - vm_compute. reflexivity.
  - repeat constructor.
  - vm_compute. eauto.
Defined.

(** X15: a list never changes its length: whatever a run evaluates, every
    list that existed before has as many elements after, so that an index
    that was in range stays in range. *)
Theorem lists_keep_their_length (fuel : nat) (nodes : Node) (env : Environment)
  (st : State) (v : Object) (st' : State) (a : nat) :
  Eval fuel nodes env st = Ret v st' ->
  (a < Next (Mem st))%nat ->
  length (list_at (Mem st') a) = length (list_at (Mem st) a)
  /\ forall idx sp fr,
       (exists x, List_Index a (Int idx) sp fr (Mem st) = Ok x (Mem st)) ->
       exists x', List_Index a (Int idx) sp fr (Mem st') = Ok x' (Mem st').
Proof.
  intros H Ha. destruct (Eval_grows fuel nodes env st v st' H) as (_ & _ & _ & HL).
  specialize (HL a Ha). split; [exact HL |].
  intros idx sp fr [x Hx]. unfold List_Index in *. rewrite HL.
  destruct (_ || _); [discriminate | eauto].
Qed.

Lemma lists_keep_their_length_witness :
  length (list_at (Mem (state_after (Eval 4 (StatementNode (assign_l0 (int_ 7)))
                                       root_env after_var_l))) 1)
  = length (list_at (Mem after_var_l) 1).
Proof.
  refine (proj1 (lists_keep_their_length 4 (StatementNode (assign_l0 (int_ 7))) root_env
                   after_var_l Nil _ 1%nat _ _)).
  - vm_compute. reflexivity.
  - vm_compute. lia.
Defined.

(** ** After an error *)

Lemma holds_refl m : holds m m.
Proof. repeat split; auto. Qed.

Lemma holds_trans m1 m2 m3 : holds m1 m2 -> holds m2 m3 -> holds m1 m3.
Proof.
  intros (N12 & O12 & A12 & S12) (N23 & O23 & A23 & S23). repeat split.
  - lia.
  - congruence.
  - destruct (A23 a) as [-> _]; [lia |]. now apply A12.
  - destruct (A23 a) as [_ ->]; [lia |]. now apply A12.
  - intros s name sym Hs H. apply S23; [lia |]. now apply S12.
Qed.

Lemma quiet_refl st : quiet st st.
Proof. intros H. repeat split; auto. Qed.

Lemma quiet_trans st1 st2 st3 : quiet st1 st2 -> quiet st2 st3 -> quiet st1 st3.
Proof.
  intros H12 H23 H1. destruct (H12 H1) as (H2 & F12 & M12).
  destruct (H23 H2) as (H3 & F23 & M23).
  split; [exact H3 | split; [congruence | eapply holds_trans; eauto]].
Qed.

(** What follows a test of [e.Err] does not run once an error is
    recorded. *)
Lemma quiet_check {A} (nil : A) (k : M A) : respects quiet (check nil k).
Proof.
  intros st a st' H Hne. unfold check in H.
  destruct (Err st) eqn:E; [| congruence].
  inversion H; subst. rewrite E. repeat split; auto; discriminate.
Qed.

Lemma quiet_holds (st : State) (m : Memory) :
  holds (Mem st) m -> quiet st (with_Mem st m).
Proof. intros H Hne. split; [exact Hne | split; [reflexivity | exact H]]. Qed.

Lemma quiet_fail kind msg sp : respects quiet (fail kind msg sp).
Proof.
  intros st a st' H Hne. inversion H; subst. repeat split; auto; discriminate.
Qed.

Lemma quiet_fail_with err : respects quiet (fail_with err).
Proof.
  intros st a st' H Hne. inversion H; subst. repeat split; auto; discriminate.
Qed.

Lemma holds_set_store_fresh m s : holds m (bump (set_store m (Next m) s)).
Proof.
  repeat split; simpl; auto.
  intros s0 name sym Hs.
  change (store_at m s0 !! name = Some sym ->
          store_at (set_store m (Next m) s) s0 !! name = Some sym).
  rewrite store_at_set_store_lookup. destruct (decide _); [lia | auto].
Qed.

Lemma holds_set_string_fresh m s : holds m (bump (set_string m (Next m) s)).
Proof.
  repeat split; simpl; auto. rewrite lookup_insert_ne; [reflexivity | lia].
Qed.

Lemma holds_set_list_fresh m l : holds m (bump (set_list m (Next m) l)).
Proof.
  repeat split; simpl; auto. rewrite lookup_insert_ne; [reflexivity | lia].
Qed.

Lemma holds_bump m : holds m (bump m).
Proof. repeat split; simpl; auto. Qed.

Lemma quiet_newEnvironment outer : respects quiet (newEnvironment outer).
Proof.
  intros st a st' H. inversion H; subst. apply quiet_holds, holds_set_store_fresh.
Qed.

Lemma quiet_newString s : respects quiet (newString s).
Proof.
  intros st a st' H. inversion H; subst. apply quiet_holds, holds_set_string_fresh.
Qed.

Lemma quiet_newList l : respects quiet (newList l).
Proof.
  intros st a st' H. inversion H; subst. apply quiet_holds, holds_set_list_fresh.
Qed.

(** A function declaration binds a name that the scope does not bind. *)
Lemma quiet_evalFunctionDeclarationStatement name ps body sp env :
  respects quiet (evalFunctionDeclarationStatement name ps body sp env).
Proof.
  unfold evalFunctionDeclarationStatement.
  destruct name as [| | | | | | | | funcName ? | | | | | | | | | |];
    try apply respects_panic.
  intros st a st' H. unfold bind, getMem in H.
  destruct (Environment_Get (Mem st) env funcName) eqn:Eg.
  - exact (quiet_fail _ _ _ _ _ _ H).
  - unfold newPtr, envSet, ret in H. simpl in H. inversion H; subst. clear H.
    intros Hne. split; [exact Hne | split; [reflexivity |]]. simpl.
    repeat split; simpl; auto.
    intros s name sym Hs Hb. unfold Environment_Set.
    rewrite store_at_set_store_lookup.
    change (store_at (bump (Mem st)) ?x) with (store_at (Mem st) x).
    destruct (decide _) as [<- |]; [| exact Hb].
    destruct (decide (funcName = name)) as [<- |]; [| now rewrite lookup_insert_ne].
    destruct env as [s0 o]. simpl in *. rewrite Hb in Eg. discriminate.
Qed.

Ltac quiet_step Hev :=
  first
    [ apply quiet_check
    | apply respects_ret, quiet_refl | apply respects_panic | apply respects_out_of_fuel
    | apply respects_getFrame, quiet_refl | apply respects_getMem, quiet_refl
    | apply Hev | apply quiet_fail | apply quiet_fail_with
    | apply quiet_newEnvironment | apply quiet_newString | apply quiet_newList
    | apply (respects_bind _ quiet_trans); [| intros ?]
    | match goal with
      | |- respects _ (match ?x with _ => _ end) => destruct x
      | |- respects _ (if ?x then _ else _) => destruct x
      end ].

Section Quiet.

Context (ev : Node -> Environment -> M Object) (fuel : nat).
Hypothesis Hev : forall node env, respects quiet (ev node env).

Lemma quiet_evalBlockExpression ss env : respects quiet (evalBlockExpression ev ss env).
Proof.
  unfold evalBlockExpression.
  apply (respects_bind _ quiet_trans); [apply quiet_newEnvironment |].
  intros blockEnv. generalize Nil.
  induction ss as [| s rest IH]; intros r; simpl.
  - apply respects_ret, quiet_refl.
  - apply (respects_bind _ quiet_trans).
    + unfold evalWithReturnValue. repeat quiet_step Hev.
    + intros r'. destruct r'; try apply IH. apply respects_ret, quiet_refl.
Qed.

Lemma quiet_round (nodes : Node) (env : Environment) :
  respects quiet
    (match nodes with
     | ProgramNode p => evalProgram ev p env
     | StatementNode (ForStatement i c u b sp) => evalForStatement ev fuel i c u b sp env
     | StatementNode (FunctionDeclarationStatement name ps b sp) =>
         evalFunctionDeclarationStatement name ps b sp env
     | StatementNode (ReturnStatement r sp) => evalReturnStatement ev r sp env
     | StatementNode (ExpressionStatement e _) => evalExpressionStatement ev e env
     | ExpressionNode (PrefixExpression op v sp) => evalPrefixExpression ev op v sp env
     | ExpressionNode (InfixExpression l op r sp) =>
         evalInfixExpression ev fuel l op r sp env
     | ExpressionNode (IntExpression v _) => evalIntExpression v
     | ExpressionNode (FloatExpression v _) => evalFloatExpression v
     | ExpressionNode (BoolExpression v _) => evalBooleanExpression v
     | ExpressionNode (NullExpression _) => evalNullExpression
     | ExpressionNode (StringExpression v _) => evalStringExpression v
     | ExpressionNode (ListExpression v sp) => evalListExpression ev v sp env
     | ExpressionNode (IdentifierExpression name sp) =>
         evalIdentifierExpression name sp env
     | ExpressionNode (GroupedExpression e _) => ev (ExpressionNode e) env
     | ExpressionNode (VarInitializationExpression c name v sp) =>
         evalVarInitializationExpression ev c name v sp env
     | ExpressionNode (VarAssignmentExpression name v sp) =>
         evalVarAssignmentExpression ev name v sp env
     | ExpressionNode (CompoundAssignmentExpression name op r sp) =>
         evalCompoundAssignmentExpression ev fuel name op r sp env
     | ExpressionNode (PrefixUnaryIncDecExpression op r sp) =>
         evalPrefixUnaryIncDecExpression ev fuel op r sp env
     | ExpressionNode (PostfixUnaryIncDecExpression op l sp) =>
         evalPostfixUnaryIncDecExpression ev fuel op l sp env
     | ExpressionNode (BlockExpression ss _) => evalBlockExpression ev ss env
     | ExpressionNode (IfExpression c t f sp) => evalIfExpression ev c t f sp env
     | ExpressionNode (CallExpression f args sp) =>
         evalCallExpression ev fuel f args sp env
     | ExpressionNode (IndexExpression t i sp) => evalIndexExpression ev t i sp env
     | NoNode => panic unknown_node_type
     end).
Proof.
  destruct nodes as [p | s | e |]; [| destruct s | destruct e |];
    try apply quiet_evalFunctionDeclarationStatement;
    try apply quiet_evalBlockExpression;
    unfold evalProgram, evalForStatement, evalReturnStatement, evalExpressionStatement,
      evalPrefixExpression, evalInfixExpression, evalIntExpression, evalFloatExpression,
      evalBooleanExpression, evalNullExpression, evalStringExpression,
      evalListExpression, evalIdentifierExpression, evalVarInitializationExpression,
      evalVarAssignmentExpression, evalCompoundAssignmentExpression,
      evalPrefixUnaryIncDecExpression, evalPostfixUnaryIncDecExpression,
      evalIfExpression, evalCallExpression, evalIndexExpression, withIndexTarget;
    try (repeat quiet_step Hev; fail).
  - destruct (Statements p); simpl; repeat quiet_step Hev.
  - match goal with
    | |- respects _ (evalListExpression_loop _ _ ?l _ _ _ _) => destruct l
    end; simpl; repeat quiet_step Hev.
Qed.

End Quiet.

Lemma Eval_quiet (fuel : nat) (nodes : Node) (env : Environment) :
  respects quiet (Eval fuel nodes env).
Proof.
  revert nodes env. induction fuel as [| n IH]; intros nodes env.
  - apply respects_out_of_fuel.
  - exact (quiet_round (Eval n) n IH nodes env).
Qed.

(** X16: once an error is recorded the evaluator writes nothing more,
    whatever it is made to evaluate (a block goes on with its statements after
    an error): the run ends with an error recorded, in the same frame, having
    printed nothing, and every string, list and binding that existed is as it
    was. *)
Theorem nothing_is_written_after_an_error (fuel : nat) (nodes : Node)
  (env : Environment) (st : State) (v : Object) (st' : State) :
  Err st <> None ->
  Eval fuel nodes env st = Ret v st' ->
  Err st' <> None
  /\ Frame st' = Frame st
  /\ Stdout (Mem st') = Stdout (Mem st)
  /\ (forall a, (a < Next (Mem st))%nat ->
        Strings (Mem st') !! a = Strings (Mem st) !! a
        /\ Lists (Mem st') !! a = Lists (Mem st) !! a)
  /\ (forall s name sym, (s < Next (Mem st))%nat ->
        store_at (Mem st) s !! name = Some sym ->
        store_at (Mem st') s !! name = Some sym).
Proof.
  intros Hne H. destruct (Eval_quiet fuel nodes env st v st' H Hne) as (He & Hf & Hm).
  destruct Hm as (_ & Ho & Ha & Hs). auto.
Qed.

Lemma nothing_is_written_after_an_error_witness :
  Stdout (Mem (state_after
                 (Eval 4 (ExpressionNode
                            (BlockExpression [expr_ println_1; expr_ println_1] nowhere))
                    root_env (failed start))))
  = Stdout (Mem (failed start)).
Proof.
  refine (proj1 (proj2 (proj2
            (nothing_is_written_after_an_error 4
               (ExpressionNode (BlockExpression [expr_ println_1; expr_ println_1] nowhere))
               root_env (failed start) Nil _ _ _)))).
  - discriminate.
  - vm_compute. reflexivity.
Defined.

(** ** Lexical scopes *)

Section Scoped.

Context (N x : nat).

Lemma scoped_refl st : scoped N x st st.
Proof. intros H. auto. Qed.

Lemma scoped_trans st1 st2 st3 :
  scoped N x st1 st2 -> scoped N x st2 st3 -> scoped N x st1 st3.
Proof.
  intros H12 H23 H1. destruct (H12 H1) as [H2 D12]. destruct (H23 H2) as [H3 D23].
  split; [exact H3 |]. intros s Hs Hx. rewrite D23, D12; auto.
Qed.

Lemma scoped_Err st err : scoped N x st (with_Err st err).
Proof. intros H. auto. Qed.

Lemma scoped_Frame st f : scoped N x st (with_Frame st f).
Proof. intros H. auto. Qed.

(** A step that leaves the stores as they are. *)
Lemma scoped_Stores st m :
  Stores m = Stores (Mem st) -> (Next (Mem st) <= Next m)%nat ->
  scoped N x st (with_Mem st m).
Proof.
  intros HS HN H. simpl. split; [lia |]. intros s _ _. unfold store_at. now rewrite HS.
Qed.

Lemma scoped_allocates st m :
  allocates_at_most_one (Mem st) m -> scoped N x st (with_Mem st m).
Proof.
  intros [-> | [[s ->] | [l ->]]]; apply scoped_Stores; simpl; auto.
Qed.

Lemma scoped_fail kind msg sp : respects (scoped N x) (fail kind msg sp).
Proof. intros st a st' H. inversion H; subst. apply scoped_Err. Qed.

Lemma scoped_fail_with err : respects (scoped N x) (fail_with err).
Proof. intros st a st' H. inversion H; subst. apply scoped_Err. Qed.

Lemma scoped_pushFrame label sp : respects (scoped N x) (pushFrame label sp).
Proof. intros st a st' H. inversion H; subst. apply scoped_Frame. Qed.

Lemma scoped_popFrame : respects (scoped N x) popFrame.
Proof.
  intros st a st' H. unfold popFrame in H.
  destruct (Frame st); inversion H; subst. apply scoped_Frame.
Qed.

Lemma scoped_newString s : respects (scoped N x) (newString s).
Proof.
  intros st a st' H. inversion H; subst. apply scoped_allocates. right; left. eauto.
Qed.

Lemma scoped_newList l : respects (scoped N x) (newList l).
Proof.
  intros st a st' H. inversion H; subst. apply scoped_allocates. right; right. eauto.
Qed.

Lemma scoped_newPtr : respects (scoped N x) newPtr.
Proof. intros st a st' H. inversion H; subst. apply scoped_Stores; simpl; auto. Qed.

Lemma scoped_method f :
  (forall fr m v m', f fr m = Ok v m' -> allocates_at_most_one m m') ->
  respects (scoped N x) (method f).
Proof.
  intros Hf st a st' H. unfold method in H.
  destruct (f _ _) eqn:E; inversion H; subst;
    [apply scoped_allocates, (Hf _ _ _ _ E) | apply scoped_Err].
Qed.

Lemma Stores_Set_ self index value sp fr m m' :
  Set_ self index value sp fr m = SetOk m' -> Stores m' = Stores m /\ Next m' = Next m.
Proof.
  destruct self; try discriminate; simpl.
  - unfold String_Set. destruct index; try discriminate.
    destruct (_ || _); [discriminate |]. destruct value; try discriminate.
    intros H. inversion H. auto.
  - unfold List_Set. destruct index; try discriminate.
    destruct (_ || _); [discriminate |].
    destruct (Type_differs _ _) as [[] |]; try discriminate.
    intros H. inversion H. auto.
Qed.

Lemma scoped_setter self index value sp r :
  respects (scoped N x) (setter (Set_ self index value sp) r).
Proof.
  intros st a st' H. unfold setter in H.
  destruct (Set_ _ _ _ _ _ _) eqn:E; inversion H; subst; [| apply scoped_Err].
  apply Stores_Set_ in E as [HS HN]. apply scoped_Stores; [exact HS | lia].
Qed.

Lemma scoped_prefixOperator op sp right :
  respects (scoped N x) (evalPrefixOperator op sp right).
Proof.
  unfold evalPrefixOperator.
  destruct (Type_ op); try apply scoped_fail_with; apply scoped_method;
    intros fr m v m' H; apply unary_operator_same in H; subst;
    first [now left | simpl; auto].
Qed.

Lemma scoped_infixOperator fuel op sp left right :
  respects (scoped N x) (evalInfixOperator fuel op sp left right).
Proof.
  unfold evalInfixOperator.
  destruct (Type_ op); try apply scoped_fail_with; apply scoped_method;
    intros fr m v m' H;
    (eapply (binary_operator_allocates fuel); [| exact H]); simpl; auto 25.
Qed.

Lemma scoped_Index target index sp :
  respects (scoped N x) (method (Index target index sp)).
Proof.
  apply scoped_method. intros fr m v m' H.
  eapply (binary_operator_allocates 0); [| exact H]. simpl; auto 25.
Qed.

(** [Assign] binds no new name. *)
Lemma scoped_envAssign env name sym : respects (scoped N x) (envAssign env name sym).
Proof.
  intros st a st' H. inversion H; subst. intros HN. simpl.
  destruct (Next_Environment_Assign (Mem st) env name sym) as [-> _].
  split; [exact HN |]. intros s _ _.
  destruct (Environment_Assign_store (Mem st) env name sym s) as [-> | [[y Hy] ->]];
    [reflexivity |].
  rewrite dom_insert_L. apply elem_of_dom_2 in Hy.
  now apply subseteq_union_1_L, singleton_subseteq_l.
Qed.

(** [Set] binds a name in a local scope only. *)
Lemma scoped_envSet env name sym :
  local N x env -> respects (scoped N x) (envSet env name sym).
Proof.
  intros Hl st a st' H. inversion H; subst. intros HN. simpl. split; [exact HN |].
  intros s Hs Hx. unfold Environment_Set. rewrite store_at_set_store_lookup.
  destruct (decide _) as [<- |]; [| reflexivity].
  destruct Hl; [contradiction | lia].
Qed.

(** A new scope is local. *)
Lemma scoped_newEnvironment {A} outer (k : Environment -> M A) :
  (forall e, local N x e -> respects (scoped N x) (k e)) ->
  respects (scoped N x) (bind (newEnvironment outer) k).
Proof.
  intros Hk st a st' H HN. unfold bind, newEnvironment in H. simpl in H.
  assert (Hl : local N x (mkEnvironment (Next (Mem st)) outer)) by (right; exact HN).
  destruct (Hk _ Hl _ _ _ H) as [HN' D]; [simpl; lia |].
  split; [exact HN' |]. intros s Hs Hx. rewrite D by assumption. simpl.
  change (dom (store_at (set_store (Mem st) (Next (Mem st)) ∅) s)
          = dom (store_at (Mem st) s)).
  rewrite store_at_set_store_lookup. destruct (decide _); [lia | reflexivity].
Qed.

Context (ev : Node -> Environment -> M Object) (fuel : nat).
Hypothesis Hev : forall node env, local N x env -> respects (scoped N x) (ev node env).

Ltac scoped_step :=
  first
    [ apply respects_ret, scoped_refl | apply respects_panic | apply respects_out_of_fuel
    | apply respects_getFrame, scoped_refl | apply respects_getMem, scoped_refl
    | apply respects_baseOperator, scoped_refl
    | apply Hev; assumption | apply scoped_fail | apply scoped_fail_with
    | apply scoped_envSet; assumption | apply scoped_envAssign
    | apply scoped_newString | apply scoped_newList | apply scoped_newPtr
    | apply scoped_pushFrame | apply scoped_popFrame
    | apply scoped_prefixOperator | apply scoped_infixOperator
    | apply scoped_Index | apply scoped_setter
    | assumption
    | apply (respects_check _ scoped_refl)
    | apply scoped_newEnvironment; intros ? ?
    | apply (respects_bind _ scoped_trans); [| intros ?]
    | match goal with
      | |- respects _ (match ?x with _ => _ end) => destruct x
      | |- respects _ (if ?x then _ else _) => destruct x
      end ].

Lemma scoped_evalProgram p env :
  local N x env -> respects (scoped N x) (evalProgram ev p env).
Proof.
  intros Hl. unfold evalProgram. induction (Statements p) as [| s rest IH]; simpl;
    repeat (scoped_step || apply IH).
Qed.

Lemma scoped_evalForStatement_loop n b c u body sp forEnv :
  local N x forEnv ->
  respects (scoped N x) (evalForStatement_loop ev n b c u body sp forEnv).
Proof.
  intros Hl. revert b. induction n as [| n IH]; intros b; simpl; unfold non_bool_for;
    repeat (scoped_step || apply IH).
Qed.

Lemma scoped_evalForStatement i c u body sp env :
  respects (scoped N x) (evalForStatement ev fuel i c u body sp env).
Proof.
  unfold evalForStatement, non_bool_for.
  repeat (scoped_step || (apply scoped_evalForStatement_loop; assumption)).
Qed.

Lemma scoped_evalListExpression v sp env :
  local N x env -> respects (scoped N x) (evalListExpression ev v sp env).
Proof.
  intros Hl. unfold evalListExpression.
  generalize 0%nat, "", (@nil Object).
  induction v as [| e rest IH]; intros i t elements; simpl;
    repeat (scoped_step || apply IH).
Qed.

Lemma scoped_withIndexTarget t i isp sp env k :
  local N x env ->
  (forall target index, respects (scoped N x) (k target index)) ->
  respects (scoped N x) (withIndexTarget ev t i isp sp env k).
Proof.
  intros Hl Hk. unfold withIndexTarget. repeat (scoped_step || apply Hk).
Qed.

Lemma scoped_evalIndexExpression t i sp env :
  local N x env -> respects (scoped N x) (evalIndexExpression ev t i sp env).
Proof. intros Hl. unfold evalIndexExpression. repeat scoped_step. Qed.

Lemma scoped_evalWithReturnValue node env :
  local N x env -> respects (scoped N x) (evalWithReturnValue ev node env).
Proof. intros Hl. unfold evalWithReturnValue. repeat scoped_step. Qed.

Lemma scoped_evalBlockExpression ss env :
  respects (scoped N x) (evalBlockExpression ev ss env).
Proof.
  unfold evalBlockExpression. apply scoped_newEnvironment. intros blockEnv Hl.
  generalize Nil. induction ss as [| s rest IH]; intros r; simpl.
  - apply respects_ret, scoped_refl.
  - apply (respects_bind _ scoped_trans);
      [apply scoped_evalWithReturnValue; assumption |].
    intros r'. destruct r'; try apply IH. apply respects_ret, scoped_refl.
Qed.

Lemma scoped_evalArguments default_at args argument env :
  local N x env -> respects (scoped N x) (evalArguments ev default_at args argument env).
Proof.
  intros Hl. revert argument. induction args as [| arg rest IH]; intros argument; simpl.
  - apply respects_ret, scoped_refl.
  - destruct arg; [| destruct (default_at _)]; repeat (scoped_step || apply IH).
Qed.

Lemma scoped_fillDefaults default_at n argument env :
  local N x env -> respects (scoped N x) (fillDefaults ev default_at n argument env).
Proof.
  intros Hl. revert argument. induction n as [| n IH]; intros argument; simpl.
  - apply respects_ret, scoped_refl.
  - destruct (default_at _); repeat (scoped_step || apply IH).
Qed.

Lemma scoped_bindParameters params argument funcEnv :
  local N x funcEnv -> respects (scoped N x) (bindParameters params argument funcEnv).
Proof.
  intros Hl. revert argument. induction params as [| p ps IH]; intros argument; simpl.
  - apply respects_ret, scoped_refl.
  - destruct argument; repeat (scoped_step || apply IH).
Qed.

Lemma scoped_callFunction name params body fenv sp argument :
  respects (scoped N x) (callFunction ev name params body fenv sp argument).
Proof.
  unfold callFunction.
  repeat first [ apply scoped_bindParameters; assumption
               | apply scoped_evalWithReturnValue; assumption
               | scoped_step ].
Qed.

Lemma scoped_callBuiltin name fn sp argument :
  respects (scoped N x) (callBuiltin fuel name fn sp argument).
Proof.
  intros st a st' H. unfold callBuiltin, bind, pushFrame, callFn in H. simpl in H.
  destruct (call_Fn _ _ _ _ _ _) eqn:E; inversion H; subst; [| intros H0; simpl; auto].
  unfold call_Fn in E.
  assert (HS : Stores m = Stores (Mem st) /\ Next m = Next (Mem st)).
  { destruct fn, argument as [| a0 args]; try discriminate;
      try (destruct (String_ fuel (Mem st) a0); inversion E; subst; auto);
      destruct a0; inversion E; subst; auto. }
  destruct HS as [HS HN]. intros H0. simpl in *. split; [lia |].
  intros s _ _. unfold store_at. now rewrite HS.
Qed.

Lemma scoped_round (nodes : Node) (env : Environment) :
  local N x env ->
  respects (scoped N x)
    (match nodes with
     | ProgramNode p => evalProgram ev p env
     | StatementNode (ForStatement i c u b sp) => evalForStatement ev fuel i c u b sp env
     | StatementNode (FunctionDeclarationStatement name ps b sp) =>
         evalFunctionDeclarationStatement name ps b sp env
     | StatementNode (ReturnStatement r sp) => evalReturnStatement ev r sp env
     | StatementNode (ExpressionStatement e _) => evalExpressionStatement ev e env
     | ExpressionNode (PrefixExpression op v sp) => evalPrefixExpression ev op v sp env
     | ExpressionNode (InfixExpression l op r sp) =>
         evalInfixExpression ev fuel l op r sp env
     | ExpressionNode (IntExpression v _) => evalIntExpression v
     | ExpressionNode (FloatExpression v _) => evalFloatExpression v
     | ExpressionNode (BoolExpression v _) => evalBooleanExpression v
     | ExpressionNode (NullExpression _) => evalNullExpression
     | ExpressionNode (StringExpression v _) => evalStringExpression v
     | ExpressionNode (ListExpression v sp) => evalListExpression ev v sp env
     | ExpressionNode (IdentifierExpression name sp) =>
         evalIdentifierExpression name sp env
     | ExpressionNode (GroupedExpression e _) => ev (ExpressionNode e) env
     | ExpressionNode (VarInitializationExpression c name v sp) =>
         evalVarInitializationExpression ev c name v sp env
     | ExpressionNode (VarAssignmentExpression name v sp) =>
         evalVarAssignmentExpression ev name v sp env
     | ExpressionNode (CompoundAssignmentExpression name op r sp) =>
         evalCompoundAssignmentExpression ev fuel name op r sp env
     | ExpressionNode (PrefixUnaryIncDecExpression op r sp) =>
         evalPrefixUnaryIncDecExpression ev fuel op r sp env
     | ExpressionNode (PostfixUnaryIncDecExpression op l sp) =>
         evalPostfixUnaryIncDecExpression ev fuel op l sp env
     | ExpressionNode (BlockExpression ss _) => evalBlockExpression ev ss env
     | ExpressionNode (IfExpression c t f sp) => evalIfExpression ev c t f sp env
     | ExpressionNode (CallExpression f args sp) =>
         evalCallExpression ev fuel f args sp env
     | ExpressionNode (IndexExpression t i sp) => evalIndexExpression ev t i sp env
     | NoNode => panic unknown_node_type
     end).
Proof.
  intros Hl.
  destruct nodes as [p | s | e |]; [| destruct s | destruct e |];
    first
      [ apply scoped_evalProgram; assumption
      | apply scoped_evalForStatement
      | apply scoped_evalListExpression; assumption
      | apply scoped_evalBlockExpression
      | apply scoped_evalIndexExpression; assumption
      | idtac ];
    unfold evalFunctionDeclarationStatement, evalReturnStatement,
      evalExpressionStatement, evalPrefixExpression, evalInfixExpression,
      evalIntExpression, evalFloatExpression, evalBooleanExpression,
      evalNullExpression, evalStringExpression, evalIdentifierExpression,
      evalVarInitializationExpression, evalVarAssignmentExpression,
      evalCompoundAssignmentExpression, evalPrefixUnaryIncDecExpression,
      evalPostfixUnaryIncDecExpression, evalIfExpression, evalCallExpression;
    repeat first
      [ apply scoped_withIndexTarget; [assumption | intros ? ?]
      | apply scoped_evalIndexExpression; assumption
      | apply scoped_evalWithReturnValue; assumption
      | apply scoped_evalArguments; assumption
      | apply scoped_fillDefaults; assumption
      | apply scoped_callFunction | apply scoped_callBuiltin
      | scoped_step ].
Qed.

End Scoped.

Lemma Eval_scoped (N x fuel : nat) (nodes : Node) (env : Environment) :
  local N x env -> respects (scoped N x) (Eval fuel nodes env).
Proof.
  revert nodes env. induction fuel as [| n IH]; intros nodes env Hl.
  - apply respects_out_of_fuel.
  - exact (scoped_round N x (Eval n) n IH nodes env Hl).
Qed.

(** X17: scopes are lexical.  Whatever is evaluated in a scope, no other
    scope that existed gains or loses a name; and a block, a [for] statement
    and the body of a called function, which run in a scope of their own,
    leave the names of every scope that existed as they were, the scope they
    are evaluated in included. *)
Theorem scopes_are_lexical :
  (forall fuel nodes env st v st' s,
     Eval fuel nodes env st = Ret v st' ->
     (s < Next (Mem st))%nat -> s <> Store env ->
     dom (store_at (Mem st') s) = dom (store_at (Mem st) s))
  /\ (forall fuel ss sp env st v st' s,
        Eval fuel (ExpressionNode (BlockExpression ss sp)) env st = Ret v st' ->
        (s < Next (Mem st))%nat ->
        dom (store_at (Mem st') s) = dom (store_at (Mem st) s))
  /\ (forall fuel i c u b sp env st v st' s,
        Eval fuel (StatementNode (ForStatement i c u b sp)) env st = Ret v st' ->
        (s < Next (Mem st))%nat ->
        dom (store_at (Mem st') s) = dom (store_at (Mem st) s))
  /\ (forall fuel name params body fenv sp argument st v st' s,
        callFunction (Eval fuel) name params body fenv sp argument st = Ret v st' ->
        (s < Next (Mem st))%nat ->
        dom (store_at (Mem st') s) = dom (store_at (Mem st) s)).
Proof.
  repeat split.
  - intros fuel nodes env st v st' s H Hs Hx.
    assert (Hl : local (Next (Mem st)) (Store env) env) by now left.
    destruct (Eval_scoped _ _ fuel nodes env Hl st v st' H) as [_ D]; auto.
  - intros fuel ss sp env st v st' s H Hs.
    destruct fuel as [| n]; [discriminate |]. simpl in H.
    destruct (scoped_evalBlockExpression (Next (Mem st)) (Next (Mem st)) (Eval n)
                (Eval_scoped _ _ n) ss env st v st' H) as [_ D]; auto.
    apply D; lia.
  - intros fuel i c u b sp env st v st' s H Hs.
    destruct fuel as [| n]; [discriminate |]. simpl in H.
    destruct (scoped_evalForStatement (Next (Mem st)) (Next (Mem st)) (Eval n) n
                (Eval_scoped _ _ n) i c u b sp env st v st' H) as [_ D]; auto.
    apply D; lia.
  - intros fuel name params body fenv sp argument st v st' s H Hs.
    destruct (scoped_callFunction (Next (Mem st)) (Next (Mem st)) (Eval fuel)
                (Eval_scoped _ _ fuel) name params body fenv sp argument st v st' H)
      as [_ D]; auto.
    apply D; lia.
Qed.

Lemma scopes_are_lexical_witness :
  names_after (Eval 5 (ExpressionNode (BlockExpression [var_z_1] nowhere)) root_env start) 0
  = dom (store_at (Mem start) 0).
Proof.
  refine (proj1 (proj2 scopes_are_lexical) 5%nat [var_z_1] nowhere root_env start
            (Int 1) _ 0%nat _ _).
  - vm_compute. reflexivity.
  - vm_compute. lia.
Defined.

(** ** UTF-8 *)

Lemma lor_shiftl_small (a k b : Z) :
  0 <= k -> 0 <= b < 2 ^ k -> Z.lor (Z.shiftl a k) b = a * 2 ^ k + b.
Proof.
  intros Hk Hb.
  assert (H0 : Z.land (Z.shiftl a k) b = 0).
  { apply Z.bits_inj'. intros n Hn. rewrite Z.land_spec, Z.bits_0.
    destruct (Z_lt_le_dec n k) as [Hlt | Hle].
    - now rewrite Z.shiftl_spec_low.
    - apply andb_false_intro2.
      destruct (Z.eq_dec b 0) as [-> | Hne]; [apply Z.bits_0 |].
      apply Z.bits_above_log2; [lia |].
      apply Z.log2_lt_pow2; [lia |].
      assert (2 ^ k <= 2 ^ n) by (apply Z.pow_le_mono_r; lia). lia. }
  pose proof (Z.add_lor_land (Z.shiftl a k) b) as H. rewrite H0 in H.
  rewrite Z.shiftl_mul_pow2 in * by lia. lia.
Qed.

Lemma land_low (z k : Z) (m : Z) :
  0 <= k -> m = Z.ones k -> Z.land z m = z mod 2 ^ k.
Proof. intros Hk ->. now apply Z.land_ones. Qed.

(** The bit operations of the encoder and of the decoder, as arithmetic. *)
Lemma lead_192 x : 0 <= x < 64 -> Z.lor 192 x = 192 + x.
Proof.
  intros H. change 192 with (Z.shiftl 3 6) at 1.
  rewrite lor_shiftl_small; change (2 ^ 6) with 64; lia.
Qed.
Lemma lead_128 x : 0 <= x < 64 -> Z.lor 128 x = 128 + x.
Proof.
  intros H. change 128 with (Z.shiftl 2 6) at 1.
  rewrite lor_shiftl_small; change (2 ^ 6) with 64; lia.
Qed.
Lemma lead_224 x : 0 <= x < 16 -> Z.lor 224 x = 224 + x.
Proof.
  intros H. change 224 with (Z.shiftl 14 4) at 1.
  rewrite lor_shiftl_small; change (2 ^ 4) with 16; lia.
Qed.
Lemma lead_240 x : 0 <= x < 8 -> Z.lor 240 x = 240 + x.
Proof.
  intros H. change 240 with (Z.shiftl 30 3) at 1.
  rewrite lor_shiftl_small; change (2 ^ 3) with 8; lia.
Qed.

Lemma land_63 z : Z.land z 63 = z mod 64.
Proof. now rewrite (land_low z 6). Qed.
Lemma land_31 z : Z.land z 31 = z mod 32.
Proof. now rewrite (land_low z 5). Qed.
Lemma land_15 z : Z.land z 15 = z mod 16.
Proof. now rewrite (land_low z 4). Qed.
Lemma land_7 z : Z.land z 7 = z mod 8.
Proof. now rewrite (land_low z 3). Qed.

Ltac utf8_arith :=
  rewrite ?land_63, ?land_31, ?land_15, ?land_7, ?Z.shiftr_div_pow2 by lia;
  change (2 ^ 6) with 64 in *; change (2 ^ 12) with 4096 in *;
  change (2 ^ 18) with 262144 in *.

Ltac div_mod_lia := Z.to_euclidean_division_equations; lia.

Lemma lor_mul_small (a b K k : Z) :
  K = 2 ^ k -> 0 <= k -> 0 <= b < K -> Z.lor (a * K) b = a * K + b.
Proof.
  intros -> Hk Hb. rewrite <- (lor_shiftl_small a k b) by assumption.
  now rewrite Z.shiftl_mul_pow2 by lia.
Qed.

Lemma lor_digits_2 (a b : Z) :
  0 <= b < 64 -> Z.lor (Z.shiftl a 6) b = a * 64 + b.
Proof.
  intros H. rewrite Z.shiftl_mul_pow2 by lia. change (2 ^ 6) with 64.
  now apply (lor_mul_small a b 64 6).
Qed.

Lemma lor_digits_3 (a b c : Z) :
  0 <= b < 64 -> 0 <= c < 64 ->
  Z.lor (Z.lor (Z.shiftl a 12) (Z.shiftl b 6)) c = a * 4096 + b * 64 + c.
Proof.
  intros Hb Hc. rewrite !Z.shiftl_mul_pow2 by lia.
  change (2 ^ 6) with 64. change (2 ^ 12) with 4096.
  rewrite (lor_mul_small a (b * 64) 4096 12) by (try reflexivity; lia).
  replace (a * 4096 + b * 64) with ((a * 64 + b) * 64) by lia.
  rewrite (lor_mul_small _ c 64 6) by (try reflexivity; lia). lia.
Qed.

Lemma lor_digits_4 (a b c d : Z) :
  0 <= b < 64 -> 0 <= c < 64 -> 0 <= d < 64 ->
  Z.lor (Z.lor (Z.lor (Z.shiftl a 18) (Z.shiftl b 12)) (Z.shiftl c 6)) d
  = a * 262144 + b * 4096 + c * 64 + d.
Proof.
  intros Hb Hc Hd. rewrite !Z.shiftl_mul_pow2 by lia.
  change (2 ^ 6) with 64. change (2 ^ 12) with 4096. change (2 ^ 18) with 262144.
  rewrite (lor_mul_small a (b * 4096) 262144 18) by (try reflexivity; lia).
  replace (a * 262144 + b * 4096) with ((a * 64 + b) * 4096) by lia.
  rewrite (lor_mul_small _ (c * 64) 4096 12) by (try reflexivity; lia).
  replace ((a * 64 + b) * 4096 + c * 64) with (((a * 64 + b) * 64 + c) * 64) by lia.
  rewrite (lor_mul_small _ d 64 6) by (try reflexivity; lia). lia.
Qed.

Ltac bool_to_Z :=
  repeat match goal with
         | H : (_ && _) = true |- _ => apply andb_true_iff in H; destruct H
         | H : (_ || _) = false |- _ => apply orb_false_iff in H; destruct H
         | H : negb _ = true |- _ => apply negb_true_iff in H
         | H : negb _ = false |- _ => apply negb_false_iff in H
         | H : (_ <? _) = true |- _ => apply Z.ltb_lt in H
         | H : (_ <? _) = false |- _ => apply Z.ltb_ge in H
         | H : (_ <=? _) = true |- _ => apply Z.leb_le in H
         | H : (_ <=? _) = false |- _ => apply Z.leb_gt in H
         | H : (_ =? _) = true |- _ => apply Z.eqb_eq in H
         | H : (_ =? _) = false |- _ => apply Z.eqb_neq in H
         end.

Lemma valid_rune_iff (r : rune) :
  valid_rune r = true <-> 0 <= r <= 1114111 /\ ~ 55296 <= r <= 57343.
Proof.
  unfold valid_rune.
  rewrite !andb_true_iff, negb_true_iff, andb_false_iff, !Z.leb_le, !Z.leb_gt. lia.
Qed.

(** The decoder yields scalar values only. *)
Lemma decode_rune_valid (bs : list Z) :
  bytes_ok bs -> valid_rune (fst (decode_rune bs)) = true.
Proof.
  intros Hb. unfold decode_rune, is_cont.
  destruct bs as [| b0 rest]; [reflexivity |].
  apply Forall_cons in Hb as [H0 Hb].
  repeat match goal with
         | |- context [if ?c then _ else _] => destruct c eqn:?
         | |- context [match ?l with [] => _ | _ :: _ => _ end] => destruct l
         end;
    try reflexivity; simpl fst; bool_to_Z; apply valid_rune_iff;
    rewrite ?lor_digits_2, ?lor_digits_3, ?lor_digits_4, ?land_63, ?land_31, ?land_15, ?land_7
      by (rewrite ?land_63; Z.to_euclidean_division_equations; lia);
    Z.to_euclidean_division_equations; lia.
Qed.

Lemma encode_rune_cases (r : rune) :
  valid_rune r = true ->
  (0 <= r < 128 /\ encode_rune r = [r])
  \/ (128 <= r < 2048 /\ encode_rune r = [192 + r / 64; 128 + r mod 64])
  \/ (2048 <= r < 65536
      /\ encode_rune r = [224 + r / 4096; 128 + (r / 64) mod 64; 128 + r mod 64])
  \/ (65536 <= r <= 1114111
      /\ encode_rune r
         = [240 + r / 262144; 128 + (r / 4096) mod 64; 128 + (r / 64) mod 64;
            128 + r mod 64]).
Proof.
  intros Hv. apply valid_rune_iff in Hv. unfold encode_rune.
  repeat match goal with
         | |- context [if ?c then _ else _] => destruct c eqn:?
         end; bool_to_Z;
    repeat match goal with
           | H : (_ && _) = false |- _ => apply andb_false_iff in H; destruct H
           | H : (_ || _) = true |- _ => apply orb_true_iff in H; destruct H
           end; bool_to_Z; try lia.
  all: first
    [ left; split; [lia | reflexivity]
    | right; left; split; [lia |];
      rewrite land_63, Z.shiftr_div_pow2 by lia; change (2 ^ 6) with 64;
      rewrite lead_192, lead_128 by (Z.to_euclidean_division_equations; lia);
      reflexivity
    | right; right; left; split; [lia |];
      rewrite !land_63, !Z.shiftr_div_pow2 by lia;
      change (2 ^ 6) with 64; change (2 ^ 12) with 4096;
      rewrite lead_224, !lead_128 by (Z.to_euclidean_division_equations; lia);
      reflexivity
    | right; right; right; split; [lia |];
      rewrite !land_63, !Z.shiftr_div_pow2 by lia;
      change (2 ^ 6) with 64; change (2 ^ 12) with 4096; change (2 ^ 18) with 262144;
      rewrite lead_240, !lead_128 by (Z.to_euclidean_division_equations; lia);
      reflexivity ].
Qed.

Lemma encode_rune_bytes (r : rune) : bytes_ok (encode_rune r).
Proof.
  destruct (valid_rune r) eqn:Hv.
  - destruct (encode_rune_cases r Hv) as [[H ->] | [[H ->] | [[H ->] | [H ->]]]];
      repeat constructor; Z.to_euclidean_division_equations; lia.
  - assert (E : encode_rune r = [239; 191; 189]).
    { unfold encode_rune, valid_rune in *.
      repeat match goal with
             | |- context [if ?c then _ else _] => destruct c eqn:?
             end; try reflexivity; bool_to_Z;
        repeat match goal with
               | H : (_ && _) = false |- _ => apply andb_false_iff in H; destruct H
               | H : (_ || _) = true |- _ => apply orb_true_iff in H; destruct H
               end; bool_to_Z; lia. }
    rewrite E. repeat constructor; lia.
Qed.

(** Decoding inverts encoding, whatever bytes follow. *)
Lemma decode_encode (r : rune) (rest : list Z) :
  valid_rune r = true ->
  decode_rune (encode_rune r ++ rest) = (r, length (encode_rune r)).
Proof.
  intros Hv. pose proof (proj1 (valid_rune_iff r) Hv) as Hr.
  destruct (encode_rune_cases r Hv) as [[H ->] | [[H ->] | [[H ->] | [H ->]]]];
    unfold decode_rune, is_cont; simpl app; cbv beta iota;
    repeat match goal with
           | |- context [if ?c then _ else _] => destruct c eqn:?
           end; bool_to_Z;
    repeat match goal with
           | H : (_ && _) = false |- _ => apply andb_false_iff in H; destruct H
           end; bool_to_Z;
    repeat match goal with
           | H : context [if ?c then _ else _] |- _ => destruct c eqn:?
           end; bool_to_Z;
    try (exfalso; Z.to_euclidean_division_equations; lia);
    simpl length; f_equal;
    rewrite ?lor_digits_2, ?lor_digits_3, ?lor_digits_4, ?land_63, ?land_31, ?land_15, ?land_7
      by (rewrite ?land_63; Z.to_euclidean_division_equations; lia);
    Z.to_euclidean_division_equations; lia.
Qed.

Lemma byte_of_range (c : ascii) : 0 <= byte_of c < 256.
Proof.
  unfold byte_of. pose proof (N_ascii_bounded c) as H. lia.
Qed.

Lemma byte_of_char_of (b : Z) : 0 <= b < 256 -> byte_of (char_of b) = b.
Proof.
  intros H. unfold byte_of, char_of. rewrite N_ascii_embedding by lia. lia.
Qed.

Lemma bytes_of_string_ok (s : string) : bytes_ok (bytes_of_string s).
Proof.
  induction s as [| c s IH]; simpl; constructor; [apply byte_of_range | exact IH].
Qed.

Lemma bytes_of_string_of_bytes (bs : list Z) :
  bytes_ok bs -> bytes_of_string (string_of_bytes bs) = bs.
Proof.
  induction 1 as [| b bs Hb _ IH]; simpl; [reflexivity |].
  now rewrite byte_of_char_of, IH.
Qed.

Lemma bytes_ok_drop (n : nat) (bs : list Z) : bytes_ok bs -> bytes_ok (drop n bs).
Proof. apply Forall_drop. Qed.

Lemma runes_of_bytes_valid (n : nat) (bs : list Z) :
  bytes_ok bs -> Forall (fun r => valid_rune r = true) (runes_of_bytes n bs).
Proof.
  revert bs. induction n as [| n IH]; intros bs Hb; simpl; [constructor |].
  destruct bs as [| b bs']; [constructor |].
  destruct (decode_rune (b :: bs')) as [r w] eqn:E.
  constructor.
  - change r with (fst (r, w)). rewrite <- E. now apply decode_rune_valid.
  - apply IH. now apply bytes_ok_drop.
Qed.

(** The runes of the encoding of one rune. *)
Lemma runes_string_of_rune (r : rune) :
  valid_rune r = true -> runes (string_of_rune r) = [r].
Proof.
  intros Hv. unfold runes, string_of_rune.
  rewrite bytes_of_string_of_bytes by apply encode_rune_bytes.
  pose proof (decode_encode r [] Hv) as Hd. rewrite app_nil_r in Hd.
  destruct (encode_rune r) as [| b bs] eqn:E.
  - destruct (encode_rune_cases r Hv) as [[_ H] | [[_ H] | [[_ H] | [_ H]]]];
      rewrite E in H; discriminate.
  - change (runes_of_bytes (length (b :: bs)) (b :: bs))
      with (let '(r0, w) := decode_rune (b :: bs) in
            r0 :: runes_of_bytes (length bs) (drop w (b :: bs))).
    rewrite Hd. rewrite drop_all. destruct (length bs); reflexivity.
Qed.

(** X18: on a string, an index in range (from minus the number of code
    points to that number less one, a negative index counting from the end)
    yields a new string that holds exactly the code point at that position:
    decoding it gives back that one code point. *)
Theorem String_Index_yields_one_code_point (s : nat) (idx : Z) (sp : util.Span)
  (fr : option frame.Frame) (m : Memory) :
  let rs := runes (string_at m s) in
  let n := Z.of_nat (length rs) in
  - n <= idx < n ->
  exists r,
    rs !! Z.to_nat (real_index n idx) = Some r
    /\ String_Index s (Int idx) sp fr m
       = Ok (String (Next m)) (bump (set_string m (Next m) (string_of_rune r)))
    /\ runes (string_of_rune r) = [r].
Proof.
  intros rs n Hidx.
  assert (Hr : 0 <= real_index n idx < n) by (unfold real_index; destruct (idx <? 0) eqn:E; bool_to_Z; lia).
  destruct (lookup_lt_is_Some_2 rs (Z.to_nat (real_index n idx))) as [r Hl]; [subst n; lia |].
  exists r. split; [exact Hl | split].
  - unfold String_Index. fold rs. fold n. fold (real_index n idx).
    destruct (_ || _) eqn:Eb; [bool_to_Z; exfalso |].
    { apply orb_true_iff in Eb as [Eb | Eb]; bool_to_Z; lia. }
    unfold new_String. now rewrite (nth_lookup_Some _ _ _ _ Hl).
  - apply runes_string_of_rune.
    assert (Hall : Forall (fun r => valid_rune r = true) rs)
      by apply runes_of_bytes_valid, bytes_of_string_ok.
    rewrite Forall_lookup in Hall. exact (Hall _ _ Hl).
Qed.

Lemma String_Index_yields_one_code_point_witness :
  exists r,
    runes (string_at (snd (new_String e_acute_a empty_Memory)) 0)
      !! Z.to_nat (real_index 2 (-2)) = Some r
    /\ String_Index 0 (Int (-2)) nowhere None (snd (new_String e_acute_a empty_Memory))
       = Ok (String 1)
           (bump (set_string (snd (new_String e_acute_a empty_Memory)) 1 (string_of_rune r)))
    /\ runes (string_of_rune r) = [r].
Proof.
  apply (String_Index_yields_one_code_point 0 (-2) nowhere None
           (snd (new_String e_acute_a empty_Memory))).
  vm_compute. split; [discriminate | reflexivity].
Defined.

(** ** Integer arithmetic *)

Lemma wrap64_range (z : Z) : in_int64 (wrap64 z).
Proof.
  unfold in_int64, wrap64, MinInt64, MaxInt64.
  pose proof (Z.mod_pos_bound (z + 2 ^ 63) (2 ^ 64) ltac:(lia)). lia.
Qed.

Lemma wrap64_small (z : Z) : in_int64 z -> wrap64 z = z.
Proof.
  unfold in_int64, wrap64, MinInt64, MaxInt64. intros H.
  rewrite Z.mod_small; lia.
Qed.

Lemma wrap64_congr (a b : Z) : (a - b) mod 2 ^ 64 = 0 -> wrap64 a = wrap64 b.
Proof.
  intros H. unfold wrap64. f_equal.
  apply Z.mod_divide in H; [| lia]. destruct H as [k Hk].
  replace (a + 2 ^ 63) with (b + 2 ^ 63 + k * 2 ^ 64) by lia.
  apply Z.mod_add. lia.
Qed.

Lemma wrap64_wrap64_sub (z : Z) : (wrap64 z - z) mod 2 ^ 64 = 0.
Proof.
  unfold wrap64.
  rewrite (Z.mod_eq (z + 2 ^ 63) (2 ^ 64)) by lia.
  replace (z + 2 ^ 63 - 2 ^ 64 * ((z + 2 ^ 63) / 2 ^ 64) - 2 ^ 63 - z)
    with ((- ((z + 2 ^ 63) / 2 ^ 64)) * 2 ^ 64) by lia.
  apply Z.mod_mul. lia.
Qed.

(** An [int64] is an integer whose bits from the 63rd on are all the
    same. *)
Lemma in_int64_bits (z : Z) :
  in_int64 z <-> forall n, 63 <= n -> Z.testbit z n = Z.testbit z 63.
Proof.
  unfold in_int64, MinInt64, MaxInt64. split.
  - intros H.
    assert (Hs : forall n, 63 <= n -> Z.testbit z n = (z <? 0)).
    { intros n Hn. destruct (z <? 0) eqn:E; bool_to_Z.
      - apply Z.bits_above_log2_neg; [lia |].
        destruct (Z.eq_dec (Z.pred (- z)) 0) as [-> | Hne]; [simpl; lia |].
        assert (Z.log2 (Z.pred (- z)) < 63) by (apply Z.log2_lt_pow2; lia). lia.
      - destruct (Z.eq_dec z 0) as [-> | Hne]; [apply Z.bits_0 |].
        apply Z.bits_above_log2; [lia |].
        assert (Z.log2 z < 63) by (apply Z.log2_lt_pow2; lia). lia. }
    intros n Hn. rewrite (Hs n Hn), (Hs 63); [reflexivity | lia].
  - intros H. destruct (Z_lt_le_dec z 0) as [Hneg | Hpos].
    + split; [| lia]. destruct (Z_lt_le_dec z (- 2 ^ 63)) as [Hlt |]; [exfalso | lia].
      assert (Hl : 63 <= Z.log2 (Z.pred (- z))) by (apply Z.log2_le_pow2; lia).
      pose proof (Z.bit_log2_neg z ltac:(lia)) as Hb.
      rewrite (H _ Hl) in Hb.
      pose proof (Z.bits_above_log2_neg z (Z.log2 (Z.pred (- z)) + 1) Hneg ltac:(lia)) as Ht.
      rewrite H in Ht by lia. congruence.
    + split; [lia |]. destruct (Z_lt_le_dec z (2 ^ 63)) as [| Hge]; [lia | exfalso].
      assert (Hl : 63 <= Z.log2 z) by (apply Z.log2_le_pow2; lia).
      pose proof (Z.bit_log2 z ltac:(lia)) as Hb.
      rewrite (H _ Hl) in Hb.
      pose proof (Z.bits_above_log2 z (Z.log2 z + 1) Hpos ltac:(lia)) as Ht.
      rewrite H in Ht by lia. congruence.
Qed.

Lemma in_int64_bitwise (f : Z -> Z -> Z) (g : bool -> bool -> bool) (a b : Z) :
  (forall n, Z.testbit (f a b) n = g (Z.testbit a n) (Z.testbit b n)) ->
  in_int64 a -> in_int64 b -> in_int64 (f a b).
Proof.
  intros Hf Ha Hb. apply in_int64_bits. intros n Hn.
  rewrite !Hf, (proj1 (in_int64_bits a) Ha n Hn), (proj1 (in_int64_bits b) Hb n Hn).
  reflexivity.
Qed.

Lemma in_int64_shiftr (a k : Z) : in_int64 a -> 0 <= k -> in_int64 (a / 2 ^ k).
Proof.
  unfold in_int64, MinInt64, MaxInt64. intros Ha Hk.
  assert (0 < 2 ^ k) by (apply Z.pow_pos_nonneg; lia).
  split.
  - apply Z.div_le_lower_bound; [lia |]. nia.
  - apply Z.lt_succ_r. apply Z.div_lt_upper_bound; [lia |]. nia.
Qed.

(** X19: integer arithmetic is Go's two's-complement arithmetic on
    [int64].  On operands that fit [int64] every integer result fits it;
    [a - b] is [a + (-b)] and [~a] is [-a - 1]; a shift by [k >= 0] places,
    64 and more included, is the multiplication by [2^k] modulo [2^64] to the
    left and the division by [2^k] rounded down to the right; and a shift by
    a negative count is an OperationError. *)
Theorem Int_arithmetic_is_twos_complement (a b : Z) (sp : util.Span)
  (fr : option frame.Frame) (m : Memory) :
  in_int64 a -> in_int64 b ->
  (forall op v m', In op Int_operators ->
     op (Int a) (Int b) sp fr m = Ok (Int v) m' -> in_int64 v)
  /\ (forall v m', Negative (Int a) sp fr m = Ok (Int v) m' -> in_int64 v)
  /\ (exists nb,
        Negative (Int b) sp fr m = Ok (Int nb) m
        /\ Subtract (Int a) (Int b) sp fr m = Add (Int a) (Int nb) sp fr m)
  /\ BitNot (Int a) sp fr m = Ok (Int (- a - 1)) m
  /\ (0 <= b ->
      LeftShift (Int a) (Int b) sp fr m = Ok (Int (wrap64 (a * 2 ^ b))) m
      /\ RightShift (Int a) (Int b) sp fr m = Ok (Int (a / 2 ^ b)) m)
  /\ (b < 0 ->
      LeftShift (Int a) (Int b) sp fr m = invalid_operation "<<" sp fr
      /\ RightShift (Int a) (Int b) sp fr m = invalid_operation ">>" sp fr).
Proof.
  intros Ha Hb.
  assert (Hshr : 0 <= b ->
                 (if 64 <=? b then if a <? 0 then -1 else 0 else Z.shiftr a b) = a / 2 ^ b).
  { intros H0. destruct (64 <=? b) eqn:E; bool_to_Z; [| now apply Z.shiftr_div_pow2].
    unfold in_int64, MinInt64, MaxInt64 in Ha.
    assert (2 ^ 64 <= 2 ^ b) by (apply Z.pow_le_mono_r; lia).
    destruct (a <? 0) eqn:En; bool_to_Z.
    - apply Z.div_unique with (r := a + 2 ^ b); lia.
    - symmetry. apply Z.div_small. lia. }
  assert (Hshl : 0 <= b ->
                 (if 64 <=? b then 0 else wrap64 (Z.shiftl a b)) = wrap64 (a * 2 ^ b)).
  { intros H0. destruct (64 <=? b) eqn:E; bool_to_Z;
      [| now rewrite Z.shiftl_mul_pow2].
    change 0 with (wrap64 0). apply wrap64_congr.
    replace (0 - a * 2 ^ b) with ((- a * 2 ^ (b - 64)) * 2 ^ 64).
    - apply Z.mod_mul. lia.
    - replace b with ((b - 64) + 64) at 2 by lia.
      rewrite Z.pow_add_r by lia. lia. }
  refine (conj _ (conj _ (conj _ (conj _ (conj _ _))))).
  - intros op v m' Hop H. simpl in Hop.
    repeat (destruct Hop as [<- | Hop]); try contradiction; simpl in H.
    + inversion H. apply wrap64_range.
    + inversion H. apply wrap64_range.
    + inversion H. apply wrap64_range.
    + unfold Int_Mod in H. destruct (b =? 0) eqn:E; [discriminate |]. bool_to_Z.
      inversion H. unfold in_int64, MinInt64, MaxInt64 in *.
      pose proof (Z.rem_bound_abs a b E). lia.
    + inversion H. now apply (in_int64_bitwise Z.land andb); [apply Z.land_spec | |].
    + inversion H. now apply (in_int64_bitwise Z.lor orb); [apply Z.lor_spec | |].
    + inversion H. now apply (in_int64_bitwise Z.lxor xorb); [apply Z.lxor_spec | |].
    + unfold Int_LeftShift in H. destruct (b <? 0) eqn:E; [discriminate |]. bool_to_Z.
      inversion H. rewrite Hshl by lia. apply wrap64_range.
    + unfold Int_RightShift in H. destruct (b <? 0) eqn:E; [discriminate |]. bool_to_Z.
      inversion H. rewrite Hshr by lia. now apply in_int64_shiftr.
  - intros v m' H. inversion H. apply wrap64_range.
  - exists (wrap64 (- b)). split; [reflexivity |]. simpl. do 2 f_equal.
    apply wrap64_congr.
    replace (a - b - (a + wrap64 (- b))) with (- (wrap64 (- b) - - b)) by lia.
    pose proof (wrap64_wrap64_sub (- b)) as H.
    apply Z.mod_divide in H; [| lia]. apply Z.mod_divide; [lia |].
    now apply Z.divide_opp_r.
  - simpl. unfold Int_BitNot, Z.lnot. do 2 f_equal; lia.
  - intros H0. simpl. unfold Int_LeftShift, Int_RightShift.
    rewrite (proj2 (Z.ltb_ge b 0)) by lia. now rewrite Hshl, Hshr.
  - intros H0. simpl. unfold Int_LeftShift, Int_RightShift.
    now rewrite (proj2 (Z.ltb_lt b 0)).
Qed.

Lemma Int_arithmetic_is_twos_complement_witness :
  LeftShift (Int (-3)) (Int 70) nowhere None empty_Memory
  = Ok (Int (wrap64 (-3 * 2 ^ 70))) empty_Memory
  /\ RightShift (Int (-3)) (Int 70) nowhere None empty_Memory
     = Ok (Int (-3 / 2 ^ 70)) empty_Memory.
Proof.
  refine (proj1 (proj2 (proj2 (proj2 (proj2
            (Int_arithmetic_is_twos_complement (-3) 70 nowhere None empty_Memory _ _))))) _);
    unfold in_int64, MinInt64, MaxInt64; lia.
Defined.

(** ** Edge cases of blocks and returns *)

(** X20: an empty block [{}] evaluates to Go's [nil], not to [null], and
    the evaluator panics (nil pointer dereference) where that value is used
    as a receiver.  With no error recorded: [{}] returns nil, having allocated
    its scope; a prefix operator applied to [{}] panics; an infix operator
    other than [&&] and [||] with [{}] on the left panics once the right
    operand is evaluated without error; [{} && e] and [{} || e] do not panic,
    they are an OperationError and [e] is not evaluated; a list literal whose
    first element is [{}] panics; and [print({})] and [println({})] panic. *)
Theorem empty_block_is_nil (n : nat) (bsp sp : util.Span) (env : Environment)
  (st : State) :
  Err st = None ->
  Eval (S n) (ExpressionNode (empty_block bsp)) env st
  = Ret Nil (after_empty_block env st)
  /\ (forall t l,
        In t prefix_operator_types ->
        Eval (S (S n)) (ExpressionNode (PrefixExpression (mkToken t l) (empty_block bsp) sp))
          env st
        = Panic nil_dereference)
  /\ (forall t l r v st1,
        In t infix_operator_types -> t <> LOGICAL_AND -> t <> LOGICAL_OR ->
        Eval (S n) (ExpressionNode r) env (after_empty_block env st) = Ret v st1 ->
        Err st1 = None ->
        Eval (S (S n))
          (ExpressionNode (InfixExpression (empty_block bsp) (mkToken t l) r sp)) env st
        = Panic nil_dereference)
  /\ (forall l r,
        Eval (S (S n))
          (ExpressionNode (InfixExpression (empty_block bsp) (mkToken LOGICAL_AND l) r sp))
          env st
        = Ret Nil (with_Err (after_empty_block env st)
                     (mkError OperationError (Frame st)
                        ("invalid operation " ++ quoted "&&" ++ ".") sp))
        /\ Eval (S (S n))
             (ExpressionNode (InfixExpression (empty_block bsp) (mkToken LOGICAL_OR l) r sp))
             env st
           = Ret Nil (with_Err (after_empty_block env st)
                        (mkError OperationError (Frame st)
                           ("invalid operation " ++ quoted "||" ++ ".") sp)))
  /\ (forall rest,
        Eval (S (S n)) (ExpressionNode (ListExpression (empty_block bsp :: rest) sp)) env st
        = Panic nil_dereference)
  /\ (forall f fsp p name newline,
        Value <$> Environment_Get (Mem st) env f
        = Some (BuiltinFunction p name ["a"] [] (printer newline)) ->
        Eval (S (S n))
          (ExpressionNode
             (CallExpression (IdentifierExpression f fsp) [Some (empty_block bsp)] sp))
          env st
        = Panic nil_dereference).
Proof.
  intros Herr.
  assert (Hb : Eval (S n) (ExpressionNode (empty_block bsp)) env st
               = Ret Nil (after_empty_block env st)) by reflexivity.
  assert (Herr0 : Err (after_empty_block env st) = None) by exact Herr.
  refine (conj Hb (conj _ (conj _ (conj _ (conj _ _))))).
  - intros t l Ht.
    change (Eval (S (S n)) ?x env st)
      with (evalPrefixExpression (Eval (S n)) (mkToken t l) (empty_block bsp) sp env st).
    unfold evalPrefixExpression, bind, check. rewrite Hb, Herr0.
    simpl in Ht. repeat (destruct Ht as [<- | Ht]); try contradiction; reflexivity.
  - intros t l r v st1 Ht Hand Hor Hr Herr1.
    change (Eval (S (S n)) ?x env st)
      with (evalInfixExpression (Eval (S n)) (S n) (empty_block bsp) (mkToken t l) r sp
              env st).
    unfold evalInfixExpression, bind, check. rewrite Hb, Herr0.
    simpl in Ht.
    repeat (destruct Ht as [<- | Ht]); try contradiction; try congruence;
      cbn [Type_]; rewrite Hr, Herr1; reflexivity.
  - intros l r. split.
    + change (Eval (S (S n)) ?x env st)
        with (evalInfixExpression (Eval (S n)) (S n) (empty_block bsp)
                (mkToken LOGICAL_AND l) r sp env st).
      unfold evalInfixExpression, bind, check. rewrite Hb, Herr0. reflexivity.
    + change (Eval (S (S n)) ?x env st)
        with (evalInfixExpression (Eval (S n)) (S n) (empty_block bsp)
                (mkToken LOGICAL_OR l) r sp env st).
      unfold evalInfixExpression, bind, check. rewrite Hb, Herr0. reflexivity.
  - intros rest.
    change (Eval (S (S n)) ?x env st)
      with (evalListExpression (Eval (S n)) (empty_block bsp :: rest) sp env st).
    unfold evalListExpression. cbn [evalListExpression_loop].
    unfold bind, check. rewrite Hb, Herr0. reflexivity.
  - intros f fsp p name newline Hf.
    destruct (Environment_Get (Mem st) env f) as [sym |] eqn:Hget; [| discriminate].
    simpl in Hf. injection Hf as Hv.
    change (Eval (S (S n)) ?x env st)
      with (evalCallExpression (Eval (S n)) (S n) (IdentifierExpression f fsp)
              [Some (empty_block bsp)] sp env st).
    unfold evalCallExpression, bind, check.
    replace (Eval (S n) (ExpressionNode (IdentifierExpression f fsp)) env st)
      with (Ret (BuiltinFunction p name ["a"] [] (printer newline)) st).
    2:{ simpl. unfold evalIdentifierExpression, bind, getMem, ret.
        now rewrite Hget, Hv. }
    rewrite Herr.
    cbn [builtin_defaultLen_of length argLen_of]. change (negb _) with false. cbv iota.
    cbn [evalArguments]. unfold bind, check, ret. rewrite Hb, Herr0.
    cbn [fillDefaults app length Nat.sub]. unfold ret.
    unfold callBuiltin, bind, pushFrame, callFn. cbn [Mem with_Frame Frame].
    unfold call_Fn. destruct newline; reflexivity.
Qed.

Lemma empty_block_is_nil_witness :
  Eval 3 (ExpressionNode (PrefixExpression (tok MINUS "-") (empty_block nowhere) nowhere))
    root_env start = Panic nil_dereference
  /\ Eval 3 (ExpressionNode (infix_ (empty_block nowhere) PLUS "+" (int_ 1)))
       root_env start = Panic nil_dereference
  /\ Eval 3 (ExpressionNode
               (infix_ (empty_block nowhere) LOGICAL_AND "&&" (BoolExpression true nowhere)))
       root_env start
     = Ret Nil (with_Err (after_empty_block root_env start)
                  (mkError OperationError (Some root_frame)
                     ("invalid operation " ++ quoted "&&" ++ ".") nowhere))
  /\ Eval 3 (ExpressionNode (ListExpression [empty_block nowhere; int_ 1] nowhere))
       root_env start = Panic nil_dereference
  /\ Eval 3 (ExpressionNode (println_of (empty_block nowhere))) root_env start
     = Panic nil_dereference.
Proof.
  destruct (empty_block_is_nil 1 nowhere nowhere root_env start eq_refl)
    as (_ & Hprefix & Hinfix & Hlogical & Hlist & Hprint).
  refine (conj (Hprefix MINUS "-" _) (conj (Hinfix PLUS "+" (int_ 1) (Int 1) _ _ _ _ _ _)
            (conj (proj1 (Hlogical "&&" (BoolExpression true nowhere)))
               (conj (Hlist [int_ 1]) (Hprint "println" nowhere 1%nat "println" true _))))).
  - vm_compute. auto.
  - vm_compute. auto.
  - discriminate.
  - discriminate.
  - vm_compute. reflexivity.
  - vm_compute. reflexivity.
  - vm_compute. reflexivity.
Defined.

(** X21: a [return] statement that is a statement of a block is not
    checked against the call stack: its value is evaluated and the block ends
    with the Return-wrapper, the statements after it not being evaluated, also
    outside any function; a [return] statement evaluated on its own under the
    root frame is a SyntaxError, and its value is not evaluated. *)
Theorem return_in_a_block_is_not_checked (n : nat) (e : Expression) (rsp sp : util.Span)
  (rest : list Statement) (env : Environment) (st : State) :
  (forall f,
     Frame st = Some f -> frame.Parent f = None ->
     Eval (S n) (StatementNode (ReturnStatement e rsp)) env st
     = Ret Nil (with_Err st (mkError SyntaxError (Frame st)
                               "return statement is only allowed inside functions." rsp)))
  /\ (forall v st',
        Eval n (ExpressionNode e)
          (fst (new_Environment (Some env) (Mem st)))
          (with_Mem st (snd (new_Environment (Some env) (Mem st)))) = Ret v st' ->
        Err st' = None ->
        Eval (S n) (ExpressionNode (BlockExpression (ReturnStatement e rsp :: rest) sp))
          env st
        = Ret (ReturnValue v) st').
Proof.
  split.
  - intros f Hf Hp. simpl. unfold evalReturnStatement, bind, getFrame.
    rewrite Hf, Hp. unfold fail. now rewrite Hf.
  - intros v st' He Herr. simpl.
    unfold evalBlockExpression, bind, newEnvironment. simpl.
    unfold bind, check. simpl in He. rewrite He, Herr. reflexivity.
Qed.

Lemma return_in_a_block_is_not_checked_witness :
  Eval 3 (ExpressionNode
            (BlockExpression [ReturnStatement (int_ 1) nowhere; expr_ one_by_zero] nowhere))
    root_env start
  = Ret (ReturnValue (Int 1))
      (with_Mem start (snd (new_Environment (Some root_env) (Mem start)))).
Proof.
  refine (proj2 (return_in_a_block_is_not_checked 2 (int_ 1) nowhere nowhere
                   [expr_ one_by_zero] root_env start) (Int 1) _ _ _).
  - reflexivity.
  - reflexivity.
Defined.

(** ** Positions in the source text *)

Lemma plain_valid (r : rune) : plain r = true -> valid_rune r = true /\ r <> RuneError.
Proof. unfold plain. intros H. bool_to_Z. auto. Qed.

Lemma RuneLen_encode (r : rune) :
  valid_rune r = true -> position.RuneLen r = Z.of_nat (length (encode_rune r)).
Proof.
  intros Hv. pose proof (proj1 (valid_rune_iff r) Hv) as Hr. unfold position.RuneLen.
  destruct (encode_rune_cases r Hv) as [[H ->] | [[H ->] | [[H ->] | [H ->]]]];
    repeat match goal with
           | |- context [if ?c then _ else _] => destruct c eqn:?
           end; bool_to_Z; try reflexivity; lia.
Qed.

Lemma encode_rune_nonempty (r : rune) : (0 < length (encode_rune r))%nat.
Proof.
  unfold encode_rune.
  repeat match goal with
         | |- context [if ?c then _ else _] => destruct c
         end; simpl; lia.
Qed.

Lemma encode_all_app (xs ys : list rune) :
  encode_all (xs ++ ys) = encode_all xs ++ encode_all ys.
Proof. unfold encode_all. now rewrite map_app, concat_app. Qed.

Lemma encode_all_cons (r : rune) (rs : list rune) :
  encode_all (r :: rs) = encode_rune r ++ encode_all rs.
Proof. reflexivity. Qed.

Lemma encode_all_bytes (rs : list rune) : bytes_ok (encode_all rs).
Proof.
  induction rs as [| r rs IH]; [constructor |].
  rewrite encode_all_cons. apply Forall_app. split; [apply encode_rune_bytes | exact IH].
Qed.

Lemma bytes_of_text (rs : list rune) : bytes_of_string (text_of rs) = encode_all rs.
Proof. apply bytes_of_string_of_bytes, encode_all_bytes. Qed.

Lemma length_bytes_of_string (s : string) :
  length (bytes_of_string s) = String.length s.
Proof. induction s as [| c s IH]; simpl; [reflexivity | now rewrite IH]. Qed.

Lemma len_text (rs : list rune) : len (text_of rs) = Z.of_nat (length (encode_all rs)).
Proof. unfold len. now rewrite <- length_bytes_of_string, bytes_of_text. Qed.

(** The character the positions read between [pre] and [r :: suf]. *)
Lemma char_at_text (pre : list rune) (r : rune) (suf : list rune) :
  plain r = true ->
  position.char_at (text_of (pre ++ r :: suf)) (Z.of_nat (length (encode_all pre))) = r.
Proof.
  intros Hp. apply plain_valid in Hp as [Hv Hne]. unfold position.char_at.
  rewrite bytes_of_text, encode_all_app, encode_all_cons, Nat2Z.id, drop_app_length.
  rewrite decode_encode by assumption. simpl.
  destruct (r =? RuneError) eqn:E; bool_to_Z; [contradiction | reflexivity].
Qed.

Lemma row_col_snoc (pre : list rune) (r : rune) (row col : Z) :
  row_col (pre ++ [r]) row col
  = if r =? 10 then (fst (row_col pre row col) + 1, 1)
    else (fst (row_col pre row col), snd (row_col pre row col) + 1).
Proof.
  revert row col. induction pre as [| x pre IH]; intros row col; simpl.
  - destruct (r =? 10); reflexivity.
  - destruct (x =? 10); apply IH.
Qed.

Lemma encode_all_one (r : rune) : encode_all [r] = encode_rune r.
Proof. unfold encode_all. simpl. now rewrite app_nil_r. Qed.

Lemma text_of_snoc (pre : list rune) (r : rune) (suf : list rune) :
  text_of ((pre ++ [r]) ++ suf) = text_of (pre ++ r :: suf).
Proof. now rewrite <- app_assoc. Qed.

Lemma plain_head (pre : list rune) (r : rune) (suf : list rune) :
  forallb plain (pre ++ r :: suf) = true -> plain r = true.
Proof. rewrite forallb_app. simpl. intros H. bool_to_Z. assumption. Qed.

Lemma plain_all_valid (rs : list rune) :
  forallb plain rs = true -> forallb valid_rune rs = true.
Proof.
  induction rs as [| r rs IH]; [reflexivity |]. simpl. intros H.
  apply andb_true_iff in H as [Hr H]. apply plain_valid in Hr as [-> _]. now apply IH.
Qed.

(** [Advance] over one code point of the text. *)
Lemma Advance_pos_at (file : string) (pre : list rune) (r : rune) (suf : list rune) :
  forallb plain (pre ++ r :: suf) = true ->
  position.Advance (pos_at file pre (r :: suf)) = position.Done (pos_at file (pre ++ [r]) suf).
Proof.
  intros Hall. pose proof (plain_head _ _ _ Hall) as Hr.
  pose proof (plain_valid r Hr) as [Hv Hne].
  unfold position.Advance, pos_at.
  cbn [position.Idx position.Text position.Row position.Col position.File position.Char hd].
  rewrite len_text, encode_all_app, encode_all_cons, !length_app.
  pose proof (encode_rune_nonempty r).
  destruct (_ <? _) eqn:Hc; bool_to_Z; [| lia].
  rewrite RuneLen_encode by assumption.
  rewrite row_col_snoc, encode_all_app, length_app, encode_all_one, text_of_snoc.
  destruct suf as [| r' suf'].
  - simpl length. destruct (_ <=? _) eqn:Hd; bool_to_Z; [| lia].
    destruct (r =? 10); simpl; do 2 f_equal; lia.
  - assert (Hr' : plain r' = true).
    { apply (plain_head (pre ++ [r]) r' suf'). now rewrite <- app_assoc. }
    rewrite encode_all_cons, length_app.
    pose proof (encode_rune_nonempty r').
    destruct (_ <=? _) eqn:Hd; bool_to_Z; [lia |].
    destruct (_ <? 0) eqn:Hn; bool_to_Z; [lia |].
    replace (Z.of_nat (length (encode_all pre)) + Z.of_nat (length (encode_rune r)))
      with (Z.of_nat (length (encode_all (pre ++ [r]))))
      by (rewrite encode_all_app, length_app, encode_all_one; lia).
    replace (pre ++ r :: r' :: suf') with ((pre ++ [r]) ++ r' :: suf')
      by (now rewrite <- app_assoc).
    rewrite char_at_text by assumption.
    rewrite encode_all_app, length_app, encode_all_one.
    destruct (r =? 10); simpl; do 2 f_equal; lia.
Qed.

(** X22. Walking a text.  In a text of scalar values other than U+FFFD, the
    position at the start is that of [NewPos 1 1 0], and [Advance] moves the
    position before a code point to the position after it: the index grows by
    the length of its encoding, a newline starts the next row at column 1 and
    any other code point adds one to the column, and the character is the
    next code point, or 0 at the end of the text.  At the end of the text
    [Advance] still adds one to the index and to the column. *)
Theorem Advance_walks_the_text (file : string) (pre suf : list rune) :
  forallb plain (pre ++ suf) = true ->
  position.NewPos 1 1 0 file (text_of (pre ++ suf)) = pos_at file [] (pre ++ suf)
  /\ position.Advance (pos_at file pre suf)
     = position.Done
         match suf with
         | r :: suf' => pos_at file (pre ++ [r]) suf'
         | [] =>
             position.mkPos (position.Row (pos_at file pre [])) (position.Col (pos_at file pre []) + 1)
               (position.Idx (pos_at file pre []) + 1) file (text_of pre) 0
         end.
Proof.
  intros Hall. split.
  - unfold position.NewPos, pos_at. simpl. f_equal.
    destruct (pre ++ suf) as [| r rs] eqn:E; [reflexivity |].
    assert (Hr : plain r = true) by (simpl in Hall; bool_to_Z; tauto).
    rewrite len_text, encode_all_cons, length_app.
    pose proof (encode_rune_nonempty r).
    destruct (_ && _) eqn:Hc.
    + apply (char_at_text [] r rs Hr).
    + apply andb_false_iff in Hc. destruct Hc; bool_to_Z; lia.
  - destruct suf as [| r suf]; [| now apply Advance_pos_at].
    unfold position.Advance, pos_at.
    cbn [position.Idx position.Text position.Row position.Col position.File position.Char].
    rewrite app_nil_r, len_text.
    destruct (_ <? _) eqn:Hc; bool_to_Z; [lia | reflexivity].
Qed.

Lemma Advance_walks_the_text_witness :
  position.Advance (pos_at "main.gh" [97; 10] [8364; 98])
  = position.Done (pos_at "main.gh" [97; 10; 8364] [98]).
Proof.
  refine (proj2 (Advance_walks_the_text "main.gh" [97; 10] [8364; 98] _)).
  vm_compute. reflexivity.
Defined.

Lemma land_192 (z : Z) : 0 <= z < 256 -> Z.land z 192 = 64 * (z / 64).
Proof.
  intros Hz.
  assert (H : forallb (fun z => Z.land z 192 =? 64 * (z / 64)) (map Z.of_nat (seq 0 256)) = true)
    by (vm_compute; reflexivity).
  rewrite forallb_forall in H. apply Z.eqb_eq, H, in_map_iff.
  exists (Z.to_nat z). split; [lia | apply in_seq; lia].
Qed.

Lemma RuneStart_lead (b : Z) : 192 <= b < 256 -> position.RuneStart b = true.
Proof.
  intros Hb. unfold position.RuneStart. rewrite land_192 by lia.
  destruct (_ =? _) eqn:E; bool_to_Z; [div_mod_lia | reflexivity].
Qed.

Lemma RuneStart_cont (b : Z) : 128 <= b < 192 -> position.RuneStart b = false.
Proof.
  intros Hb. unfold position.RuneStart. rewrite land_192 by lia.
  destruct (_ =? _) eqn:E; bool_to_Z; [reflexivity | div_mod_lia].
Qed.

Lemma nth_Z_app (pre e : list Z) (i : nat) (z : Z) :
  z = Z.of_nat (length pre) + Z.of_nat i ->
  nth (Z.to_nat z) (pre ++ e) 0 = nth i e 0.
Proof.
  intros ->. rewrite app_nth2 by lia. f_equal. lia.
Qed.

Lemma drop_Z_app (pre e : list Z) (z : Z) :
  z = Z.of_nat (length pre) -> drop (Z.to_nat z) (pre ++ e) = e.
Proof. intros ->. rewrite Nat2Z.id. apply drop_app_length. Qed.

Ltac nth_bytes pre :=
  repeat match goal with
         | |- context [nth (Z.to_nat ?z) (pre ++ ?e) 0] =>
             first [ rewrite (nth_Z_app pre e 0%nat z) by lia
                   | rewrite (nth_Z_app pre e 1%nat z) by lia
                   | rewrite (nth_Z_app pre e 2%nat z) by lia
                   | rewrite (nth_Z_app pre e 3%nat z) by lia ];
             cbn [nth]
         end.

Lemma find_start_eq (n : nat) (bs : list Z) (start lim : Z) :
  position.find_start (S n) bs start lim
  = if start <? lim then start
    else if position.RuneStart (nth (Z.to_nat start) bs 0) then start
    else position.find_start n bs (start - 1) lim.
Proof. reflexivity. Qed.

Ltac find_start_steps pre :=
  repeat (rewrite find_start_eq;
          match goal with
          | |- context [if ?s <? ?l then _ else _] => destruct (s <? l) eqn:?
          end; bool_to_Z; [lia |]; nth_bytes pre;
          first [ rewrite RuneStart_lead by div_mod_lia
                | rewrite RuneStart_cont by div_mod_lia ]);
  lia.

Ltac last_rune pre Hdec k :=
  match goal with
  | |- context [position.find_start 4 ?bs ?s ?l] =>
      let lim := fresh "lim" in
      let Hlim := fresh "Hlim" in
      let Hs := fresh "Hs" in
      set (lim := l);
      assert (Hlim : lim <= Z.of_nat (length pre))
        by (subst lim; destruct (_ <? 0) eqn:?; bool_to_Z; lia);
      clearbody lim;
      assert (Hs : position.find_start 4 bs s lim = Z.of_nat (length pre))
        by find_start_steps pre;
      rewrite Hs
  end;
  destruct (_ <? 0) eqn:?; bool_to_Z; [lia |];
  rewrite drop_Z_app by reflexivity; rewrite Hdec;
  destruct (_ =? _) eqn:?; bool_to_Z; [reflexivity | lia].

(** [utf8.DecodeLastRune] finds the last code point of a text. *)
Lemma DecodeLastRune_encode (pre : list Z) (r : rune) :
  valid_rune r = true ->
  position.DecodeLastRune (pre ++ encode_rune r) = (r, Z.of_nat (length (encode_rune r))).
Proof.
  intros Hv. pose proof (proj1 (valid_rune_iff r) Hv) as Hr.
  pose proof (decode_encode r [] Hv) as Hdec. rewrite app_nil_r in Hdec.
  unfold position.DecodeLastRune.
  destruct (encode_rune_cases r Hv) as [[H E] | [[H E] | [[H E] | [H E]]]];
    rewrite E in *; rewrite length_app; simpl length; simpl length in Hdec.
  all: destruct (_ =? 0) eqn:E0; bool_to_Z; [lia |].
  all: nth_bytes pre.
  - destruct (_ <? 128) eqn:E1; bool_to_Z; [reflexivity | lia].
  - destruct (_ <? 128) eqn:E1; bool_to_Z; [div_mod_lia |].
    last_rune pre Hdec 2.
  - destruct (_ <? 128) eqn:E1; bool_to_Z; [div_mod_lia |].
    last_rune pre Hdec 3.
  - destruct (_ <? 128) eqn:E1; bool_to_Z; [div_mod_lia |].
    last_rune pre Hdec 4.
Qed.

Lemma split_bytes_nonempty (sep : Z) (bs : list Z) : position.split_bytes sep bs <> [].
Proof.
  destruct bs as [| b bs]; simpl; [discriminate |].
  destruct (b =? sep); [discriminate |].
  destruct (position.split_bytes sep bs); discriminate.
Qed.

Lemma split_bytes_app (sep : Z) (e rest : list Z) :
  Forall (fun b => b <> sep) e ->
  position.split_bytes sep (e ++ rest)
  = match position.split_bytes sep rest with
    | line :: lines => (e ++ line) :: lines
    | [] => [e]
    end.
Proof.
  induction 1 as [| b e Hb _ IH]; simpl.
  - destruct (position.split_bytes sep rest) eqn:E; [| reflexivity].
    now apply split_bytes_nonempty in E.
  - destruct (b =? sep) eqn:Eb; bool_to_Z; [contradiction |].
    rewrite IH. destruct (position.split_bytes sep rest) eqn:E; [| reflexivity].
    now apply split_bytes_nonempty in E.
Qed.

Lemma encode_rune_no_newline (r : rune) :
  valid_rune r = true -> r <> 10 -> Forall (fun b => b <> 10) (encode_rune r).
Proof.
  intros Hv Hr.
  destruct (encode_rune_cases r Hv) as [[H ->] | [[H ->] | [[H ->] | [H ->]]]];
    repeat constructor; try assumption; div_mod_lia.
Qed.

Lemma split_runes_nonempty (rs : list rune) : split_runes rs <> [].
Proof.
  destruct rs as [| r rs]; simpl; [discriminate |].
  destruct (r =? 10); [discriminate |].
  destruct (split_runes rs); discriminate.
Qed.

Lemma split_bytes_encode (rs : list rune) :
  forallb valid_rune rs = true ->
  position.split_bytes 10 (encode_all rs) = map encode_all (split_runes rs).
Proof.
  induction rs as [| r rs IH]; intros Hv; [reflexivity |].
  simpl in Hv. apply andb_true_iff in Hv as [Hr Hv]. specialize (IH Hv).
  rewrite encode_all_cons. simpl split_runes.
  destruct (r =? 10) eqn:E; bool_to_Z.
  - subst r. change (encode_rune 10) with [10]. simpl. now rewrite IH.
  - rewrite split_bytes_app by now apply encode_rune_no_newline.
    rewrite IH. pose proof (split_runes_nonempty rs).
    destruct (split_runes rs) as [| line lines]; [contradiction |].
    simpl. now rewrite encode_all_cons.
Qed.

Lemma split_runes_newline (pre suf : list rune) :
  split_runes (pre ++ 10 :: suf) = split_runes pre ++ split_runes suf.
Proof.
  induction pre as [| r pre IH]; [reflexivity |].
  simpl. rewrite IH. destruct (r =? 10); [reflexivity |].
  pose proof (split_runes_nonempty pre).
  destruct (split_runes pre); [contradiction | reflexivity].
Qed.

Lemma row_col_lines (pre : list rune) (row col : Z) :
  row_col pre row col
  = (row + Z.of_nat (length (split_runes pre)) - 1,
     (if (length (split_runes pre) =? 1)%nat then col else 1)
     + Z.of_nat (length (List.last (split_runes pre) []))).
Proof.
  revert row col. induction pre as [| r pre IH]; intros row col.
  - simpl. f_equal; lia.
  - simpl. pose proof (split_runes_nonempty pre) as Hne.
    destruct (r =? 10).
    + rewrite IH. destruct (split_runes pre) as [| l ls] eqn:E; [contradiction |].
      cbn [length]. f_equal; [lia |].
      replace (List.last ([] :: l :: ls) []) with (List.last (l :: ls) [])
        by reflexivity.
      cbn [Nat.eqb]. destruct (length ls =? 0)%nat; lia.
    + rewrite IH. destruct (split_runes pre) as [| l ls] eqn:E; [contradiction |].
      cbn [length]. f_equal.
      destruct ls as [| l' ls]; simpl; lia.
Qed.

Lemma runes_encode_all (rs : list rune) (n : nat) :
  forallb valid_rune rs = true -> (length rs <= n)%nat ->
  runes_of_bytes n (encode_all rs) = rs.
Proof.
  revert n. induction rs as [| r rs IH]; intros n Hv Hn.
  - destruct n; reflexivity.
  - simpl in Hv. apply andb_true_iff in Hv as [Hr Hv].
    destruct n as [| n]; [simpl in Hn; lia |].
    rewrite encode_all_cons. pose proof (encode_rune_nonempty r) as Hlen.
    pose proof (decode_encode r (encode_all rs) Hr) as Hd.
    destruct (encode_rune r) as [| b e] eqn:E; [simpl in Hlen; lia |].
    change (runes_of_bytes (S n) ((b :: e) ++ encode_all rs))
      with (let '(r0, w) := decode_rune ((b :: e) ++ encode_all rs) in
            r0 :: runes_of_bytes n (drop w ((b :: e) ++ encode_all rs))).
    rewrite Hd, drop_app_length. f_equal. apply IH; [assumption | simpl in Hn; lia].
Qed.

Lemma length_encode_all (rs : list rune) : (length rs <= length (encode_all rs))%nat.
Proof.
  induction rs as [| r rs IH]; [simpl; lia |].
  rewrite encode_all_cons, length_app. pose proof (encode_rune_nonempty r). simpl. lia.
Qed.

Lemma rune_count_encode_all (rs : list rune) :
  forallb valid_rune rs = true -> position.rune_count (encode_all rs) = Z.of_nat (length rs).
Proof.
  intros Hv. unfold position.rune_count.
  now rewrite runes_encode_all by (assumption || apply length_encode_all).
Qed.

Lemma lookup_last {A : Type} (l l' : list A) (d : A) :
  l <> [] -> (l ++ l') !! (length l - 1)%nat = Some (List.last l d).
Proof.
  induction l as [| a l IH]; intros Hne; [contradiction |].
  destruct l as [| b l]; [reflexivity |].
  specialize (IH ltac:(discriminate)).
  change (List.last (a :: b :: l) d) with (List.last (b :: l) d). rewrite <- IH.
  simpl. now rewrite Nat.sub_0_r.
Qed.

Lemma last_map {A B : Type} (f : A -> B) (l : list A) (d : A) :
  List.last (map f l) (f d) = f (List.last l d).
Proof.
  induction l as [| a l IH]; [reflexivity |].
  destruct l as [| b l]; [reflexivity |]. exact IH.
Qed.

Lemma Forall_last {A : Type} (P : A -> Prop) (l : list A) (d : A) :
  Forall P l -> P d -> P (List.last l d).
Proof.
  induction 1 as [| a l Ha _ IH]; intros Hd; [exact Hd |].
  destruct l as [| b l]; [exact Ha | now apply IH].
Qed.

Lemma split_runes_valid (rs : list rune) :
  forallb valid_rune rs = true ->
  Forall (fun l => forallb valid_rune l = true) (split_runes rs).
Proof.
  induction rs as [| r rs IH]; intros Hv; [repeat constructor |].
  simpl in Hv. apply andb_true_iff in Hv as [Hr Hv]. specialize (IH Hv).
  simpl. destruct (r =? 10); [now constructor |].
  destruct (split_runes rs) as [| l ls]; [repeat constructor; simpl; now rewrite Hr |].
  inversion IH; subst. constructor; [simpl; now rewrite Hr | assumption].
Qed.

(** [Backup] over one code point of the text. *)
Lemma Backup_pos_at (file : string) (pre : list rune) (r : rune) (suf : list rune) :
  forallb plain (pre ++ r :: suf) = true ->
  position.Backup (pos_at file (pre ++ [r]) suf) = position.Done (pos_at file pre (r :: suf)).
Proof.
  intros Hall. pose proof (plain_head _ _ _ Hall) as Hr.
  pose proof (plain_valid r Hr) as [Hv Hne].
  pose proof (plain_all_valid _ Hall) as Hvalid.
  unfold position.Backup, pos_at.
  cbn [position.Idx position.Text position.Row position.Col position.File position.Char hd].
  rewrite text_of_snoc, len_text, bytes_of_text.
  rewrite (encode_all_app pre (r :: suf)), encode_all_cons.
  rewrite (encode_all_app pre [r]), encode_all_one, !length_app.
  pose proof (encode_rune_nonempty r).
  destruct (_ <=? 0) eqn:Hc; bool_to_Z; [lia |].
  destruct (_ <? _) eqn:Hd; bool_to_Z; [lia |].
  rewrite Nat2Z.id, app_assoc, <- length_app, take_app_length.
  rewrite DecodeLastRune_encode by assumption.
  rewrite row_col_snoc.
  destruct (r =? 10) eqn:E10; bool_to_Z.
  - subst r. cbn [fst snd].
    rewrite row_col_lines. cbn [fst snd].
    pose proof (split_runes_nonempty pre) as Hne'.
    destruct (_ <? 0) eqn:H0; bool_to_Z; [lia |].
    destruct (_ <? 0) eqn:H1; bool_to_Z.
    { destruct (split_runes pre); [contradiction | simpl in H1; lia]. }
    rewrite <- app_assoc, <- encode_all_cons, <- encode_all_app.
    rewrite split_bytes_encode by assumption.
    rewrite split_runes_newline, map_app.
    assert (Hpre : forallb valid_rune pre = true).
    { rewrite forallb_app in Hvalid. now apply andb_true_iff in Hvalid as [? _]. }
    replace (Z.to_nat (1 + Z.of_nat (length (split_runes pre)) - 1 + 1 - 1 - 1))
      with (length (map encode_all (split_runes pre)) - 1)%nat
      by (rewrite length_map; lia).
    rewrite (lookup_last _ _ (encode_all [])) by (destruct (split_runes pre); [contradiction | discriminate]).
    rewrite last_map, rune_count_encode_all
      by (apply Forall_last; [now apply split_runes_valid | reflexivity]).
    rewrite length_app. destruct (_ =? _)%nat; do 2 f_equal; lia.
  - cbn [fst snd]. rewrite length_app. do 2 f_equal; lia.
Qed.

(** X23. [Backup] undoes [Advance].  In a text of scalar values other than
    U+FFFD, advancing over a code point and backing up again gives the
    position back, with its row and column, also over a newline. *)
Theorem Backup_undoes_Advance (file : string) (pre : list rune) (r : rune) (suf : list rune) :
  forallb plain (pre ++ r :: suf) = true ->
  match position.Advance (pos_at file pre (r :: suf)) with
  | position.Done p => position.Backup p = position.Done (pos_at file pre (r :: suf))
  | _ => False
  end.
Proof.
  intros Hall. rewrite Advance_pos_at by assumption. now apply Backup_pos_at.
Qed.

Lemma Backup_undoes_Advance_witness :
  match position.Advance (pos_at "main.gh" [97; 10; 8364] [10; 98]) with
  | position.Done p => position.Backup p = position.Done (pos_at "main.gh" [97; 10; 8364] [10; 98])
  | _ => False
  end.
Proof.
  apply (Backup_undoes_Advance "main.gh" [97; 10; 8364] 10 [98]).
  vm_compute. reflexivity.
Defined.

(** ** The scanner on a text *)

Lemma Advance_at_end (file : string) (pre : list rune) :
  position.Advance (pos_at file pre []) = position.Done (past_end (pos_at file pre [])).
Proof.
  unfold position.Advance, pos_at, past_end.
  cbn [position.Idx position.Text position.Row position.Col position.File position.Char].
  rewrite app_nil_r, len_text.
  destruct (_ <? _) eqn:Hc; bool_to_Z; [lia | reflexivity].
Qed.

Lemma pos_at_snoc (file : string) (pre : list rune) (c : rune) (suf : list rune) :
  position.Text (pos_at file (pre ++ [c]) suf) = text_of (pre ++ c :: suf).
Proof. apply text_of_snoc. Qed.

Lemma NextChar_lex_at (file : string) (pre : list rune) (c : rune) (suf : list rune) :
  forallb plain (pre ++ c :: suf) = true ->
  scanner.NextChar (lex_at file pre (c :: suf)) = position.Done (lex_at file (pre ++ [c]) suf).
Proof.
  intros Hall. unfold scanner.NextChar, lex_at. cbn [scanner.NextPos scanner.File scanner.Input].
  rewrite text_of_snoc. destruct suf as [| c' suf'].
  - now rewrite Advance_at_end.
  - rewrite Advance_pos_at by now rewrite <- app_assoc. reflexivity.
Qed.

Lemma Backup_lex_at (file : string) (pre : list rune) (c : rune) (suf : list rune) :
  forallb plain (pre ++ c :: suf) = true ->
  scanner.Backup (lex_at file (pre ++ [c]) suf) = position.Done (lex_at file pre (c :: suf)).
Proof.
  intros Hall. unfold scanner.Backup, lex_at.
  cbn [scanner.CurrPos scanner.File scanner.Input].
  rewrite text_of_snoc, Backup_pos_at by assumption. reflexivity.
Qed.

Lemma NewLexer_lex_at (file : string) (rs : list rune) :
  forallb plain rs = true ->
  scanner.NewLexer file (text_of rs) = position.Done (lex_at file [] rs).
Proof.
  intros Hall. unfold scanner.NewLexer, scanner.NextChar.
  cbn [scanner.NextPos scanner.File scanner.Input].
  assert (Hnew : position.NewPos 1 1 0 file (text_of rs) = pos_at file [] rs).
  { unfold position.NewPos, pos_at. simpl. f_equal.
    destruct rs as [| r rs]; [reflexivity |].
    assert (Hr : plain r = true) by (simpl in Hall; bool_to_Z; tauto).
    rewrite len_text, encode_all_cons, length_app.
    pose proof (encode_rune_nonempty r).
    destruct (_ && _) eqn:Hc.
    - apply (char_at_text [] r rs Hr).
    - apply andb_false_iff in Hc. destruct Hc; bool_to_Z; lia. }
  rewrite Hnew. unfold position.Copy. destruct rs as [| r rs].
  - now rewrite Advance_at_end.
  - now rewrite (Advance_pos_at file [] r rs Hall).
Qed.

Lemma Curr_lex_at (file : string) (pre suf : list rune) :
  scanner.Curr (lex_at file pre suf) = hd 0 suf.
Proof. reflexivity. Qed.

Lemma string_of_bytes_app (xs ys : list Z) :
  string_of_bytes (xs ++ ys) = (string_of_bytes xs ++ string_of_bytes ys)%string.
Proof. induction xs as [| x xs IH]; simpl; [reflexivity | now rewrite IH]. Qed.

Lemma string_of_runes_text (rs : list rune) : scanner.string_of_runes rs = text_of rs.
Proof.
  induction rs as [| r rs IH]; [reflexivity |].
  simpl. rewrite IH. unfold text_of, string_of_rune.
  now rewrite encode_all_cons, string_of_bytes_app.
Qed.

Lemma bind_Done {A B : Type} (a : A) (f : A -> position.Result B) :
  scanner.bind (position.Done a) f = f a.
Proof. reflexivity. Qed.

Lemma scanIdentifier_loop_run (file : string) (cs : list rune) :
  forall (fuel : nat) (runes pre : list rune) (c : rune) (suf : list rune),
  forallb plain (pre ++ c :: cs ++ suf) = true ->
  forallb (fun r => scanner.isLetter r || scanner.isNumber r) cs = true ->
  scanner.isLetter (hd 0 suf) || scanner.isNumber (hd 0 suf) = false ->
  (length cs < fuel)%nat ->
  scanner.scanIdentifier_loop fuel runes (lex_at file pre (c :: cs ++ suf))
  = position.Done (runes ++ c :: cs, lex_at file (pre ++ c :: cs) suf).
Proof.
  induction cs as [| c' cs IH]; intros fuel runes pre c suf Hall Hcs Hstop Hfuel;
    (destruct fuel as [| fuel]; [simpl in Hfuel; lia |]).
  - simpl scanner.scanIdentifier_loop. simpl app in *.
    rewrite NextChar_lex_at, bind_Done, Curr_lex_at by assumption.
    apply orb_false_iff in Hstop as [-> ->]. reflexivity.
  - simpl scanner.scanIdentifier_loop. simpl app in Hall |- *.
    rewrite NextChar_lex_at, bind_Done, Curr_lex_at by assumption.
    simpl in Hcs. apply andb_true_iff in Hcs as [Hc' Hcs]. cbn [hd].
    replace (negb (scanner.isLetter c') && negb (scanner.isNumber c')) with false
      by (destruct (scanner.isLetter c'), (scanner.isNumber c'); simpl in *; congruence).
    rewrite IH; try assumption.
    + now rewrite <- !app_assoc.
    + now rewrite <- app_assoc.
    + simpl in Hfuel. lia.
Qed.

Lemma isLetter_first (c : rune) :
  scanner.isLetter c = true ->
  (c =? 0) = false /\ (c =? 32) || (c =? 9) || (c =? 13) || (c =? 10) = false
  /\ scanner.isNumber c = false.
Proof.
  unfold scanner.isLetter, scanner.isNumber. intros H.
  assert (Hc : 65 <= c).
  { repeat (apply orb_true_iff in H; destruct H as [H | H]); bool_to_Z; lia. }
  repeat split; repeat (apply orb_false_iff; split); try (apply Z.eqb_neq; lia).
  apply andb_false_iff. right. apply Z.leb_gt. lia.
Qed.

(** X24. Identifiers and keywords.  Where the text at the cursor is a letter
    (an ASCII letter, an underscore or any code point from U+0080 on)
    followed by letters and digits, and what follows is neither,
    [NextToken] returns one token with these code points as literal, of the
    keyword's type when they spell a keyword and [IDENT] otherwise, from the
    position of the first one to the position after the last one, and leaves
    the lexer on the last one. *)
Theorem NextToken_scans_an_identifier (file : string) (pre : list rune) (c : rune)
    (cs suf : list rune) (fuel : nat) :
  forallb plain (pre ++ c :: cs ++ suf) = true ->
  scanner.isLetter c = true ->
  forallb (fun r => scanner.isLetter r || scanner.isNumber r) cs = true ->
  scanner.isLetter (hd 0 suf) || scanner.isNumber (hd 0 suf) = false ->
  (length cs + 1 < fuel)%nat ->
  scanner.NextToken fuel (lex_at file pre (c :: cs ++ suf))
  = position.Done
      (scanner.mkToken (scanner.LookupIdent (text_of (c :: cs))) (text_of (c :: cs))
         (Some (pos_at file pre (c :: cs ++ suf))) (Some (pos_at file (pre ++ c :: cs) suf)),
       None,
       lex_at file (pre ++ removelast (c :: cs)) (List.last (c :: cs) 0 :: suf)).
Proof.
  intros Hall Hc Hcs Hstop Hfuel.
  destruct fuel as [| fuel]; [lia |].
  destruct (isLetter_first c Hc) as (H0 & Hws & Hnum).
  cbn [scanner.NextToken]. rewrite Curr_lex_at. cbn [hd].
  rewrite H0, Hws, Hnum, Hc.
  unfold scanner.scanIdentifier.
  rewrite (scanIdentifier_loop_run file cs fuel [] pre c suf) by (assumption || lia).
  rewrite bind_Done. cbv beta iota.
  assert (E : pre ++ c :: cs = (pre ++ removelast (c :: cs)) ++ [List.last (c :: cs) 0]).
  { rewrite <- app_assoc. f_equal. apply app_removelast_last. discriminate. }
  rewrite E at 1.
  rewrite Backup_lex_at.
  2:{ rewrite <- app_assoc. change (?x :: suf) with ([x] ++ suf).
      rewrite (app_assoc (removelast _)), <- app_removelast_last by discriminate.
      exact Hall. }
  rewrite bind_Done. change ([] ++ c :: cs) with (c :: cs). rewrite string_of_runes_text.
  rewrite bind_Done. cbv beta iota.
  unfold scanner.token, position.Copy. cbn [scanner.CurrPos scanner.NextPos lex_at].
  now rewrite <- E.
Qed.

Lemma NextToken_scans_an_identifier_witness :
  scanner.NextToken 5 (lex_at "main.gh" [120; 32] ([118; 97; 114] ++ [32; 121]))
  = position.Done
      (scanner.mkToken lexer.VAR "var"
         (Some (pos_at "main.gh" [120; 32] [118; 97; 114; 32; 121]))
         (Some (pos_at "main.gh" [120; 32; 118; 97; 114] [32; 121])),
       None,
       lex_at "main.gh" [120; 32; 118; 97] [114; 32; 121]).
Proof.
  apply (NextToken_scans_an_identifier "main.gh" [120; 32] 118 [97; 114] [32; 121] 5);
    vm_compute; first [reflexivity | lia].
Defined.

Lemma text_of_cons (r : rune) (rs : list rune) :
  text_of (r :: rs) = (string_of_rune r ++ text_of rs)%string.
Proof. unfold text_of, string_of_rune. now rewrite encode_all_cons, string_of_bytes_app. Qed.

Lemma text_of_app (xs ys : list rune) :
  text_of (xs ++ ys) = (text_of xs ++ text_of ys)%string.
Proof. unfold text_of. now rewrite encode_all_app, string_of_bytes_app. Qed.

Lemma string_of_rune_ascii (r : rune) :
  0 <= r < 128 -> string_of_rune r = String.String (char_of r) String.EmptyString.
Proof.
  intros Hr. unfold string_of_rune, encode_rune.
  destruct (_ && _) eqn:E; [reflexivity |].
  apply andb_false_iff in E. destruct E; bool_to_Z; lia.
Qed.

Lemma char_of_inj (a b : Z) : 0 <= a < 256 -> 0 <= b < 256 -> char_of a = char_of b -> a = b.
Proof.
  intros Ha Hb E. rewrite <- (byte_of_char_of a), <- (byte_of_char_of b) by assumption.
  now rewrite E.
Qed.

Lemma digit_or_dot_ascii (r : rune) :
  scanner.isNumber r || (r =? 46) = true -> 0 <= r < 128.
Proof.
  unfold scanner.isNumber. intros H. apply orb_true_iff in H. destruct H; bool_to_Z; lia.
Qed.

Lemma Contains_cons (a : ascii) (s : string) :
  scanner.Contains (String.String a s) "."
  = if ascii_dec "." a then true else scanner.Contains s ".".
Proof.
  unfold scanner.Contains.
  change (String.index 0 "." (String.String a s))
    with (if String.prefix "." (String.String a s) then Some O
          else match String.index 0 "." s with
               | Some n => Some (S n)
               | None => None
               end).
  change (String.prefix "." (String.String a s))
    with (match ascii_dec "." a with
          | left _ => String.prefix "" s
          | right _ => false
          end).
  destruct (ascii_dec "." a); [destruct s; reflexivity |].
  destruct (String.index 0 "." s); reflexivity.
Qed.

Lemma Contains_dot (rs : list rune) :
  forallb (fun r => scanner.isNumber r || (r =? 46)) rs = true ->
  scanner.Contains (text_of rs) "." = existsb (fun r => r =? 46) rs.
Proof.
  induction rs as [| r rs IH]; intros Hrs; [reflexivity |].
  simpl in Hrs. apply andb_true_iff in Hrs as [Hr Hrs]. specialize (IH Hrs).
  apply digit_or_dot_ascii in Hr.
  rewrite text_of_cons, string_of_rune_ascii by assumption.
  change (?a ++ ?b)%string with (String.String (char_of r) b).
  rewrite Contains_cons, IH. cbn [existsb].
  destruct (ascii_dec "." (char_of r)) as [E | E].
  - change "."%char with (char_of 46) in E. apply char_of_inj in E; [| lia | lia].
    subst r. reflexivity.
  - destruct (r =? 46) eqn:E46; bool_to_Z; [| reflexivity].
    subst r. now contradiction E.
Qed.

Lemma number_is_no_dot (c : rune) (cs : list rune) :
  scanner.isNumber c = true -> String.eqb (text_of (c :: cs)) "." = false.
Proof.
  unfold scanner.isNumber. intros H. bool_to_Z.
  rewrite text_of_cons, string_of_rune_ascii by lia.
  change (?a ++ ?b)%string with (String.String (char_of c) b).
  cbn [String.eqb].
  destruct (Ascii.eqb_spec (char_of c) ".") as [E | E]; [| reflexivity].
  change "."%char with (char_of 46) in E. apply char_of_inj in E; lia.
Qed.

Lemma isNumber_first (c : rune) :
  scanner.isNumber c = true ->
  (c =? 0) = false /\ (c =? 32) || (c =? 9) || (c =? 13) || (c =? 10) = false.
Proof.
  unfold scanner.isNumber. intros H. bool_to_Z.
  repeat split; repeat (apply orb_false_iff; split); apply Z.eqb_neq; lia.
Qed.

Lemma dots_cons (c : rune) (cs : list rune) :
  dots (c :: cs) = (if c =? 46 then 1 else 0) + dots cs.
Proof. unfold dots. cbn [List.filter]. destruct (c =? 46); cbn [length]; lia. Qed.

Lemma dots_nonneg (cs : list rune) : 0 <= dots cs.
Proof. unfold dots. lia. Qed.

Lemma string_app_nil_r (s : string) : (s ++ "")%string = s.
Proof.
  induction s as [| a s IH]; [reflexivity |].
  change (String.String a (s ++ "") = String.String a s)%string. now rewrite IH.
Qed.

Lemma string_app_assoc (a b c : string) : ((a ++ b) ++ c)%string = (a ++ (b ++ c))%string.
Proof.
  induction a as [| x a IH]; [reflexivity |].
  change (String.String x ((a ++ b) ++ c) = String.String x (a ++ (b ++ c)))%string.
  now rewrite IH.
Qed.

(** The loop of [scanNumber] over a run of digits with at most one dot. *)
Lemma scanNumber_loop_run (file : string) (cs : list rune) :
  forall (fuel : nat) (num : string) (dotCount : Z) (pre : list rune) (z : rune)
         (suf : list rune),
  forallb plain (pre ++ z :: cs ++ suf) = true ->
  forallb (fun r => scanner.isNumber r || (r =? 46)) cs = true ->
  dotCount + dots cs <= 1 ->
  scanner.isNumber (hd 0 suf) || (hd 0 suf =? 46) = false ->
  (length cs < fuel)%nat ->
  scanner.scanNumber_loop fuel num dotCount (lex_at file (pre ++ [z]) (cs ++ suf))
  = position.Done
      ((num ++ text_of cs)%string, None,
       lex_at file (pre ++ removelast (z :: cs)) (List.last (z :: cs) 0 :: suf)).
Proof.
  induction cs as [| c cs IH]; intros fuel num dotCount pre z suf Hall Hcs Hdots Hstop Hfuel;
    (destruct fuel as [| fuel]; [simpl in Hfuel; lia |]).
  - cbn [scanner.scanNumber_loop]. simpl app. rewrite Curr_lex_at, Hstop.
    rewrite Backup_lex_at, bind_Done by assumption.
    change (text_of []) with ""%string. rewrite string_app_nil_r.
    cbn [removelast List.last]. now rewrite app_nil_r.
  - cbn [scanner.scanNumber_loop]. simpl app in Hall |- *. rewrite Curr_lex_at. cbn [hd].
    simpl in Hcs. apply andb_true_iff in Hcs as [Hc Hcs]. rewrite Hc.
    rewrite dots_cons in Hdots. pose proof (dots_nonneg cs) as Hpos.
    replace ((c =? 46) && (1 <? (if c =? 46 then dotCount + 1 else dotCount))) with false.
    2:{ destruct (c =? 46); [| reflexivity]. symmetry. apply Z.ltb_ge. lia. }
    rewrite NextChar_lex_at, bind_Done by (now rewrite <- app_assoc).
    rewrite IH; try assumption.
    + rewrite text_of_cons, <- app_assoc, string_app_assoc. reflexivity.
    + now rewrite <- !app_assoc.
    + destruct (c =? 46); lia.
    + simpl in Hfuel. lia.
Qed.

(** The loop of [scanNumber] up to a second dot. *)
Lemma scanNumber_loop_second_dot (file : string) (cs : list rune) :
  forall (fuel : nat) (num : string) (dotCount : Z) (pre : list rune) (z : rune)
         (suf : list rune),
  forallb plain (pre ++ z :: cs ++ 46 :: suf) = true ->
  forallb (fun r => scanner.isNumber r || (r =? 46)) cs = true ->
  dotCount + dots cs = 1 ->
  (length cs < fuel)%nat ->
  scanner.scanNumber_loop fuel num dotCount (lex_at file (pre ++ [z]) (cs ++ 46 :: suf))
  = position.Done
      (""%string,
       Some (scanner.IllegalTokenError "illegal float literal."
               (pos_at file (pre ++ z :: cs) (46 :: suf))
               (pos_at file (pre ++ z :: cs ++ [46]) suf)),
       lex_at file (pre ++ z :: cs) (46 :: suf)).
Proof.
  induction cs as [| c cs IH]; intros fuel num dotCount pre z suf Hall Hcs Hdots Hfuel;
    (destruct fuel as [| fuel]; [simpl in Hfuel; lia |]).
  - cbn [scanner.scanNumber_loop]. simpl app. rewrite Curr_lex_at. cbn [hd].
    change (dots []) with 0 in Hdots.
    replace (scanner.isNumber 46 || (46 =? 46)) with true by reflexivity.
    change (46 =? 46) with true. cbv iota. cbn [andb].
    replace (1 <? dotCount + 1) with true by (symmetry; apply Z.ltb_lt; lia).
    unfold position.Copy. cbn [scanner.CurrPos scanner.NextPos lex_at].
    now rewrite <- !app_assoc.
  - cbn [scanner.scanNumber_loop]. simpl app in Hall |- *. rewrite Curr_lex_at. cbn [hd].
    simpl in Hcs. apply andb_true_iff in Hcs as [Hc Hcs]. rewrite Hc.
    rewrite dots_cons in Hdots. pose proof (dots_nonneg cs) as Hpos.
    replace ((c =? 46) && (1 <? (if c =? 46 then dotCount + 1 else dotCount))) with false.
    2:{ destruct (c =? 46); [| reflexivity]. symmetry. apply Z.ltb_ge. lia. }
    rewrite NextChar_lex_at, bind_Done by (now rewrite <- app_assoc).
    rewrite IH; try assumption.
    + now rewrite <- !app_assoc.
    + now rewrite <- !app_assoc.
    + destruct (c =? 46); lia.
    + simpl in Hfuel. lia.
Qed.

(** X25. Number literals.  Where the text at the cursor is a digit followed
    by digits and at most one dot, and what follows is neither a digit nor a
    dot, [NextToken] returns one token with these characters as literal,
    [FLOAT] when there is a dot among them (a dot at the end included) and
    [INT] otherwise, from the position of the first one to the position
    after the last one, and leaves the lexer on the last one. *)
Theorem NextToken_scans_a_number (file : string) (pre : list rune) (c : rune)
    (cs suf : list rune) (fuel : nat) :
  forallb plain (pre ++ c :: cs ++ suf) = true ->
  scanner.isNumber c = true ->
  forallb (fun r => scanner.isNumber r || (r =? 46)) cs = true ->
  dots cs <= 1 ->
  scanner.isNumber (hd 0 suf) || (hd 0 suf =? 46) = false ->
  (length cs + 2 < fuel)%nat ->
  scanner.NextToken fuel (lex_at file pre (c :: cs ++ suf))
  = position.Done
      (scanner.mkToken (if existsb (fun r => r =? 46) cs then lexer.FLOAT else lexer.INT)
         (text_of (c :: cs))
         (Some (pos_at file pre (c :: cs ++ suf))) (Some (pos_at file (pre ++ c :: cs) suf)),
       None,
       lex_at file (pre ++ removelast (c :: cs)) (List.last (c :: cs) 0 :: suf)).
Proof.
  intros Hall Hc Hcs Hdots Hstop Hfuel.
  destruct fuel as [| fuel]; [lia |].
  destruct (isNumber_first c Hc) as (H0 & Hws).
  cbn [scanner.NextToken]. rewrite Curr_lex_at. cbn [hd].
  rewrite H0, Hws, Hc.
  unfold scanner.scanNumber.
  destruct fuel as [| fuel]; [lia |].
  cbn [scanner.scanNumber_loop]. rewrite Curr_lex_at. cbn [hd]. rewrite Hc. cbn [orb].
  assert (Hc46 : (c =? 46) = false).
  { unfold scanner.isNumber in Hc. bool_to_Z. apply Z.eqb_neq. lia. }
  rewrite Hc46. cbn [andb].
  rewrite NextChar_lex_at, bind_Done by assumption.
  rewrite (scanNumber_loop_run file cs fuel _ 0 pre c suf) by (assumption || lia).
  rewrite bind_Done. cbv beta iota.
  change (("" ++ string_of_rune c) ++ text_of cs)%string
    with (string_of_rune c ++ text_of cs)%string.
  rewrite <- text_of_cons, number_is_no_dot by assumption.
  assert (Hall' : forallb (fun r => scanner.isNumber r || (r =? 46)) (c :: cs) = true).
  { simpl. now rewrite Hc, Hcs. }
  rewrite (Contains_dot _ Hall'). cbn [existsb]. rewrite Hc46. cbn [orb].
  assert (E : pre ++ c :: cs = (pre ++ removelast (c :: cs)) ++ [List.last (c :: cs) 0]).
  { rewrite <- app_assoc. f_equal. apply app_removelast_last. discriminate. }
  unfold scanner.token, position.Copy. cbn [scanner.CurrPos scanner.NextPos lex_at].
  rewrite <- E. destruct (existsb _ cs); reflexivity.
Qed.

Lemma NextToken_scans_a_number_witness :
  scanner.NextToken 5 (lex_at "main.gh" [61] ([51; 46; 53] ++ [59]))
  = position.Done
      (scanner.mkToken lexer.FLOAT "3.5"
         (Some (pos_at "main.gh" [61] [51; 46; 53; 59]))
         (Some (pos_at "main.gh" [61; 51; 46; 53] [59])),
       None,
       lex_at "main.gh" [61; 51; 46] [53; 59]).
Proof.
  apply (NextToken_scans_a_number "main.gh" [61] 51 [46; 53] [59] 5);
    vm_compute; first [reflexivity | discriminate | lia].
Defined.

(** X26. A second dot.  Where the text at the cursor is a digit followed by
    digits and exactly one dot, and a dot follows, [NextToken] returns the
    [ILLEGAL] token, from the position of the first digit to the position
    after the second dot, with the IllegalTokenError "illegal float literal."
    at the second dot, and leaves the lexer on the second dot. *)
Theorem second_dot_is_an_illegal_float (file : string) (pre : list rune) (c : rune)
    (cs suf : list rune) (fuel : nat) :
  forallb plain (pre ++ c :: cs ++ 46 :: suf) = true ->
  scanner.isNumber c = true ->
  forallb (fun r => scanner.isNumber r || (r =? 46)) cs = true ->
  dots cs = 1 ->
  (length cs + 2 < fuel)%nat ->
  scanner.NextToken fuel (lex_at file pre (c :: cs ++ 46 :: suf))
  = position.Done
      (scanner.mkToken lexer.ILLEGAL "ILLEGAL"
         (Some (pos_at file pre (c :: cs ++ 46 :: suf)))
         (Some (pos_at file (pre ++ c :: cs ++ [46]) suf)),
       Some (scanner.IllegalTokenError "illegal float literal."
               (pos_at file (pre ++ c :: cs) (46 :: suf))
               (pos_at file (pre ++ c :: cs ++ [46]) suf)),
       lex_at file (pre ++ c :: cs) (46 :: suf)).
Proof.
  intros Hall Hc Hcs Hdots Hfuel.
  destruct fuel as [| fuel]; [lia |].
  destruct (isNumber_first c Hc) as (H0 & Hws).
  cbn [scanner.NextToken]. rewrite Curr_lex_at. cbn [hd].
  rewrite H0, Hws, Hc.
  unfold scanner.scanNumber.
  destruct fuel as [| fuel]; [lia |].
  cbn [scanner.scanNumber_loop]. rewrite Curr_lex_at. cbn [hd]. rewrite Hc. cbn [orb].
  assert (Hc46 : (c =? 46) = false).
  { unfold scanner.isNumber in Hc. bool_to_Z. apply Z.eqb_neq. lia. }
  rewrite Hc46. cbn [andb].
  rewrite NextChar_lex_at, bind_Done by assumption.
  rewrite (scanNumber_loop_second_dot file cs fuel _ 0 pre c suf) by (assumption || lia).
  rewrite bind_Done. cbv beta iota.
  unfold scanner.token, position.Copy. cbn [scanner.CurrPos scanner.NextPos lex_at String.eqb].
  replace ((pre ++ c :: cs) ++ [46]) with (pre ++ c :: cs ++ [46])
    by (now rewrite <- app_assoc).
  reflexivity.
Qed.

Lemma second_dot_is_an_illegal_float_witness :
  scanner.NextToken 6 (lex_at "main.gh" [] (49 :: [46; 50] ++ 46 :: [51]))
  = position.Done
      (scanner.mkToken lexer.ILLEGAL "ILLEGAL"
         (Some (pos_at "main.gh" [] [49; 46; 50; 46; 51]))
         (Some (pos_at "main.gh" [49; 46; 50; 46] [51])),
       Some (scanner.IllegalTokenError "illegal float literal."
               (pos_at "main.gh" [49; 46; 50] [46; 51])
               (pos_at "main.gh" [49; 46; 50; 46] [51])),
       lex_at "main.gh" [49; 46; 50] [46; 51]).
Proof.
  apply (second_dot_is_an_illegal_float "main.gh" [] 49 [46; 50] [51] 6);
    vm_compute; first [reflexivity | discriminate | lia].
Defined.

Lemma lookup_string_In {V : Type} (k : string) (m : list (string * V)) (v : V) :
  scanner.lookup_string k m = Some v -> In (k, v) m.
Proof.
  induction m as [| [k' v'] m IH]; simpl; [discriminate |].
  destruct (String.eqb_spec k k') as [-> | _].
  - intros [= ->]. now left.
  - intros H. right. now apply IH.
Qed.

Lemma runes_text (rs : list rune) : forallb valid_rune rs = true -> runes (text_of rs) = rs.
Proof.
  intros Hv. unfold runes. rewrite bytes_of_text.
  apply runes_encode_all; [assumption | apply length_encode_all].
Qed.

(** The operators of the table are runs the scanner can follow. *)
Lemma Operators_operator_run (ops : list rune) (t : lexer.TokenType) :
  forallb valid_rune ops = true ->
  scanner.Operators (text_of ops) = Some t -> operator_run ops = true.
Proof.
  intros Hv H. apply lookup_string_In in H.
  assert (Hall : forallb (fun kt => operator_run (runes (fst kt))) scanner.Operators_table = true)
    by (vm_compute; reflexivity).
  rewrite forallb_forall in Hall. specialize (Hall _ H). cbn [fst] in Hall.
  now rewrite runes_text in Hall.
Qed.

Lemma isOperator_ascii (d : rune) :
  valid_rune d = true -> scanner.isOperator d = true -> 0 <= d < 128.
Proof.
  intros Hv. unfold scanner.isOperator.
  destruct (scanner.Operators (string_of_rune d)) as [t |] eqn:E; [intros _ | discriminate].
  apply lookup_string_In in E.
  assert (Hall : forallb (fun kt => match bytes_of_string (fst kt) with
                                    | b :: _ => b <? 128
                                    | [] => false
                                    end) scanner.Operators_table = true)
    by (vm_compute; reflexivity).
  rewrite forallb_forall in Hall. specialize (Hall _ E). cbn [fst] in Hall.
  unfold string_of_rune in Hall. rewrite bytes_of_string_of_bytes in Hall
    by apply encode_rune_bytes.
  pose proof (proj1 (valid_rune_iff d) Hv) as Hd.
  destruct (encode_rune_cases d Hv) as [[H _] | [[H E'] | [[H E'] | [H E']]]];
    [lia | rewrite E' in Hall; bool_to_Z; div_mod_lia ..].
Qed.

Lemma drop_last_byte_snoc (s : string) (a : ascii) :
  scanner.drop_last_byte (s ++ String.String a String.EmptyString) = s.
Proof.
  unfold scanner.drop_last_byte. rewrite length_string_app. cbn [String.length].
  replace (String.length s + 1 - 1)%nat with (String.length s) by lia.
  induction s as [| x s IH]; [reflexivity |].
  change (String.String x s ++ String.String a "")%string
    with (String.String x (s ++ String.String a "")).
  cbn [String.length String.substring]. now rewrite IH.
Qed.

Lemma text_of_one (r : rune) : text_of [r] = string_of_rune r.
Proof. unfold text_of. now rewrite encode_all_one. Qed.

Lemma operators_all_along_cons (op : string) (z : rune) (cs : list rune) :
  operators_all_along op (z :: cs)
  = match scanner.Operators (op ++ string_of_rune z) with
    | Some _ => operators_all_along (op ++ string_of_rune z) cs
    | None => false
    end.
Proof. reflexivity. Qed.

(** The loop of [scanOperator] over the code points of an operator that the
    next code point does not extend. *)
Lemma scanOperator_loop_run (file : string) (cs : list rune) :
  forall (fuel : nat) (op : string) (pre : list rune) (z : rune) (suf : list rune),
  forallb plain (pre ++ z :: cs ++ suf) = true ->
  operators_all_along op (z :: cs) = true ->
  forallb scanner.isOperator cs = true ->
  scanner.Operators ((op ++ text_of (z :: cs)) ++ string_of_rune (hd 0 suf)) = None ->
  (length cs + 1 < fuel)%nat ->
  scanner.scanOperator_loop fuel op (lex_at file pre (z :: cs ++ suf))
  = position.Done ((op ++ text_of (z :: cs))%string, lex_at file (pre ++ z :: cs) suf).
Proof.
  induction cs as [| c cs IH]; intros fuel op pre z suf Hall Hops Hcs Hstop Hfuel;
    (destruct fuel as [| fuel]; [simpl in Hfuel; lia |]).
  - cbn [scanner.scanOperator_loop]. simpl app in Hall |- *.
    rewrite ?Curr_lex_at. cbn [hd].
    rewrite NextChar_lex_at, bind_Done by assumption.
    rewrite operators_all_along_cons in Hops. rewrite text_of_one in *.
    destruct (scanner.Operators (op ++ string_of_rune z)) eqn:Eop; [| discriminate].
    rewrite Curr_lex_at.
    destruct (scanner.isOperator (hd 0 suf)) eqn:Ed; [| reflexivity].
    cbn [negb]. destruct suf as [| d suf]; [discriminate Ed |]. cbn [hd] in *.
    destruct fuel as [| fuel]; [simpl in Hfuel; lia |].
    cbn [scanner.scanOperator_loop]. rewrite Curr_lex_at. cbn [hd].
    assert (Hd : plain d = true).
    { apply (plain_head (pre ++ [z]) d suf). now rewrite <- app_assoc. }
    rewrite NextChar_lex_at, bind_Done by (now rewrite <- app_assoc).
    rewrite Hstop.
    rewrite Backup_lex_at, bind_Done by (now rewrite <- app_assoc).
    apply plain_valid in Hd as [Hd _].
    rewrite (string_of_rune_ascii d) by (now apply isOperator_ascii).
    now rewrite drop_last_byte_snoc.
  - cbn [scanner.scanOperator_loop]. simpl app in Hall |- *.
    rewrite ?Curr_lex_at. cbn [hd].
    rewrite NextChar_lex_at, bind_Done by assumption.
    rewrite operators_all_along_cons in Hops.
    destruct (scanner.Operators (op ++ string_of_rune z)) eqn:Eop; [| discriminate].
    rewrite Curr_lex_at. cbn [hd].
    simpl in Hcs. apply andb_true_iff in Hcs as [Hc Hcs]. rewrite Hc. cbn [negb].
    rewrite IH; try assumption.
    + rewrite (text_of_cons z (c :: cs)), <- app_assoc, string_app_assoc. reflexivity.
    + now rewrite <- app_assoc.
    + now rewrite (string_app_assoc op (string_of_rune z) (text_of (c :: cs))), <- text_of_cons.
    + simpl in Hfuel. lia.
Qed.

(** X27. Operators: the longest match.  Where the text at the cursor spells
    an operator of the [Operators] table that the next code point does not
    extend to another operator of the table (and that is not the slash of a
    comment), [NextToken] returns one token of the table's type for it with
    the operator as literal, from the position of its first character to the
    position after its last one, and leaves the lexer on the last one. *)
Theorem NextToken_scans_the_longest_operator (file : string) (pre ops suf : list rune)
    (t : lexer.TokenType) (fuel : nat) :
  forallb plain (pre ++ ops ++ suf) = true ->
  scanner.Operators (text_of ops) = Some t ->
  scanner.Operators (text_of (ops ++ [hd 0 suf])) = None ->
  (ops = [47] -> hd 0 suf <> 47 /\ hd 0 suf <> 42) ->
  (length ops + 1 < fuel)%nat ->
  scanner.NextToken fuel (lex_at file pre (ops ++ suf))
  = position.Done
      (scanner.mkToken t (text_of ops)
         (Some (pos_at file pre (ops ++ suf))) (Some (pos_at file (pre ++ ops) suf)),
       None,
       lex_at file (pre ++ removelast ops) (List.last ops 0 :: suf)).
Proof.
  intros Hall Hop Hstop Hslash Hfuel.
  assert (Hv : forallb valid_rune ops = true).
  { apply plain_all_valid in Hall. rewrite !forallb_app in Hall.
    apply andb_true_iff in Hall as [_ Hall]. now apply andb_true_iff in Hall as [Hall _]. }
  pose proof (Operators_operator_run ops t Hv Hop) as Hrun.
  destruct ops as [| z cs]; [discriminate Hrun |].
  unfold operator_run in Hrun.
  apply andb_true_iff in Hrun as [Hrun Hnext].
  repeat (apply andb_true_iff in Hrun; destruct Hrun as [Hrun ?]).
  repeat match goal with
         | H : negb _ = true |- _ => apply negb_true_iff in H
         end.
  match goal with
  | H : forallb scanner.isOperator (z :: cs) = true |- _ =>
      simpl in H; apply andb_true_iff in H; destruct H as [Hz Hcs]
  end.
  destruct fuel as [| fuel]; [lia |].
  cbn [scanner.NextToken]. simpl app in Hall |- *. rewrite !Curr_lex_at. cbn [hd].
  repeat match goal with
         | H : _ = false |- _ => rewrite H
         end.
  rewrite Hz.
  assert (Hcomment : forall x, (x = 47 \/ x = 42) ->
            (z =? 47)
            && (position.Char (scanner.NextPos (lex_at file pre (z :: cs ++ suf))) =? x)
            = false).
  { intros x Hx. destruct (z =? 47) eqn:Ez; [| reflexivity]. bool_to_Z. subst z.
    cbn [andb lex_at scanner.NextPos pos_at position.Char].
    apply Z.eqb_neq. intros E.
    cbn [negb orb] in Hnext.
    destruct cs as [| c cs].
    - destruct (Hslash eq_refl) as [H47 H42]. simpl app in E. destruct Hx; congruence.
    - cbn [app hd] in E. apply andb_true_iff in Hnext as [H47 H42].
      apply negb_true_iff in H47, H42. bool_to_Z. destruct Hx; congruence. }
  rewrite (Hcomment 47), (Hcomment 42) by auto.
  unfold scanner.scanOperator.
  assert (Hstop' : scanner.Operators (("" ++ text_of (z :: cs)) ++ string_of_rune (hd 0 suf))
                   = None).
  { change ("" ++ text_of (z :: cs))%string with (text_of (z :: cs)).
    now rewrite <- text_of_one, <- text_of_app. }
  simpl length in Hfuel.
  rewrite (scanOperator_loop_run file cs fuel "" pre z suf) by (assumption || lia).
  rewrite bind_Done. cbv beta iota.
  change ("" ++ text_of (z :: cs))%string with (text_of (z :: cs)).
  assert (E : pre ++ z :: cs = (pre ++ removelast (z :: cs)) ++ [List.last (z :: cs) 0]).
  { rewrite <- app_assoc. f_equal. apply app_removelast_last. discriminate. }
  rewrite E at 1.
  rewrite Backup_lex_at.
  2:{ rewrite <- app_assoc. change (?x :: suf) with ([x] ++ suf).
      rewrite (app_assoc (removelast _)), <- app_removelast_last by discriminate.
      exact Hall. }
  rewrite !bind_Done. cbv beta iota.
  unfold scanner.token, scanner.Operators_value, position.Copy.
  cbn [scanner.CurrPos scanner.NextPos lex_at].
  now rewrite Hop, <- E.
Qed.

Lemma NextToken_scans_the_longest_operator_witness :
  scanner.NextToken 5 (lex_at "main.gh" [120] ([60; 60] ++ [45; 49]))
  = position.Done
      (scanner.mkToken lexer.LEFT_SHIFT "<<"
         (Some (pos_at "main.gh" [120] [60; 60; 45; 49]))
         (Some (pos_at "main.gh" [120; 60; 60] [45; 49])),
       None,
       lex_at "main.gh" [120; 60] [60; 45; 49]).
Proof.
  apply (NextToken_scans_the_longest_operator "main.gh" [120] [60; 60] [45; 49]
           lexer.LEFT_SHIFT 5);
    first [discriminate | vm_compute; first [reflexivity | lia]].
Defined.

Lemma eatWhitespace_loop_run (file : string) (ws : list rune) :
  forall (fuel : nat) (pre suf : list rune),
  forallb plain (pre ++ ws ++ suf) = true ->
  forallb blank ws = true ->
  blank (hd 0 suf) = false ->
  (length ws < fuel)%nat ->
  scanner.eatWhitespace_loop fuel (lex_at file pre (ws ++ suf))
  = position.Done (lex_at file (pre ++ ws) suf).
Proof.
  induction ws as [| w ws IH]; intros fuel pre suf Hall Hws Hstop Hfuel;
    (destruct fuel as [| fuel]; [simpl in Hfuel; lia |]);
    cbn [scanner.eatWhitespace_loop]; simpl app in Hall |- *; rewrite Curr_lex_at.
  - unfold blank in Hstop. rewrite Hstop, app_nil_r. reflexivity.
  - simpl in Hws. apply andb_true_iff in Hws as [Hw Hws]. cbn [hd].
    unfold blank in Hw. rewrite Hw.
    rewrite NextChar_lex_at, bind_Done by assumption.
    rewrite IH; try assumption.
    + now rewrite <- app_assoc.
    + now rewrite <- app_assoc.
    + simpl in Hfuel. lia.
Qed.

Lemma skipComment_loop_run (file : string) (body : list rune) :
  forall (fuel : nat) (pre suf : list rune),
  forallb plain (pre ++ body ++ suf) = true ->
  forallb (fun c => negb (c =? 10) && negb (c =? 0)) body = true ->
  negb (hd 0 suf =? 10) && negb (hd 0 suf =? 0) = false ->
  (length body < fuel)%nat ->
  scanner.skipComment_loop fuel (lex_at file pre (body ++ suf))
  = position.Done (lex_at file (pre ++ body) suf).
Proof.
  induction body as [| c body IH]; intros fuel pre suf Hall Hbody Hstop Hfuel;
    (destruct fuel as [| fuel]; [simpl in Hfuel; lia |]);
    cbn [scanner.skipComment_loop]; simpl app in Hall |- *; rewrite Curr_lex_at.
  - rewrite Hstop, app_nil_r. reflexivity.
  - simpl in Hbody. apply andb_true_iff in Hbody as [Hc Hbody]. cbn [hd]. rewrite Hc.
    rewrite NextChar_lex_at, bind_Done by assumption.
    rewrite IH; try assumption.
    + now rewrite <- app_assoc.
    + now rewrite <- app_assoc.
    + simpl in Hfuel. lia.
Qed.

Lemma Next_lex_at (file : string) (pre suf : list rune) :
  position.Char (scanner.NextPos (lex_at file pre suf)) = hd 0 (tl suf).
Proof. destruct suf; reflexivity. Qed.

Lemma skipMultilineComment_loop_run (file : string) (body : list rune) :
  forall (fuel : nat) (pre suf : list rune),
  forallb plain (pre ++ body ++ 42 :: 47 :: suf) = true ->
  forallb (fun c => negb (c =? 0)) body = true ->
  no_close body = true ->
  (length body < fuel)%nat ->
  scanner.skipMultilineComment_loop fuel (lex_at file pre (body ++ 42 :: 47 :: suf))
  = position.Done (lex_at file (pre ++ body) (42 :: 47 :: suf)).
Proof.
  induction body as [| c body IH]; intros fuel pre suf Hall Hbody Hclose Hfuel;
    (destruct fuel as [| fuel]; [simpl in Hfuel; lia |]);
    cbn [scanner.skipMultilineComment_loop]; unfold scanner.not_closing;
    simpl app in Hall |- *; rewrite Curr_lex_at, Next_lex_at.
  - rewrite app_nil_r. reflexivity.
  - simpl in Hbody. apply andb_true_iff in Hbody as [Hc Hbody]. cbn [hd tl].
    cbn [no_close] in Hclose. apply andb_true_iff in Hclose as [Hpair Hclose].
    rewrite Hc.
    replace (negb (c =? 42) || negb (hd 0 (body ++ 42 :: 47 :: suf) =? 47)) with true.
    2:{ destruct (c =? 42); [| reflexivity]. cbn [negb orb andb] in *.
        destruct body as [| d body]; [reflexivity |]. cbn [hd app] in *. now rewrite Hpair. }
    cbn [andb].
    rewrite NextChar_lex_at, bind_Done by assumption.
    rewrite IH; try assumption.
    + now rewrite <- app_assoc.
    + now rewrite <- app_assoc.
    + simpl in Hfuel. lia.
Qed.

Lemma Backup_then_NextChar (file : string) (pre : list rune) (c : rune) (cs suf : list rune) :
  forallb plain (pre ++ (c :: cs) ++ suf) = true ->
  scanner.bind (scanner.Backup (lex_at file (pre ++ c :: cs) suf)) scanner.NextChar
  = position.Done (lex_at file (pre ++ c :: cs) suf).
Proof.
  intros Hall.
  assert (E : pre ++ c :: cs = (pre ++ removelast (c :: cs)) ++ [List.last (c :: cs) 0]).
  { rewrite <- app_assoc. f_equal. apply app_removelast_last. discriminate. }
  assert (Hall' : forallb plain ((pre ++ removelast (c :: cs)) ++ List.last (c :: cs) 0 :: suf)
                  = true).
  { rewrite <- app_assoc. change (?x :: suf) with ([x] ++ suf).
    rewrite (app_assoc (removelast _)), <- app_removelast_last by discriminate.
    exact Hall. }
  rewrite E, Backup_lex_at, bind_Done by assumption.
  now apply NextChar_lex_at.
Qed.

Lemma blank_first (w : rune) :
  blank w = true ->
  (w =? 0) = false /\ (w =? 32) || (w =? 9) || (w =? 13) || (w =? 10) = true.
Proof.
  unfold blank. intros H. split.
  - repeat (apply orb_true_iff in H; destruct H as [H | H]); bool_to_Z; subst; reflexivity.
  - destruct (w =? 32), (w =? 9), (w =? 10), (w =? 13); simpl in *; congruence.
Qed.

(** X28. Blanks and comments.  [NextToken] answers from behind a run of
    spaces, tabs, newlines and carriage returns, from behind a line comment
    and its newline (or from the end of the text, where the comment runs up
    to it) and from behind a block comment: what it returns is what it
    returns from the position after them, with one iteration less. *)
Theorem NextToken_skips_blanks_and_comments (file : string) (pre : list rune) (fuel : nat) :
  (forall ws suf : list rune,
     forallb plain (pre ++ ws ++ suf) = true -> ws <> [] -> forallb blank ws = true ->
     blank (hd 0 suf) = false -> (length ws + 1 < fuel)%nat ->
     scanner.NextToken (S fuel) (lex_at file pre (ws ++ suf))
     = scanner.NextToken fuel (lex_at file (pre ++ ws) suf))
  /\ (forall body suf : list rune,
        forallb plain (pre ++ (47 :: 47 :: body ++ [10]) ++ suf) = true ->
        forallb (fun c => negb (c =? 10) && negb (c =? 0)) body = true ->
        (length body < fuel)%nat ->
        scanner.NextToken (S fuel) (lex_at file pre ((47 :: 47 :: body ++ [10]) ++ suf))
        = scanner.NextToken fuel (lex_at file (pre ++ 47 :: 47 :: body ++ [10]) suf))
  /\ (forall body : list rune,
        forallb plain (pre ++ 47 :: 47 :: body) = true ->
        forallb (fun c => negb (c =? 10) && negb (c =? 0)) body = true ->
        (length body < fuel)%nat ->
        scanner.NextToken (S fuel) (lex_at file pre (47 :: 47 :: body))
        = scanner.NextToken fuel (lex_at file (pre ++ 47 :: 47 :: body) []))
  /\ (forall body suf : list rune,
        forallb plain (pre ++ (47 :: 42 :: body ++ [42; 47]) ++ suf) = true ->
        forallb (fun c => negb (c =? 0)) body = true -> no_close body = true ->
        (length body < fuel)%nat ->
        scanner.NextToken (S fuel) (lex_at file pre ((47 :: 42 :: body ++ [42; 47]) ++ suf))
        = scanner.NextToken fuel (lex_at file (pre ++ 47 :: 42 :: body ++ [42; 47]) suf)).
Proof.
  repeat split.
  - intros ws suf Hall Hne Hws Hstop Hfuel.
    destruct ws as [| w ws]; [contradiction |].
    pose proof Hws as Hw. simpl in Hw. apply andb_true_iff in Hw as [Hw _].
    destruct (blank_first w Hw) as [H0 Hb].
    cbn [scanner.NextToken]. rewrite Curr_lex_at. cbn [hd app].
    rewrite H0, Hb. unfold scanner.eatWhitespace.
    change (w :: ws ++ suf) with ((w :: ws) ++ suf).
    rewrite eatWhitespace_loop_run by (assumption || lia).
    rewrite bind_Done.
    pose proof (Backup_then_NextChar file pre w ws suf Hall) as HB.
    destruct (scanner.Backup (lex_at file (pre ++ w :: ws) suf)) as [l | msg |];
      try discriminate HB.
    rewrite !bind_Done. rewrite bind_Done in HB. now rewrite HB.
  - intros body suf Hall Hbody Hfuel.
    cbn [scanner.NextToken]. simpl app in Hall |- *.
    rewrite <- !(app_assoc body) in *. simpl app in Hall |- *.
    rewrite Curr_lex_at, Next_lex_at.
    cbn [hd tl]. replace (scanner.isOperator 47) with true by (vm_compute; reflexivity).
    change (47 =? 0) with false. change (47 =? 47) with true. cbv iota. cbn [orb andb].
    change (scanner.isNumber 47) with false. change (scanner.isLetter 47) with false.
    cbv iota. unfold scanner.skipComment.
    rewrite NextChar_lex_at, bind_Done by assumption.
    rewrite NextChar_lex_at, bind_Done by (now rewrite <- app_assoc).
    rewrite skipComment_loop_run; try (assumption || reflexivity || lia).
    2:{ now rewrite <- !app_assoc. }
    rewrite bind_Done, Curr_lex_at. cbn [hd]. change (10 =? 10) with true. cbv iota.
    rewrite NextChar_lex_at, bind_Done by (now rewrite <- !app_assoc).
    now rewrite <- !app_assoc.
  - intros body Hall Hbody Hfuel.
    cbn [scanner.NextToken]. rewrite Curr_lex_at, Next_lex_at.
    cbn [hd tl]. replace (scanner.isOperator 47) with true by (vm_compute; reflexivity).
    change (47 =? 0) with false. change (47 =? 47) with true. cbv iota. cbn [orb andb].
    change (scanner.isNumber 47) with false. change (scanner.isLetter 47) with false.
    cbv iota. unfold scanner.skipComment.
    rewrite NextChar_lex_at, bind_Done by assumption.
    rewrite NextChar_lex_at, bind_Done by (now rewrite <- app_assoc).
    replace (lex_at file ((pre ++ [47]) ++ [47]) body)
      with (lex_at file ((pre ++ [47]) ++ [47]) (body ++ [])) by (now rewrite app_nil_r).
    rewrite (skipComment_loop_run file body fuel _ []);
      try (assumption || reflexivity || lia).
    2:{ now rewrite <- !app_assoc, app_nil_r. }
    rewrite bind_Done, Curr_lex_at. cbn [hd]. change (0 =? 10) with false. cbv iota.
    now rewrite <- !app_assoc.
  - intros body suf Hall Hbody Hclose Hfuel.
    cbn [scanner.NextToken]. simpl app in Hall |- *.
    rewrite <- !(app_assoc body) in *. simpl app in Hall |- *.
    rewrite Curr_lex_at, Next_lex_at.
    cbn [hd tl]. replace (scanner.isOperator 47) with true by (vm_compute; reflexivity).
    change (47 =? 0) with false. change (47 =? 47) with true. change (42 =? 47) with false.
    change (42 =? 42) with true. cbv iota. cbn [orb andb].
    change (scanner.isNumber 47) with false. change (scanner.isLetter 47) with false.
    cbv iota. unfold scanner.skipMultilineComment.
    rewrite NextChar_lex_at, bind_Done by assumption.
    rewrite NextChar_lex_at, bind_Done by (now rewrite <- app_assoc).
    rewrite skipMultilineComment_loop_run; try (assumption || lia).
    2:{ now rewrite <- !app_assoc. }
    rewrite bind_Done. unfold scanner.not_closing. rewrite Curr_lex_at, Next_lex_at.
    cbn [hd tl]. change (42 =? 42) with true. change (47 =? 47) with true.
    cbn [negb orb]. cbv iota.
    rewrite NextChar_lex_at, bind_Done by (now rewrite <- !app_assoc).
    rewrite NextChar_lex_at, bind_Done by (now rewrite <- !app_assoc).
    cbv beta iota. now rewrite <- !app_assoc.
Qed.

Lemma NextToken_skips_blanks_and_comments_witness :
  scanner.NextToken 9 (lex_at "main.gh" [120] ([32; 10] ++ [121]))
  = scanner.NextToken 8 (lex_at "main.gh" ([120] ++ [32; 10]) [121])
  /\ scanner.NextToken 9 (lex_at "main.gh" [120] ((47 :: 47 :: [99] ++ [10]) ++ [121]))
     = scanner.NextToken 8 (lex_at "main.gh" ([120] ++ 47 :: 47 :: [99] ++ [10]) [121])
  /\ scanner.NextToken 9 (lex_at "main.gh" [120] (47 :: 47 :: [99]))
     = scanner.NextToken 8 (lex_at "main.gh" ([120] ++ 47 :: 47 :: [99]) [])
  /\ scanner.NextToken 9 (lex_at "main.gh" [120] ((47 :: 42 :: [42; 99] ++ [42; 47]) ++ [121]))
     = scanner.NextToken 8 (lex_at "main.gh" ([120] ++ 47 :: 42 :: [42; 99] ++ [42; 47]) [121]).
Proof.
  destruct (NextToken_skips_blanks_and_comments "main.gh" [120] 8) as (H1 & H2 & H3 & H4).
  refine (conj _ (conj _ (conj _ _))).
  - apply H1; first [discriminate | vm_compute; first [reflexivity | lia]].
  - apply H2; vm_compute; first [reflexivity | lia].
  - apply H3; vm_compute; first [reflexivity | lia].
  - apply H4; vm_compute; first [reflexivity | lia].
Defined.

Lemma is_quote_cases (q : rune) : is_quote q = true -> q = 34 \/ q = 39 \/ q = 96.
Proof.
  unfold is_quote. intros H.
  repeat (apply orb_true_iff in H; destruct H as [H | H]); bool_to_Z; auto.
Qed.

Lemma scanString_loop_run (file : string) (posStart : position.Pos) (q : rune)
    (ps : list piece) :
  forall (fuel : nat) (runes pre suf : list rune),
  is_quote q = true ->
  forallb plain (pre ++ concat (map source ps) ++ q :: suf) = true ->
  forallb (piece_ok q) ps = true ->
  (length ps < fuel)%nat ->
  scanner.scanString_loop fuel posStart q runes
    (lex_at file pre (concat (map source ps) ++ q :: suf))
  = position.Done
      (scanner.string_of_runes (runes ++ map value ps), None,
       lex_at file (pre ++ concat (map source ps)) (q :: suf)).
Proof.
  induction ps as [| p ps IH]; intros fuel runes pre suf Hq Hall Hps Hfuel;
    (destruct fuel as [| fuel]; [simpl in Hfuel; lia |]);
    cbn [scanner.scanString_loop].
  - simpl. rewrite Curr_lex_at. cbn [hd]. rewrite Z.eqb_refl. cbn [negb andb].
    now rewrite !app_nil_r.
  - simpl in Hps. apply andb_true_iff in Hps as [Hp Hps].
    cbn [map concat] in Hall |- *. rewrite <- app_assoc in Hall |- *.
    destruct p as [c | c]; cbn [source piece_ok value] in *; simpl app in Hall |- *;
      rewrite Curr_lex_at; cbn [hd].
    + apply andb_true_iff in Hp as [Hp Hraw]. apply andb_true_iff in Hp as [Hcq Hc0].
      rewrite Hcq, Hc0. cbn [andb].
      replace ((c =? 92) && negb (q =? 96)) with false
        by (destruct (c =? 92), (q =? 96); simpl in *; congruence).
      rewrite NextChar_lex_at, bind_Done by assumption.
      rewrite IH; try assumption.
      * now rewrite <- !app_assoc.
      * now rewrite <- app_assoc.
      * simpl in Hfuel. lia.
    + apply andb_true_iff in Hp as [Hraw Hesc].
      destruct (scanner.Escape c) as [e |] eqn:Ee; [| discriminate].
      assert (H92 : (92 =? q) = false).
      { apply Z.eqb_neq. destruct (is_quote_cases q Hq) as [-> | [-> | ->]]; lia. }
      rewrite H92, Hraw. change (92 =? 0) with false. change (92 =? 92) with true.
      cbn [negb andb].
      rewrite NextChar_lex_at, bind_Done by assumption.
      rewrite Curr_lex_at. cbn [hd].
      assert (Hc0 : (c =? 0) = false).
      { destruct (c =? 0) eqn:E0; [| reflexivity]. bool_to_Z. subst c. discriminate Ee. }
      rewrite Hc0, Ee.
      rewrite NextChar_lex_at, bind_Done by (now rewrite <- app_assoc).
      rewrite IH; try assumption.
      * now rewrite <- !app_assoc.
      * now rewrite <- !app_assoc.
      * simpl in Hfuel. lia.
Qed.

(** X29. String literals.  Where the text at the cursor is a quote (double,
    single or backtick), then characters other than this quote and NUL, with
    a backslash only before one of the characters of the [Escape] table and,
    between backticks, every backslash standing for itself, then the same
    quote again, [NextToken] returns one [STRING] token whose literal is
    these characters with each escape replaced by the character the table
    gives, from the position of the opening quote to the position after the
    closing one, and leaves the lexer on the closing quote. *)
Theorem NextToken_scans_a_string (file : string) (pre : list rune) (q : rune)
    (ps : list piece) (suf : list rune) (fuel : nat) :
  is_quote q = true ->
  forallb plain (pre ++ (q :: concat (map source ps) ++ [q]) ++ suf) = true ->
  forallb (piece_ok q) ps = true ->
  (length ps + 1 < fuel)%nat ->
  scanner.NextToken fuel (lex_at file pre ((q :: concat (map source ps) ++ [q]) ++ suf))
  = position.Done
      (scanner.mkToken lexer.STRING (text_of (map value ps))
         (Some (pos_at file pre ((q :: concat (map source ps) ++ [q]) ++ suf)))
         (Some (pos_at file (pre ++ q :: concat (map source ps) ++ [q]) suf)),
       None,
       lex_at file (pre ++ q :: concat (map source ps)) (q :: suf)).
Proof.
  intros Hq Hall Hps Hfuel.
  destruct fuel as [| fuel]; [lia |].
  simpl app in Hall |- *. rewrite <- !app_assoc in Hall |- *. simpl app in Hall |- *.
  assert (Hd : (q =? 0) = false
               /\ (q =? 32) || (q =? 9) || (q =? 13) || (q =? 10) = false
               /\ scanner.isNumber q = false /\ scanner.isLetter q = false
               /\ scanner.isOperator q = false
               /\ (q =? 34) || (q =? 39) || (q =? 96) = true).
  { destruct (is_quote_cases q Hq) as [-> | [-> | ->]]; vm_compute; auto 10. }
  destruct Hd as (H0 & Hws & Hnum & Hlet & Hop & Hquote).
  cbn [scanner.NextToken]. rewrite Curr_lex_at. cbn [hd].
  rewrite H0, Hws, Hnum, Hlet, Hop, Hquote.
  unfold scanner.scanString. rewrite Curr_lex_at. cbn [hd].
  rewrite NextChar_lex_at, bind_Done by assumption.
  rewrite scanString_loop_run; try assumption.
  - rewrite bind_Done. cbv beta iota. rewrite string_of_runes_text.
    unfold scanner.token, position.Copy. cbn [scanner.CurrPos scanner.NextPos lex_at app].
    now rewrite <- !app_assoc.
  - now rewrite <- app_assoc.
  - lia.
Qed.

Lemma NextToken_scans_a_string_witness :
  scanner.NextToken 5
    (lex_at "main.gh" [] ((34 :: concat (map source [Plain 97; Escaped 110; Escaped 34]) ++ [34])
                          ++ [59]))
  = position.Done
      (scanner.mkToken lexer.STRING (text_of [97; 10; 34])
         (Some (pos_at "main.gh" [] [34; 97; 92; 110; 92; 34; 34; 59]))
         (Some (pos_at "main.gh" [34; 97; 92; 110; 92; 34; 34] [59])),
       None,
       lex_at "main.gh" [34; 97; 92; 110; 92; 34] [34; 59]).
Proof.
  apply (NextToken_scans_a_string "main.gh" [] 34 [Plain 97; Escaped 110; Escaped 34] [59] 5);
    vm_compute; first [reflexivity | lia].
Defined.

Lemma reaches_refl (file : string) (pre suf : list rune) :
  reaches file pre suf 0 (lex_at file pre suf).
Proof. exists pre, suf. repeat split. lia. Qed.

Lemma reaches_snoc (file : string) (pre : list rune) (c : rune) (suf : list rune) (k : nat)
    (l : scanner.Lexer) :
  reaches file (pre ++ [c]) suf k l -> reaches file pre (c :: suf) (S k) l.
Proof.
  intros (pre' & suf' & -> & E & Hk). exists pre', suf'. repeat split.
  - now rewrite E, <- app_assoc.
  - rewrite length_app in Hk. simpl in Hk. lia.
Qed.

Lemma reaches_weaken (file : string) (pre suf : list rune) (k k' : nat) (l : scanner.Lexer) :
  reaches file pre suf k l -> (k' <= k)%nat -> reaches file pre suf k' l.
Proof.
  intros (pre' & suf' & -> & E & Hk) Hle. exists pre', suf'. repeat split; [assumption | lia].
Qed.

Lemma reaches_trans (file : string) (pre suf pre' suf' : list rune) (k j : nat)
    (l : scanner.Lexer) :
  pre' ++ suf' = pre ++ suf -> (length pre + k <= length pre')%nat ->
  reaches file pre' suf' j l -> reaches file pre suf (k + j) l.
Proof.
  intros E Hk (pre2 & suf2 & -> & E2 & Hj). exists pre2, suf2. repeat split.
  - now rewrite E2.
  - lia.
Qed.

Lemma split_last (pre : list rune) :
  (0 < length pre)%nat -> exists p c, pre = p ++ [c].
Proof.
  intros H. exists (removelast pre), (List.last pre 0). apply app_removelast_last.
  intros ->. simpl in H. lia.
Qed.

Lemma Backup_reaches (file : string) (pre suf : list rune) (k : nat) (l : scanner.Lexer) :
  forallb plain (pre ++ suf) = true -> reaches file pre suf (S k) l ->
  exists l', scanner.Backup l = position.Done l' /\ reaches file pre suf k l'.
Proof.
  intros Hall (pre' & suf' & -> & E & Hk).
  destruct (split_last pre') as (p & c & ->); [lia |].
  rewrite <- app_assoc in E. simpl in E.
  exists (lex_at file p (c :: suf')). split.
  - apply Backup_lex_at. now rewrite E.
  - exists p, (c :: suf'). repeat split; [assumption |].
    rewrite length_app in Hk. simpl in Hk. lia.
Qed.

Lemma hd_nonzero (suf : list rune) : hd 0 suf <> 0 -> exists c s, suf = c :: s.
Proof. destruct suf as [| c s]; [now intros [] | intros _; now exists c, s]. Qed.

(** After a blank, the loop of [eatWhitespace] ends behind it. *)
Lemma eatWhitespace_loop_total (file : string) (fuel : nat) :
  forall pre suf : list rune,
  forallb plain (pre ++ suf) = true -> (length suf < fuel)%nat ->
  exists l', scanner.eatWhitespace_loop fuel (lex_at file pre suf) = position.Done l'
             /\ reaches file pre suf (if blank (hd 0 suf) then 1 else 0) l'.
Proof.
  induction fuel as [| fuel IH]; intros pre suf Hall Hfuel; [lia |].
  cbn [scanner.eatWhitespace_loop]. rewrite Curr_lex_at. fold (blank (hd 0 suf)).
  destruct (blank (hd 0 suf)) eqn:Hb.
  - destruct suf as [| c suf]; [discriminate Hb |].
    rewrite NextChar_lex_at, bind_Done by assumption.
    destruct (IH (pre ++ [c]) suf) as (l' & El & Hl);
      [now rewrite <- app_assoc | simpl in Hfuel; lia |].
    exists l'. split; [exact El |].
    apply reaches_snoc. eapply reaches_weaken; [exact Hl | lia].
  - exists (lex_at file pre suf). split; [reflexivity | apply reaches_refl].
Qed.

Lemma skipComment_loop_total (file : string) (fuel : nat) :
  forall pre suf : list rune,
  forallb plain (pre ++ suf) = true -> (length suf < fuel)%nat ->
  exists l', scanner.skipComment_loop fuel (lex_at file pre suf) = position.Done l'
             /\ reaches file pre suf 0 l'.
Proof.
  induction fuel as [| fuel IH]; intros pre suf Hall Hfuel; [lia |].
  cbn [scanner.skipComment_loop]. rewrite Curr_lex_at.
  destruct (negb (hd 0 suf =? 10) && negb (hd 0 suf =? 0)) eqn:Hc.
  - destruct suf as [| c suf]; [discriminate Hc |].
    rewrite NextChar_lex_at, bind_Done by assumption.
    destruct (IH (pre ++ [c]) suf) as (l' & El & Hl);
      [now rewrite <- app_assoc | simpl in Hfuel; lia |].
    exists l'. split; [exact El |].
    eapply reaches_weaken; [apply reaches_snoc; exact Hl | lia].
  - exists (lex_at file pre suf). split; [reflexivity | apply reaches_refl].
Qed.

Lemma skipMultilineComment_loop_total (file : string) (fuel : nat) :
  forall pre suf : list rune,
  forallb plain (pre ++ suf) = true -> (length suf < fuel)%nat ->
  exists pre' suf',
    scanner.skipMultilineComment_loop fuel (lex_at file pre suf)
    = position.Done (lex_at file pre' suf')
    /\ pre' ++ suf' = pre ++ suf /\ (length pre <= length pre')%nat
    /\ (scanner.not_closing (lex_at file pre' suf') = false ->
        exists s, suf' = 42 :: 47 :: s).
Proof.
  induction fuel as [| fuel IH]; intros pre suf Hall Hfuel; [lia |].
  cbn [scanner.skipMultilineComment_loop].
  destruct (scanner.not_closing (lex_at file pre suf) && negb (scanner.Curr (lex_at file pre suf) =? 0))
    eqn:Hc.
  - rewrite Curr_lex_at in Hc. destruct suf as [| c suf].
    { apply andb_true_iff in Hc as [_ Hc]. discriminate Hc. }
    rewrite NextChar_lex_at, bind_Done by assumption.
    destruct (IH (pre ++ [c]) suf) as (pre' & suf' & El & E & Hlen & Hclose);
      [now rewrite <- app_assoc | simpl in Hfuel; lia |].
    exists pre', suf'. repeat split; try assumption.
    + now rewrite E, <- app_assoc.
    + rewrite length_app in Hlen. simpl in Hlen. lia.
  - exists pre, suf. repeat split; try lia.
    intros Hn. unfold scanner.not_closing in Hn. rewrite Curr_lex_at, Next_lex_at in Hn.
    apply orb_false_iff in Hn as [H1 H2]. apply negb_false_iff in H1, H2. bool_to_Z.
    destruct suf as [| a [| b s]]; simpl in *; try lia. subst. now exists s.
Qed.

Lemma scanNumber_loop_total (file : string) (fuel : nat) :
  forall (num : string) (dotCount : Z) (pre : list rune) (z : rune) (suf : list rune),
  forallb plain (pre ++ z :: suf) = true -> (length suf < fuel)%nat ->
  exists r l', scanner.scanNumber_loop fuel num dotCount (lex_at file (pre ++ [z]) suf)
               = position.Done (r, l')
               /\ reaches file pre (z :: suf) 0 l'.
Proof.
  induction fuel as [| fuel IH]; intros num dotCount pre z suf Hall Hfuel; [lia |].
  cbn [scanner.scanNumber_loop]. rewrite Curr_lex_at.
  destruct (scanner.isNumber (hd 0 suf) || (hd 0 suf =? 46)) eqn:Hc.
  - destruct ((hd 0 suf =? 46) && _) eqn:Hdot.
    + eexists _, _. split; [reflexivity |].
      eapply reaches_weaken; [apply reaches_snoc, reaches_refl | lia].
    + destruct suf as [| c suf]; [discriminate Hc |].
      rewrite NextChar_lex_at, bind_Done by (now rewrite <- app_assoc).
      destruct (IH (num ++ string_of_rune (hd 0 (c :: suf)))%string
                  (if hd 0 (c :: suf) =? 46 then dotCount + 1 else dotCount)
                  (pre ++ [z]) c suf) as (r & l' & El & Hl);
        [now rewrite <- app_assoc | simpl in Hfuel; lia |].
      exists r, l'. split; [exact El |].
      eapply reaches_weaken; [apply reaches_snoc; exact Hl | lia].
  - rewrite Backup_lex_at, bind_Done by assumption.
    eexists _, _. split; [reflexivity | apply reaches_refl].
Qed.

Lemma scanIdentifier_loop_total (file : string) (fuel : nat) :
  forall (runes pre : list rune) (c : rune) (suf : list rune),
  forallb plain (pre ++ c :: suf) = true -> (length suf < fuel)%nat ->
  exists rs l', scanner.scanIdentifier_loop fuel runes (lex_at file pre (c :: suf))
                = position.Done (rs, l')
                /\ reaches file pre (c :: suf) 1 l'.
Proof.
  induction fuel as [| fuel IH]; intros runes pre c suf Hall Hfuel; [lia |].
  cbn [scanner.scanIdentifier_loop].
  rewrite NextChar_lex_at, bind_Done by assumption. rewrite !Curr_lex_at. cbn [hd].
  destruct (negb (scanner.isLetter (hd 0 suf)) && negb (scanner.isNumber (hd 0 suf))) eqn:Hc.
  - eexists _, _. split; [reflexivity |]. apply reaches_snoc, reaches_refl.
  - destruct suf as [| c' suf]; [discriminate Hc |].
    destruct (IH (runes ++ [c]) (pre ++ [c]) c' suf) as (rs & l' & El & Hl);
      [now rewrite <- app_assoc | simpl in Hfuel; lia |].
    exists rs, l'. split; [exact El |].
    eapply reaches_weaken; [apply reaches_snoc; exact Hl | lia].
Qed.

Lemma isOperator_nonzero (suf : list rune) :
  scanner.isOperator (hd 0 suf) = true -> exists c s, suf = c :: s.
Proof. destruct suf as [| c s]; [discriminate | intros _; now exists c, s]. Qed.

Lemma scanOperator_loop_total (file : string) (fuel : nat) :
  forall (op : string) (pre : list rune) (z c : rune) (suf : list rune),
  forallb plain (pre ++ z :: c :: suf) = true -> (length suf < fuel)%nat ->
  exists op' l', scanner.scanOperator_loop fuel op (lex_at file (pre ++ [z]) (c :: suf))
                 = position.Done (op', l')
                 /\ reaches file pre (z :: c :: suf) 1 l'.
Proof.
  induction fuel as [| fuel IH]; intros op pre z c suf Hall Hfuel; [lia |].
  cbn [scanner.scanOperator_loop]. rewrite !Curr_lex_at. cbn [hd].
  rewrite NextChar_lex_at, bind_Done by (now rewrite <- app_assoc).
  destruct (scanner.Operators (op ++ string_of_rune c)) as [t |].
  - rewrite Curr_lex_at.
    destruct (scanner.isOperator (hd 0 suf)) eqn:Hc; cbn [negb].
    + destruct (isOperator_nonzero suf Hc) as (c' & s & ->).
      destruct (IH (op ++ string_of_rune c)%string (pre ++ [z]) c c' s) as (op' & l' & El & Hl);
        [now rewrite <- app_assoc | simpl in Hfuel; lia |].
      exists op', l'. split; [exact El |].
      eapply reaches_weaken; [apply reaches_snoc; exact Hl | lia].
    + eexists _, _. split; [reflexivity |].
      eapply reaches_weaken; [apply reaches_snoc, reaches_snoc, reaches_refl | lia].
  - rewrite Backup_lex_at, bind_Done by (now rewrite <- app_assoc).
    eexists _, _. split; [reflexivity |]. apply reaches_snoc, reaches_refl.
Qed.

Lemma scanString_loop_total (file : string) (fuel : nat) :
  forall (posStart : position.Pos) (q : rune) (runes pre suf : list rune),
  forallb plain (pre ++ suf) = true -> (length suf < fuel)%nat ->
  exists r l', scanner.scanString_loop fuel posStart q runes (lex_at file pre suf)
               = position.Done (r, l')
               /\ reaches file pre suf 0 l'.
Proof.
  induction fuel as [| fuel IH]; intros posStart q runes pre suf Hall Hfuel; [lia |].
  cbn [scanner.scanString_loop]. rewrite !Curr_lex_at.
  destruct (negb (hd 0 suf =? q) && negb (hd 0 suf =? 0)) eqn:Hc.
  - destruct suf as [| c suf]; [apply andb_true_iff in Hc as [_ Hc]; discriminate Hc |].
    cbn [hd].
    destruct ((c =? 92) && negb (q =? 96)).
    + rewrite NextChar_lex_at, bind_Done by assumption. rewrite !Curr_lex_at.
      destruct (hd 0 suf =? 0) eqn:H0.
      * eexists _, _. split; [reflexivity |].
        eapply reaches_weaken; [apply reaches_snoc, reaches_refl | lia].
      * destruct (scanner.Escape (hd 0 suf)) as [e |].
        -- destruct suf as [| c' suf]; [discriminate H0 |].
           rewrite NextChar_lex_at, bind_Done by (now rewrite <- app_assoc).
           destruct (IH posStart q (runes ++ [e]) ((pre ++ [c]) ++ [c']) suf)
             as (r & l' & El & Hl);
             [now rewrite <- !app_assoc | simpl in Hfuel; lia |].
           exists r, l'. split; [exact El |].
           eapply reaches_weaken; [apply reaches_snoc, reaches_snoc; exact Hl | lia].
        -- eexists _, _. split; [reflexivity |].
           eapply reaches_weaken; [apply reaches_snoc, reaches_refl | lia].
    + rewrite NextChar_lex_at, bind_Done by assumption.
      destruct (IH posStart q (runes ++ [c]) (pre ++ [c]) suf) as (r & l' & El & Hl);
        [now rewrite <- !app_assoc | simpl in Hfuel; lia |].
      exists r, l'. split; [exact El |].
      eapply reaches_weaken; [apply reaches_snoc; exact Hl | lia].
  - destruct (negb (hd 0 suf =? q));
      (eexists _, _; split; [reflexivity | apply reaches_refl]).
Qed.

Lemma Advance_past_end (p : position.Pos) :
  len (position.Text p) <= position.Idx p ->
  position.Advance p = position.Done (past_end p).
Proof.
  intros H. unfold position.Advance, past_end.
  destruct (_ <? _) eqn:E; bool_to_Z; [lia | reflexivity].
Qed.

(** [Advance] never panics on the next position of the lexer. *)
Lemma Advance_NextPos (file : string) (pre suf : list rune) :
  forallb plain (pre ++ suf) = true ->
  exists p, position.Advance (scanner.NextPos (lex_at file pre suf)) = position.Done p.
Proof.
  intros Hall. unfold lex_at. cbn [scanner.NextPos].
  destruct suf as [| c suf].
  - eexists. apply Advance_past_end. unfold past_end, pos_at.
    cbn [position.Text position.Idx]. rewrite app_nil_r, len_text. lia.
  - destruct suf as [| c' suf].
    + eexists. apply Advance_at_end.
    + eexists. apply Advance_pos_at. now rewrite <- app_assoc.
Qed.

Lemma reaches_plain (file : string) (pre suf pre' suf' : list rune) :
  forallb plain (pre ++ suf) = true -> pre' ++ suf' = pre ++ suf ->
  forallb plain (pre' ++ suf') = true.
Proof. now intros H ->. Qed.

Lemma reaches_length (pre suf pre' suf' : list rune) (k : nat) :
  pre' ++ suf' = pre ++ suf -> (length pre + k <= length pre')%nat ->
  (length suf' + k <= length suf)%nat.
Proof.
  intros E Hk. apply (f_equal (@length rune)) in E. rewrite !length_app in E. lia.
Qed.

(** From any position of a text, [NextToken] returns and leaves the lexer at
    a position of the text that is not before. *)
Lemma NextToken_total (file : string) (fuel : nat) :
  forall pre suf : list rune,
  forallb plain (pre ++ suf) = true -> (length suf + 1 < fuel)%nat ->
  exists tok err l',
    scanner.NextToken fuel (lex_at file pre suf) = position.Done (tok, err, l')
    /\ reaches file pre suf 0 l'.
Proof.
  induction fuel as [| fuel IH]; intros pre suf Hall Hfuel; [lia |].
  cbn [scanner.NextToken]. rewrite !Curr_lex_at.
  destruct (hd 0 suf =? 0) eqn:H0.
  { eexists _, _, _. split; [reflexivity | apply reaches_refl]. }
  destruct suf as [| c suf]; [discriminate H0 |]. cbn [hd] in *.
  destruct ((c =? 32) || (c =? 9) || (c =? 13) || (c =? 10)) eqn:Hws.
  { unfold scanner.eatWhitespace.
    destruct (eatWhitespace_loop_total file fuel pre (c :: suf) Hall) as (l1 & E1 & H1);
      [simpl in *; lia |].
    rewrite E1, bind_Done. cbn [hd] in H1.
    replace (blank c) with true in H1
      by (unfold blank; destruct (c =? 32), (c =? 9), (c =? 13), (c =? 10);
          simpl in *; congruence).
    destruct H1 as (pre1 & suf1 & -> & E & Hlen).
    destruct (split_last pre1) as (p & d & ->); [lia |].
    assert (Hall1 : forallb plain (p ++ d :: suf1) = true).
    { rewrite <- app_assoc in E. simpl in E. now rewrite E. }
    rewrite Backup_lex_at, bind_Done by assumption.
    rewrite NextChar_lex_at, bind_Done by assumption.
    destruct (IH (p ++ [d]) suf1) as (tok & err & l' & El & Hl).
    - now rewrite <- app_assoc.
    - pose proof (reaches_length _ _ _ _ _ E Hlen). simpl in *. lia.
    - exists tok, err, l'. split; [exact El |].
      eapply reaches_weaken; [eapply (reaches_trans _ _ _ _ _ 1 0); eassumption | lia]. }
  destruct (scanner.isNumber c) eqn:Hnum.
  { unfold scanner.scanNumber.
    destruct fuel as [| fuel]; [simpl in Hfuel; lia |].
    cbn [scanner.scanNumber_loop]. rewrite Curr_lex_at. cbn [hd]. rewrite Hnum. cbn [orb].
    assert (Hc46 : (c =? 46) = false).
    { unfold scanner.isNumber in Hnum. bool_to_Z. apply Z.eqb_neq. lia. }
    rewrite Hc46. cbn [andb].
    rewrite NextChar_lex_at, bind_Done by assumption.
    destruct (scanNumber_loop_total file fuel ("" ++ string_of_rune c)%string 0 pre c suf Hall)
      as ([num err] & l' & El & Hl); [simpl in Hfuel; lia |].
    rewrite El, bind_Done. cbv beta iota.
    destruct (String.eqb num "."); [| destruct err; [| destruct (scanner.Contains num ".")]];
      (eexists _, _, _; split; [reflexivity | exact Hl]). }
  destruct (scanner.isLetter c) eqn:Hlet.
  { unfold scanner.scanIdentifier.
    destruct (scanIdentifier_loop_total file fuel [] pre c suf Hall)
      as (rs & l1 & E1 & H1); [simpl in Hfuel; lia |].
    rewrite E1, bind_Done. cbv beta iota.
    destruct (Backup_reaches file pre (c :: suf) 0 l1 Hall H1) as (l' & El & Hl).
    rewrite El, !bind_Done. cbv beta iota.
    eexists _, _, _. split; [reflexivity | exact Hl]. }
  destruct (scanner.isOperator c) eqn:Hop.
  { rewrite Next_lex_at. cbn [tl].
    destruct ((c =? 47) && (hd 0 suf =? 47)) eqn:Hline.
    { apply andb_true_iff in Hline as [_ Hline].
      destruct suf as [| c2 suf]; [discriminate Hline |].
      unfold scanner.skipComment.
      rewrite NextChar_lex_at, bind_Done by assumption.
      rewrite NextChar_lex_at, bind_Done by (now rewrite <- app_assoc).
      destruct (skipComment_loop_total file fuel ((pre ++ [c]) ++ [c2]) suf)
        as (l1 & E1 & (pre1 & suf1 & -> & E & Hlen));
        [now rewrite <- !app_assoc | simpl in Hfuel; lia |].
      rewrite E1, bind_Done, Curr_lex_at.
      rewrite <- !app_assoc in E. simpl in E. rewrite !length_app in Hlen. simpl in Hlen.
      assert (Hall1 : forallb plain (pre1 ++ suf1) = true) by now rewrite E.
      destruct (hd 0 suf1 =? 10) eqn:Hnl.
      - destruct suf1 as [| d suf1]; [discriminate Hnl |].
        rewrite NextChar_lex_at, bind_Done by assumption.
        destruct (IH (pre1 ++ [d]) suf1) as (tok & err & l' & El & Hl).
        + now rewrite <- app_assoc.
        + apply (f_equal (@length rune)) in E. rewrite !length_app in E.
          simpl in *. lia.
        + exists tok, err, l'. split; [exact El |].
          destruct Hl as (pre2 & suf2 & -> & E2 & Hlen2).
          exists pre2, suf2. repeat split.
          * now rewrite E2, <- app_assoc.
          * rewrite length_app in Hlen2. simpl in Hlen2. lia.
      - destruct (IH pre1 suf1) as (tok & err & l' & El & Hl).
        + assumption.
        + apply (f_equal (@length rune)) in E. rewrite !length_app in E.
          simpl in *. lia.
        + exists tok, err, l'. split; [exact El |].
          destruct Hl as (pre2 & suf2 & -> & E2 & Hlen2).
          exists pre2, suf2. repeat split; [now rewrite E2 | lia]. }
    destruct ((c =? 47) && (hd 0 suf =? 42)) eqn:Hblock.
    { apply andb_true_iff in Hblock as [_ Hblock].
      destruct suf as [| c2 suf]; [discriminate Hblock |].
      unfold scanner.skipMultilineComment.
      rewrite NextChar_lex_at, bind_Done by assumption.
      rewrite NextChar_lex_at, bind_Done by (now rewrite <- app_assoc).
      destruct (skipMultilineComment_loop_total file fuel ((pre ++ [c]) ++ [c2]) suf)
        as (pre1 & suf1 & E1 & E & Hlen & Hclose);
        [now rewrite <- !app_assoc | simpl in Hfuel; lia |].
      rewrite E1, bind_Done.
      rewrite <- !app_assoc in E. simpl in E. rewrite !length_app in Hlen. simpl in Hlen.
      assert (Hall1 : forallb plain (pre1 ++ suf1) = true) by now rewrite E.
      destruct (scanner.not_closing (lex_at file pre1 suf1)) eqn:Hn.
      - destruct (Advance_NextPos file pre1 suf1 Hall1) as (p & Ep).
        unfold position.Copy. rewrite Ep, bind_Done. cbv beta iota.
        eexists _, _, _. split; [reflexivity |].
        exists pre1, suf1. repeat split; [assumption | lia].
      - destruct (Hclose eq_refl) as (s & ->).
        rewrite NextChar_lex_at, bind_Done by assumption.
        rewrite NextChar_lex_at, bind_Done by (now rewrite <- app_assoc).
        cbv beta iota.
        destruct (IH ((pre1 ++ [42]) ++ [47]) s) as (tok & err & l' & El & Hl).
        + now rewrite <- !app_assoc.
        + apply (f_equal (@length rune)) in E. rewrite !length_app in E.
          simpl in *. lia.
        + exists tok, err, l'. split; [exact El |].
          destruct Hl as (pre2 & suf2 & -> & E2 & Hlen2).
          exists pre2, suf2. repeat split.
          * now rewrite E2, <- !app_assoc.
          * rewrite !length_app in Hlen2. simpl in Hlen2. lia. }
    unfold scanner.scanOperator.
    destruct fuel as [| fuel]; [simpl in Hfuel; lia |].
    cbn [scanner.scanOperator_loop]. rewrite !Curr_lex_at. cbn [hd].
    rewrite NextChar_lex_at, bind_Done by assumption.
    change ("" ++ string_of_rune c)%string with (string_of_rune c).
    unfold scanner.isOperator in Hop.
    destruct (scanner.Operators (string_of_rune c)) as [t |] eqn:Et; [| discriminate Hop].
    rewrite Curr_lex_at.
    destruct (scanner.isOperator (hd 0 suf)) eqn:Hnext; cbn [negb].
    - destruct (isOperator_nonzero suf Hnext) as (c' & s & ->).
      destruct (scanOperator_loop_total file fuel (string_of_rune c) pre c c' s Hall)
        as (op' & l1 & E1 & H1); [simpl in Hfuel; lia |].
      rewrite E1, bind_Done. cbv beta iota.
      destruct (Backup_reaches file pre (c :: c' :: s) 0 l1 Hall H1) as (l' & El & Hl).
      rewrite El, !bind_Done. cbv beta iota.
      eexists _, _, _. split; [reflexivity | exact Hl].
    - rewrite bind_Done. cbv beta iota.
      rewrite Backup_lex_at, !bind_Done by assumption. cbv beta iota.
      eexists _, _, _. split; [reflexivity | apply reaches_refl]. }
  destruct ((c =? 34) || (c =? 39) || (c =? 96)).
  { unfold scanner.scanString. rewrite Curr_lex_at. cbn [hd].
    rewrite NextChar_lex_at, bind_Done by assumption.
    destruct (scanString_loop_total file fuel (position.Copy (scanner.CurrPos (lex_at file pre (c :: suf))))
                c [] (pre ++ [c]) suf) as ([str err] & l' & El & Hl);
      [now rewrite <- app_assoc | simpl in Hfuel; lia |].
    rewrite El, bind_Done. cbv beta iota.
    destruct err; (eexists _, _, _; split;
      [reflexivity | eapply reaches_weaken; [apply reaches_snoc; exact Hl | lia]]). }
  eexists _, _, _. split; [reflexivity | apply reaches_refl].
Qed.

(** X30. [NextToken] always answers.  On a text of Unicode scalar values
    other than U+FFFD, [NewLexer] stands on the first code point, and from
    any position of the text and with as many iterations as the text has code
    points left plus two, [NextToken] returns a token (and possibly an
    error): it does not panic and does not run on, and it leaves the lexer at
    a position of the same text that is not before the one it started
    from. *)
Theorem NextToken_always_answers (file : string) (fuel : nat) (pre suf : list rune) :
  forallb plain (pre ++ suf) = true -> (length suf + 1 < fuel)%nat ->
  scanner.NewLexer file (text_of (pre ++ suf)) = position.Done (lex_at file [] (pre ++ suf))
  /\ exists tok err l',
       scanner.NextToken fuel (lex_at file pre suf) = position.Done (tok, err, l')
       /\ reaches file pre suf 0 l'.
Proof.
  intros Hall Hfuel. split; [now apply NewLexer_lex_at | now apply NextToken_total].
Qed.

Lemma NextToken_always_answers_witness :
  scanner.NewLexer "main.gh" (text_of ([120] ++ [32; 47; 42; 8364; 42; 47; 34]))
  = position.Done (lex_at "main.gh" [] ([120] ++ [32; 47; 42; 8364; 42; 47; 34]))
  /\ exists tok err l',
       scanner.NextToken 9 (lex_at "main.gh" [120] [32; 47; 42; 8364; 42; 47; 34])
       = position.Done (tok, err, l')
       /\ reaches "main.gh" [120] [32; 47; 42; 8364; 42; 47; 34] 0 l'.
Proof.
  apply (NextToken_always_answers "main.gh" 9 [120] [32; 47; 42; 8364; 42; 47; 34]);
    vm_compute; first [reflexivity | lia].
Defined.
